(** * Middleware executor: a model of [src/lib/executor.ts]

    The executor sequences a list of middleware ahead of an API route
    handler.  Its behaviour is decided by the order in which promise
    reactions and microtasks run, so the model is a deterministic machine
    over an explicit microtask queue:

    - every [Executor] instance is a record in [frames]; the frame at
      index [f] handles the middleware at position [f] of the list;
    - promises live in the fields that hold them in the source
      ([internalPromise], [teardownPromise], [result]) and are addressed
      by field and frame ([pref]);
    - [step] runs one microtask to completion.

    Middleware and handlers are inputs of the executor, not part of it.
    They are described by a small language of behaviours: [scode] for a
    function whose call runs to its end and returns no promise, [code]
    for an [async] function, whose call returns a promise that its body
    settles.  A function that is not [async] and hands back a promise it
    got elsewhere, as [(req, res, next) => next()] does, is not among the
    behaviours described.  The opaque [req] and [res] values are passed
    through unchanged by the source and are left out. *)

From stdpp Require Import base option list strings.
From Stdlib Require Import ZArith Lia.

Set Default Proof Using "Type".
Set Warnings "-register-all,-clear-no-such-hyp".
Open Scope string_scope.
Open Scope list_scope.
Open Scope nat_scope.

(** ** JavaScript values that can be thrown or passed to [next] *)

Inductive value :=
| VUndefined
| VNull
| VBool (b : bool)
| VNum (n : Z)
| VStr (s : string)
| VError (msg : string).

(** The test [if (error)] of the source. *)
Definition truthy (v : value) : bool :=
  match v with
  | VUndefined | VNull => false
  | VBool b => b
  | VNum n => negb (Z.eqb n 0)
  | VStr s => match s with EmptyString => false | _ => true end
  | VError _ => true
  end.

(** How a [Promise<void>] settles. *)
Inductive outcome :=
| Fulfilled
| Rejected (e : value).

(** ** Behaviours of middleware and handlers *)

(** Body of an [async] function, in continuation form.  A [try]/[catch]
    around a call that can raise is the optional handler [h]; it receives
    the caught value and holds the rest of the function. *)
Inductive code :=
| Return
| Throw (e : value)
| Emit (l : string) (k : code)
| CallNext (arg : value) (k : code) (h : option (value -> code))
| AwaitNext (k : code) (h : option (value -> code))
| AwaitTick (k : code)
| AwaitNever.

(** Body of a plain function that returns [undefined]: no [await]. *)
Inductive scode :=
| SReturn
| SThrow (e : value)
| SEmit (l : string) (k : scode)
| SCallNext (arg : value) (k : scode) (h : option (value -> scode)).

Fixpoint lift (c : scode) : code :=
  match c with
  | SReturn => Return
  | SThrow e => Throw e
  | SEmit l k => Emit l (lift k)
  | SCallNext arg k h =>
      CallNext arg (lift k)
        match h with
        | Some hd => Some (fun v => lift (hd v))
        | None => None
        end
  end.

(** [Middleware] and [NextApiHandler]: a function whose call returns
    [undefined] or throws, or an [async] function. *)
Inductive fn :=
| SyncFn (c : scode)
| AsyncFn (c : code).

(** ** Machine state *)

(** Who is running a body: the middleware of frame [f], or the API route
    handler called by frame [f]. *)
Inductive owner :=
| OMw (f : nat)
| OHandler (f : nat).

(** A promise, named by the place that holds it. *)
Inductive pref :=
| IP (f : nat)   (* internalPromise.promise of frame f *)
| TP (f : nat)   (* teardownPromise.promise of frame f *)
| RP (f : nat)   (* result of frame f, when it is a promise *)
| HP (f : nat).  (* value awaited by runRemaining of frame f after calling apiRouteFn *)

#[global] Instance value_eq_dec : EqDecision value.
Proof. solve_decision. Defined.

#[global] Instance outcome_eq_dec : EqDecision outcome.
Proof. solve_decision. Defined.

#[global] Instance owner_eq_dec : EqDecision owner.
Proof. solve_decision. Defined.

#[global] Instance pref_eq_dec : EqDecision pref.
Proof. solve_decision. Defined.

Inductive reaction :=
| RResult (f : nat)      (* the two callbacks of [this.result.then] in run *)
| RRemaining (f : nat)   (* runRemaining of frame f, suspended at its await *)
| RHandle (f : nat) (k : code) (h : option (value -> code)).
                         (* middleware of frame f, suspended at [await next()] *)

Inductive job :=
| JCheck (f : nat)                       (* the queueMicrotask callback of run *)
| JReact (r : reaction) (o : outcome)    (* a promise reaction job *)
| JResume (w : owner) (k : code).        (* resume after an await of a settled value *)

Inductive pstate :=
| Pending (rs : list reaction)
| Settled (o : outcome).

Inductive event :=
| EvEnter (f : nat)                    (* currentFn of frame f is called *)
| EvTerminal (f : nat)                 (* apiRouteFn is called, by frame f *)
| EvEmit (w : owner) (l : string)      (* side effect of a body *)
| EvThrew (w : owner) (e : value)      (* a call threw before returning *)
| EvSignal (p : pref) (o : outcome)    (* resolve or reject was called *)
| EvSettled (p : pref) (o : outcome).  (* ... and it took effect *)

#[global] Instance event_eq_dec : EqDecision event.
Proof. solve_decision. Defined.

Record Executor := mkExecutor {
  currentFn : option fn;          (* undefined when the list was empty *)
  remaining : list fn;
  apiRouteFn : fn;
  result : option pstate;         (* None: undefined, not a promise *)
  internalPromise : pstate;
  teardownPromise : pstate;
  asyncMiddlewareFailed : bool;   (* the closure variable of run *)
  awaited : option pstate         (* what runRemaining awaits after apiRouteFn *)
}.

Record state := mkState {
  frames : list Executor;
  queue : list job;
  log : list event
}.

Definition emit (e : event) (s : state) : state :=
  mkState (frames s) (queue s) (log s ++ [e]).

Definition enqueue (js : list job) (s : state) : state :=
  mkState (frames s) (queue s ++ js) (log s).

Definition set_frames (fs : list Executor) (s : state) : state :=
  mkState fs (queue s) (log s).

Definition pref_frame (p : pref) : nat :=
  match p with IP f | TP f | RP f | HP f => f end.

Definition read (p : pref) (fr : Executor) : option pstate :=
  match p with
  | IP _ => Some (internalPromise fr)
  | TP _ => Some (teardownPromise fr)
  | RP _ => result fr
  | HP _ => awaited fr
  end.

Definition write (p : pref) (st : pstate) (fr : Executor) : Executor :=
  match p with
  | IP _ => mkExecutor (currentFn fr) (remaining fr) (apiRouteFn fr) (result fr)
              st (teardownPromise fr) (asyncMiddlewareFailed fr) (awaited fr)
  | TP _ => mkExecutor (currentFn fr) (remaining fr) (apiRouteFn fr) (result fr)
              (internalPromise fr) st (asyncMiddlewareFailed fr) (awaited fr)
  | RP _ => mkExecutor (currentFn fr) (remaining fr) (apiRouteFn fr) (Some st)
              (internalPromise fr) (teardownPromise fr) (asyncMiddlewareFailed fr) (awaited fr)
  | HP _ => mkExecutor (currentFn fr) (remaining fr) (apiRouteFn fr) (result fr)
              (internalPromise fr) (teardownPromise fr) (asyncMiddlewareFailed fr) (Some st)
  end.

Definition get_promise (p : pref) (s : state) : option pstate :=
  frames s !! pref_frame p ≫= read p.

Definition set_promise (p : pref) (st : pstate) (s : state) : state :=
  set_frames (alter (write p st) (pref_frame p) (frames s)) s.

(** ** Promises *)

(** Modelled from the spec: [controlledPromise] of [./promises], which is
    not among the sources: a promise exposed together with its [resolve]
    and [reject], a single-fire signal with first-fire-wins.  [settle] is
    a call of either; on a promise that is already settled it changes
    nothing.  A promise returned by an [async] function settles through
    the same operation. *)
Definition settle (p : pref) (o : outcome) (s : state) : state :=
  match get_promise p s with
  | Some (Pending rs) =>
      enqueue (map (fun r => JReact r o) rs)
        (emit (EvSettled p o) (set_promise p (Settled o) (emit (EvSignal p o) s)))
  | Some (Settled _) => emit (EvSignal p o) s
  | None => s
  end.

(** [p.then(...)] and [await p]: the reaction waits while [p] is pending
    and is queued at once when [p] is settled. *)
Definition subscribe (p : pref) (r : reaction) (s : state) : state :=
  match get_promise p s with
  | Some (Pending rs) => set_promise p (Pending (rs ++ [r])) s
  | Some (Settled o) => enqueue [JReact r o] s
  | None => s
  end.

Definition succeed (f : nat) : state -> state := settle (IP f) Fulfilled.
Definition fail (f : nat) (e : value) : state -> state := settle (IP f) (Rejected e).

(** ** Running a body *)

Definition not_a_function : value := VError "TypeError: next is not a function".

(** Where a body stops. *)
Inductive pause :=
| PDone (o : outcome)                              (* returned, or threw *)
| PHandle (k : code) (h : option (value -> code))  (* at [await next()] *)
| PTick (k : code)                                 (* at an await of a settled value *)
| PNever.                                          (* at an await that never resumes *)

(** What a body does up to its end or its next suspension: the labels
    it emits and where it stops.  [mw] tells a middleware from the API
    route handler.

    The continuation given to a middleware is the arrow function of
    [run], lines 71-80: it throws a truthy argument and otherwise returns
    [teardownPromise.promise].  The handler receives no third argument,
    so that a call of it raises a [TypeError]. *)
Fixpoint until_pause (mw : bool) (c : code) : list string * pause :=
  match c with
  | Return => ([], PDone Fulfilled)
  | Throw e => ([], PDone (Rejected e))
  | Emit l k => let (ls, p) := until_pause mw k in (l :: ls, p)
  | CallNext arg k h =>
      if mw then
        if truthy arg then
          match h with
          | Some hd => until_pause mw (hd arg)
          | None => ([], PDone (Rejected arg))
          end
        else until_pause mw k
      else
        match h with
        | Some hd => until_pause mw (hd not_a_function)
        | None => ([], PDone (Rejected not_a_function))
        end
  | AwaitNext k h =>
      if mw then ([], PHandle k h)
      else
        match h with
        | Some hd => until_pause mw (hd not_a_function)
        | None => ([], PDone (Rejected not_a_function))
        end
  | AwaitTick k => ([], PTick k)
  | AwaitNever => ([], PNever)
  end.

Definition is_mw (w : owner) : bool :=
  match w with OMw _ => true | OHandler _ => false end.

Definition owner_frame (w : owner) : nat :=
  match w with OMw f | OHandler f => f end.

Definition emits (w : owner) (ls : list string) (s : state) : state :=
  mkState (frames s) (queue s) (log s ++ map (EvEmit w) ls).

(** Runs a body up to its end or its next suspension.  [Some o]: the body
    completed ([Fulfilled]: returned, [Rejected e]: threw [e]); [None]: it
    is suspended at an [await]. *)
Definition exec (w : owner) (c : code) (s : state) : state * option outcome :=
  let (ls, p) := until_pause (is_mw w) c in
  let s := emits w ls s in
  match p with
  | PDone o => (s, Some o)
  | PHandle k h =>
      (subscribe (TP (owner_frame w)) (RHandle (owner_frame w) k h) s, None)
  | PTick k => (enqueue [JResume w k] s, None)
  | PNever => (s, None)
  end.

(** The promise an [async] body settles when it completes. *)
Definition result_of (w : owner) : pref :=
  match w with
  | OMw f => RP f
  | OHandler f => HP f
  end.

Definition resume (w : owner) (c : code) (s : state) : state :=
  match exec w c s with
  | (s', Some o) => settle (result_of w) o s'
  | (s', None) => s'
  end.

Inductive call_result :=
| Returned (is_promise : bool)
| Threw (e : value).

(** Modelled from the spec: [isPromise] of [./promises], not among the
    sources; here a value is a promise exactly when an [async] function
    returned it, which [Returned true] records. *)
Definition call_fn (w : owner) (g : fn) (s : state) : state * call_result :=
  match g with
  | SyncFn c =>
      match exec w (lift c) s with
      | (s', Some (Rejected e)) => (s', Threw e)
      | (s', _) => (s', Returned false)
      end
  | AsyncFn c =>
      (resume w c (set_promise (result_of w) (Pending []) s), Returned true)
  end.

(** ** The executor *)

Definition not_callable : value :=
  VError "TypeError: this.currentFn is not a function".

(** The constructor: [[currentFn, ...remaining]] destructures the list. *)
Definition new_Executor (fns : list fn) (api : fn) : Executor :=
  mkExecutor (head fns) (tail fns) api None (Pending []) (Pending []) false None.

(** [run], lines 68-110.  Returns through the state; the promise it
    returns is [IP f]. *)
Definition run (f : nat) (s : state) : state :=
  match frames s !! f with
  | None => s
  | Some fr =>
      match currentFn fr with
      | None => fail f not_callable s
      | Some g =>
          match call_fn (OMw f) g (emit (EvEnter f) s) with
          | (s', Threw e) => fail f e (emit (EvThrew (OMw f) e) s')
          | (s', Returned is_promise) =>
              enqueue [JCheck f]
                (if is_promise then subscribe (RP f) (RResult f) s' else s')
          end
      end
  end.

(** [finish], lines 146-168. *)
Definition finish (f : nat) (error : option value) (s : state) : state :=
  match frames s !! f with
  | None => s
  | Some fr =>
      match result fr with
      | Some _ =>
          match error with
          | Some e => if truthy e then settle (TP f) (Rejected e) s
                      else settle (TP f) Fulfilled s
          | None => settle (TP f) Fulfilled s
          end
      | None =>
          match error with
          | Some e => if truthy e then fail f e s else succeed f s
          | None => succeed f s
          end
      end
  end.

(** [runRemaining], lines 116-138, up to its [await]; the rest of it is
    the reaction [RRemaining f]. *)
Definition runRemaining (f : nat) (s : state) : state :=
  match frames s !! f with
  | None => s
  | Some fr =>
      match remaining fr with
      | [] =>
          match call_fn (OHandler f) (apiRouteFn fr) (emit (EvTerminal f) s) with
          | (s', Threw e) => finish f (Some e) (emit (EvThrew (OHandler f) e) s')
          | (s', Returned true) => subscribe (HP f) (RRemaining f) s'
          | (s', Returned false) =>
              (* [await undefined]: a promise made and resolved on the spot *)
              subscribe (HP f) (RRemaining f)
                (settle (HP f) Fulfilled (set_promise (HP f) (Pending []) s'))
          end
      | fns =>
          let g := length (frames s) in
          let s1 := set_frames (frames s ++ [new_Executor fns (apiRouteFn fr)]) s in
          subscribe (IP g) (RRemaining f) (run g s1)
      end
  end.

Definition set_failed (fr : Executor) : Executor :=
  mkExecutor (currentFn fr) (remaining fr) (apiRouteFn fr) (result fr)
    (internalPromise fr) (teardownPromise fr) true (awaited fr).

Definition has_failed (f : nat) (s : state) : bool :=
  match frames s !! f with
  | Some fr => asyncMiddlewareFailed fr
  | None => false
  end.

Definition react (r : reaction) (o : outcome) (s : state) : state :=
  match r, o with
  | RResult f, Fulfilled => succeed f s
  | RResult f, Rejected e =>
      fail f e (set_frames (alter set_failed f (frames s)) s)
  | RRemaining f, Fulfilled => finish f None s
  | RRemaining f, Rejected e => finish f (Some e) s
  | RHandle f k h, Fulfilled => resume (OMw f) k s
  | RHandle f k h, Rejected e =>
      match h with
      | Some hd => resume (OMw f) (hd e) s
      | None => settle (RP f) (Rejected e) s
      end
  end.

Definition run_job (j : job) (s : state) : state :=
  match j with
  | JCheck f => if has_failed f s then s else runRemaining f s
  | JReact r o => react r o s
  | JResume w k => resume w k s
  end.

(** One microtask. *)
Definition step (s : state) : state :=
  match queue s with
  | [] => s
  | j :: q => run_job j (mkState (frames s) q (log s))
  end.

Fixpoint steps (n : nat) (s : state) : state :=
  match n with
  | O => s
  | S n => steps n (step s)
  end.

(** [makeMiddlewareExecutor(fns)(api)(req, res)] up to the first
    microtask: [new Executor(fns, api, req, res).run()]. *)
Definition start (fns : list fn) (api : fn) : state :=
  run 0 (mkState [new_Executor fns api] [] []).

(** The state after [n] microtasks. *)
Definition after (n : nat) (fns : list fn) (api : fn) : state :=
  steps n (start fns api).

(** The chain's outcome: how the promise returned by the top [run] has
    settled, if it has. *)
Definition outcome_of (s : state) : option outcome :=
  match get_promise (IP 0) s with
  | Some (Settled o) => Some o
  | _ => None
  end.

Definition quiescent (s : state) : bool :=
  match queue s with [] => true | _ => false end.

(** The calls the executor makes, in order: middleware entered and the
    handler invoked. *)
Definition is_call (e : event) : bool :=
  match e with
  | EvEnter _ | EvTerminal _ => true
  | _ => false
  end.

Definition calls (l : list event) : list event := filter (fun e => is_call e = true) l.

Definition is_terminal (e : event) : bool :=
  match e with
  | EvTerminal _ => true
  | _ => false
  end.

(** How often the API route handler has been invoked. *)
Definition terminal_calls (l : list event) : nat :=
  length (filter (fun e => is_terminal e = true) l).

(** ** Concrete runs *)

Definition boom : value := VError "boom".

(** [async (req, res, next) => { try { await next() } catch { log } }] *)
Definition catching_mw : fn :=
  AsyncFn (AwaitNext Return (Some (fun _ => Emit "caught" Return))).

(** [async (req, res, next) => { await next(); log }] *)
Definition awaiting_mw : fn := AsyncFn (AwaitNext (Emit "post" Return) None).

(** [async (req, res, next) => { next() }]: calls the continuation and
    drops the handle. *)
Definition forgetful_mw : fn := AsyncFn (CallNext VUndefined Return None).

(** [(req, res, next) => { throw boom }] *)
Definition throwing_mw : fn := SyncFn (SThrow boom).

(** [async (req, res) => { log; await null; await null; log }] *)
Definition slow_handler : fn :=
  AsyncFn (Emit "handler starts" (AwaitTick (AwaitTick (Emit "handler done" Return)))).

Definition plain_handler : fn := SyncFn (SEmit "handler" SReturn).

Definition throwing_handler : fn := SyncFn (SThrow boom).

(** * Basic facts about the machine *)

Lemma steps_add n m s : steps (n + m) s = steps m (steps n s).
Proof. revert s. induction n as [|n IH]; intros s; simpl; [done | apply IH]. Qed.

Lemma steps_S n s : steps (S n) s = step (steps n s).
Proof. replace (S n) with (n + 1) by lia. by rewrite steps_add. Qed.

Lemma step_quiescent s : queue s = [] → step s = s.
Proof. unfold step. by intros ->. Qed.

Lemma steps_quiescent n s : queue s = [] → steps n s = s.
Proof.
  intros Hq. induction n as [|n IH]; simpl; [done|].
  by rewrite step_quiescent.
Qed.

(** ** Reading and writing promises *)

Lemma read_write p q st fr :
  read q (write p st fr) =
    match p, q with
    | IP _, IP _ | TP _, TP _ | RP _, RP _ | HP _, HP _ => Some st
    | _, _ => read q fr
    end.
Proof. by destruct p, q. Qed.

Lemma get_set_promise p q st s :
  get_promise q (set_promise p st s) =
    if decide (p = q) then
      match frames s !! pref_frame p with Some _ => Some st | None => None end
    else get_promise q s.
Proof.
  unfold get_promise, set_promise; simpl.
  destruct (decide (pref_frame p = pref_frame q)) as [Hf|Hf].
  - rewrite <- Hf, list_lookup_alter_eq.
    destruct (frames s !! pref_frame p) as [fr|]; simpl.
    + rewrite read_write. destruct p, q; simpl in *; subst;
        repeat case_decide; try congruence; done.
    + case_decide; [done|]. done.
  - rewrite list_lookup_alter_ne by done.
    case_decide; [congruence | done].
Qed.

Lemma get_set_promise_eq p st s :
  pref_frame p < length (frames s) → get_promise p (set_promise p st s) = Some st.
Proof.
  intros Hlt. rewrite get_set_promise, decide_True by done.
  destruct (lookup_lt_is_Some_2 _ _ Hlt) as [fr ->]. done.
Qed.

Lemma get_set_promise_ne p q st s :
  p ≠ q → get_promise q (set_promise p st s) = get_promise q s.
Proof. intros. by rewrite get_set_promise, decide_False. Qed.

Lemma get_promise_lt p st s :
  get_promise p s = Some st → pref_frame p < length (frames s).
Proof.
  unfold get_promise. intros H.
  destruct (frames s !! pref_frame p) eqn:E; [|done].
  by eapply lookup_lt_Some.
Qed.

Lemma get_promise_emit p e s : get_promise p (emit e s) = get_promise p s.
Proof. done. Qed.

Lemma get_promise_enqueue p js s : get_promise p (enqueue js s) = get_promise p s.
Proof. done. Qed.

Lemma get_promise_emits p w ls s : get_promise p (emits w ls s) = get_promise p s.
Proof. done. Qed.

Lemma length_frames_set_promise p st s :
  length (frames (set_promise p st s)) = length (frames s).
Proof. unfold set_promise; simpl. by rewrite length_alter. Qed.

(** [settle] and [subscribe], spelled out. *)
Lemma settle_pending p o rs s :
  get_promise p s = Some (Pending rs) →
  settle p o s =
    mkState (alter (write p (Settled o)) (pref_frame p) (frames s))
      (queue s ++ map (fun r => JReact r o) rs)
      (log s ++ [EvSignal p o; EvSettled p o]).
Proof.
  intros H. unfold settle. rewrite H.
  unfold enqueue, emit, set_promise, set_frames; simpl.
  by rewrite <- app_assoc.
Qed.

Lemma settle_discarded p o o' s :
  get_promise p s = Some (Settled o') →
  settle p o s = emit (EvSignal p o) s.
Proof. intros H. unfold settle. by rewrite H. Qed.

Lemma settle_missing p o s : get_promise p s = None → settle p o s = s.
Proof. intros H. unfold settle. by rewrite H. Qed.

Lemma get_promise_settle p q o s :
  get_promise q (settle p o s) =
    match get_promise p s with
    | Some (Pending _) => if decide (p = q) then Some (Settled o) else get_promise q s
    | _ => get_promise q s
    end.
Proof.
  destruct (get_promise p s) as [[rs|o']|] eqn:E.
  - rewrite (settle_pending _ _ rs) by done.
    pose proof (get_set_promise p q (Settled o) s) as H.
    unfold get_promise, set_promise in *; simpl in *. rewrite H.
    case_decide; [|done].
    destruct (frames s !! pref_frame p); [done|]. by simplify_eq/=.
  - by rewrite (settle_discarded _ _ o').
  - by rewrite settle_missing.
Qed.

Lemma get_promise_subscribe p q r s :
  get_promise q (subscribe p r s) =
    match get_promise p s with
    | Some (Pending rs) => if decide (p = q) then Some (Pending (rs ++ [r])) else get_promise q s
    | _ => get_promise q s
    end.
Proof.
  unfold subscribe.
  destruct (get_promise p s) as [[rs|o']|] eqn:E; try done.
  rewrite get_set_promise. case_decide; [|done].
  unfold get_promise in E.
  destruct (frames s !! pref_frame p); [done|]. by simplify_eq/=.
Qed.

(** * The empty middleware list *)

(** With an empty list the constructor leaves [currentFn] undefined; the
    call in [run] raises a [TypeError], which the [catch] turns into the
    outcome, and nothing is queued. *)
Lemma start_empty api :
  start [] api =
    mkState
      [mkExecutor None [] api None (Settled (Rejected not_callable)) (Pending []) false None]
      []
      [EvSignal (IP 0) (Rejected not_callable); EvSettled (IP 0) (Rejected not_callable)].
Proof. reflexivity. Qed.

Lemma after_empty n api : after n [] api = start [] api.
Proof. unfold after. apply steps_quiescent. by rewrite start_empty. Qed.

(** C7, on the code: given an empty middleware list the terminal handler
    is never invoked, whatever it is, and the chain's outcome is the
    failure [TypeError: this.currentFn is not a function] instead of the
    handler's own result. *)
Theorem empty_chain_rejects_without_handler (api : fn) (n : nat) :
  terminal_calls (log (after n [] api)) = 0 ∧
  outcome_of (after n [] api) = Some (Rejected not_callable).
Proof. rewrite after_empty, start_empty. split; reflexivity. Qed.

(** C1, on the code at N = 0: the list of no middleware satisfies the
    premise, and the handler is not invoked once but never: the executor
    makes no call at all. *)
Theorem ordering_no_call_on_empty_list (api : fn) (n : nat) :
  calls (log (after n [] api)) = [] ∧
  terminal_calls (log (after n [] api)) ≠ 1.
Proof. rewrite after_empty, start_empty. split; [reflexivity | discriminate]. Qed.

(** * Runs that contradict the claims as stated *)

(** C2, refuted as stated: the middleware at position 1 throws [boom]
    during its own call, but the middleware at position 0 is asynchronous
    and catches the rejection of its handle; the run ends with the chain
    fulfilled. *)
Lemma sync_throw_swallowed_upstream :
  let s := after 4 [catching_mw; throwing_mw] plain_handler in
  (log s =
     [EvEnter 0; EvEnter 1; EvThrew (OMw 1) boom;
      EvSignal (IP 1) (Rejected boom); EvSettled (IP 1) (Rejected boom);
      EvSignal (TP 0) (Rejected boom); EvSettled (TP 0) (Rejected boom);
      EvEmit (OMw 0) "caught";
      EvSignal (RP 0) Fulfilled; EvSettled (RP 0) Fulfilled;
      EvSignal (IP 0) Fulfilled; EvSettled (IP 0) Fulfilled] ∧
   queue s = [] ∧
   outcome_of s = Some Fulfilled ∧
   outcome_of s ≠ Some (Rejected boom)).
Proof. vm_compute. repeat split; discriminate. Qed.

(** C4, refuted as stated: the middleware at position 0 awaits its
    handle, the one at position 1 calls the continuation without awaiting
    it.  After six microtasks the post-work of position 0 has run, while
    the handler is still suspended and its promise is pending. *)
Lemma post_work_before_handler_done :
  let s := after 6 [awaiting_mw; forgetful_mw] slow_handler in
  (log s =
     [EvEnter 0; EvEnter 1;
      EvSignal (RP 1) Fulfilled; EvSettled (RP 1) Fulfilled;
      EvSignal (IP 1) Fulfilled; EvSettled (IP 1) Fulfilled;
      EvTerminal 1; EvEmit (OHandler 1) "handler starts";
      EvSignal (TP 0) Fulfilled; EvSettled (TP 0) Fulfilled;
      EvEmit (OMw 0) "post";
      EvSignal (RP 0) Fulfilled; EvSettled (RP 0) Fulfilled] ∧
   queue s =
     [JResume (OHandler 1) (Emit "handler done" Return); JReact (RResult 0) Fulfilled] ∧
   get_promise (HP 1) s = Some (Pending [RRemaining 1]) ∧
   get_promise (TP 0) s = Some (Settled Fulfilled)).
Proof. vm_compute. repeat split. Qed.

(** [async (req, res, next) => { try { await next(); log } catch { log } }] *)
Definition observing_mw : fn :=
  AsyncFn (AwaitNext (Emit "handle fulfilled" Return)
             (Some (fun _ => Emit "handle rejected" Return))).

(** [async () => { throw undefined }], as [Promise.reject()] *)
Definition rejecting_handler : fn := AsyncFn (Throw VUndefined).

(** C5, refuted as stated.  First run: the middleware at position 0 is
    awaiting its handle when a later stage, the handler, fails with
    [boom]; the middleware at position 1 catches that failure, and
    position 0 resumes with a fulfilled handle.  Second run: the handler,
    the stage next to the only middleware, fails with [undefined];
    [finish] tests [if (error)], the handle is fulfilled and the chain
    succeeds. *)
Lemma later_failure_not_observed :
  let s := after 7 [observing_mw; catching_mw] throwing_handler in
  let s' := after 5 [observing_mw] rejecting_handler in
  (log s =
     [EvEnter 0; EvEnter 1; EvTerminal 1; EvThrew (OHandler 1) boom;
      EvSignal (TP 1) (Rejected boom); EvSettled (TP 1) (Rejected boom);
      EvEmit (OMw 1) "caught";
      EvSignal (RP 1) Fulfilled; EvSettled (RP 1) Fulfilled;
      EvSignal (IP 1) Fulfilled; EvSettled (IP 1) Fulfilled;
      EvSignal (TP 0) Fulfilled; EvSettled (TP 0) Fulfilled;
      EvEmit (OMw 0) "handle fulfilled";
      EvSignal (RP 0) Fulfilled; EvSettled (RP 0) Fulfilled;
      EvSignal (IP 0) Fulfilled; EvSettled (IP 0) Fulfilled] ∧
   queue s = [] ∧
   outcome_of s = Some Fulfilled) ∧
  (log s' =
     [EvEnter 0; EvTerminal 0;
      EvSignal (HP 0) (Rejected VUndefined); EvSettled (HP 0) (Rejected VUndefined);
      EvSignal (TP 0) Fulfilled; EvSettled (TP 0) Fulfilled;
      EvEmit (OMw 0) "handle fulfilled";
      EvSignal (RP 0) Fulfilled; EvSettled (RP 0) Fulfilled;
      EvSignal (IP 0) Fulfilled; EvSettled (IP 0) Fulfilled] ∧
   queue s' = [] ∧
   outcome_of s' = Some Fulfilled).
Proof. vm_compute. repeat split. Qed.

(** [async () => { await null; throw boom }] *)
Definition late_throwing_mw : fn := AsyncFn (AwaitTick (Throw boom)).

(** C6, refuted as stated: the promise returned by the middleware is
    rejected by the first microtask, before the microtask of [run] has
    run; that one finds [asyncMiddlewareFailed] still unset and starts the
    remainder. *)
Lemma rejected_within_tick_still_runs_remainder :
  let prog := after in
  (get_promise (RP 0) (prog 1 [late_throwing_mw] plain_handler)
     = Some (Settled (Rejected boom)) ∧
   queue (prog 1 [late_throwing_mw] plain_handler)
     = [JCheck 0; JReact (RResult 0) (Rejected boom)] ∧
   calls (log (prog 1 [late_throwing_mw] plain_handler)) = [EvEnter 0] ∧
   calls (log (prog 2 [late_throwing_mw] plain_handler)) = [EvEnter 0; EvTerminal 0]).
Proof. vm_compute. repeat split. Qed.

(** [async (req, res) => { log }]: never touches the continuation. *)
Definition silent_mw : fn := AsyncFn (Emit "no next" Return).

(** C8, refuted as stated: the asynchronous middleware never invokes the
    continuation, and the handler is invoked all the same. *)
Lemma remainder_runs_without_next :
  let s := after 4 [silent_mw] plain_handler in
  (log s =
     [EvEnter 0; EvEmit (OMw 0) "no next";
      EvSignal (RP 0) Fulfilled; EvSettled (RP 0) Fulfilled;
      EvSignal (IP 0) Fulfilled; EvSettled (IP 0) Fulfilled;
      EvTerminal 0; EvEmit (OHandler 0) "handler";
      EvSignal (HP 0) Fulfilled; EvSettled (HP 0) Fulfilled;
      EvSignal (TP 0) Fulfilled; EvSettled (TP 0) Fulfilled] ∧
   queue s = [] ∧
   terminal_calls (log s) = 1).
Proof. vm_compute. repeat split. Qed.



(** * What a microtask can change *)

Definition is_check (j : job) : bool :=
  match j with JCheck _ => true | _ => false end.

(** Events other than a call made by the executor and a throw out of a
    middleware call. *)
Definition is_quiet (e : event) : bool :=
  match e with
  | EvEmit _ _ | EvSignal _ _ | EvSettled _ _ | EvThrew (OHandler _) _ => true
  | _ => false
  end.

(** The fields of an [Executor] that are set by the constructor only. *)
Definition static (fr : Executor) : option fn * list fn * fn :=
  (currentFn fr, remaining fr, apiRouteFn fr).

(** [quiet s s']: from [s] to [s'] the queue and the log have grown at
    their ends, by no [JCheck] and by no call or throw event, and no frame
    was created or had its constructor fields changed. *)
Record quiet (s s' : state) : Prop := mk_quiet {
  quiet_queue : ∃ js, queue s' = queue s ++ js ∧ Forall (fun j => is_check j = false) js;
  quiet_log : ∃ es, log s' = log s ++ es ∧ Forall (fun e => is_quiet e = true) es;
  quiet_length : length (frames s') = length (frames s);
  quiet_static : ∀ f, static <$> frames s' !! f = static <$> frames s !! f
}.

Lemma quiet_refl s : quiet s s.
Proof.
  split; try done; exists []; by rewrite app_nil_r.
Qed.

Lemma quiet_trans s1 s2 s3 : quiet s1 s2 → quiet s2 s3 → quiet s1 s3.
Proof.
  intros [[js1 [Hq1 Hj1]] [es1 [Hl1 He1]] Hn1 Hs1]
         [[js2 [Hq2 Hj2]] [es2 [Hl2 He2]] Hn2 Hs2].
  split.
  - exists (js1 ++ js2). rewrite Hq2, Hq1, <- app_assoc. split; [done|].
    by apply Forall_app.
  - exists (es1 ++ es2). rewrite Hl2, Hl1, <- app_assoc. split; [done|].
    by apply Forall_app.
  - congruence.
  - intros f. by rewrite Hs2.
Qed.

Lemma quiet_emit e s : is_quiet e = true → quiet s (emit e s).
Proof.
  intros He. split; simpl; try done.
  - exists []. by rewrite app_nil_r.
  - exists [e]. split; [done|]. by constructor.
Qed.

Lemma quiet_emits w ls s : quiet s (emits w ls s).
Proof.
  split; simpl; try done.
  - exists []. by rewrite app_nil_r.
  - exists (map (EvEmit w) ls). split; [done|].
    induction ls; simpl; by constructor.
Qed.

Lemma quiet_enqueue js s :
  Forall (fun j => is_check j = false) js → quiet s (enqueue js s).
Proof.
  intros Hjs. split; simpl; try done.
  - by exists js.
  - exists []. by rewrite app_nil_r.
Qed.

Lemma static_write p st fr : static (write p st fr) = static fr.
Proof. by destruct p. Qed.

Lemma quiet_alter g i s :
  (∀ fr, static (g fr) = static fr) →
  quiet s (set_frames (alter g i (frames s)) s).
Proof.
  intros Hg. split; simpl.
  - exists []. by rewrite app_nil_r.
  - exists []. by rewrite app_nil_r.
  - by rewrite length_alter.
  - intros f. destruct (decide (i = f)) as [->|Hne].
    + rewrite list_lookup_alter_eq. destruct (frames s !! f); simpl; [|done].
      by rewrite Hg.
    + by rewrite list_lookup_alter_ne.
Qed.

Lemma quiet_set_promise p st s : quiet s (set_promise p st s).
Proof. apply quiet_alter. intros fr. apply static_write. Qed.

Lemma quiet_set_failed f s : quiet s (set_frames (alter set_failed f (frames s)) s).
Proof. by apply quiet_alter. Qed.

Lemma Forall_react_not_check o rs :
  Forall (fun j => is_check j = false) (map (fun r => JReact r o) rs).
Proof. induction rs; simpl; by constructor. Qed.

Lemma quiet_settle p o s : quiet s (settle p o s).
Proof.
  unfold settle.
  destruct (get_promise p s) as [[rs|?]|];
    [|by apply quiet_emit|apply quiet_refl].
  eapply quiet_trans; [by apply (quiet_emit (EvSignal p o))|].
  eapply quiet_trans; [apply quiet_set_promise|].
  eapply quiet_trans; [by apply (quiet_emit (EvSettled p o))|].
  apply quiet_enqueue, Forall_react_not_check.
Qed.

Lemma quiet_subscribe p r s : quiet s (subscribe p r s).
Proof.
  unfold subscribe. destruct (get_promise p s) as [[rs|o]|].
  - apply quiet_set_promise.
  - apply quiet_enqueue. by repeat constructor.
  - apply quiet_refl.
Qed.

Lemma quiet_exec w c s : quiet s (exec w c s).1.
Proof.
  unfold exec. destruct (until_pause (is_mw w) c) as [ls [o|k h|k|]]; simpl.
  - apply quiet_emits.
  - eapply quiet_trans; [apply quiet_emits | apply quiet_subscribe].
  - eapply quiet_trans; [apply quiet_emits|].
    apply quiet_enqueue. by repeat constructor.
  - apply quiet_emits.
Qed.

Lemma quiet_resume w c s : quiet s (resume w c s).
Proof.
  unfold resume. pose proof (quiet_exec w c s) as H.
  destruct (exec w c s) as [s' [o|]]; simpl in H; [|done].
  eapply quiet_trans; [done | apply quiet_settle].
Qed.

Lemma quiet_call_fn w g s : quiet s (call_fn w g s).1.
Proof.
  destruct g as [c|c]; simpl.
  - pose proof (quiet_exec w (lift c) s) as H.
    by destruct (exec w (lift c) s) as [s' [[|e]|]].
  - eapply quiet_trans; [apply quiet_set_promise | apply quiet_resume].
Qed.

Lemma quiet_finish f err s : quiet s (finish f err s).
Proof.
  unfold finish, succeed, fail.
  destruct (frames s !! f) as [fr|]; [|apply quiet_refl].
  destruct (result fr), err as [e|]; try destruct (truthy e);
    apply quiet_settle.
Qed.

Lemma quiet_react r o s : quiet s (react r o s).
Proof.
  unfold react, succeed, fail. destruct r as [f|f|f k h], o as [|e].
  - apply quiet_settle.
  - eapply quiet_trans; [apply quiet_set_failed | apply quiet_settle].
  - apply quiet_finish.
  - apply quiet_finish.
  - apply quiet_resume.
  - destruct h; [apply quiet_resume | apply quiet_settle].
Qed.

(** ** The part of a state that only [run] and [runRemaining] change *)

Definition jchecks (s : state) : list job := filter (fun j => is_check j = true) (queue s).
Definition loud (s : state) : list event := filter (fun e => is_quiet e = false) (log s).
Definition statics (s : state) : list (option fn * list fn * fn) := static <$> frames s.

Lemma filter_none {A} (P : A → Prop) `{!∀ x, Decision (P x)} (l : list A) :
  Forall (fun x => ¬ P x) l → filter P l = [].
Proof.
  induction 1 as [|x l Hx _ IH]; [done|].
  by rewrite filter_cons_False.
Qed.

Lemma quiet_jchecks s s' : quiet s s' → jchecks s' = jchecks s.
Proof.
  intros [[js [Hq Hjs]] _ _ _]. unfold jchecks.
  rewrite Hq, filter_app, (filter_none _ js), app_nil_r; [done|].
  eapply Forall_impl; [done|]. simpl. intros j ->. done.
Qed.

Lemma quiet_loud s s' : quiet s s' → loud s' = loud s.
Proof.
  intros [_ [es [Hl Hes]] _ _]. unfold loud.
  rewrite Hl, filter_app, (filter_none _ es), app_nil_r; [done|].
  eapply Forall_impl; [done|]. simpl. intros e ->. done.
Qed.

Lemma quiet_statics s s' : quiet s s' → statics s' = statics s.
Proof.
  intros [_ _ _ Hst]. unfold statics. apply list_eq. intros f.
  by rewrite !list_lookup_fmap.
Qed.

Lemma loud_emit e s :
  loud (emit e s) = loud s ++ (if is_quiet e then [] else [e]).
Proof.
  unfold loud; simpl. rewrite filter_app. f_equal.
  destruct (is_quiet e) eqn:E.
  - by rewrite filter_cons_False by (rewrite E; done).
  - by rewrite filter_cons_True by done.
Qed.

Lemma length_statics s : length (statics s) = length (frames s).
Proof. unfold statics. by rewrite length_fmap. Qed.

(** What [run] does to a frame that has a middleware. *)
Lemma run_cases g s fr m :
  frames s !! g = Some fr → currentFn fr = Some m →
  ∃ s1, quiet (emit (EvEnter g) s) s1 ∧
    ((∃ e, quiet (emit (EvThrew (OMw g) e) s1) (run g s)) ∨
     run g s = enqueue [JCheck g] s1).
Proof.
  intros Hfr Hm. unfold run. rewrite Hfr, Hm.
  pose proof (quiet_call_fn (OMw g) m (emit (EvEnter g) s)) as Hc.
  destruct (call_fn (OMw g) m (emit (EvEnter g) s)) as [s1 [isp|e]]; simpl in Hc.
  - exists (if isp then subscribe (RP g) (RResult g) s1 else s1). split; [|by right].
    destruct isp; [|done]. eapply quiet_trans; [done | apply quiet_subscribe].
  - exists s1. split; [done|]. left. exists e. apply quiet_settle.
Qed.

(** What [runRemaining] does when the handler is next. *)
Lemma runRemaining_last f s fr :
  frames s !! f = Some fr → remaining fr = [] →
  quiet (emit (EvTerminal f) s) (runRemaining f s).
Proof.
  intros Hfr Hrem. unfold runRemaining. rewrite Hfr, Hrem.
  pose proof (quiet_call_fn (OHandler f) (apiRouteFn fr) (emit (EvTerminal f) s)) as Hc.
  destruct (call_fn (OHandler f) (apiRouteFn fr) (emit (EvTerminal f) s))
    as [s1 [[|]|e]]; simpl in Hc.
  - eapply quiet_trans; [done | apply quiet_subscribe].
  - eapply quiet_trans; [done|].
    eapply quiet_trans; [apply quiet_set_promise|].
    eapply quiet_trans; [apply quiet_settle | apply quiet_subscribe].
  - eapply quiet_trans; [done|].
    eapply quiet_trans; [by apply (quiet_emit (EvThrew (OHandler f) e)) | apply quiet_finish].
Qed.

(** ... and when a middleware is next. *)
Lemma runRemaining_next f s fr m ms :
  frames s !! f = Some fr → remaining fr = m :: ms →
  let g := length (frames s) in
  let s1 := set_frames (frames s ++ [new_Executor (m :: ms) (apiRouteFn fr)]) s in
  runRemaining f s = subscribe (IP g) (RRemaining f) (run g s1).
Proof. intros Hfr Hrem. unfold runRemaining. by rewrite Hfr, Hrem. Qed.

(** ** The shape of every run *)

(** What follows the entries of the middleware in the loud part of the
    log, together with the [JCheck] jobs that are queued: the executor of
    the last of [n] frames is either waiting for its microtask, or
    stalled or done without a further call, or it has invoked the handler
    (and then all [N] middleware have a frame), or its middleware
    threw. *)
Inductive tail_ok (N n : nat) : list job → list event → Prop :=
| tail_running : tail_ok N n [JCheck (pred n)] []
| tail_stalled : tail_ok N n [] []
| tail_terminal : n = N → tail_ok N n [] [EvTerminal (pred n)]
| tail_threw e : tail_ok N n [] [EvThrew (OMw (pred n)) e].

(** The constructor fields of the frame at position [i]. *)
Definition static_at (fns : list fn) (api : fn) (i : nat) : option fn * list fn * fn :=
  (fns !! i, drop (S i) fns, api).

Record call_inv (fns : list fn) (api : fn) (s : state) : Prop := mk_call_inv {
  ci_pos : 0 < length (frames s);
  ci_le : length (frames s) ≤ length fns;
  ci_statics : statics s = static_at fns api <$> seq 0 (length (frames s));
  ci_loud : ∃ t, loud s = map EvEnter (seq 0 (length (frames s))) ++ t ∧
                 tail_ok (length fns) (length (frames s)) (jchecks s) t
}.

Lemma call_inv_quiet fns api s s' : quiet s s' → call_inv fns api s → call_inv fns api s'.
Proof.
  intros Hq [H1 H2 H3 H4].
  split; rewrite ?(quiet_jchecks _ _ Hq), ?(quiet_loud _ _ Hq),
           ?(quiet_length _ _ Hq), ?(quiet_statics _ _ Hq); done.
Qed.

Lemma jchecks_emit e s : jchecks (emit e s) = jchecks s.
Proof. done. Qed.

Lemma jchecks_enqueue_check g s : jchecks (enqueue [JCheck g] s) = jchecks s ++ [JCheck g].
Proof. unfold jchecks; simpl. by rewrite filter_app. Qed.

Lemma loud_enqueue js s : loud (enqueue js s) = loud s.
Proof. done. Qed.

(** [run] on the last frame, when no [JCheck] is queued and all frames
    before it have been entered. *)
Lemma call_inv_run fns api g s fr m :
  length (frames s) = S g → S g ≤ length fns →
  statics s = static_at fns api <$> seq 0 (S g) →
  frames s !! g = Some fr → currentFn fr = Some m →
  jchecks s = [] → loud s = map EvEnter (seq 0 g) →
  call_inv fns api (run g s).
Proof.
  intros Hlen Hle Hst Hfr Hm Hjc Hld.
  destruct (run_cases g s fr m Hfr Hm) as (s1 & Hq1 & [[e Hq2] | Hrun]).
  - eapply call_inv_quiet; [done|]. split.
    + simpl. rewrite (quiet_length _ _ Hq1). simpl. lia.
    + simpl. rewrite (quiet_length _ _ Hq1). simpl. lia.
    + change (statics (emit (EvThrew (OMw g) e) s1)) with (statics s1).
      rewrite (quiet_statics _ _ Hq1). simpl. rewrite (quiet_length _ _ Hq1). simpl.
      change (statics (emit (EvEnter g) s)) with (statics s). by rewrite Hlen.
    + rewrite jchecks_emit, loud_emit; simpl.
      rewrite (quiet_jchecks _ _ Hq1), (quiet_loud _ _ Hq1), (quiet_length _ _ Hq1).
      rewrite jchecks_emit, loud_emit; simpl.
      rewrite Hjc, Hld, Hlen.
      exists [EvThrew (OMw g) e]. rewrite seq_S, map_app; simpl. split; [done|].
      apply (tail_threw _ (S g)).
  - rewrite Hrun. split.
    + simpl. rewrite (quiet_length _ _ Hq1). simpl. lia.
    + simpl. rewrite (quiet_length _ _ Hq1). simpl. lia.
    + change (statics (enqueue [JCheck g] s1)) with (statics s1).
      rewrite (quiet_statics _ _ Hq1). simpl. rewrite (quiet_length _ _ Hq1). simpl.
      change (statics (emit (EvEnter g) s)) with (statics s). by rewrite Hlen.
    + rewrite jchecks_enqueue_check, loud_enqueue; simpl.
      rewrite (quiet_jchecks _ _ Hq1), (quiet_loud _ _ Hq1), (quiet_length _ _ Hq1).
      rewrite jchecks_emit, loud_emit; simpl.
      rewrite Hjc, Hld, Hlen.
      exists []. rewrite seq_S, map_app, app_nil_r; simpl. split; [done|].
      apply (tail_running _ (S g)).
Qed.

Lemma call_inv_start fns api : fns ≠ [] → call_inv fns api (start fns api).
Proof.
  intros Hne. destruct fns as [|m ms]; [done|].
  unfold start. eapply (call_inv_run _ _ 0); simpl; try done. lia.
Qed.

(** The state in which the first queued job runs. *)
Definition popped (s : state) : state := mkState (frames s) (tail (queue s)) (log s).

Lemma jchecks_popped j q s :
  queue s = j :: q →
  jchecks s = (if is_check j then [j] else []) ++ jchecks (popped s).
Proof.
  intros Hq. unfold jchecks, popped; simpl. rewrite Hq; simpl.
  destruct (is_check j) eqn:E.
  - by rewrite filter_cons_True.
  - by rewrite filter_cons_False by (rewrite E; done).
Qed.

Lemma step_popped j q s : queue s = j :: q → step s = run_job j (popped s).
Proof. intros Hq. unfold step, popped. by rewrite Hq. Qed.

Lemma drop_cons_inv {A} (l l' : list A) (x : A) n :
  drop n l = x :: l' → l !! n = Some x ∧ drop (S n) l = l'.
Proof.
  intros H.
  assert (l !! n = Some x) as Hx.
  { replace n with (n + 0) by lia. by rewrite <- lookup_drop, H. }
  split; [done|]. rewrite (drop_S _ _ _ Hx) in H. by simplify_eq.
Qed.

Lemma static_at_lookup fns api s f fr :
  statics s = static_at fns api <$> seq 0 (length (frames s)) →
  frames s !! f = Some fr →
  currentFn fr = fns !! f ∧ remaining fr = drop (S f) fns ∧ apiRouteFn fr = api.
Proof.
  intros Hst Hfr.
  assert (statics s !! f = Some (static fr)) as H.
  { unfold statics. by rewrite list_lookup_fmap, Hfr. }
  rewrite Hst, list_lookup_fmap in H.
  rewrite lookup_seq_lt in H by (by eapply lookup_lt_Some).
  simpl in H. unfold static_at, static in H. by simplify_eq.
Qed.

Lemma call_inv_step fns api s : call_inv fns api s → call_inv fns api (step s).
Proof.
  intros Hinv.
  destruct (queue s) as [|j q] eqn:Hqueue; [by rewrite step_quiescent|].
  rewrite (step_popped j q) by done.
  pose proof (jchecks_popped j q s Hqueue) as Hjc.
  assert (Hpop : call_inv fns api (popped s) ∨ ∃ f, j = JCheck f).
  { destruct j as [f| |]; [right; by exists f | left..];
      destruct Hinv as [H1 H2 H3 [t [H4 H5]]]; split; try done;
      exists t; simpl in Hjc; by rewrite <- Hjc. }
  destruct j as [f | r o | w k]; simpl in *.
  - (* the microtask of run *)
    clear Hpop. destruct Hinv as [Hpos Hle Hst (t & Hld & Htail)].
    rewrite Hjc in Htail. inversion Htail as [H1 H2 | | |]; subst.
    assert (Hjc0 : jchecks (popped s) = []) by done.
    rewrite app_nil_r in Hld.
    destruct (has_failed _ (popped s)).
    { split; try done. exists []. rewrite app_nil_r. split; [done|].
      rewrite Hjc0. constructor. }
    destruct (lookup_lt_is_Some_2 (frames s) (pred (length (frames s))))
      as [fr Hfr]; [lia|].
    destruct (static_at_lookup _ _ _ _ _ Hst Hfr) as (Hcur & Hrem & Hapi).
    destruct (remaining fr) as [|m ms] eqn:Hrem'.
    + pose proof (runRemaining_last _ (popped s) _ Hfr Hrem') as Hq.
      eapply call_inv_quiet; [done|]. split; try done.
      rewrite loud_emit, jchecks_emit; simpl.
      exists [EvTerminal (pred (length (frames s)))].
      change (loud (popped s)) with (loud s). rewrite Hjc0, Hld.
      split; [done|]. constructor.
      symmetry in Hrem. apply drop_nil_inv in Hrem. lia.
    + rewrite (runRemaining_next _ (popped s) _ _ _ Hfr Hrem').
      eapply call_inv_quiet; [apply quiet_subscribe|].
      assert (S (length (frames s)) ≤ length fns) as Hlt.
      { assert (length (drop (S (pred (length (frames s)))) fns) = S (length ms)) as Hdrop
          by (by rewrite <- Hrem).
        rewrite length_drop in Hdrop. lia. }
      eapply (call_inv_run _ _ (length (frames s))).
      * simpl. rewrite length_app; simpl. lia.
      * done.
      * unfold statics, set_frames. cbn [frames].
        rewrite fmap_app, seq_S, fmap_app.
        change (static <$> frames (popped s)) with (statics s). rewrite Hst. f_equal.
        cbn [fmap list_fmap]. unfold static_at, new_Executor, static; simpl.
        rewrite Hapi.
        replace (S (pred (length (frames s)))) with (length (frames s)) in Hrem by lia.
        symmetry in Hrem. apply drop_cons_inv in Hrem as [-> ->]. done.
      * simpl. by rewrite lookup_app_r, Nat.sub_diag.
      * done.
      * done.
      * done.
  - (* a promise reaction *)
    destruct Hpop as [Hpop | [? ?]]; [|done].
    eapply call_inv_quiet; [apply quiet_react | done].
  - (* a resumed body *)
    destruct Hpop as [Hpop | [? ?]]; [|done].
    eapply call_inv_quiet; [apply quiet_resume | done].
Qed.

Lemma call_inv_steps fns api n s : call_inv fns api s → call_inv fns api (steps n s).
Proof.
  revert s. induction n as [|n IH]; intros s Hs; simpl; [done|].
  by apply IH, call_inv_step.
Qed.

Lemma call_inv_after n fns api : fns ≠ [] → call_inv fns api (after n fns api).
Proof. intros Hne. by apply call_inv_steps, call_inv_start. Qed.

(** ** Consequences for the calls the executor makes *)

Lemma calls_loud s : calls (log s) = filter (fun e => is_call e = true) (loud s).
Proof.
  unfold calls, loud. induction (log s) as [|e l IH]; [done|].
  destruct (is_quiet e) eqn:Hq.
  - rewrite (filter_cons_False (fun e => is_quiet e = false)) by (rewrite Hq; done).
    rewrite filter_cons_False; [done|]. destruct e as [| | | [] |  |]; done.
  - rewrite (filter_cons_True (fun e => is_quiet e = false)) by done.
    destruct (is_call e) eqn:Hc.
    + rewrite !filter_cons_True by done. by rewrite IH.
    + rewrite !filter_cons_False by (rewrite Hc; done). done.
Qed.

Lemma calls_enter n : filter (fun e => is_call e = true) (map EvEnter (seq 0 n)) = map EvEnter (seq 0 n).
Proof.
  induction (seq 0 n) as [|i l IH]; [done|]. simpl.
  rewrite filter_cons_True by done. by rewrite IH.
Qed.

Lemma elem_of_loud e s : e ∈ loud s ↔ is_quiet e = false ∧ e ∈ log s.
Proof. unfold loud. by rewrite list_elem_of_filter. Qed.

Lemma state_eta s : mkState (frames s) (queue s) (log s) = s.
Proof. by destruct s. Qed.

(** A microtask other than the one of [run] is quiet. *)
Lemma step_quiet s : (∀ f q, queue s ≠ JCheck f :: q) → quiet (popped s) (step s).
Proof.
  intros Hq. destruct (queue s) as [|j q] eqn:Hqueue.
  - rewrite step_quiescent by done. unfold popped. rewrite Hqueue. simpl.
    rewrite <- Hqueue, state_eta. apply quiet_refl.
  - rewrite (step_popped j q) by done.
    destruct j as [f | r o | w k]; simpl.
    + by destruct (Hq f q).
    + apply quiet_react.
    + apply quiet_resume.
Qed.

Lemma jchecks_nil_head s f q : jchecks s = [] → queue s ≠ JCheck f :: q.
Proof.
  unfold jchecks. intros H Hq. rewrite Hq, filter_cons_True in H; done.
Qed.

(** Once no [JCheck] is queued, none ever is again, no middleware is
    entered and the handler is not invoked any more. *)
Lemma frozen_step s :
  jchecks s = [] →
  jchecks (step s) = [] ∧ loud (step s) = loud s ∧
  length (frames (step s)) = length (frames s).
Proof.
  intros Hjc.
  assert (quiet (popped s) (step s)) as Hq.
  { apply step_quiet. intros f q. by apply jchecks_nil_head. }
  rewrite (quiet_jchecks _ _ Hq), (quiet_loud _ _ Hq), (quiet_length _ _ Hq).
  split; [|done].
  destruct (queue s) as [|j q] eqn:Hqueue.
  - unfold jchecks, popped. by rewrite Hqueue.
  - rewrite (jchecks_popped j q) in Hjc by done.
    by apply app_eq_nil in Hjc as [_ ?].
Qed.

Lemma frozen_steps n s :
  jchecks s = [] →
  jchecks (steps n s) = [] ∧ loud (steps n s) = loud s ∧
  length (frames (steps n s)) = length (frames s).
Proof.
  revert s. induction n as [|n IH]; intros s Hjc; simpl; [done|].
  destruct (frozen_step s Hjc) as (H1 & H2 & H3).
  destruct (IH (step s) H1) as (H4 & H5 & H6).
  split; [done|]. split; congruence.
Qed.

(** In every run of a non-empty list the middleware are entered in list
    order, each at most once, and the handler is invoked at most once,
    after all of them. *)
Lemma calls_shape fns api n :
  fns ≠ [] →
  ∃ k, 0 < k ∧ k ≤ length fns ∧
    (calls (log (after n fns api)) = map EvEnter (seq 0 k) ∨
     (k = length fns ∧
      calls (log (after n fns api)) = map EvEnter (seq 0 k) ++ [EvTerminal (pred k)])).
Proof.
  intros Hne. destruct (call_inv_after n fns api Hne) as [Hpos Hle _ (t & Hld & Htail)].
  exists (length (frames (after n fns api))). split; [done|]. split; [done|].
  rewrite calls_loud, Hld, filter_app, calls_enter.
  inversion Htail; subst; rewrite ?app_nil_r; auto.
Qed.

(** The remainder of frame [f] has begun: the next middleware has been
    entered, or the handler has been invoked by [f]. *)
Definition started (f : nat) (s : state) : Prop :=
  EvEnter (S f) ∈ log s ∨ EvTerminal f ∈ log s.

#[global] Instance started_dec f s : Decision (started f s).
Proof. unfold started. apply _. Defined.

Lemma started_loud f s : started f s ↔ EvEnter (S f) ∈ loud s ∨ EvTerminal f ∈ loud s.
Proof. unfold started. rewrite !elem_of_loud. simpl. tauto. Qed.

Lemma after_S n fns api : after (S n) fns api = step (after n fns api).
Proof. unfold after. apply steps_S. Qed.

Lemma after_add n m fns api : after (n + m) fns api = steps m (after n fns api).
Proof. unfold after. apply steps_add. Qed.

(** What the microtask of [run] adds to the loud part of the log. *)
Lemma step_check_loud g q s fr :
  queue s = JCheck g :: q → has_failed g s = false →
  frames s !! g = Some fr →
  loud (step s) = loud s ++ [EvTerminal g] ∨
  (loud (step s) = loud s ++ [EvEnter (length (frames s))]) ∨
  (∃ e, loud (step s) =
          loud s ++ [EvEnter (length (frames s)); EvThrew (OMw (length (frames s))) e]).
Proof.
  intros Hqueue Hnf Hfr. rewrite (step_popped _ _ _ Hqueue). simpl.
  change (has_failed g (popped s)) with (has_failed g s). rewrite Hnf.
  destruct (remaining fr) as [|m ms] eqn:Hrem.
  - left. pose proof (runRemaining_last g (popped s) fr Hfr Hrem) as Hq.
    by rewrite (quiet_loud _ _ Hq), loud_emit.
  - right. rewrite (runRemaining_next g (popped s) fr m ms Hfr Hrem).
    rewrite (quiet_loud _ _ (quiet_subscribe _ _ _)).
    set (s1 := set_frames _ _).
    destruct (run_cases (length (frames (popped s))) s1
                (new_Executor (m :: ms) (apiRouteFn fr)) m)
      as (s2 & Hq1 & [[e Hq2] | Hrun]).
    + subst s1. simpl. by rewrite lookup_app_r, Nat.sub_diag.
    + done.
    + right. exists e.
      rewrite (quiet_loud _ _ Hq2), loud_emit, (quiet_loud _ _ Hq1), loud_emit.
      simpl. by rewrite <- app_assoc.
    + left. rewrite Hrun, loud_enqueue, (quiet_loud _ _ Hq1), loud_emit. done.
Qed.

(** The remainder of a frame begins in the microtask that [run] queued
    for that frame, and only if the rejection callback has not set
    [asyncMiddlewareFailed] by then; the call of the middleware has
    returned without throwing. *)
Lemma remainder_begins_in_check fns api n f :
  fns ≠ [] →
  started f (after (S n) fns api) → ¬ started f (after n fns api) →
  (∃ q, queue (after n fns api) = JCheck f :: q) ∧
  has_failed f (after n fns api) = false ∧
  EvEnter f ∈ log (after n fns api) ∧
  (∀ e, EvThrew (OMw f) e ∉ log (after n fns api)).
Proof.
  intros Hne. rewrite after_S. set (s := after n fns api).
  pose proof (call_inv_after n fns api Hne) as Hinv. fold s in Hinv.
  rewrite !started_loud. intros Hs' Hs.
  destruct (queue s) as [|j q] eqn:Hqueue.
  { rewrite step_quiescent in Hs' by done. done. }
  destruct j as [g | r o | w k].
  2,3: exfalso; apply Hs;
    assert (quiet (popped s) (step s)) as Hq
      by (apply step_quiet; intros ? ?; rewrite Hqueue; discriminate);
    by rewrite (quiet_loud _ _ Hq) in Hs'.
  destruct Hinv as [Hpos Hle Hst (t & Hld & Htail)].
  rewrite (jchecks_popped _ _ _ Hqueue) in Htail. simpl in Htail.
  inversion Htail as [Hg Ht | | |]. subst t. rewrite app_nil_r in Hld.
  destruct (lookup_lt_is_Some_2 (frames s) (pred (length (frames s))))
    as [fr Hfr]; [lia|].
  destruct (has_failed (pred (length (frames s))) s) eqn:Hnf.
  { exfalso. apply Hs. rewrite (step_popped _ _ _ Hqueue) in Hs'. simpl in Hs'.
    change (has_failed g (popped s)) with (has_failed g s) in Hs'.
    rewrite <- Hg, Hnf in Hs'. done. }
  assert (f = pred (length (frames s))) as ->.
  { rewrite <- Hg in Hqueue.
    destruct (step_check_loud _ _ _ _ Hqueue Hnf Hfr) as [Hl | [Hl | [e Hl]]];
      rewrite Hl, !elem_of_app in Hs'; clear Hl;
      destruct Hs' as [[Hm|Hm]|[Hm|Hm]]; try (exfalso; apply Hs; by auto);
      repeat (apply elem_of_cons in Hm as [Hm|Hm]);
      try (by apply elem_of_nil in Hm); try discriminate; injection Hm; lia. }
  split; [by exists q; rewrite Hg|]. split; [done|]. split.
  - apply (proj1 (elem_of_loud _ _)). rewrite Hld, list_elem_of_fmap.
    exists (pred (length (frames s))). split; [done|]. apply elem_of_seq. lia.
  - intros e He.
    assert (EvThrew (OMw (pred (length (frames s)))) e ∈ loud s) as Hin
      by (by apply elem_of_loud).
    rewrite Hld, list_elem_of_fmap in Hin. by destruct Hin as (i & [=] & _).
Qed.

(** After the call of the middleware at position [k] has thrown, no
    call is made any more: the calls of the whole run are the entries of
    positions [0] to [k]. *)
Lemma sync_throw_ends_calls fns api n k e :
  fns ≠ [] →
  EvThrew (OMw k) e ∈ log (after n fns api) →
  ∀ m, n ≤ m → calls (log (after m fns api)) = map EvEnter (seq 0 (S k)).
Proof.
  intros Hne Hin m Hm.
  destruct (call_inv_after n fns api Hne) as [Hpos Hle Hst (t & Hld & Htail)].
  assert (EvThrew (OMw k) e ∈ loud (after n fns api)) as Hl by (by apply elem_of_loud).
  rewrite Hld, elem_of_app, list_elem_of_fmap in Hl.
  destruct Hl as [(i & [=] & _) | Hl].
  inversion Htail as [Hj Ht | Hj Ht | Hn Hj Ht | e' Hj Ht]; subst t;
    try (by apply elem_of_nil in Hl);
    apply list_elem_of_singleton in Hl; try discriminate.
  injection Hl as -> ->.
  replace m with (n + (m - n)) by lia. rewrite after_add.
  destruct (frozen_steps (m - n) (after n fns api)) as (_ & Hld' & _); [done|].
  rewrite calls_loud, Hld', Hld, filter_app, calls_enter.
  rewrite filter_cons_False, filter_nil, app_nil_r by done.
  do 2 f_equal. lia.
Qed.

(** ** Runs that end at the first middleware *)

(** A plain middleware that throws [e] during its call, be it by
    [throw] or by [next(e)]. *)
Lemma start_sync_throw c ms api ls e :
  until_pause true (lift c) = (ls, PDone (Rejected e)) →
  start (SyncFn c :: ms) api =
    mkState
      [mkExecutor (Some (SyncFn c)) ms api None (Settled (Rejected e)) (Pending []) false None]
      []
      (EvEnter 0 :: map (EvEmit (OMw 0)) ls ++
       [EvThrew (OMw 0) e; EvSignal (IP 0) (Rejected e); EvSettled (IP 0) (Rejected e)]).
Proof.
  intros Hp. unfold start, run; simpl. unfold exec; simpl. rewrite Hp; simpl.
  unfold fail, settle; simpl. unfold enqueue, emit, set_promise, set_frames; simpl.
  by rewrite <- !app_assoc.
Qed.

(** An [async] middleware whose promise is already rejected when its
    call returns. *)
Lemma start_async_reject c ms api ls e :
  until_pause true c = (ls, PDone (Rejected e)) →
  start (AsyncFn c :: ms) api =
    mkState
      [mkExecutor (Some (AsyncFn c)) ms api (Some (Settled (Rejected e)))
         (Pending []) (Pending []) false None]
      [JReact (RResult 0) (Rejected e); JCheck 0]
      (EvEnter 0 :: map (EvEmit (OMw 0)) ls ++
       [EvSignal (RP 0) (Rejected e); EvSettled (RP 0) (Rejected e)]).
Proof.
  intros Hp. unfold start, run; simpl. unfold resume, exec; simpl. rewrite Hp; simpl.
  unfold settle; simpl. unfold enqueue, emit, set_promise, set_frames; simpl.
  by rewrite <- !app_assoc.
Qed.

Lemma after_async_reject c ms api ls e n :
  until_pause true c = (ls, PDone (Rejected e)) →
  2 ≤ n →
  after n (AsyncFn c :: ms) api =
    mkState
      [mkExecutor (Some (AsyncFn c)) ms api (Some (Settled (Rejected e)))
         (Settled (Rejected e)) (Pending []) true None]
      []
      (EvEnter 0 :: map (EvEmit (OMw 0)) ls ++
       [EvSignal (RP 0) (Rejected e); EvSettled (RP 0) (Rejected e);
        EvSignal (IP 0) (Rejected e); EvSettled (IP 0) (Rejected e)]).
Proof.
  intros Hp Hn. replace n with (2 + (n - 2)) by lia.
  rewrite after_add. unfold after. rewrite (start_async_reject _ _ _ _ _ Hp).
  rewrite steps_quiescent.
  - simpl. unfold step; simpl. unfold fail, settle; simpl.
    unfold enqueue, emit, set_promise, set_frames; simpl.
    by rewrite <- !app_assoc.
  - simpl. unfold step; simpl. by unfold fail, settle; simpl.
Qed.

Lemma calls_emits_nil w ls l :
  calls (map (EvEmit w) ls ++ l) = calls l.
Proof.
  unfold calls. rewrite filter_app.
  rewrite (filter_none _ (map (EvEmit w) ls)); [done|].
  induction ls; simpl; constructor; done.
Qed.

(** Induction on bodies, through the handlers. *)
Lemma code_induction (P : code → Prop) :
  P Return →
  (∀ e, P (Throw e)) →
  (∀ l k, P k → P (Emit l k)) →
  (∀ arg k, P k → P (CallNext arg k None)) →
  (∀ arg k hd, P k → (∀ v, P (hd v)) → P (CallNext arg k (Some hd))) →
  (∀ k, P k → P (AwaitNext k None)) →
  (∀ k hd, P k → (∀ v, P (hd v)) → P (AwaitNext k (Some hd))) →
  (∀ k, P k → P (AwaitTick k)) →
  P AwaitNever →
  ∀ c, P c.
Proof.
  intros HR HT HE HC0 HC1 HA0 HA1 HK HN. fix IH 1.
  intros [|e|l k|arg k [hd|]|k [hd|]|k|].
  - apply HR.
  - apply HT.
  - apply HE, IH.
  - apply HC1; [apply IH | intros v; apply IH].
  - apply HC0, IH.
  - apply HA1; [apply IH | intros v; apply IH].
  - apply HA0, IH.
  - apply HK, IH.
  - apply HN.
Qed.

Lemma scode_induction (P : scode → Prop) :
  P SReturn →
  (∀ e, P (SThrow e)) →
  (∀ l k, P k → P (SEmit l k)) →
  (∀ arg k, P k → P (SCallNext arg k None)) →
  (∀ arg k hd, P k → (∀ v, P (hd v)) → P (SCallNext arg k (Some hd))) →
  ∀ c, P c.
Proof.
  intros HR HT HE HC0 HC1. fix IH 1.
  intros [|e|l k|arg k [hd|]].
  - apply HR.
  - apply HT.
  - apply HE, IH.
  - apply HC1; [apply IH | intros v; apply IH].
  - apply HC0, IH.
Qed.

(** A plain function does not suspend. *)
Lemma lift_done mw c : ∃ ls o, until_pause mw (lift c) = (ls, PDone o).
Proof.
  induction c as [|e|l k IH|arg k IH|arg k hd IH IHh] using scode_induction; simpl.
  - by eexists _, _.
  - by eexists _, _.
  - destruct IH as (ls & o & ->). by eexists _, _.
  - destruct mw; [destruct (truthy arg)|]; try done; by eexists _, _.
  - destruct mw; [destruct (truthy arg)|]; try done; apply IHh.
Qed.


Definition body_of (g : fn) : code :=
  match g with
  | SyncFn c => lift c
  | AsyncFn c => c
  end.


Lemma calls_cons e l :
  calls (e :: l) = if is_call e then e :: calls l else calls l.
Proof.
  unfold calls. destruct (is_call e) eqn:E.
  - by rewrite filter_cons_True.
  - by rewrite filter_cons_False by (rewrite E; done).
Qed.

Lemma async_reject_run c ms api ls e :
  until_pause true c = (ls, PDone (Rejected e)) →
  (∀ n, calls (log (after n (AsyncFn c :: ms) api)) = [EvEnter 0]) ∧
  (∀ n, 2 ≤ n → outcome_of (after n (AsyncFn c :: ms) api) = Some (Rejected e)).
Proof.
  intros Hp. split.
  - intros n. destruct (decide (2 ≤ n)) as [Hn|Hn].
    + rewrite (after_async_reject _ _ _ _ _ _ Hp Hn). simpl.
      by rewrite calls_cons, calls_emits_nil.
    + unfold after. rewrite (start_async_reject _ _ _ _ _ Hp).
      destruct n as [|[|n]]; [| |lia]; simpl.
      * by rewrite calls_cons, calls_emits_nil.
      * unfold step; simpl. unfold fail, settle; simpl.
        rewrite calls_cons. simpl. rewrite <- !app_assoc.
        by rewrite calls_emits_nil.
  - intros n Hn. by rewrite (after_async_reject _ _ _ _ _ _ Hp Hn).
Qed.

Lemma sync_throw_run c ms api ls e :
  until_pause true (lift c) = (ls, PDone (Rejected e)) →
  (∀ n, calls (log (after n (SyncFn c :: ms) api)) = [EvEnter 0]) ∧
  (∀ n, outcome_of (after n (SyncFn c :: ms) api) = Some (Rejected e)).
Proof.
  intros Hp.
  assert (∀ n, after n (SyncFn c :: ms) api = start (SyncFn c :: ms) api) as Hn.
  { intros n. unfold after. apply steps_quiescent.
    by rewrite (start_sync_throw _ _ _ _ _ Hp). }
  split; intros n; rewrite Hn, (start_sync_throw _ _ _ _ _ Hp); simpl; [|done].
  by rewrite calls_cons, calls_emits_nil.
Qed.

(** * Single settlement *)

(** The outcomes with which [resolve] or [reject] of promise [p] were
    called, in order, and the outcomes with which [p] settled. *)
Definition signal_of (p : pref) (e : event) : option outcome :=
  match e with
  | EvSignal q o => if decide (q = p) then Some o else None
  | _ => None
  end.

Definition settlement_of (p : pref) (e : event) : option outcome :=
  match e with
  | EvSettled q o => if decide (q = p) then Some o else None
  | _ => None
  end.

Definition signals (p : pref) (l : list event) : list outcome := omap (signal_of p) l.
Definition settlements (p : pref) (l : list event) : list outcome := omap (settlement_of p) l.

(** The controlled promises of an [Executor]. *)
Definition controlled (p : pref) : bool :=
  match p with
  | IP _ | TP _ => true
  | _ => false
  end.

Definition settled_as (p : pref) (s : state) : option outcome :=
  match get_promise p s with
  | Some (Settled o) => Some o
  | _ => None
  end.

(** A controlled promise has settled at most once, as its first signal
    said. *)
Definition sig_ok (p : pref) (s : state) : Prop :=
  settlements p (log s) = take 1 (signals p (log s)) ∧
  settled_as p s = head (signals p (log s)).

Definition sig_inv (s : state) : Prop := ∀ p, controlled p = true → sig_ok p s.

Lemma signals_app p l1 l2 : signals p (l1 ++ l2) = signals p l1 ++ signals p l2.
Proof. apply omap_app. Qed.

Lemma settlements_app p l1 l2 :
  settlements p (l1 ++ l2) = settlements p l1 ++ settlements p l2.
Proof. apply omap_app. Qed.

Definition is_sig (e : event) : bool :=
  match e with
  | EvSignal _ _ | EvSettled _ _ => true
  | _ => false
  end.

Lemma sig_inv_same s s' :
  frames s' = frames s → log s' = log s → sig_inv s → sig_inv s'.
Proof.
  intros Hf Hl H p Hp. specialize (H p Hp).
  unfold sig_ok, settled_as, get_promise in *. by rewrite Hf, Hl.
Qed.

Lemma sig_inv_log s es :
  Forall (fun e => is_sig e = false) es →
  sig_inv s → sig_inv (mkState (frames s) (queue s) (log s ++ es)).
Proof.
  intros Hes H p Hp. specialize (H p Hp). unfold sig_ok in *. simpl.
  rewrite signals_app, settlements_app.
  assert (signals p es = [] ∧ settlements p es = []) as [-> ->].
  { induction Hes as [|e es He _ [IH1 IH2]]; [done|].
    unfold signals, settlements in *. cbn [omap list_omap].
    fold (omap (signal_of p) es). fold (omap (settlement_of p) es).
    rewrite IH1, IH2. by destruct e. }
  by rewrite !app_nil_r.
Qed.

Lemma sig_inv_emit e s : is_sig e = false → sig_inv s → sig_inv (emit e s).
Proof. intros He. apply sig_inv_log. by constructor. Qed.

Lemma sig_inv_emits w ls s : sig_inv s → sig_inv (emits w ls s).
Proof. apply sig_inv_log. induction ls; simpl; by constructor. Qed.

Lemma sig_inv_enqueue js s : sig_inv s → sig_inv (enqueue js s).
Proof. by apply sig_inv_same. Qed.

Lemma sig_inv_popped s : sig_inv s → sig_inv (popped s).
Proof. by apply sig_inv_same. Qed.

(** Writing a promise that is not controlled, or replacing the waiting
    reactions of a pending one. *)
Lemma sig_inv_set_promise p st s :
  (controlled p = false ∨ ∃ rs rs', get_promise p s = Some (Pending rs) ∧ st = Pending rs') →
  sig_inv s → sig_inv (set_promise p st s).
Proof.
  intros Hc H q Hq. specialize (H q Hq). unfold sig_ok, settled_as in *.
  simpl. rewrite get_set_promise. case_decide as Heq; [|done].
  subst q. destruct Hc as [Hc | (rs & rs' & Hget & ->)]; [congruence|].
  rewrite Hget in H.
  unfold get_promise in Hget. by destruct (frames s !! pref_frame p).
Qed.

Lemma sig_inv_settle p o s : sig_inv s → sig_inv (settle p o s).
Proof.
  intros H q Hq. specialize (H q Hq). unfold sig_ok, settled_as in *.
  rewrite get_promise_settle.
  destruct (get_promise p s) as [[rs|o']|] eqn:Hget.
  - rewrite (settle_pending _ _ rs) by done. simpl.
    rewrite signals_app, settlements_app. unfold signals at 2, settlements at 2. simpl.
    case_decide as Heq.
    + subst q. rewrite Hget in H. destruct H as [H1 H2].
      destruct (signals p (log s)); [|done]. simpl in *. by rewrite H1.
    + by rewrite !app_nil_r.
  - rewrite (settle_discarded _ _ o') by done. simpl.
    rewrite signals_app, settlements_app. unfold signals at 2, settlements at 2. simpl.
    case_decide as Heq; rewrite ?app_nil_r; [|done].
    subst q. rewrite Hget in H. destruct H as [H1 H2].
    destruct (signals p (log s)) as [|o1 l]; [done|]. simpl in *.
    rewrite H1, Hget. by rewrite !take_0.
  - by rewrite settle_missing.
Qed.

Lemma sig_inv_subscribe p r s : sig_inv s → sig_inv (subscribe p r s).
Proof.
  intros H. unfold subscribe.
  destruct (get_promise p s) as [[rs|o]|] eqn:Hget; [|by apply sig_inv_enqueue|done].
  apply sig_inv_set_promise; [|done]. right. by exists rs, (rs ++ [r]).
Qed.

Lemma sig_inv_fresh p s :
  controlled p = false → sig_inv s → sig_inv (set_promise p (Pending []) s).
Proof. intros Hp. apply sig_inv_set_promise. by left. Qed.

Lemma sig_inv_set_failed f s :
  sig_inv s → sig_inv (set_frames (alter set_failed f (frames s)) s).
Proof.
  intros H p Hp. specialize (H p Hp). unfold sig_ok, settled_as, get_promise in *.
  simpl. destruct (decide (f = pref_frame p)) as [->|Hne].
  - rewrite list_lookup_alter_eq. destruct (frames s !! pref_frame p); [|done].
    by destruct p.
  - by rewrite list_lookup_alter_ne.
Qed.

(** A new frame: its controlled promises are pending, and no signal can
    have been sent to them. *)
Lemma sig_inv_alloc fns api s :
  sig_inv s → sig_inv (set_frames (frames s ++ [new_Executor fns api]) s).
Proof.
  intros H p Hp. specialize (H p Hp). unfold sig_ok, settled_as, get_promise in *.
  simpl. destruct (decide (pref_frame p < length (frames s))) as [Hlt|Hge].
  - by rewrite lookup_app_l.
  - rewrite lookup_ge_None_2 in H by lia. simpl in H.
    destruct H as [H1 H2]. split; [done|]. rewrite <- H2.
    destruct (decide (pref_frame p = length (frames s))) as [Heq|Hne].
    + rewrite lookup_app_r, Heq, Nat.sub_diag by lia. by destruct p.
    + rewrite lookup_ge_None_2; [done|]. rewrite length_app. simpl. lia.
Qed.

Lemma sig_inv_exec w c s : sig_inv s → sig_inv (exec w c s).1.
Proof.
  intros H. unfold exec.
  destruct (until_pause (is_mw w) c) as [ls [o|k h|k|]]; simpl.
  - by apply sig_inv_emits.
  - by apply sig_inv_subscribe, sig_inv_emits.
  - by apply sig_inv_enqueue, sig_inv_emits.
  - by apply sig_inv_emits.
Qed.

Lemma sig_inv_resume w c s : sig_inv s → sig_inv (resume w c s).
Proof.
  intros H. unfold resume. pose proof (sig_inv_exec w c s H) as He.
  destruct (exec w c s) as [s' [o|]]; [|done]. by apply sig_inv_settle.
Qed.

Lemma controlled_result_of w : controlled (result_of w) = false.
Proof. by destruct w. Qed.

Lemma sig_inv_call_fn w g s : sig_inv s → sig_inv (call_fn w g s).1.
Proof.
  intros H. destruct g as [c|c]; simpl.
  - pose proof (sig_inv_exec w (lift c) s H) as He.
    by destruct (exec w (lift c) s) as [s' [[|e]|]].
  - apply sig_inv_resume, sig_inv_fresh; [apply controlled_result_of | done].
Qed.

Lemma sig_inv_run f s : sig_inv s → sig_inv (run f s).
Proof.
  intros H. unfold run, fail.
  destruct (frames s !! f) as [fr|]; [|done].
  destruct (currentFn fr) as [g|]; [|by apply sig_inv_settle].
  pose proof (sig_inv_call_fn (OMw f) g (emit (EvEnter f) s)) as Hc.
  destruct (call_fn (OMw f) g (emit (EvEnter f) s)) as [s' [isp|e]]; simpl in Hc.
  - apply sig_inv_enqueue. specialize (Hc (sig_inv_emit (EvEnter f) _ eq_refl H)).
    destruct isp; [by apply sig_inv_subscribe | done].
  - apply sig_inv_settle, sig_inv_emit; [done|]. by apply Hc, sig_inv_emit.
Qed.

Lemma sig_inv_finish f err s : sig_inv s → sig_inv (finish f err s).
Proof.
  intros H. unfold finish, succeed, fail.
  destruct (frames s !! f) as [fr|]; [|done].
  destruct (result fr), err as [e|]; try destruct (truthy e);
    by apply sig_inv_settle.
Qed.

Lemma sig_inv_runRemaining f s : sig_inv s → sig_inv (runRemaining f s).
Proof.
  intros H. unfold runRemaining.
  destruct (frames s !! f) as [fr|]; [|done].
  destruct (remaining fr) as [|m ms].
  - pose proof (sig_inv_call_fn (OHandler f) (apiRouteFn fr) (emit (EvTerminal f) s)) as Hc.
    specialize (Hc (sig_inv_emit (EvTerminal f) _ eq_refl H)).
    destruct (call_fn (OHandler f) (apiRouteFn fr) (emit (EvTerminal f) s))
      as [s' [[|]|e]]; simpl in Hc.
    + by apply sig_inv_subscribe.
    + by apply sig_inv_subscribe, sig_inv_settle, sig_inv_fresh.
    + by apply sig_inv_finish, sig_inv_emit.
  - by apply sig_inv_subscribe, sig_inv_run, sig_inv_alloc.
Qed.

Lemma sig_inv_react r o s : sig_inv s → sig_inv (react r o s).
Proof.
  intros H. unfold react, succeed, fail. destruct r as [f|f|f k h], o as [|e].
  - by apply sig_inv_settle.
  - by apply sig_inv_settle, sig_inv_set_failed.
  - by apply sig_inv_finish.
  - by apply sig_inv_finish.
  - by apply sig_inv_resume.
  - destruct h; [by apply sig_inv_resume | by apply sig_inv_settle].
Qed.

Lemma sig_inv_step s : sig_inv s → sig_inv (step s).
Proof.
  intros H. destruct (queue s) as [|j q] eqn:Hq; [by rewrite step_quiescent|].
  rewrite (step_popped j q) by done. apply sig_inv_popped in H.
  destruct j as [f|r o|w k]; simpl.
  - destruct (has_failed f (popped s)); [done | by apply sig_inv_runRemaining].
  - by apply sig_inv_react.
  - by apply sig_inv_resume.
Qed.

Lemma sig_inv_after n fns api : sig_inv (after n fns api).
Proof.
  unfold after. assert (sig_inv (start fns api)) as H.
  { apply sig_inv_run. intros p Hp. unfold sig_ok, settled_as, get_promise. simpl.
    destruct (pref_frame p) as [|i]; [by destruct p | done]. }
  generalize dependent (start fns api). induction n as [|n IH]; intros s Hs; [done|].
  simpl. by apply IH, sig_inv_step.
Qed.

(** The log only grows. *)
Definition log_grows (s s' : state) : Prop := ∃ es, log s' = log s ++ es.

Lemma log_grows_refl s : log_grows s s.
Proof. exists []. by rewrite app_nil_r. Qed.

Lemma log_grows_trans s1 s2 s3 : log_grows s1 s2 → log_grows s2 s3 → log_grows s1 s3.
Proof. intros [es1 H1] [es2 H2]. exists (es1 ++ es2). by rewrite H2, H1, app_assoc. Qed.

Lemma log_grows_quiet s s' : quiet s s' → log_grows s s'.
Proof. intros [_ [es [H _]] _ _]. by exists es. Qed.

Lemma log_grows_emit e s : log_grows s (emit e s).
Proof. by exists [e]. Qed.

Lemma log_grows_step s : log_grows s (step s).
Proof.
  destruct (queue s) as [|j q] eqn:Hq; [rewrite step_quiescent by done; apply log_grows_refl|].
  rewrite (step_popped j q) by done.
  apply (log_grows_trans _ (popped s)); [exists []; simpl; by rewrite app_nil_r|].
  destruct j as [f|r o|w k]; simpl.
  - destruct (has_failed f (popped s)); [apply log_grows_refl|].
    unfold runRemaining.
    destruct (frames (popped s) !! f) as [fr|] eqn:Hfr; [|apply log_grows_refl].
    destruct (remaining fr) as [|m ms] eqn:Hrem.
    + pose proof (runRemaining_last f (popped s) fr Hfr Hrem) as H.
      unfold runRemaining in H. rewrite Hfr, Hrem in H.
      eapply log_grows_trans; [apply (log_grows_emit (EvTerminal f))|].
      by apply log_grows_quiet.
    + eapply log_grows_trans; [|apply log_grows_quiet, quiet_subscribe].
      set (s1 := set_frames _ _).
      destruct (run_cases (length (frames (popped s))) s1
                  (new_Executor (m :: ms) (apiRouteFn fr)) m)
        as (s2 & Hq1 & [[e Hq2] | Hrun]).
      * subst s1. simpl. by rewrite lookup_app_r, Nat.sub_diag.
      * done.
      * apply (log_grows_trans _ (emit (EvEnter (length (frames (popped s)))) s1));
          [apply (log_grows_emit _ s1)|].
        apply (log_grows_trans _ s2); [by apply log_grows_quiet|].
        eapply log_grows_trans; [|by apply log_grows_quiet].
        apply log_grows_emit.
      * rewrite Hrun.
        apply (log_grows_trans _ (emit (EvEnter (length (frames (popped s)))) s1));
          [apply (log_grows_emit _ s1)|].
        apply (log_grows_trans _ s2); [by apply log_grows_quiet|].
        exists []. simpl. by rewrite app_nil_r.
  - apply log_grows_quiet, quiet_react.
  - apply log_grows_quiet, quiet_resume.
Qed.

Lemma log_grows_steps n s : log_grows s (steps n s).
Proof.
  revert s. induction n as [|n IH]; intros s; simpl; [apply log_grows_refl|].
  eapply log_grows_trans; [apply log_grows_step | apply IH].
Qed.

(** * Chains of plain middleware *)

(** ** One frame in the middle of the list of frames *)

Lemma lookup_focus (fs : list Executor) fr rest i :
  length fs = i → (fs ++ fr :: rest) !! i = Some fr.
Proof. intros <-. by apply list_lookup_middle. Qed.

Lemma alter_focus g (fs : list Executor) fr rest i :
  length fs = i → alter g i (fs ++ fr :: rest) = fs ++ g fr :: rest.
Proof.
  intros <-. replace (length fs) with (length fs + 0) by lia.
  by rewrite alter_app_r.
Qed.

Lemma get_promise_focus p fs fr rest q l :
  length fs = pref_frame p →
  get_promise p (mkState (fs ++ fr :: rest) q l) = read p fr.
Proof. intros H. unfold get_promise. simpl. by rewrite (lookup_focus _ _ _ _ H). Qed.

Lemma settle_focus p o rs fs fr rest q l :
  length fs = pref_frame p → read p fr = Some (Pending rs) →
  settle p o (mkState (fs ++ fr :: rest) q l) =
    mkState (fs ++ write p (Settled o) fr :: rest)
      (q ++ map (fun r => JReact r o) rs)
      (l ++ [EvSignal p o; EvSettled p o]).
Proof.
  intros Hlen Hread. rewrite (settle_pending _ _ rs).
  - simpl. by rewrite (alter_focus _ _ _ _ _ Hlen).
  - by rewrite get_promise_focus.
Qed.

Lemma subscribe_focus_pending p r rs fs fr rest q l :
  length fs = pref_frame p → read p fr = Some (Pending rs) →
  subscribe p r (mkState (fs ++ fr :: rest) q l) =
    mkState (fs ++ write p (Pending (rs ++ [r])) fr :: rest) q l.
Proof.
  intros Hlen Hread. unfold subscribe. rewrite get_promise_focus, Hread by done.
  unfold set_promise, set_frames. simpl. by rewrite (alter_focus _ _ _ _ _ Hlen).
Qed.

Lemma subscribe_focus_settled p r o fs fr rest q l :
  length fs = pref_frame p → read p fr = Some (Settled o) →
  subscribe p r (mkState (fs ++ fr :: rest) q l) =
    mkState (fs ++ fr :: rest) (q ++ [JReact r o]) l.
Proof.
  intros Hlen Hread. unfold subscribe. by rewrite get_promise_focus, Hread.
Qed.

(** ** The frames of plain middleware that wait for their remainder *)

(** The frame at position [i] is awaited by [runRemaining] of the frame
    before it. *)
Definition waiter (i : nat) : list reaction :=
  match i with
  | 0 => []
  | S j => [RRemaining j]
  end.

Definition plain_frame (fns : list fn) (api : fn) (ip : pstate) (i : nat) : Executor :=
  mkExecutor (fns !! i) (drop (S i) fns) api None ip (Pending []) false None.

Definition waiting_frame (fns : list fn) (api : fn) (i : nat) : Executor :=
  plain_frame fns api (Pending (waiter i)) i.

Definition waiting_stack (fns : list fn) (api : fn) (n : nat) : list Executor :=
  waiting_frame fns api <$> seq 0 n.

#[global] Arguments waiting_stack : simpl never.

Lemma length_waiting_stack fns api n : length (waiting_stack fns api n) = n.
Proof. unfold waiting_stack. by rewrite length_fmap, length_seq. Qed.

Lemma waiting_stack_S fns api n :
  waiting_stack fns api (S n) = waiting_stack fns api n ++ [waiting_frame fns api n].
Proof. unfold waiting_stack. by rewrite seq_S, fmap_app. Qed.

(** What a plain function does when called: its labels, and whether it
    returns or throws. *)
Definition plain_run (mw : bool) (c : scode) : list string * outcome :=
  match until_pause mw (lift c) with
  | (ls, PDone o) => (ls, o)
  | (ls, _) => (ls, Fulfilled)
  end.

Lemma plain_run_pause mw c ls o :
  plain_run mw c = (ls, o) → until_pause mw (lift c) = (ls, PDone o).
Proof.
  unfold plain_run. destruct (lift_done mw c) as (ls' & o' & ->). by intros [= -> ->].
Qed.

Lemma call_fn_plain w c s ls o :
  plain_run (is_mw w) c = (ls, o) →
  call_fn w (SyncFn c) s =
    (emits w ls s, match o with Fulfilled => Returned false | Rejected e => Threw e end).
Proof.
  intros H. apply plain_run_pause in H. simpl. unfold exec. rewrite H. by destruct o.
Qed.

(** [run] on a new last frame whose plain middleware returns. *)
Lemma run_plain_returns fs fns' api' q l c ls g :
  length fs = g → head fns' = Some (SyncFn c) →
  plain_run true c = (ls, Fulfilled) →
  run g (mkState (fs ++ [new_Executor fns' api']) q l) =
    mkState (fs ++ [new_Executor fns' api']) (q ++ [JCheck g])
      (l ++ EvEnter g :: map (EvEmit (OMw g)) ls).
Proof.
  intros Hlen Hhd Hrun. unfold run. simpl.
  rewrite (lookup_focus _ _ _ _ Hlen). simpl. rewrite Hhd.
  rewrite (call_fn_plain _ _ _ ls Fulfilled) by done.
  unfold enqueue, emits, emit. simpl. by rewrite <- app_assoc.
Qed.

(** ... and whose plain middleware throws. *)
Lemma run_plain_throws fs fns' api' q l c ls e g :
  length fs = g → head fns' = Some (SyncFn c) →
  plain_run true c = (ls, Rejected e) →
  run g (mkState (fs ++ [new_Executor fns' api']) q l) =
    mkState (fs ++ [write (IP g) (Settled (Rejected e)) (new_Executor fns' api')]) q
      (l ++ EvEnter g :: map (EvEmit (OMw g)) ls ++
         [EvThrew (OMw g) e; EvSignal (IP g) (Rejected e); EvSettled (IP g) (Rejected e)]).
Proof.
  intros Hlen Hhd Hrun. unfold run. simpl.
  rewrite (lookup_focus _ _ _ _ Hlen). simpl. rewrite Hhd.
  rewrite (call_fn_plain _ _ _ ls (Rejected e)) by done.
  unfold fail, emits, emit. simpl.
  rewrite (settle_focus _ _ []) by done. simpl.
  by rewrite ?Hhd, app_nil_r, <- !app_assoc.
Qed.

Lemma new_Executor_cons m ms api :
  new_Executor (m :: ms) api = mkExecutor (Some m) ms api None (Pending []) (Pending []) false None.
Proof. done. Qed.

Lemma has_failed_focus fs fr rest q l i :
  length fs = i →
  has_failed i (mkState (fs ++ fr :: rest) q l) = asyncMiddlewareFailed fr.
Proof. intros H. unfold has_failed. simpl. by rewrite (lookup_focus _ _ _ _ H). Qed.

Lemma runRemaining_focus_next fs fr rest q l i m ms :
  length fs = i → remaining fr = m :: ms →
  runRemaining i (mkState (fs ++ fr :: rest) q l) =
    subscribe (IP (length (fs ++ fr :: rest))) (RRemaining i)
      (run (length (fs ++ fr :: rest))
         (mkState ((fs ++ fr :: rest) ++ [new_Executor (m :: ms) (apiRouteFn fr)]) q l)).
Proof.
  intros H Hrem. unfold runRemaining. simpl.
  by rewrite (lookup_focus _ _ _ _ H), Hrem.
Qed.

Lemma step_cons j q fs l : step (mkState fs (j :: q) l) = run_job j (mkState fs q l).
Proof. done. Qed.

(** The microtask of [run] for the last of the waiting frames, when the
    next middleware is plain and returns. *)
Lemma step_plain_returns fns api j l c ls :
  fns !! S j = Some (SyncFn c) → plain_run true c = (ls, Fulfilled) →
  step (mkState (waiting_stack fns api (S j)) [JCheck j] l) =
    mkState (waiting_stack fns api (S (S j))) [JCheck (S j)]
      (l ++ EvEnter (S j) :: map (EvEmit (OMw (S j))) ls).
Proof.
  intros Hm Hrun. rewrite step_cons. cbn [run_job].
  rewrite waiting_stack_S.
  rewrite (has_failed_focus _ _ _ _ _ _ (length_waiting_stack _ _ _)).
  cbn [waiting_frame plain_frame asyncMiddlewareFailed].
  rewrite (runRemaining_focus_next _ _ _ _ _ _ (SyncFn c) (drop (S (S j)) fns)
             (length_waiting_stack _ _ _));
    [|cbn [remaining]; by apply drop_S].
  rewrite <- waiting_stack_S, length_waiting_stack.
  rewrite (run_plain_returns _ _ _ _ _ c ls (S j));
    [|apply length_waiting_stack|done|done].
  rewrite (subscribe_focus_pending _ _ []); [|apply length_waiting_stack|done].
  rewrite (waiting_stack_S _ _ (S j)).
  unfold waiting_frame, plain_frame. simpl. by rewrite Hm.
Qed.

(** ... and when it throws. *)
Lemma step_plain_throws fns api j l c ls e :
  fns !! S j = Some (SyncFn c) → plain_run true c = (ls, Rejected e) →
  step (mkState (waiting_stack fns api (S j)) [JCheck j] l) =
    mkState (waiting_stack fns api (S j) ++
               [plain_frame fns api (Settled (Rejected e)) (S j)])
      [JReact (RRemaining j) (Rejected e)]
      (l ++ EvEnter (S j) :: map (EvEmit (OMw (S j))) ls ++
         [EvThrew (OMw (S j)) e;
          EvSignal (IP (S j)) (Rejected e); EvSettled (IP (S j)) (Rejected e)]).
Proof.
  intros Hm Hrun. rewrite step_cons. cbn [run_job].
  rewrite waiting_stack_S.
  rewrite (has_failed_focus _ _ _ _ _ _ (length_waiting_stack _ _ _)).
  cbn [waiting_frame plain_frame asyncMiddlewareFailed].
  rewrite (runRemaining_focus_next _ _ _ _ _ _ (SyncFn c) (drop (S (S j)) fns)
             (length_waiting_stack _ _ _));
    [|cbn [remaining]; by apply drop_S].
  rewrite <- waiting_stack_S, length_waiting_stack.
  rewrite (run_plain_throws _ _ _ _ _ c ls e (S j));
    [|apply length_waiting_stack|done|done].
  rewrite (subscribe_focus_settled _ _ (Rejected e)); [|apply length_waiting_stack|done].
  simpl. unfold plain_frame. by rewrite Hm.
Qed.

(** How [finish] reads an error: a falsy one counts as none. *)
Definition as_finished (o : outcome) : outcome :=
  match o with
  | Fulfilled => Fulfilled
  | Rejected e => if truthy e then Rejected e else Fulfilled
  end.

Lemma as_finished_idemp o : as_finished (as_finished o) = as_finished o.
Proof. destruct o as [|e]; [done|]. simpl. destruct (truthy e) eqn:E; simpl; by rewrite ?E. Qed.

Definition error_outcome (err : option value) : outcome :=
  match err with
  | Some e => Rejected e
  | None => Fulfilled
  end.

Lemma finish_focus fs fr rest q l i err :
  length fs = i →
  finish i err (mkState (fs ++ fr :: rest) q l) =
    settle (match result fr with Some _ => TP i | None => IP i end)
      (as_finished (error_outcome err)) (mkState (fs ++ fr :: rest) q l).
Proof.
  intros H. unfold finish. cbn [frames]. rewrite (lookup_focus _ _ _ _ H).
  unfold fail, succeed.
  destruct (result fr), err as [e|]; simpl; try done; by destruct (truthy e).
Qed.

Lemma react_remaining f o s :
  react (RRemaining f) o s = finish f (match o with Fulfilled => None | Rejected e => Some e end) s.
Proof. by destruct o. Qed.

(** The remainder of the plain frame [j] has settled as [o]: the frame
    settles in the same way, and wakes the frame before it. *)
Lemma step_plain_unwinds fns api j rest l o :
  step (mkState (waiting_stack fns api (S j) ++ rest) [JReact (RRemaining j) o] l) =
    mkState (waiting_stack fns api j ++ plain_frame fns api (Settled (as_finished o)) j :: rest)
      (map (fun r => JReact r (as_finished o)) (waiter j))
      (l ++ [EvSignal (IP j) (as_finished o); EvSettled (IP j) (as_finished o)]).
Proof.
  rewrite step_cons. cbn [run_job]. rewrite react_remaining.
  rewrite waiting_stack_S, <- app_assoc. cbn [app].
  rewrite (finish_focus _ _ _ _ _ _ _ (length_waiting_stack _ _ _)).
  cbn [waiting_frame plain_frame result].
  rewrite (settle_focus _ _ (waiter j)); [|apply length_waiting_stack|done].
  by destruct o.
Qed.

(** A plain middleware whose call returns without throwing. *)
Definition returns_plainly (g : fn) : bool :=
  match g with
  | SyncFn c => match (plain_run true c).2 with Fulfilled => true | Rejected _ => false end
  | AsyncFn _ => false
  end.

(** A plain body that returns without throwing, [called] telling whether
    the continuation has been invoked without an error on the way. *)
Fixpoint returns_after_next (called : bool) (c : scode) : bool :=
  match c with
  | SReturn => called
  | SThrow _ => false
  | SEmit _ k => returns_after_next called k
  | SCallNext arg k h =>
      if truthy arg then
        match h with
        | Some hd => returns_after_next called (hd arg)
        | None => false
        end
      else returns_after_next true k
  end.

(** The middleware of the ordering property: plain, calls the
    continuation during its call, and returns without throwing. *)
Definition calls_next_plainly (g : fn) : bool :=
  match g with
  | SyncFn c => returns_after_next false c
  | AsyncFn _ => false
  end.

Lemma returns_after_next_run called c :
  returns_after_next called c = true → (plain_run true c).2 = Fulfilled.
Proof.
  revert called.
  induction c as [|e|l k IH|arg k IH|arg k hd IH IHh] using scode_induction;
    intros called; unfold plain_run in *; simpl; try done.
  - intros H. specialize (IH _ H). by destruct (until_pause true (lift k)) as [ls []].
  - destruct (truthy arg); [done | apply IH].
  - destruct (truthy arg); [apply IHh | apply IH].
Qed.

Lemma calls_next_returns g : calls_next_plainly g = true → returns_plainly g = true.
Proof.
  destruct g as [c|c]; [|done]. simpl. intros H.
  by rewrite (returns_after_next_run _ _ H).
Qed.

Lemma returns_plainly_inv g :
  returns_plainly g = true → ∃ c ls, g = SyncFn c ∧ plain_run true c = (ls, Fulfilled).
Proof.
  destruct g as [c|c]; [|done]. simpl.
  destruct (plain_run true c) as [ls [|e]] eqn:E; [|done]. intros _. by exists c, ls.
Qed.

Lemma start_plain_returns g ms api c ls :
  g = SyncFn c → plain_run true c = (ls, Fulfilled) →
  start (g :: ms) api =
    mkState (waiting_stack (g :: ms) api 1) [JCheck 0] (EvEnter 0 :: map (EvEmit (OMw 0)) ls).
Proof.
  intros -> Hrun. unfold start.
  change [new_Executor (SyncFn c :: ms) api] with ([] ++ [new_Executor (SyncFn c :: ms) api]).
  by rewrite (run_plain_returns [] _ _ _ _ c ls 0).
Qed.

(** While the middleware are plain and return, each microtask enters the
    next one. *)
Lemma plain_prefix_runs fns api k :
  (∀ i, i ≤ k → ∃ g, fns !! i = Some g ∧ returns_plainly g = true) →
  ∃ l, after k fns api = mkState (waiting_stack fns api (S k)) [JCheck k] l.
Proof.
  induction k as [|k IH]; intros H.
  - destruct (H 0) as (g & Hg & Hr); [lia|].
    destruct fns as [|g' ms]; [done|]. simpl in Hg. injection Hg as ->.
    destruct (returns_plainly_inv _ Hr) as (c & ls & Hc & Hrun).
    eexists. unfold after. simpl. by apply (start_plain_returns _ _ _ c ls).
  - destruct IH as [l Hl]; [intros i Hi; apply H; lia|].
    destruct (H (S k)) as (g & Hg & Hr); [lia|].
    destruct (returns_plainly_inv _ Hr) as (c & ls & -> & Hrun).
    eexists. rewrite after_S, Hl. by apply (step_plain_returns _ _ _ _ c ls).
Qed.

(** The failure, or success, of the remainder of plain frame [j] passes
    through all the plain frames before it and becomes the outcome. *)
Lemma plain_frames_unwind fns api j rest l o :
  ∃ rest' l',
    steps (S j) (mkState (waiting_stack fns api (S j) ++ rest) [JReact (RRemaining j) o] l) =
      mkState (plain_frame fns api (Settled (as_finished o)) 0 :: rest') [] l'.
Proof.
  revert rest l o. induction j as [|j IH]; intros rest l o.
  - do 2 eexists. cbn [steps]. rewrite step_plain_unwinds. done.
  - cbn [steps]. rewrite step_plain_unwinds. cbn [waiter map].
    destruct (IH (plain_frame fns api (Settled (as_finished o)) (S j) :: rest)
                (l ++ [EvSignal (IP (S j)) (as_finished o); EvSettled (IP (S j)) (as_finished o)])
                (as_finished o)) as (rest' & l' & Hs).
    exists rest', l'. cbn [steps] in Hs. rewrite Hs. by rewrite as_finished_idemp.
Qed.

Lemma plain_prefix_then_throw pre c post api ls e :
  Forall (fun g => returns_plainly g = true) pre →
  plain_run true c = (ls, Rejected e) →
  pre = [] ∨ truthy e = true →
  ∀ n, 2 * length pre ≤ n →
    outcome_of (after n (pre ++ SyncFn c :: post) api) = Some (Rejected e).
Proof.
  intros Hpre Hrun He n Hn.
  destruct pre as [|g0 pre'].
  - simpl. apply plain_run_pause in Hrun.
    by destruct (sync_throw_run c post api ls e Hrun) as [_ H].
  - destruct He as [|He]; [done|].
    set (fns := (g0 :: pre') ++ SyncFn c :: post) in *.
    set (k := length pre').
    destruct (plain_prefix_runs fns api k) as [l Hl].
    { intros i Hi. rewrite Forall_lookup in Hpre.
      destruct (lookup_lt_is_Some_2 (g0 :: pre') i) as [g Hg]; [simpl; lia|].
      exists g. split; [|by eapply Hpre].
      unfold fns. by rewrite lookup_app_l by (simpl; lia). }
    assert (fns !! S k = Some (SyncFn c)) as Hc.
    { unfold fns. by apply list_lookup_middle. }
    pose proof (step_plain_throws fns api k l c ls e Hc Hrun) as Hthrow.
    rewrite <- Hl, <- after_S in Hthrow.
    destruct (plain_frames_unwind fns api k
                [plain_frame fns api (Settled (Rejected e)) (S k)]
                (l ++ EvEnter (S k) :: map (EvEmit (OMw (S k))) ls ++
                   [EvThrew (OMw (S k)) e;
                    EvSignal (IP (S k)) (Rejected e); EvSettled (IP (S k)) (Rejected e)])
                (Rejected e)) as (rest' & l' & Hunwind).
    rewrite <- Hthrow, <- after_add in Hunwind.
    replace n with ((S k + S k) + (n - (S k + S k))) by (simpl in Hn; lia).
    rewrite after_add, Hunwind, steps_quiescent by done.
    unfold outcome_of, get_promise. simpl. by rewrite He.
Qed.

Definition passing_mw : fn := SyncFn (SEmit "pass" (SCallNext VUndefined SReturn None)).

(** The ordering property for a list that is not empty: plain middleware
    that all call the continuation and return are entered in list order,
    and then the handler is invoked, once. *)
Lemma ordering_of_plain_chain fns api :
  fns ≠ [] →
  Forall (fun g => calls_next_plainly g = true) fns →
  ∀ n, length fns ≤ n →
    calls (log (after n fns api)) =
      map EvEnter (seq 0 (length fns)) ++ [EvTerminal (pred (length fns))].
Proof.
  intros Hne Hall n Hn.
  set (k := pred (length fns)).
  assert (0 < length fns) as Hpos by (destruct fns; [done | simpl; lia]).
  destruct (plain_prefix_runs fns api k) as [l Hl].
  { intros i Hi. rewrite Forall_lookup in Hall.
    destruct (lookup_lt_is_Some_2 fns i) as [g Hg]; [lia|].
    exists g. split; [done|]. by eapply calls_next_returns, Hall. }
  assert (EvTerminal k ∈ loud (after (S k) fns api)) as Hterm.
  { rewrite after_S, Hl, step_cons. cbn [run_job].
    rewrite waiting_stack_S.
    rewrite (has_failed_focus _ _ _ _ _ _ (length_waiting_stack _ _ _)).
    cbn [waiting_frame plain_frame asyncMiddlewareFailed].
    erewrite quiet_loud; [|eapply runRemaining_last].
    - rewrite loud_emit. simpl. rewrite elem_of_app. right. apply list_elem_of_singleton. done.
    - simpl. by apply lookup_focus, length_waiting_stack.
    - simpl. apply drop_ge. lia. }
  destruct (call_inv_after (S k) fns api Hne) as [_ _ _ (t & Hld & Htail)].
  rewrite Hld, elem_of_app, list_elem_of_fmap in Hterm.
  destruct Hterm as [(i & [=] & _)|Hterm].
  inversion Htail as [Hj Ht | Hj Ht | Hlen Hj Ht | e' Hj Ht]; subst t;
    try (by apply elem_of_nil in Hterm);
    apply list_elem_of_singleton in Hterm; try discriminate.
  replace n with (S k + (n - S k)) by lia. rewrite after_add.
  destruct (frozen_steps (n - S k) (after (S k) fns api)) as (_ & Hld' & _); [done|].
  rewrite calls_loud, Hld', Hld, filter_app, calls_enter, Hlen.
  by rewrite filter_cons_True.
Qed.

(** * Teardown and the remainder *)

(** The remainder of frame [f] has settled as [o]: the outcome of the
    next frame, or the promise that [runRemaining] awaits after calling
    the handler, or the handler threw during its call. *)
Definition remainder_outcome (f : nat) (o : outcome) (s : state) : Prop :=
  settled_as (IP (S f)) s = Some o ∨
  EvSettled (HP f) o ∈ log s ∨
  ∃ e, o = Rejected e ∧ EvThrew (OHandler f) e ∈ log s.

(** Where a reaction may wait. *)
Definition placed (r : reaction) (p : pref) : Prop :=
  match r with
  | RResult f => p = RP f
  | RRemaining f => p = HP f ∨ p = IP (S f)
  | RHandle f _ _ => p = TP f
  end.

Record rem_inv (s : state) : Prop := mk_rem_inv {
  ri_teardown : ∀ f o, settled_as (TP f) s = Some o →
                  ∃ o0, remainder_outcome f o0 s ∧ o = as_finished o0;
  ri_job : ∀ f o, JReact (RRemaining f) o ∈ queue s → remainder_outcome f o s;
  ri_handle : ∀ f k h o, JReact (RHandle f k h) o ∈ queue s → settled_as (TP f) s = Some o;
  ri_placed : ∀ p rs r, get_promise p s = Some (Pending rs) → r ∈ rs → placed r p;
  ri_logged : ∀ p o, get_promise p s = Some (Settled o) → EvSettled p o ∈ log s
}.

(** From [s] to [s'] the settled controlled promises and the log are
    kept. *)
Definition keeps (s s' : state) : Prop :=
  (∀ p o, controlled p = true → settled_as p s = Some o → settled_as p s' = Some o) ∧
  (∀ e, e ∈ log s → e ∈ log s').

Lemma remainder_outcome_keeps f o s s' :
  keeps s s' → remainder_outcome f o s → remainder_outcome f o s'.
Proof.
  intros [Hp Hl] [H | [H | (e & -> & H)]].
  - left. by apply Hp.
  - right; left. by apply Hl.
  - right; right. exists e. split; [done|]. by apply Hl.
Qed.

Lemma settled_as_Some p s o :
  settled_as p s = Some o ↔ get_promise p s = Some (Settled o).
Proof.
  unfold settled_as. destruct (get_promise p s) as [[rs|o']|]; split; intros; simplify_eq; done.
Qed.

Lemma keeps_log s es : keeps s (mkState (frames s) (queue s) (log s ++ es)).
Proof. split; [done|]. intros e He. simpl. apply elem_of_app. by left. Qed.

Lemma keeps_queue s q : keeps s (mkState (frames s) q (log s)).
Proof. by split. Qed.

Lemma rem_inv_log s es : rem_inv s → rem_inv (mkState (frames s) (queue s) (log s ++ es)).
Proof.
  intros [H1 H2 H3 H4 H5]. pose proof (keeps_log s es) as Hk. split.
  - intros f o Ho. destruct (H1 f o Ho) as (o0 & Hr & ->).
    exists o0. split; [|done]. by eapply remainder_outcome_keeps.
  - intros f o Hj. eapply remainder_outcome_keeps; [done|]. by apply H2.
  - done.
  - done.
  - intros p o Hp. simpl. apply elem_of_app. left. by apply H5.
Qed.

Lemma rem_inv_emit e s : rem_inv s → rem_inv (emit e s).
Proof. apply rem_inv_log. Qed.

Lemma rem_inv_emits w ls s : rem_inv s → rem_inv (emits w ls s).
Proof. apply rem_inv_log. Qed.

(** What a job to be queued must satisfy. *)
Definition job_ok (s : state) (j : job) : Prop :=
  match j with
  | JReact (RRemaining f) o => remainder_outcome f o s
  | JReact (RHandle f _ _) o => settled_as (TP f) s = Some o
  | _ => True
  end.

Lemma rem_inv_enqueue js s :
  Forall (job_ok s) js → rem_inv s → rem_inv (enqueue js s).
Proof.
  intros Hjs [H1 H2 H3 H4 H5]. rewrite Forall_forall in Hjs. split.
  - done.
  - intros f o Hj. simpl in Hj. apply elem_of_app in Hj as [Hj|Hj].
    + by apply H2.
    + by apply (Hjs _ Hj).
  - intros f k h o Hj. simpl in Hj. apply elem_of_app in Hj as [Hj|Hj].
    + by eapply H3.
    + by apply (Hjs _ Hj).
  - done.
  - done.
Qed.

Lemma rem_inv_popped s : rem_inv s → rem_inv (popped s).
Proof.
  intros [H1 H2 H3 H4 H5].
  assert (∀ j, j ∈ tail (queue s) → j ∈ queue s) as Hin.
  { intros j Hj. destruct (queue s); [done|]. by apply elem_of_cons; right. }
  split.
  - done.
  - intros f o Hj. apply H2. by apply Hin.
  - intros f k h o Hj. apply (H3 f k h o). by apply Hin.
  - done.
  - done.
Qed.

Lemma rem_inv_set_pending p rs' s :
  controlled p = false ∨ (∃ rs, get_promise p s = Some (Pending rs)) →
  (∀ r, r ∈ rs' → placed r p) →
  rem_inv s → rem_inv (set_promise p (Pending rs') s).
Proof.
  intros Hp Hrs' [H1 H2 H3 H4 H5].
  assert (∀ q o, controlled q = true → settled_as q s = Some o → p ≠ q) as Hne.
  { intros q o Hq Ho ->. apply settled_as_Some in Ho.
    destruct Hp as [Hp | [rs Hp]]; congruence. }
  assert (keeps s (set_promise p (Pending rs') s)) as Hk.
  { split; [|done]. intros q o Hq Ho. unfold settled_as.
    rewrite get_set_promise_ne by (by eapply Hne). done. }
  split.
  - intros f o Ho.
    assert (settled_as (TP f) s = Some o) as Ho'.
    { unfold settled_as in Ho. rewrite get_set_promise in Ho.
      case_decide; [|done]. by destruct (frames s !! pref_frame p). }
    destruct (H1 f o Ho') as (o0 & Hr & ->).
    exists o0. split; [|done]. by eapply remainder_outcome_keeps.
  - intros f o Hj. eapply remainder_outcome_keeps; [done|]. by apply H2.
  - intros f k h o Hj. apply (proj1 Hk); [done|]. by eapply H3.
  - intros q rs r Hq Hr. rewrite get_set_promise in Hq. case_decide as Heq.
    + subst q. destruct (frames s !! pref_frame p); [|done]. simplify_eq. by apply Hrs'.
    + by eapply H4.
  - intros q o Hq. rewrite get_set_promise in Hq. case_decide as Heq.
    + by destruct (frames s !! pref_frame p).
    + by apply H5.
Qed.

Lemma keeps_settle p o s : keeps s (settle p o s).
Proof.
  split.
  - intros q o' Hq Ho. apply settled_as_Some in Ho. apply settled_as_Some.
    rewrite get_promise_settle.
    destruct (get_promise p s) as [[rs|?]|] eqn:Hp; try done.
    case_decide; [congruence | done].
  - intros e He. destruct (log_grows_quiet _ _ (quiet_settle p o s)) as [es ->].
    apply elem_of_app. by left.
Qed.

(** Settling a promise; a teardown promise only once the remainder of
    its frame has settled, and in the way [finish] reads that. *)
Lemma rem_inv_settle p o s :
  (∀ f, p = TP f → ∃ o0, remainder_outcome f o0 s ∧ o = as_finished o0) →
  rem_inv s → rem_inv (settle p o s).
Proof.
  intros Htp Hinv. pose proof (keeps_settle p o s) as Hk.
  destruct (get_promise p s) as [[rs|o']|] eqn:Hp.
  2:{ rewrite (settle_discarded _ _ o') by done. by apply rem_inv_emit. }
  2:{ by rewrite settle_missing. }
  destruct Hinv as [H1 H2 H3 H4 H5].
  assert (settled_as p (settle p o s) = Some o) as Hnew.
  { apply settled_as_Some. by rewrite get_promise_settle, Hp, decide_True. }
  assert (EvSettled p o ∈ log (settle p o s)) as Hlog.
  { rewrite (settle_pending _ _ rs) by done. simpl.
    apply elem_of_app. right. apply elem_of_cons. right. by apply list_elem_of_singleton. }
  assert (queue (settle p o s) = queue s ++ map (fun r => JReact r o) rs) as Hqueue.
  { by rewrite (settle_pending _ _ rs). }
  split.
  - intros f o1 Ho1. destruct (decide (p = TP f)) as [->|Hne].
    + rewrite Hnew in Ho1. injection Ho1 as <-.
      destruct (Htp f eq_refl) as (o0 & Hr & ->).
      exists o0. split; [|done]. by eapply remainder_outcome_keeps.
    + assert (settled_as (TP f) s = Some o1) as Ho'.
      { unfold settled_as in *. rewrite get_promise_settle, Hp, decide_False in Ho1; done. }
      destruct (H1 f o1 Ho') as (o0 & Hr & ->).
      exists o0. split; [|done]. by eapply remainder_outcome_keeps.
  - intros f o1 Hj. rewrite Hqueue in Hj. apply elem_of_app in Hj as [Hj|Hj].
    + eapply remainder_outcome_keeps; [done|]. by apply H2.
    + apply list_elem_of_fmap in Hj as (r & [= <- <-] & Hr).
      destruct (H4 _ _ _ Hp Hr) as [-> | ->].
      * right; left. done.
      * by left.
  - intros f k h o1 Hj. rewrite Hqueue in Hj. apply elem_of_app in Hj as [Hj|Hj].
    + apply (proj1 Hk); [done|]. by eapply H3.
    + apply list_elem_of_fmap in Hj as (r & [= <- <-] & Hr).
      by rewrite <- (H4 _ _ _ Hp Hr).
  - intros q rs1 r Hq Hr. rewrite get_promise_settle, Hp in Hq.
    case_decide; [done|]. by eapply H4.
  - intros q o1 Hq. rewrite get_promise_settle, Hp in Hq. case_decide as Heq.
    + by simplify_eq.
    + apply (proj2 Hk). by apply H5.
Qed.

Lemma rem_inv_subscribe p r s :
  placed r p → rem_inv s → rem_inv (subscribe p r s).
Proof.
  intros Hpl Hinv. unfold subscribe.
  destruct (get_promise p s) as [[rs|o]|] eqn:Hp; [| |done].
  - apply rem_inv_set_pending; [right; by exists rs| |done].
    intros r' Hr'. apply elem_of_app in Hr' as [Hr'|Hr'].
    + by eapply (ri_placed _ Hinv).
    + apply list_elem_of_singleton in Hr'. by subst.
  - apply rem_inv_enqueue; [|done]. constructor; [|done].
    destruct r as [f|f|f k h]; simpl in *; [done| |].
    + destruct Hpl as [-> | ->].
      * right; left. by apply (ri_logged _ Hinv).
      * left. by apply settled_as_Some.
    + subst p. by apply settled_as_Some.
Qed.

Lemma get_promise_alloc q fr s :
  get_promise q (set_frames (frames s ++ [fr]) s) =
    if decide (pref_frame q = length (frames s)) then read q fr else get_promise q s.
Proof.
  unfold get_promise. simpl. case_decide as Heq.
  - by rewrite Heq, lookup_app_r, Nat.sub_diag.
  - destruct (decide (pref_frame q < length (frames s))).
    + by rewrite lookup_app_l.
    + rewrite !lookup_ge_None_2; [done|lia|]. rewrite length_app. simpl. lia.
Qed.

Lemma rem_inv_alloc fns api s :
  rem_inv s → rem_inv (set_frames (frames s ++ [new_Executor fns api]) s).
Proof.
  intros [H1 H2 H3 H4 H5].
  set (s' := set_frames _ s).
  assert (∀ q o, settled_as q s' = Some o ↔ settled_as q s = Some o) as Hs.
  { intros q o. unfold settled_as, s'. rewrite get_promise_alloc.
    case_decide as Heq; [|done].
    assert (get_promise q s = None) as ->.
    { unfold get_promise. by rewrite lookup_ge_None_2 by lia. }
    by destruct q. }
  assert (keeps s s') as Hk.
  { split; [|done]. intros q o _. by apply Hs. }
  split.
  - intros f o Ho. apply Hs in Ho. destruct (H1 f o Ho) as (o0 & Hr & ->).
    exists o0. split; [|done]. by eapply remainder_outcome_keeps.
  - intros f o Hj. eapply remainder_outcome_keeps; [done|]. by apply H2.
  - intros f k h o Hj. apply Hs. by eapply H3.
  - intros q rs r Hq Hr. unfold s' in Hq. rewrite get_promise_alloc in Hq.
    case_decide; [|by eapply H4]. destruct q; simpl in Hq; simplify_eq;
      by apply elem_of_nil in Hr.
  - intros q o Hq. apply settled_as_Some, Hs, settled_as_Some in Hq. by apply H5.
Qed.

Lemma get_promise_set_failed q f s :
  get_promise q (set_frames (alter set_failed f (frames s)) s) = get_promise q s.
Proof.
  unfold get_promise. simpl. destruct (decide (f = pref_frame q)) as [->|Hne].
  - rewrite list_lookup_alter_eq. destruct (frames s !! pref_frame q); [|done].
    by destruct q.
  - by rewrite list_lookup_alter_ne.
Qed.

Lemma rem_inv_set_failed f s :
  rem_inv s → rem_inv (set_frames (alter set_failed f (frames s)) s).
Proof.
  intros [H1 H2 H3 H4 H5].
  split.
  - intros g o Ho. unfold settled_as in Ho. rewrite get_promise_set_failed in Ho.
    destruct (H1 g o Ho) as (o0 & Hro & ->). exists o0. split; [|done].
    unfold remainder_outcome, settled_as in *. by rewrite get_promise_set_failed.
  - intros g o Hj. specialize (H2 g o Hj).
    unfold remainder_outcome, settled_as in *. by rewrite get_promise_set_failed.
  - intros g k h o Hj. unfold settled_as. rewrite get_promise_set_failed. by eapply H3.
  - intros q rs r Hq. rewrite get_promise_set_failed in Hq. by eapply H4.
  - intros q o Hq. rewrite get_promise_set_failed in Hq. by apply H5.
Qed.

Lemma rem_inv_exec w c s : rem_inv s → rem_inv (exec w c s).1.
Proof.
  intros H. unfold exec.
  destruct (until_pause (is_mw w) c) as [ls [o|k h|k|]]; simpl.
  - by apply rem_inv_emits.
  - apply rem_inv_subscribe; [done | by apply rem_inv_emits].
  - apply rem_inv_enqueue; [by repeat constructor | by apply rem_inv_emits].
  - by apply rem_inv_emits.
Qed.

Lemma result_of_not_teardown w f : result_of w ≠ TP f.
Proof. by destruct w. Qed.

Lemma rem_inv_resume w c s : rem_inv s → rem_inv (resume w c s).
Proof.
  intros H. unfold resume. pose proof (rem_inv_exec w c s H) as He.
  destruct (exec w c s) as [s' [o|]]; [|done].
  apply rem_inv_settle; [|done]. intros f Hf. by destruct (result_of_not_teardown w f).
Qed.

Lemma rem_inv_call_fn w g s : rem_inv s → rem_inv (call_fn w g s).1.
Proof.
  intros H. destruct g as [c|c]; simpl.
  - pose proof (rem_inv_exec w (lift c) s H) as He.
    by destruct (exec w (lift c) s) as [s' [[|e]|]].
  - apply rem_inv_resume, rem_inv_set_pending; [|by intros r Hr; apply elem_of_nil in Hr|done].
    left. apply controlled_result_of.
Qed.

Lemma rem_inv_run f s : rem_inv s → rem_inv (run f s).
Proof.
  intros H. unfold run, fail.
  destruct (frames s !! f) as [fr|]; [|done].
  destruct (currentFn fr) as [g|]; [|by apply rem_inv_settle].
  pose proof (rem_inv_call_fn (OMw f) g (emit (EvEnter f) s)) as Hc.
  specialize (Hc (rem_inv_emit _ _ H)).
  destruct (call_fn (OMw f) g (emit (EvEnter f) s)) as [s' [isp|e]]; simpl in Hc.
  - apply rem_inv_enqueue; [by repeat constructor|].
    destruct isp; [by apply rem_inv_subscribe | done].
  - apply rem_inv_settle; [done|]. by apply rem_inv_emit.
Qed.

Lemma finish_settle f err s :
  finish f err s =
    match frames s !! f with
    | None => s
    | Some fr =>
        settle (match result fr with Some _ => TP f | None => IP f end)
          (as_finished (error_outcome err)) s
    end.
Proof.
  unfold finish, succeed, fail. destruct (frames s !! f) as [fr|]; [|done].
  destruct (result fr), err as [e|]; simpl; try done; by destruct (truthy e).
Qed.

(** [finish] runs once the remainder has settled, as [err] says. *)
Lemma rem_inv_finish f err s :
  remainder_outcome f (error_outcome err) s → rem_inv s → rem_inv (finish f err s).
Proof.
  intros Hr H. rewrite finish_settle.
  destruct (frames s !! f) as [fr|]; [|done].
  apply rem_inv_settle; [|done]. intros g Hg.
  destruct (result fr); [|done]. injection Hg as <-.
  by exists (error_outcome err).
Qed.

(** [runRemaining] is called for the last frame. *)
Lemma rem_inv_runRemaining f s :
  S f = length (frames s) → rem_inv s → rem_inv (runRemaining f s).
Proof.
  intros Hlast H. unfold runRemaining.
  destruct (frames s !! f) as [fr|]; [|done].
  destruct (remaining fr) as [|m ms].
  - pose proof (rem_inv_call_fn (OHandler f) (apiRouteFn fr) (emit (EvTerminal f) s)) as Hc.
    specialize (Hc (rem_inv_emit _ _ H)).
    destruct (call_fn (OHandler f) (apiRouteFn fr) (emit (EvTerminal f) s))
      as [s' [[|]|e]]; simpl in Hc.
    + apply rem_inv_subscribe; [by left | done].
    + apply rem_inv_subscribe; [by left|].
      apply rem_inv_settle; [done|].
      apply rem_inv_set_pending; [by left | by intros r Hr; apply elem_of_nil in Hr | done].
    + apply rem_inv_finish; [|by apply rem_inv_emit].
      right; right. exists e. split; [done|]. simpl.
      apply elem_of_app. right. by apply list_elem_of_singleton.
  - apply rem_inv_subscribe; [right; by rewrite Hlast|].
    by apply rem_inv_run, rem_inv_alloc.
Qed.

Lemma rem_inv_react r o s :
  job_ok s (JReact r o) → rem_inv s → rem_inv (react r o s).
Proof.
  intros Hj H. destruct r as [f|f|f k h].
  - destruct o as [|e]; simpl; unfold succeed, fail.
    + by apply rem_inv_settle.
    + apply rem_inv_settle; [done|]. by apply rem_inv_set_failed.
  - rewrite react_remaining. apply rem_inv_finish; [|done]. simpl in Hj. by destruct o.
  - destruct o as [|e]; simpl.
    + by apply rem_inv_resume.
    + destruct h; [by apply rem_inv_resume|].
      by apply rem_inv_settle.
Qed.

Lemma rem_inv_step fns api s :
  call_inv fns api s → rem_inv s → rem_inv (step s).
Proof.
  intros Hc H. destruct (queue s) as [|j q] eqn:Hq; [by rewrite step_quiescent|].
  rewrite (step_popped j q) by done.
  pose proof (rem_inv_popped s H) as Hp.
  destruct j as [f|r o|w k]; simpl.
  - destruct (has_failed f (popped s)); [done|].
    apply rem_inv_runRemaining; [|done]. simpl.
    destruct Hc as [Hpos _ _ (t & _ & Htail)].
    rewrite (jchecks_popped _ _ _ Hq) in Htail. simpl in Htail.
    inversion Htail. lia.
  - apply rem_inv_react; [|done].
    assert (JReact r o ∈ queue s) as Hin by (rewrite Hq; apply list_elem_of_here).
    destruct r as [f|f|f k h]; simpl; [done| |].
    + by apply (ri_job _ H).
    + by apply (ri_handle _ H f k h).
  - by apply rem_inv_resume.
Qed.

Lemma rem_inv_start fns api : rem_inv (start fns api).
Proof.
  apply rem_inv_run. split; simpl.
  - intros f o Ho. unfold settled_as, get_promise in Ho. simpl in Ho.
    destruct f; simpl in Ho; done.
  - intros f o Hj. by apply elem_of_nil in Hj.
  - intros f k h o Hj. by apply elem_of_nil in Hj.
  - intros p rs r Hp Hr. unfold get_promise in Hp. simpl in Hp.
    destruct (pref_frame p); simpl in Hp; [|done].
    destruct p; simpl in Hp; simplify_eq; by apply elem_of_nil in Hr.
  - intros p o Hp. unfold get_promise in Hp. simpl in Hp.
    destruct (pref_frame p); simpl in Hp; [|done].
    destruct p; simpl in Hp; simplify_eq.
Qed.

Lemma rem_inv_after n fns api : rem_inv (after n fns api).
Proof.
  destruct fns as [|m ms].
  - rewrite after_empty. apply rem_inv_start.
  - induction n as [|n IH]; [apply rem_inv_start|].
    rewrite after_S. eapply rem_inv_step; [|done]. by apply call_inv_after.
Qed.

(** * Asynchronous frames *)

(** ** The view of one frame *)

(** The frame whose middleware a job continues, and the frame whose
    [result.then] callbacks a job runs. *)
Definition cont_of (j : job) : option nat :=
  match j with
  | JResume (OMw g) _ => Some g
  | JReact (RHandle g _ _) _ => Some g
  | _ => None
  end.

Definition res_of (j : job) : option nat :=
  match j with
  | JReact (RResult g) _ => Some g
  | _ => None
  end.

Definition conts (f : nat) (q : list job) : nat :=
  length (filter (fun j => cont_of j = Some f) q).

Definition res_jobs (f : nat) (q : list job) : list job :=
  filter (fun j => res_of j = Some f) q.

(** The reactions that wait for the teardown promise of [f]. *)
Definition waiting (f : nat) (s : state) : nat :=
  match get_promise (TP f) s with
  | Some (Pending rs) => length rs
  | _ => 0
  end.

(** The continuations of the middleware of [f] that are alive: queued,
    or waiting for the handle. *)
Definition lives (f : nat) (s : state) : nat := conts f (queue s) + waiting f s.

(** An asynchronous middleware has at most one continuation while its
    promise is pending; once the promise has settled, as [o], the frame's
    outcome is still pending while the callback of [result.then] is
    queued, and is [o] afterwards. *)
Definition async_ok (f : nat) (s : state) : Prop :=
  match get_promise (RP f) s with
  | None => lives f s = 0 ∧ res_jobs f (queue s) = []
  | Some (Pending rs) =>
      rs = [RResult f] ∧ lives f s ≤ 1 ∧ res_jobs f (queue s) = [] ∧
      settled_as (IP f) s = None
  | Some (Settled o) =>
      lives f s = 0 ∧
      ((res_jobs f (queue s) = [JReact (RResult f) o] ∧ settled_as (IP f) s = None) ∨
       (res_jobs f (queue s) = [] ∧ settled_as (IP f) s = Some o))
  end.

Definition async_inv (s : state) : Prop := ∀ f, async_ok f s.

(** [async_ok f] reads these parts of the state only. *)
Lemma async_ok_view f s s' :
  get_promise (RP f) s' = get_promise (RP f) s →
  settled_as (IP f) s' = settled_as (IP f) s →
  lives f s' = lives f s →
  res_jobs f (queue s') = res_jobs f (queue s) →
  async_ok f s → async_ok f s'.
Proof. unfold async_ok. by intros -> -> -> ->. Qed.

Lemma conts_app f q1 q2 : conts f (q1 ++ q2) = conts f q1 + conts f q2.
Proof. unfold conts. by rewrite filter_app, length_app. Qed.

Lemma res_jobs_app f q1 q2 : res_jobs f (q1 ++ q2) = res_jobs f q1 ++ res_jobs f q2.
Proof. unfold res_jobs. by rewrite filter_app. Qed.

Lemma conts_cons f j q :
  conts f (j :: q) = (if decide (cont_of j = Some f) then 1 else 0) + conts f q.
Proof.
  unfold conts. case_decide.
  - by rewrite filter_cons_True.
  - by rewrite filter_cons_False.
Qed.

Lemma res_jobs_cons f j q :
  res_jobs f (j :: q) = (if decide (res_of j = Some f) then [j] else []) ++ res_jobs f q.
Proof.
  unfold res_jobs. case_decide.
  - by rewrite filter_cons_True.
  - by rewrite filter_cons_False.
Qed.

(** The jobs that settling [p] queues belong to the frame of [p], when
    the reactions are placed as they should. *)
Lemma conts_reactions f p o rs :
  (∀ r, r ∈ rs → placed r p) →
  conts f (map (fun r => JReact r o) rs) =
    if decide (p = TP f) then length rs else 0.
Proof.
  intros Hpl. induction rs as [|r rs IH]; [by case_decide|].
  simpl. rewrite conts_cons, IH by (intros r' Hr'; apply Hpl; by apply elem_of_cons; right).
  assert (placed r p) as Hr by (apply Hpl; apply list_elem_of_here).
  destruct r as [g|g|g k h]; simpl in *;
    [subst p | destruct Hr; subst p | subst p];
    repeat case_decide; simplify_eq/=; done.
Qed.

Lemma res_jobs_reactions f p o rs :
  (∀ r, r ∈ rs → placed r p) →
  res_jobs f (map (fun r => JReact r o) rs) =
    if decide (p = RP f) then map (fun r => JReact r o) rs else [].
Proof.
  intros Hpl. induction rs as [|r rs IH]; [by case_decide|].
  simpl. rewrite res_jobs_cons, IH by (intros r' Hr'; apply Hpl; by apply elem_of_cons; right).
  assert (placed r p) as Hr by (apply Hpl; apply list_elem_of_here).
  destruct r as [g|g|g k h]; simpl in *;
    [subst p | destruct Hr; subst p | subst p];
    repeat case_decide; simplify_eq/=; done.
Qed.

(** ** What does not touch a frame *)

(** The parts of the state that [async_ok f] reads are the same in [s]
    and [s']. *)
Definition same_view (f : nat) (s s' : state) : Prop :=
  get_promise (RP f) s' = get_promise (RP f) s ∧
  settled_as (IP f) s' = settled_as (IP f) s ∧
  lives f s' = lives f s ∧
  res_jobs f (queue s') = res_jobs f (queue s).

Lemma same_view_ok f s s' : same_view f s s' → async_ok f s → async_ok f s'.
Proof. intros (H1 & H2 & H3 & H4). by apply async_ok_view. Qed.

Lemma same_view_refl f s : same_view f s s.
Proof. done. Qed.

Lemma same_view_trans f s1 s2 s3 : same_view f s1 s2 → same_view f s2 s3 → same_view f s1 s3.
Proof.
  intros (H1 & H2 & H3 & H4) (H5 & H6 & H7 & H8). repeat split; congruence.
Qed.

(** The promises of frame [f] that [async_ok f] reads. *)
Definition of_mw (f : nat) (p : pref) : Prop := p = RP f ∨ p = IP f ∨ p = TP f.

Lemma same_view_promises f s s' :
  (∀ p, of_mw f p → get_promise p s' = get_promise p s) →
  queue s' = queue s →
  same_view f s s'.
Proof.
  intros Hp Hq. unfold same_view, settled_as, lives, waiting.
  rewrite !Hp, Hq by (unfold of_mw; auto). done.
Qed.

Lemma same_view_log f s es : same_view f s (mkState (frames s) (queue s) (log s ++ es)).
Proof. by apply same_view_promises. Qed.

Lemma same_view_emit f e s : same_view f s (emit e s).
Proof. apply same_view_log. Qed.

Lemma same_view_emits f w ls s : same_view f s (emits w ls s).
Proof. apply same_view_log. Qed.

Lemma same_view_enqueue f js s :
  conts f js = 0 → res_jobs f js = [] → same_view f s (enqueue js s).
Proof.
  intros Hc Hr. unfold same_view, settled_as, lives, waiting. simpl.
  rewrite conts_app, res_jobs_app, Hc, Hr, app_nil_r.
  repeat split; try done. unfold get_promise. simpl. lia.
Qed.

Lemma same_view_set_promise f p st s :
  ¬ of_mw f p → same_view f s (set_promise p st s).
Proof.
  intros Hp. apply same_view_promises; [|done].
  intros q Hq. rewrite get_set_promise_ne; [done|]. by intros ->.
Qed.

Lemma same_view_settle f p o s :
  (∀ rs r, get_promise p s = Some (Pending rs) → r ∈ rs → placed r p) →
  ¬ of_mw f p → same_view f s (settle p o s).
Proof.
  intros Hpl Hp.
  destruct (get_promise p s) as [[rs|o']|] eqn:Hget.
  - assert (∀ q, of_mw f q → get_promise q (settle p o s) = get_promise q s) as Hq.
    { intros q Hq. rewrite get_promise_settle, Hget, decide_False; [done|]. by intros ->. }
    unfold same_view, settled_as, lives, waiting.
    rewrite !Hq by (unfold of_mw; auto).
    rewrite (settle_pending _ _ rs) by done. simpl.
    rewrite conts_app, res_jobs_app.
    rewrite (conts_reactions _ p), (res_jobs_reactions _ p)
      by (intros r Hr; by apply (Hpl rs r)).
    rewrite !decide_False by (intros ->; apply Hp; unfold of_mw; auto).
    rewrite app_nil_r. repeat split; try done. lia.
  - rewrite (settle_discarded _ _ o') by done. apply same_view_emit.
  - by rewrite settle_missing.
Qed.

Lemma same_view_subscribe f p r s :
  placed r p → ¬ of_mw f p → same_view f s (subscribe p r s).
Proof.
  intros Hpl Hp. unfold subscribe.
  destruct (get_promise p s) as [[rs|o]|] eqn:Hget; [| |done].
  - by apply same_view_set_promise.
  - change [JReact r o] with (map (fun r => JReact r o) [r]).
    apply same_view_enqueue.
    + rewrite (conts_reactions f p o [r]).
      * rewrite decide_False; [done|]. intros ->. apply Hp. unfold of_mw; auto.
      * intros r' Hr'. apply list_elem_of_singleton in Hr'. by subst.
    + rewrite (res_jobs_reactions f p o [r]).
      * rewrite decide_False; [done|]. intros ->. apply Hp. unfold of_mw; auto.
      * intros r' Hr'. apply list_elem_of_singleton in Hr'. by subst.
Qed.

Lemma same_view_alloc f fr s :
  f ≠ length (frames s) → same_view f s (set_frames (frames s ++ [fr]) s).
Proof.
  intros Hf. apply same_view_promises; [|done].
  intros q Hq. rewrite get_promise_alloc, decide_False; [done|].
  destruct Hq as [-> | [-> | ->]]; simpl; lia.
Qed.

Lemma same_view_set_failed f g s :
  same_view f s (set_frames (alter set_failed g (frames s)) s).
Proof.
  apply same_view_promises; [|done]. intros q _. apply get_promise_set_failed.
Qed.

(** The handler cannot await the continuation. *)
Lemma handler_no_handle c ls k h : until_pause false c ≠ (ls, PHandle k h).
Proof.
  revert ls.
  induction c as [|e|l k' IH|arg k' IH|arg k' hd IH IHh|k' IH|k' hd IH IHh|k' IH|]
    using code_induction; intros ls; simpl; try done.
  destruct (until_pause false k') as [ls' p] eqn:E. intros [= <- ->]. by eapply IH.
Qed.

Lemma same_view_exec f w c s : w ≠ OMw f → same_view f s (exec w c s).1.
Proof.
  intros Hw. unfold exec.
  destruct (until_pause (is_mw w) c) as [ls [o|k h|k|]] eqn:Hp; simpl.
  - apply same_view_emits.
  - eapply same_view_trans; [apply same_view_emits|].
    destruct w as [g|g]; simpl in *; [|by destruct (handler_no_handle _ _ _ _ Hp)].
    apply same_view_subscribe; [done|].
    intros [H | [H | H]]; simplify_eq.
  - eapply same_view_trans; [apply same_view_emits|].
    apply same_view_enqueue.
    + rewrite conts_cons. destruct w; simpl; repeat case_decide; simplify_eq; done.
    + rewrite res_jobs_cons. by case_decide.
  - apply same_view_emits.
Qed.

Lemma not_of_mw_result f w : w ≠ OMw f → ¬ of_mw f (result_of w).
Proof. intros Hw [H | [H | H]]; destruct w; simpl in H; congruence. Qed.

Lemma same_view_resume f w c s :
  rem_inv s → w ≠ OMw f → same_view f s (resume w c s).
Proof.
  intros Hinv Hw. unfold resume.
  pose proof (same_view_exec f w c s Hw) as He.
  pose proof (rem_inv_exec w c s Hinv) as Hi.
  destruct (exec w c s) as [s' [o|]]; simpl in *; [|done].
  eapply same_view_trans; [done|].
  apply same_view_settle; [apply (ri_placed _ Hi) | by apply not_of_mw_result].
Qed.

Lemma same_view_call_fn f w g s :
  rem_inv s → w ≠ OMw f → same_view f s (call_fn w g s).1.
Proof.
  intros Hinv Hw. destruct g as [c|c]; simpl.
  - pose proof (same_view_exec f w (lift c) s Hw) as He.
    by destruct (exec w (lift c) s) as [s' [[|e]|]].
  - eapply same_view_trans; [apply same_view_set_promise; by apply not_of_mw_result|].
    apply same_view_resume; [|done].
    apply rem_inv_set_pending; [|by intros r Hr; apply elem_of_nil in Hr|done].
    left. apply controlled_result_of.
Qed.

Lemma same_view_run f g s : rem_inv s → f ≠ g → same_view f s (run g s).
Proof.
  intros Hinv Hne. unfold run, fail.
  assert (¬ of_mw f (IP g)) as Hip by (intros [H | [H | H]]; congruence).
  assert (¬ of_mw f (RP g)) as Hrp by (intros [H | [H | H]]; congruence).
  assert (OMw g ≠ OMw f) as Hw by congruence.
  destruct (frames s !! g) as [fr|]; [|done].
  destruct (currentFn fr) as [m|].
  2:{ apply same_view_settle; [apply (ri_placed _ Hinv) | done]. }
  pose proof (same_view_call_fn f (OMw g) m (emit (EvEnter g) s)
                (rem_inv_emit _ _ Hinv) Hw) as Hc.
  pose proof (rem_inv_call_fn (OMw g) m (emit (EvEnter g) s) (rem_inv_emit _ _ Hinv)) as Hi.
  destruct (call_fn (OMw g) m (emit (EvEnter g) s)) as [s' [isp|e]]; simpl in *.
  - eapply same_view_trans; [apply (same_view_emit f (EvEnter g))|].
    eapply same_view_trans; [done|].
    apply (same_view_trans _ _ (if isp then subscribe (RP g) (RResult g) s' else s')).
    + destruct isp; [by apply same_view_subscribe | done].
    + apply same_view_enqueue; [|done]. by rewrite conts_cons.
  - eapply same_view_trans; [apply (same_view_emit f (EvEnter g))|].
    eapply same_view_trans; [done|].
    eapply same_view_trans; [apply (same_view_emit f (EvThrew (OMw g) e))|].
    apply same_view_settle; [|done].
    apply (ri_placed _ (rem_inv_emit (EvThrew (OMw g) e) _ Hi)).
Qed.

Lemma same_view_finish f g err s : rem_inv s → f ≠ g → same_view f s (finish g err s).
Proof.
  intros Hinv Hne. rewrite finish_settle.
  destruct (frames s !! g) as [fr|]; [|done].
  apply same_view_settle; [apply (ri_placed _ Hinv)|].
  destruct (result fr); intros [H | [H | H]]; congruence.
Qed.

(** A reaction of [runRemaining] does not count for any frame. *)
Lemma same_view_subscribe_remaining f p g s :
  p = HP g ∨ p = IP (S g) → same_view f s (subscribe p (RRemaining g) s).
Proof.
  intros Hp. unfold subscribe.
  destruct (get_promise p s) as [[rs|o]|] eqn:Hget; [| |done].
  - unfold same_view, settled_as, lives, waiting. simpl.
    rewrite !get_set_promise.
    assert (p ≠ RP f ∧ p ≠ TP f) as [H1 H2] by (destruct Hp; subst; split; congruence).
    rewrite !(decide_False (P := p = RP f)), !(decide_False (P := p = TP f)) by done.
    case_decide as Heq; [|done]. subst p. rewrite Hget.
    unfold get_promise in Hget. by destruct (frames s !! pref_frame (IP f)).
  - by apply same_view_enqueue.
Qed.

Lemma same_view_popped f j q s :
  queue s = j :: q → cont_of j ≠ Some f → res_of j ≠ Some f →
  same_view f s (popped s).
Proof.
  intros Hq Hc Hr. unfold same_view, settled_as, lives, waiting. simpl.
  rewrite Hq, conts_cons, res_jobs_cons, !decide_False by done. done.
Qed.

(** ** What a frame's own middleware does *)

(** The state of an asynchronous frame between the call of its
    middleware and the end of [run]: as [async_ok], with [rs0] for the
    reactions on the middleware's promise. *)
Definition mid_ok (f : nat) (rs0 : list reaction) (s : state) : Prop :=
  match get_promise (RP f) s with
  | Some (Pending rs) =>
      rs = rs0 ∧ lives f s ≤ 1 ∧ res_jobs f (queue s) = [] ∧ settled_as (IP f) s = None
  | Some (Settled o) =>
      lives f s = 0 ∧ res_jobs f (queue s) = map (fun r => JReact r o) rs0 ∧
      settled_as (IP f) s = None
  | None => False
  end.

Lemma mid_ok_async f s : mid_ok f [RResult f] s → async_ok f s.
Proof.
  unfold mid_ok, async_ok. destruct (get_promise (RP f) s) as [[rs|o]|]; [done| |done].
  intros (H1 & H2 & H3). split; [done|]. by left.
Qed.

Lemma mid_ok_view f rs0 s s' : same_view f s s' → mid_ok f rs0 s → mid_ok f rs0 s'.
Proof. intros (H1 & H2 & H3 & H4). unfold mid_ok. by rewrite H1, H2, H3, H4. Qed.

(** The middleware's promise is pending, with reactions [rs0], and no
    continuation of the middleware is alive. *)
Definition running (f : nat) (rs0 : list reaction) (s : state) : Prop :=
  get_promise (RP f) s = Some (Pending rs0) ∧ lives f s = 0 ∧
  res_jobs f (queue s) = [] ∧ settled_as (IP f) s = None.

Lemma running_view f rs0 s s' : same_view f s s' → running f rs0 s → running f rs0 s'.
Proof. intros (H1 & H2 & H3 & H4). unfold running. by rewrite H1, H2, H3, H4. Qed.

Lemma settle_result_ok f o rs0 s :
  (∀ r, r ∈ rs0 → r = RResult f) →
  running f rs0 s → mid_ok f rs0 (settle (RP f) o s).
Proof.
  intros Hrs (Hrp & Hl & Hres & Hip). unfold mid_ok.
  rewrite get_promise_settle, Hrp, decide_True by done.
  unfold lives, waiting, settled_as in *.
  rewrite !get_promise_settle, Hrp, !decide_False by done.
  rewrite (settle_pending _ _ rs0) by done. simpl.
  rewrite conts_app, res_jobs_app, Hres.
  rewrite (conts_reactions f (RP f)), (res_jobs_reactions f (RP f))
    by (intros r Hr; by rewrite (Hrs r Hr)).
  rewrite decide_False, decide_True by done. simpl.
  split; [lia|]. done.
Qed.

(** Closes goals about the counts of a frame after case analysis. *)
Ltac close_view :=
  repeat case_decide; simplify_eq;
  change (conts ?f []) with 0 in *; change (res_jobs ?f []) with (@nil job) in *;
  simpl in *; repeat split; try done; try lia.

Lemma resume_mid f c rs0 s :
  (∀ r, r ∈ rs0 → r = RResult f) →
  running f rs0 s → mid_ok f rs0 (resume (OMw f) c s).
Proof.
  intros Hrs Hrun. unfold resume, exec. simpl.
  destruct (until_pause true c) as [ls [o|k h|k|]] eqn:Hp.
  - apply settle_result_ok; [done|]. by eapply running_view; [apply same_view_emits|].
  - destruct Hrun as (Hrp & Hl & Hres & Hip).
    unfold subscribe. simpl.
    change (get_promise (TP f) (emits (OMw f) ls s)) with (get_promise (TP f) s).
    unfold mid_ok, lives, waiting, settled_as in *.
    destruct (get_promise (TP f) s) as [[rs|o]|] eqn:Htp.
    + rewrite !get_set_promise, !decide_False, decide_True by done. simpl.
      change (get_promise ?p (emits (OMw f) ls s)) with (get_promise p s).
      rewrite Hrp.
      assert (is_Some (frames s !! f)) as [fr Hfr].
      { unfold get_promise in Hrp. simpl in Hrp. by destruct (frames s !! f). }
      rewrite Hfr. destruct rs; close_view.
    + simpl. change (get_promise ?p (enqueue _ (emits (OMw f) ls s))) with (get_promise p s).
      rewrite Hrp, Htp, conts_app, res_jobs_app, Hres.
      rewrite conts_cons, res_jobs_cons. close_view.
    + change (get_promise ?p (emits (OMw f) ls s)) with (get_promise p s).
      rewrite Hrp, Htp. close_view.
  - destruct Hrun as (Hrp & Hl & Hres & Hip).
    unfold mid_ok, lives, waiting, settled_as in *. simpl.
    change (get_promise ?p (enqueue _ (emits (OMw f) ls s))) with (get_promise p s).
    rewrite Hrp, conts_app, res_jobs_app, Hres, conts_cons, res_jobs_cons.
    destruct (get_promise (TP f) s) as [[|]|]; close_view.
  - destruct Hrun as (Hrp & Hl & Hres & Hip).
    unfold mid_ok. change (get_promise ?p (emits (OMw f) ls s)) with (get_promise p s).
    rewrite Hrp. repeat split; try done.
    change (lives f (emits (OMw f) ls s)) with (lives f s). lia.
Qed.

Lemma subscribe_result_ok f s :
  mid_ok f [] s → mid_ok f [RResult f] (subscribe (RP f) (RResult f) s).
Proof.
  unfold mid_ok, subscribe.
  destruct (get_promise (RP f) s) as [[rs|o]|] eqn:Hrp; [| |done].
  - intros (-> & Hl & Hres & Hip).
    unfold lives, waiting, settled_as in *.
    rewrite !get_set_promise, decide_True, !decide_False by done. simpl.
    assert (is_Some (frames s !! f)) as [fr Hfr].
    { unfold get_promise in Hrp. simpl in Hrp. by destruct (frames s !! f). }
    by rewrite Hfr.
  - intros (Hl & Hres & Hip).
    change (get_promise (RP f) (enqueue [JReact (RResult f) o] s)) with (get_promise (RP f) s).
    rewrite Hrp. unfold lives, waiting, settled_as in *. simpl.
    change (get_promise ?p (enqueue _ s)) with (get_promise p s).
    rewrite conts_app, res_jobs_app, Hres, conts_cons, res_jobs_cons. close_view.
Qed.

(** Settling the outcome of a frame whose middleware is plain. *)
Lemma settle_ip_plain f o s :
  rem_inv s → get_promise (RP f) s = None →
  async_ok f s → async_ok f (settle (IP f) o s).
Proof.
  intros Hinv Hrp. unfold async_ok. rewrite get_promise_settle, Hrp.
  assert (get_promise (RP f) s = None →
          match get_promise (IP f) s with
          | Some (Pending _) => if decide (IP f = RP f) then Some (Settled o) else None
          | _ => None
          end = None) as -> by (intros _; destruct (get_promise (IP f) s) as [[|]|]; done);
    [|done].
  intros (Hl & Hres). unfold lives, waiting in *. rewrite get_promise_settle.
  destruct (get_promise (IP f) s) as [[rs|o']|] eqn:Hip.
  - rewrite decide_False by done. rewrite (settle_pending _ _ rs) by done. simpl.
    rewrite conts_app, res_jobs_app, Hres.
    rewrite (conts_reactions f (IP f)), (res_jobs_reactions f (IP f))
      by (intros r Hr; by apply (ri_placed _ Hinv _ _ _ Hip)).
    rewrite !decide_False by done. split; [lia | done].
  - by rewrite (settle_discarded _ _ o').
  - by rewrite settle_missing.
Qed.

(** [run] on a frame whose middleware has not been called. *)
Lemma run_own f s :
  rem_inv s → is_Some (frames s !! f) →
  get_promise (RP f) s = None → lives f s = 0 → res_jobs f (queue s) = [] →
  settled_as (IP f) s = None →
  async_ok f (run f s).
Proof.
  intros Hinv [fr Hfr] Hrp Hl Hres Hip.
  assert (async_ok f s) as Hok by (unfold async_ok; by rewrite Hrp).
  unfold run, fail. rewrite Hfr.
  destruct (currentFn fr) as [[c|c]|].
  - (* a plain middleware *)
    destruct (lift_done true c) as (ls & o & Hp).
    simpl. unfold exec. simpl. rewrite Hp.
    destruct o as [|e].
    + eapply same_view_ok; [|done].
      eapply same_view_trans; [apply (same_view_emit f (EvEnter f))|].
      eapply same_view_trans; [apply (same_view_emits f (OMw f) ls)|].
      apply same_view_enqueue; [|done]. by rewrite conts_cons.
    + apply settle_ip_plain.
      * by apply rem_inv_emit, rem_inv_emits, rem_inv_emit.
      * done.
      * eapply same_view_ok; [|done].
        eapply same_view_trans; [apply (same_view_emit f (EvEnter f))|].
        eapply same_view_trans; [apply (same_view_emits f (OMw f) ls)|].
        apply same_view_emit.
  - (* an asynchronous middleware *)
    simpl. apply mid_ok_async.
    eapply mid_ok_view.
    { apply same_view_enqueue; [|done]. by rewrite conts_cons. }
    apply subscribe_result_ok, resume_mid; [by intros r Hr; apply elem_of_nil in Hr|].
    unfold running, lives, waiting, settled_as in *.
    rewrite !get_set_promise, decide_True, !decide_False by done. simpl.
    by rewrite Hfr.
  - (* no middleware at all *)
    by apply settle_ip_plain.
Qed.

(** [finish] of a frame. *)
Lemma finish_own f err s :
  rem_inv s → async_ok f s → async_ok f (finish f err s).
Proof.
  intros Hinv Hok. rewrite finish_settle.
  destruct (frames s !! f) as [fr|] eqn:Hfr; [|done].
  destruct (result fr) as [st|] eqn:Hres.
  - (* asynchronous: the reactions on the teardown promise are queued *)
    eapply same_view_ok; [|done].
    destruct (get_promise (TP f) s) as [[rs|o']|] eqn:Htp.
    + unfold same_view, settled_as, lives, waiting.
      rewrite !get_promise_settle, Htp.
      rewrite (settle_pending _ _ rs) by done. simpl.
      rewrite conts_app, res_jobs_app.
      rewrite (conts_reactions f (TP f)), (res_jobs_reactions f (TP f))
        by (intros r Hr; by apply (ri_placed _ Hinv _ _ _ Htp)).
      rewrite app_nil_r. close_view.
    + rewrite (settle_discarded _ _ o') by done. apply same_view_emit.
    + by rewrite settle_missing.
  - apply settle_ip_plain; [done| |done].
    unfold get_promise. simpl. by rewrite Hfr.
Qed.

(** Settling the outcome of a frame as the middleware's promise has
    settled. *)
Lemma settle_ip_async f o s :
  rem_inv s → get_promise (RP f) s = Some (Settled o) →
  lives f s = 0 → res_jobs f (queue s) = [] → settled_as (IP f) s = None →
  async_ok f (settle (IP f) o s).
Proof.
  intros Hinv Hrp Hl Hres Hip.
  unfold async_ok, lives, waiting, settled_as in *.
  rewrite !get_promise_settle.
  destruct (get_promise (IP f) s) as [[ips|o1]|] eqn:Hs; [|done|].
  - rewrite Hrp.
    rewrite (settle_pending _ _ ips) by done. simpl.
    rewrite conts_app, res_jobs_app, Hres.
    rewrite (conts_reactions f (IP f)), (res_jobs_reactions f (IP f))
      by (intros r Hr; by apply (ri_placed _ Hinv _ _ _ Hs)).
    repeat case_decide; simplify_eq. simpl. split; [lia|]. by right.
  - unfold get_promise in *. simpl in *. by destruct (frames s !! f).
Qed.

(** The callbacks of [result.then] run: the frame's outcome becomes the
    one of the middleware's promise. *)
Lemma result_own f o q s :
  queue s = JReact (RResult f) o :: q →
  rem_inv s → async_ok f s → async_ok f (react (RResult f) o (popped s)).
Proof.
  intros Hq Hinv Hok.
  assert (get_promise (RP f) s = Some (Settled o) ∧ lives f (popped s) = 0 ∧
          res_jobs f (queue (popped s)) = [] ∧ settled_as (IP f) s = None)
    as (Hrp & Hl & Hres & Hip).
  { unfold async_ok, lives in Hok. rewrite Hq, res_jobs_cons, conts_cons in Hok.
    simpl in Hok. repeat case_decide; simplify_eq. simpl in Hok.
    unfold lives, popped. simpl. rewrite Hq. simpl.
    destruct (get_promise (RP f) s) as [[rs|o']|].
    - by destruct Hok as (_ & _ & ? & _).
    - destruct Hok as (Hl & [[Hres Hip] | [Hres _]]); [|done].
      by injection Hres as -> Hres.
    - by destruct Hok as [_ ?]. }
  pose proof (rem_inv_popped s Hinv) as Hinv'.
  destruct o as [|e]; cbn [react]; unfold succeed, fail.
  - by apply settle_ip_async.
  - pose proof (same_view_set_failed f f (popped s)) as (H1 & H2 & H3 & H4).
    apply settle_ip_async.
    + by apply rem_inv_set_failed.
    + by rewrite H1.
    + by rewrite H3.
    + by rewrite H4.
    + by rewrite H2.
Qed.

(** ** Every microtask keeps the frames in order *)

Lemma async_inv_runRemaining g s :
  S g = length (frames s) → rem_inv s → async_inv s → async_inv (runRemaining g s).
Proof.
  intros Hlast Hinv Hall f. specialize (Hall f) as Hok. unfold runRemaining.
  destruct (frames s !! g) as [fr|] eqn:Hfr; [|done].
  assert (¬ of_mw f (HP g)) as Hhp by (intros [H | [H | H]]; congruence).
  destruct (remaining fr) as [|m ms].
  - pose proof (same_view_call_fn f (OHandler g) (apiRouteFn fr) (emit (EvTerminal g) s)
                  (rem_inv_emit _ _ Hinv)) as Hv.
    pose proof (rem_inv_call_fn (OHandler g) (apiRouteFn fr) (emit (EvTerminal g) s)
                  (rem_inv_emit _ _ Hinv)) as Hi.
    destruct (call_fn (OHandler g) (apiRouteFn fr) (emit (EvTerminal g) s))
      as [s' [[|]|e]]; simpl in *.
    + eapply same_view_ok; [|done].
      eapply same_view_trans; [apply (same_view_emit f (EvTerminal g))|].
      eapply same_view_trans; [by apply Hv|].
      apply same_view_subscribe_remaining. by left.
    + eapply same_view_ok; [|done].
      eapply same_view_trans; [apply (same_view_emit f (EvTerminal g))|].
      eapply same_view_trans; [by apply Hv|].
      eapply same_view_trans; [by apply same_view_set_promise|].
      eapply same_view_trans; [|apply same_view_subscribe_remaining; by left].
      apply same_view_settle; [|done].
      intros rs r Hget Hr. rewrite get_set_promise, decide_True in Hget by done.
      destruct (frames s' !! pref_frame (HP g)); simplify_eq. by apply elem_of_nil in Hr.
    + assert (async_ok f (emit (EvThrew (OHandler g) e) s')) as Hok'.
      { eapply same_view_ok; [|done].
        eapply same_view_trans; [apply (same_view_emit f (EvTerminal g))|].
        eapply same_view_trans; [by apply Hv|]. apply same_view_emit. }
      destruct (decide (f = g)) as [->|Hne].
      * apply finish_own; [by apply rem_inv_emit | done].
      * eapply same_view_ok; [|done]. apply same_view_finish; [by apply rem_inv_emit | done].
  - set (s1 := set_frames (frames s ++ [new_Executor (m :: ms) (apiRouteFn fr)]) s).
    assert (rem_inv s1) as Hinv1 by (by apply rem_inv_alloc).
    eapply same_view_ok; [apply same_view_subscribe_remaining; by right; rewrite Hlast|].
    destruct (decide (f = length (frames s))) as [->|Hne].
    + assert (get_promise (RP (length (frames s))) s = None) as Hrp.
      { unfold get_promise. simpl. by rewrite lookup_ge_None_2. }
      unfold async_ok in Hok. rewrite Hrp in Hok. destruct Hok as [Hl Hres].
      apply run_own; [done|..].
      * unfold s1. simpl. rewrite lookup_app_r, Nat.sub_diag by done. by eexists.
      * unfold s1. by rewrite get_promise_alloc, decide_True.
      * unfold lives, waiting in *. unfold s1 at 2.
        rewrite get_promise_alloc, decide_True by done. simpl.
        change (queue s1) with (queue s). lia.
      * done.
      * unfold settled_as, s1. by rewrite get_promise_alloc, decide_True.
    + eapply same_view_ok; [|done].
      eapply same_view_trans; [by apply same_view_alloc|].
      by apply same_view_run.
Qed.

Lemma lives_popped_cont f j q s :
  queue s = j :: q → cont_of j = Some f →
  async_ok f s →
  running f [RResult f] (popped s).
Proof.
  intros Hq Hj. unfold async_ok, running, lives, waiting, settled_as.
  rewrite Hq, conts_cons, res_jobs_cons, decide_True by done.
  assert (res_of j ≠ Some f) as Hr by (destruct j as [|[] ?|[]]; simplify_eq/=; done).
  rewrite decide_False by done. simpl.
  change (get_promise ?p (popped s)) with (get_promise p s).
  destruct (get_promise (RP f) s) as [[rs|o]|]; [|intros [? _]; lia|intros [? _]; lia].
  intros (-> & Hl & Hres & Hip). rewrite Hq. simpl. repeat split; try done.
  destruct (get_promise (TP f) s) as [[|]|]; simpl in *; lia.
Qed.

Lemma async_inv_step fns api s :
  call_inv fns api s → rem_inv s → async_inv s → async_inv (step s).
Proof.
  intros Hc Hinv Hall.
  destruct (queue s) as [|j q] eqn:Hq; [by rewrite step_quiescent|].
  rewrite (step_popped j q) by done.
  pose proof (rem_inv_popped s Hinv) as Hinv'.
  destruct j as [g|r o|w k]; cbn [run_job].
  - (* the microtask of run *)
    assert (async_inv (popped s)) as Hall'.
    { intros f. eapply same_view_ok; [|apply Hall]. by eapply same_view_popped. }
    destruct (has_failed g (popped s)); [done|].
    apply async_inv_runRemaining; [|done|done]. simpl.
    destruct Hc as [Hpos _ _ (t & _ & Htail)].
    rewrite (jchecks_popped _ _ _ Hq) in Htail. simpl in Htail.
    inversion Htail. lia.
  - intros f. specialize (Hall f) as Hok. destruct r as [g|g|g k h].
    + (* the callbacks of result.then *)
      destruct (decide (f = g)) as [->|Hne]; [by eapply result_own|].
      eapply same_view_ok; [|done].
      eapply same_view_trans; [eapply same_view_popped; [done|done|simpl; congruence]|].
      assert (¬ of_mw f (IP g)) as Hip by (intros [H | [H | H]]; congruence).
      destruct o as [|e]; cbn [react]; unfold succeed, fail.
      * apply same_view_settle; [apply (ri_placed _ Hinv') | done].
      * eapply same_view_trans; [apply (same_view_set_failed f g)|].
        apply same_view_settle; [|done].
        apply (ri_placed _ (rem_inv_set_failed g _ Hinv')).
    + (* runRemaining resumes *)
      rewrite react_remaining.
      assert (async_ok f (popped s)) as Hok'.
      { eapply same_view_ok; [|done]. by eapply same_view_popped. }
      destruct (decide (f = g)) as [->|Hne].
      * by apply finish_own.
      * eapply same_view_ok; [|done]. by apply same_view_finish.
    + (* the middleware resumes from its handle *)
      destruct (decide (f = g)) as [->|Hne].
      * pose proof (lives_popped_cont g _ _ _ Hq eq_refl Hok) as Hrun.
        assert (∀ r, r ∈ [RResult g] → r = RResult g) as Hrs
          by (intros r Hr; by apply list_elem_of_singleton in Hr).
        apply mid_ok_async.
        destruct o as [|e]; cbn [react]; [by apply resume_mid|].
        destruct h; [by apply resume_mid | by apply settle_result_ok].
      * eapply same_view_ok; [|done].
        eapply same_view_trans;
          [eapply same_view_popped; [done|simpl; congruence|done]|].
        assert (OMw g ≠ OMw f) as Hw by congruence.
        destruct o as [|e]; cbn [react]; [by apply same_view_resume|].
        destruct h; [by apply same_view_resume|].
        apply same_view_settle; [apply (ri_placed _ Hinv')|].
        intros [H | [H | H]]; congruence.
  - (* a body resumes after a tick *)
    intros f. specialize (Hall f) as Hok.
    destruct (decide (w = OMw f)) as [->|Hne].
    + pose proof (lives_popped_cont f _ _ _ Hq eq_refl Hok) as Hrun.
      apply mid_ok_async, resume_mid; [|done].
      intros r Hr. by apply list_elem_of_singleton in Hr.
    + eapply same_view_ok; [|done].
      eapply same_view_trans; [|by apply same_view_resume].
      eapply same_view_popped; [done| |done].
      destruct w; simpl; congruence.
Qed.

Lemma rem_inv_init fns api : rem_inv (mkState [new_Executor fns api] [] []).
Proof.
  split; simpl.
  - intros f o Ho. unfold settled_as, get_promise in Ho. simpl in Ho.
    destruct f; simpl in Ho; done.
  - intros f o Hj. by apply elem_of_nil in Hj.
  - intros f k h o Hj. by apply elem_of_nil in Hj.
  - intros p rs r Hp Hr. unfold get_promise in Hp. simpl in Hp.
    destruct (pref_frame p); simpl in Hp; [|done].
    destruct p; simpl in Hp; simplify_eq; by apply elem_of_nil in Hr.
  - intros p o Hp. unfold get_promise in Hp. simpl in Hp.
    destruct (pref_frame p); simpl in Hp; [|done].
    destruct p; simpl in Hp; simplify_eq.
Qed.

Lemma async_inv_start fns api : async_inv (start fns api).
Proof.
  intros f. unfold start. pose proof (rem_inv_init fns api) as Hinv.
  destruct (decide (f = 0)) as [->|Hne].
  - by apply run_own.
  - eapply same_view_ok; [by apply same_view_run|].
    unfold async_ok, get_promise. simpl. by destruct f.
Qed.

(** The invariants of a run, together. *)
Record good (fns : list fn) (api : fn) (s : state) : Prop := mk_good {
  good_sig : sig_inv s;
  good_rem : rem_inv s;
  good_async : async_inv s;
  good_call : fns ≠ [] → call_inv fns api s;
  good_idle : fns = [] → queue s = []
}.

Lemma sig_inv_start fns api : sig_inv (start fns api).
Proof. apply (sig_inv_after 0). Qed.

Lemma good_start fns api : good fns api (start fns api).
Proof.
  split.
  - apply sig_inv_start.
  - apply rem_inv_start.
  - apply async_inv_start.
  - apply call_inv_start.
  - intros ->. by rewrite start_empty.
Qed.

Lemma good_step fns api s : good fns api s → good fns api (step s).
Proof.
  intros [H1 H2 H3 H4 H5]. destruct fns as [|m ms].
  - rewrite step_quiescent by (by apply H5). by split.
  - assert (call_inv (m :: ms) api s) as Hc by (by apply H4).
    split.
    + by apply sig_inv_step.
    + by eapply rem_inv_step.
    + by eapply async_inv_step.
    + intros _. by apply call_inv_step.
    + done.
Qed.

Lemma good_steps fns api n s : good fns api s → good fns api (steps n s).
Proof.
  revert s. induction n as [|n IH]; intros s Hs; simpl; [done|].
  by apply IH, good_step.
Qed.

Lemma good_after n fns api : good fns api (after n fns api).
Proof. apply good_steps, good_start. Qed.

(** ** The queue is first in, first out *)

Definition queue_grows (s s' : state) : Prop := ∃ js, queue s' = queue s ++ js.

Lemma queue_grows_refl s : queue_grows s s.
Proof. exists []. by rewrite app_nil_r. Qed.

Lemma queue_grows_same s s' : queue s' = queue s → queue_grows s s'.
Proof. intros H. exists []. by rewrite app_nil_r. Qed.

Lemma queue_grows_trans s1 s2 s3 :
  queue_grows s1 s2 → queue_grows s2 s3 → queue_grows s1 s3.
Proof. intros [js1 H1] [js2 H2]. exists (js1 ++ js2). by rewrite H2, H1, app_assoc. Qed.

Lemma queue_grows_quiet s s' : quiet s s' → queue_grows s s'.
Proof. intros [[js [H _]] _ _ _]. by exists js. Qed.

Lemma queue_grows_run_job j s : queue_grows s (run_job j s).
Proof.
  destruct j as [f|r o|w k]; simpl.
  - destruct (has_failed f s); [by apply queue_grows_same|].
    unfold runRemaining.
    destruct (frames s !! f) as [fr|] eqn:Hfr; [|apply queue_grows_refl].
    destruct (remaining fr) as [|m ms] eqn:Hrem.
    + pose proof (runRemaining_last f s fr Hfr Hrem) as H.
      unfold runRemaining in H. rewrite Hfr, Hrem in H.
      apply (queue_grows_trans _ (emit (EvTerminal f) s)); [by apply queue_grows_same|].
      apply queue_grows_quiet, H.
    + eapply queue_grows_trans; [|apply queue_grows_quiet, quiet_subscribe].
      set (s1 := set_frames _ _).
      destruct (run_cases (length (frames s)) s1
                  (new_Executor (m :: ms) (apiRouteFn fr)) m)
        as (s2 & Hq1 & [[e Hq2] | Hrun]).
      * subst s1. simpl. by rewrite lookup_app_r, Nat.sub_diag.
      * done.
      * apply (queue_grows_trans _ s1); [by apply queue_grows_same|].
        apply (queue_grows_trans _ (emit (EvEnter (length (frames s))) s1));
          [by apply queue_grows_same|].
        apply (queue_grows_trans _ s2); [by apply queue_grows_quiet|].
        apply (queue_grows_trans _ (emit (EvThrew (OMw (length (frames s))) e) s2));
          [by apply queue_grows_same|].
        by apply queue_grows_quiet.
      * rewrite Hrun.
        apply (queue_grows_trans _ s1); [by apply queue_grows_same|].
        apply (queue_grows_trans _ (emit (EvEnter (length (frames s))) s1));
          [by apply queue_grows_same|].
        apply (queue_grows_trans _ s2); [by apply queue_grows_quiet|].
        by exists [JCheck (length (frames s))].
  - apply queue_grows_quiet, quiet_react.
  - apply queue_grows_quiet, quiet_resume.
Qed.

Lemma step_fifo s : ∃ js, queue (step s) = tail (queue s) ++ js.
Proof.
  destruct (queue s) as [|j q] eqn:Hq.
  - rewrite step_quiescent by done. exists []. by rewrite Hq.
  - rewrite (step_popped j q) by done.
    destruct (queue_grows_run_job j (popped s)) as [js Hjs].
    exists js. rewrite Hjs. unfold popped. simpl. by rewrite Hq.
Qed.

(** The job at place [i] of the queue runs after [i] microtasks. *)
Lemma steps_fifo i s j :
  queue s !! i = Some j → ∃ q, queue (steps i s) = j :: q.
Proof.
  revert s. induction i as [|i IH]; intros s Hj; simpl.
  - destruct (queue s) as [|j' q]; [done|]. simpl in Hj. injection Hj as ->. by exists q.
  - apply IH. destruct (step_fifo s) as [js ->].
    apply lookup_app_l_Some. by rewrite lookup_tail.
Qed.

(** A settled controlled promise stays as it is. *)
Lemma settled_stays p o m s :
  sig_inv s → controlled p = true →
  settled_as p s = Some o → settled_as p (steps m s) = Some o.
Proof.
  intros Hs Hp Ho.
  assert (sig_inv (steps m s)) as Hs'.
  { clear Ho. revert s Hs. induction m as [|m IH]; intros s Hs; simpl; [done|].
    by apply IH, sig_inv_step. }
  destruct (Hs p Hp) as [_ H1]. destruct (Hs' p Hp) as [_ H2].
  rewrite H2. rewrite H1 in Ho.
  destruct (log_grows_steps m s) as [es ->].
  rewrite signals_app. by destruct (signals p (log s)).
Qed.

(** ** Progress *)

(** The callback of [result.then] gives the frame the outcome of the
    middleware's promise. *)
Lemma result_runs f o q s :
  queue s = JReact (RResult f) o :: q → async_ok f s →
  settled_as (IP f) (step s) = Some o.
Proof.
  intros Hq Hok.
  assert (is_Some (get_promise (RP f) s) ∧ settled_as (IP f) s = None) as [[st Hrp] Hip].
  { unfold async_ok in Hok. rewrite Hq, res_jobs_cons, decide_True in Hok by done.
    destruct (get_promise (RP f) s) as [[rs|o']|].
    - by destruct Hok as (_ & _ & ? & _).
    - destruct Hok as (Hl & [[Hres Hip] | [Hres _]]); [|done]. split; [by eexists|done].
    - by destruct Hok as [_ ?]. }
  assert (∃ ips, get_promise (IP f) s = Some (Pending ips)) as [ips Hips].
  { unfold settled_as in Hip. unfold get_promise in *. simpl in *.
    destruct (frames s !! f) as [fr|]; [|done]. simpl in *.
    destruct (internalPromise fr) as [ips|]; [by eexists | done]. }
  rewrite (step_popped _ q) by done. cbn [run_job react].
  assert (get_promise (IP f) (popped s) = Some (Pending ips)) as Hips' by done.
  destruct o as [|e]; unfold succeed, fail, settled_as.
  - by rewrite get_promise_settle, Hips', decide_True.
  - by rewrite get_promise_settle, get_promise_set_failed, Hips', decide_True.
Qed.

Lemma result_delivered fns api f o i s :
  good fns api s → queue s !! i = Some (JReact (RResult f) o) →
  ∀ m, S i ≤ m → settled_as (IP f) (steps m s) = Some o.
Proof.
  intros Hg Hj m Hm. destruct (steps_fifo _ _ _ Hj) as [q Hq].
  pose proof (good_steps _ _ i _ Hg) as Hgi.
  pose proof (result_runs f o q _ Hq (good_async _ _ _ Hgi f)) as Ho.
  replace m with (S i + (m - S i)) by lia.
  rewrite steps_add, steps_S.
  apply settled_stays; [|done|done].
  apply (good_sig fns api), good_step, Hgi.
Qed.

(** The outcome of a body that runs to its end without a further pause. *)
Definition body_outcome (c : code) : option outcome :=
  match until_pause true c with
  | (_, PDone o) => Some o
  | _ => None
  end.

(** The frame whose middleware a job brings to its end, and the outcome of
    the middleware's promise: what the middleware returns or throws once it
    resumes, and the rejection of the awaited promise when it resumes with
    one outside of a [try]. *)
Definition completes (j : job) : option (nat * outcome) :=
  match j with
  | JResume (OMw f) k => pair f <$> body_outcome k
  | JReact (RHandle f k h) o =>
      match o, h with
      | Fulfilled, _ => pair f <$> body_outcome k
      | Rejected e, Some hd => pair f <$> body_outcome (hd e)
      | Rejected e, None => Some (f, Rejected e)
      end
  | _ => None
  end.

Lemma completes_cont j f o : completes j = Some (f, o) → cont_of j = Some f.
Proof.
  destruct j as [g|[g|g|g k h] [|e]|[g|g] k]; simpl; try done.
  - destruct (body_outcome k); intros; by simplify_eq/=.
  - destruct h as [hd|]; [destruct (body_outcome (hd e))|]; intros; by simplify_eq/=.
  - destruct (body_outcome k); intros; by simplify_eq/=.
Qed.

Lemma resume_completes f c o s :
  body_outcome c = Some o → get_promise (RP f) s = Some (Pending [RResult f]) →
  queue (resume (OMw f) c s) = queue s ++ [JReact (RResult f) o].
Proof.
  unfold body_outcome, resume, exec. simpl.
  destruct (until_pause true c) as [ls [o'| | |]]; try done.
  intros [= ->] Hrp.
  by rewrite (settle_pending _ _ [RResult f]).
Qed.

Lemma completion_runs f o j q s :
  queue s = j :: q → completes j = Some (f, o) → async_ok f s →
  queue (step s) = q ++ [JReact (RResult f) o].
Proof.
  intros Hq Hj Hok.
  destruct (lives_popped_cont f j q s Hq (completes_cont _ _ _ Hj) Hok) as (Hrp & _).
  rewrite (step_popped j q) by done.
  replace q with (queue (popped s)) by (unfold popped; simpl; by rewrite Hq).
  clear Hq.
  destruct j as [g|[g|g|g k h] [|e]|[g|g] k]; simpl in Hj; try done;
    cbn [run_job react].
  - destruct (body_outcome k) as [o'|] eqn:Hb; simplify_eq/=.
    by apply resume_completes.
  - destruct h as [hd|].
    + destruct (body_outcome (hd e)) as [o'|] eqn:Hb; simplify_eq/=.
      by apply resume_completes.
    + simplify_eq. by rewrite (settle_pending _ _ [RResult f]).
  - destruct (body_outcome k) as [o'|] eqn:Hb; simplify_eq/=.
    by apply resume_completes.
Qed.

(** A job that brings the middleware of [f] to its end with [o] gives the
    frame the outcome [o], after finitely many microtasks and for good. *)
Lemma completion_delivered fns api f o j s :
  good fns api s → j ∈ queue s → completes j = Some (f, o) →
  ∃ n, ∀ m, n ≤ m → settled_as (IP f) (steps m s) = Some o.
Proof.
  intros Hg Hin Hj. apply list_elem_of_lookup in Hin as [i Hi].
  destruct (steps_fifo _ _ _ Hi) as [q Hq].
  pose proof (good_steps _ _ i _ Hg) as Hgi.
  pose proof (completion_runs f o j q _ Hq Hj (good_async _ _ _ Hgi f)) as Hq'.
  rewrite <- steps_S in Hq'.
  assert (queue (steps (S i) s) !! length q = Some (JReact (RResult f) o)) as Hr.
  { rewrite Hq'. by apply list_lookup_middle. }
  exists (S i + S (length q)). intros m Hm.
  replace m with (S i + (m - S i)) by lia. rewrite steps_add.
  eapply result_delivered; [by apply good_steps | done | lia].
Qed.

(** ** The flag [asyncMiddlewareFailed] *)

(** From [s] to [s'] no flag has changed. *)
Definition same_flags (s s' : state) : Prop := ∀ f, has_failed f s' = has_failed f s.

Lemma same_flags_refl s : same_flags s s.
Proof. done. Qed.

Lemma same_flags_trans s1 s2 s3 : same_flags s1 s2 → same_flags s2 s3 → same_flags s1 s3.
Proof. intros H1 H2 f. by rewrite H2, H1. Qed.

Lemma same_flags_frames s s' : frames s' = frames s → same_flags s s'.
Proof. intros H f. unfold has_failed. by rewrite H. Qed.

Lemma same_flags_set_promise p st s : same_flags s (set_promise p st s).
Proof.
  intros f. unfold has_failed, set_promise. simpl.
  destruct (decide (pref_frame p = f)) as [<-|Hne].
  - rewrite list_lookup_alter_eq. destruct (frames s !! pref_frame p); [|done].
    by destruct p.
  - by rewrite list_lookup_alter_ne.
Qed.

Lemma same_flags_settle p o s : same_flags s (settle p o s).
Proof.
  unfold settle. destruct (get_promise p s) as [[rs|?]|]; [|done|done].
  eapply same_flags_trans; [|by apply same_flags_frames].
  eapply same_flags_trans; [|by apply same_flags_frames].
  eapply same_flags_trans; [|apply same_flags_set_promise].
  by apply same_flags_frames.
Qed.

Lemma same_flags_subscribe p r s : same_flags s (subscribe p r s).
Proof.
  unfold subscribe. destruct (get_promise p s) as [[rs|o]|]; [|done|done].
  apply same_flags_set_promise.
Qed.

Lemma same_flags_exec w c s : same_flags s (exec w c s).1.
Proof.
  unfold exec. destruct (until_pause (is_mw w) c) as [ls [o|k h|k|]]; simpl; try done.
  eapply same_flags_trans; [|apply same_flags_subscribe]. done.
Qed.

Lemma same_flags_resume w c s : same_flags s (resume w c s).
Proof.
  unfold resume. pose proof (same_flags_exec w c s) as H.
  destruct (exec w c s) as [s' [o|]]; simpl in H; [|done].
  eapply same_flags_trans; [done | apply same_flags_settle].
Qed.

Lemma same_flags_call_fn w g s : same_flags s (call_fn w g s).1.
Proof.
  destruct g as [c|c]; simpl.
  - pose proof (same_flags_exec w (lift c) s) as H.
    by destruct (exec w (lift c) s) as [s' [[|e]|]].
  - eapply same_flags_trans; [apply same_flags_set_promise | apply same_flags_resume].
Qed.

Lemma same_flags_finish f err s : same_flags s (finish f err s).
Proof. rewrite finish_settle. destruct (frames s !! f); [apply same_flags_settle | done]. Qed.

Lemma same_flags_run g s : same_flags s (run g s).
Proof.
  unfold run, fail. destruct (frames s !! g) as [fr|]; [|done].
  destruct (currentFn fr) as [m|]; [|apply same_flags_settle].
  pose proof (same_flags_call_fn (OMw g) m (emit (EvEnter g) s)) as Hc.
  destruct (call_fn (OMw g) m (emit (EvEnter g) s)) as [s1 [isp|e]]; simpl in Hc.
  - eapply same_flags_trans; [|by apply same_flags_frames].
    destruct isp; [|done].
    eapply same_flags_trans; [done | apply same_flags_subscribe].
  - eapply same_flags_trans; [|apply same_flags_settle].
    eapply same_flags_trans; [done | by apply same_flags_frames].
Qed.

Lemma same_flags_alloc fns api s :
  same_flags s (set_frames (frames s ++ [new_Executor fns api]) s).
Proof.
  intros f. unfold has_failed. simpl.
  destruct (decide (f < length (frames s))) as [Hlt|Hge].
  - by rewrite lookup_app_l.
  - rewrite lookup_app_r, (lookup_ge_None_2 (frames s)) by lia.
    by destruct (f - length (frames s)) as [|[|?]].
Qed.

Lemma same_flags_runRemaining g s : same_flags s (runRemaining g s).
Proof.
  unfold runRemaining. destruct (frames s !! g) as [fr|]; [|done].
  destruct (remaining fr) as [|m ms].
  - pose proof (same_flags_call_fn (OHandler g) (apiRouteFn fr) (emit (EvTerminal g) s))
      as Hc.
    destruct (call_fn (OHandler g) (apiRouteFn fr) (emit (EvTerminal g) s))
      as [s1 [[|]|e]]; simpl in Hc.
    + eapply same_flags_trans; [done | apply same_flags_subscribe].
    + eapply same_flags_trans; [done|].
      eapply same_flags_trans; [apply same_flags_set_promise|].
      eapply same_flags_trans; [apply same_flags_settle | apply same_flags_subscribe].
    + eapply same_flags_trans; [done|].
      eapply same_flags_trans; [|apply same_flags_finish]. by apply same_flags_frames.
  - eapply same_flags_trans; [|apply same_flags_subscribe].
    eapply same_flags_trans; [|apply same_flags_run].
    apply same_flags_alloc.
Qed.

(** Only the rejection callback of [result.then] sets the flag of a frame. *)
Lemma has_failed_run_job f j s :
  (∀ e, j ≠ JReact (RResult f) (Rejected e)) →
  has_failed f (run_job j s) = has_failed f s.
Proof.
  intros Hj. destruct j as [g|r o|w k]; simpl.
  - destruct (has_failed g s); [done | apply same_flags_runRemaining].
  - destruct r as [g|g|g k h].
    + destruct o as [|e]; simpl; [apply same_flags_settle|].
      unfold fail. rewrite same_flags_settle. unfold has_failed. simpl.
      rewrite list_lookup_alter_ne; [done|]. intros ->. by apply (Hj e).
    + rewrite react_remaining. apply same_flags_finish.
    + destruct o as [|e]; simpl; [apply same_flags_resume|].
      destruct h; [apply same_flags_resume | apply same_flags_settle].
  - apply same_flags_resume.
Qed.

(** ** The microtask of [run] *)

(** The only microtask of [run] that can be queued is that of the last
    frame. *)
Lemma check_last fns api s f :
  call_inv fns api s → JCheck f ∈ queue s → S f = length (frames s).
Proof.
  intros [Hpos _ _ (t & _ & Htail)] Hin.
  assert (JCheck f ∈ jchecks s) as Hj by (by apply list_elem_of_filter).
  inversion Htail as [Hjc| Hjc | ? Hjc | ? Hjc]; rewrite <- Hjc in Hj.
  - apply list_elem_of_singleton in Hj. injection Hj as ->. lia.
  - by apply elem_of_nil in Hj.
  - by apply elem_of_nil in Hj.
  - by apply elem_of_nil in Hj.
Qed.

Lemma check_runs_head fns api f q s :
  call_inv fns api s → queue s = JCheck f :: q → has_failed f s = false →
  started f (step s).
Proof.
  intros Hc Hq Hnf.
  assert (S f = length (frames s)) as Hlast.
  { eapply check_last; [done|]. rewrite Hq. apply list_elem_of_here. }
  destruct (lookup_lt_is_Some_2 (frames s) f) as [fr Hfr]; [lia|].
  apply started_loud.
  destruct (step_check_loud f q s fr Hq Hnf Hfr) as [-> | [-> | [e ->]]];
    rewrite <- ?Hlast, !elem_of_app, ?elem_of_cons; auto.
Qed.

Lemma started_steps f m s : started f s → started f (steps m s).
Proof.
  unfold started. destruct (log_grows_steps m s) as [es ->].
  rewrite !elem_of_app. tauto.
Qed.

(** A queued microtask of [run] starts the remainder when no rejection
    callback of the frame is queued before it. *)
Lemma check_runs fns api f pre post s :
  good fns api s →
  queue s = pre ++ JCheck f :: post → has_failed f s = false →
  (∀ e, JReact (RResult f) (Rejected e) ∉ pre) →
  started f (steps (S (length pre)) s).
Proof.
  intros Hg Hq. assert (fns ≠ []) as Hne.
  { intros ->. rewrite (good_idle _ _ _ Hg) in Hq by done. by destruct pre. }
  revert s post Hg Hq. induction pre as [|j pre IH]; intros s post Hg Hq Hnf Hpre.
  - simpl. eapply check_runs_head; [by apply (good_call _ _ _ Hg) | done | done].
  - change (steps (S (length (j :: pre))) s) with (steps (S (length pre)) (step s)).
    destruct (step_fifo s) as [js Hjs]. rewrite Hq in Hjs. simpl in Hjs.
    rewrite <- app_assoc in Hjs. simpl in Hjs.
    eapply IH; [by apply good_step | done | |].
    + rewrite (step_popped j (pre ++ JCheck f :: post)) by done.
      rewrite has_failed_run_job; [done|].
      intros e ->. apply (Hpre e), list_elem_of_here.
    + intros e He. apply (Hpre e). by apply elem_of_cons; right.
Qed.

(** No rejection callback of a frame is queued unless the middleware's
    promise is rejected. *)
Lemma rejection_queued f e s :
  async_ok f s → JReact (RResult f) (Rejected e) ∈ queue s →
  settled_as (RP f) s = Some (Rejected e).
Proof.
  intros Hok Hin.
  assert (JReact (RResult f) (Rejected e) ∈ res_jobs f (queue s)) as Hr
    by (by apply list_elem_of_filter).
  unfold async_ok in Hok. unfold settled_as.
  destruct (get_promise (RP f) s) as [[rs|o]|].
  - destruct Hok as (_ & _ & Hres & _). rewrite Hres in Hr. by apply elem_of_nil in Hr.
  - destruct Hok as (_ & [[Hres _] | [Hres _]]); rewrite Hres in Hr.
    + apply list_elem_of_singleton in Hr. by injection Hr as <-.
    + by apply elem_of_nil in Hr.
  - destruct Hok as [_ Hres]. rewrite Hres in Hr. by apply elem_of_nil in Hr.
Qed.

(** The microtask that [run] queued starts the remainder of the frame
    unless the middleware's promise is rejected already. *)
Lemma check_starts_remainder fns api f i s :
  good fns api s →
  queue s !! i = Some (JCheck f) → has_failed f s = false →
  (∀ e, settled_as (RP f) s ≠ Some (Rejected e)) →
  ∀ m, S i ≤ m → started f (steps m s).
Proof.
  intros Hg Hi Hnf Hrp m Hm.
  replace m with (S i + (m - S i)) by lia. rewrite steps_add. apply started_steps.
  pose proof (take_drop_middle _ _ _ Hi) as Hq. symmetry in Hq.
  assert (length (take i (queue s)) = i) as Hlen.
  { rewrite length_take. apply lookup_lt_Some in Hi. lia. }
  rewrite <- Hlen at 1.
  eapply check_runs; [done | done | done |].
  intros e He. apply (Hrp e), rejection_queued; [apply (good_async _ _ _ Hg)|].
  rewrite Hq. apply elem_of_app. by left.
Qed.

(** ** Promises are never removed *)

Definition grows (s s' : state) : Prop :=
  ∀ p, is_Some (get_promise p s) → is_Some (get_promise p s').

Lemma grows_frames s s' : frames s' = frames s → grows s s'.
Proof. intros H p. unfold get_promise. by rewrite H. Qed.

Lemma grows_refl s : grows s s.
Proof. by apply grows_frames. Qed.

Lemma grows_trans s1 s2 s3 : grows s1 s2 → grows s2 s3 → grows s1 s3.
Proof. intros H1 H2 p Hp. by apply H2, H1. Qed.

Lemma grows_set_promise p st s : grows s (set_promise p st s).
Proof.
  intros q Hq. rewrite get_set_promise. case_decide as Hpq; [|done].
  subst q. destruct Hq as [st' Hq]. unfold get_promise in Hq.
  destruct (frames s !! pref_frame p); [by eexists | done].
Qed.

Lemma grows_settle p o s : grows s (settle p o s).
Proof.
  intros q Hq. rewrite get_promise_settle.
  destruct (get_promise p s) as [[rs|?]|]; [|done|done].
  case_decide; [by eexists | done].
Qed.

Lemma grows_subscribe p r s : grows s (subscribe p r s).
Proof.
  intros q Hq. rewrite get_promise_subscribe.
  destruct (get_promise p s) as [[rs|?]|]; [|done|done].
  case_decide; [by eexists | done].
Qed.

Lemma grows_exec w c s : grows s (exec w c s).1.
Proof.
  unfold exec. destruct (until_pause (is_mw w) c) as [ls [o|k h|k|]]; simpl;
    try (by apply grows_frames).
  eapply grows_trans; [|apply grows_subscribe]. by apply grows_frames.
Qed.

Lemma grows_resume w c s : grows s (resume w c s).
Proof.
  unfold resume. pose proof (grows_exec w c s) as H.
  destruct (exec w c s) as [s' [o|]]; simpl in H; [|done].
  eapply grows_trans; [done | apply grows_settle].
Qed.

Lemma grows_call_fn w g s : grows s (call_fn w g s).1.
Proof.
  destruct g as [c|c]; simpl.
  - pose proof (grows_exec w (lift c) s) as H.
    by destruct (exec w (lift c) s) as [s' [[|e]|]].
  - eapply grows_trans; [apply grows_set_promise | apply grows_resume].
Qed.

Lemma grows_finish f err s : grows s (finish f err s).
Proof.
  rewrite finish_settle. destruct (frames s !! f); [apply grows_settle | apply grows_refl].
Qed.

Lemma grows_run g s : grows s (run g s).
Proof.
  unfold run, fail. destruct (frames s !! g) as [fr|]; [|apply grows_refl].
  destruct (currentFn fr) as [m|]; [|apply grows_settle].
  pose proof (grows_call_fn (OMw g) m (emit (EvEnter g) s)) as Hc.
  apply (grows_trans _ (emit (EvEnter g) s)); [by apply grows_frames|].
  destruct (call_fn (OMw g) m (emit (EvEnter g) s)) as [s1 [isp|e]]; simpl in Hc.
  - apply (grows_trans _ (if isp then subscribe (RP g) (RResult g) s1 else s1));
      [|by apply grows_frames].
    destruct isp; [|done].
    eapply grows_trans; [done | apply grows_subscribe].
  - eapply grows_trans; [|apply grows_settle].
    eapply grows_trans; [done | by apply grows_frames].
Qed.

Lemma grows_alloc fr s : grows s (set_frames (frames s ++ [fr]) s).
Proof.
  intros p [st Hp]. rewrite get_promise_alloc. apply get_promise_lt in Hp as Hlt.
  rewrite decide_False by lia. by eexists.
Qed.

Lemma grows_runRemaining g s : grows s (runRemaining g s).
Proof.
  unfold runRemaining. destruct (frames s !! g) as [fr|]; [|apply grows_refl].
  destruct (remaining fr) as [|m ms].
  - pose proof (grows_call_fn (OHandler g) (apiRouteFn fr) (emit (EvTerminal g) s)) as Hc.
    apply (grows_trans _ (emit (EvTerminal g) s)); [by apply grows_frames|].
    destruct (call_fn (OHandler g) (apiRouteFn fr) (emit (EvTerminal g) s))
      as [s1 [[|]|e]]; simpl in Hc.
    + eapply grows_trans; [done | apply grows_subscribe].
    + eapply grows_trans; [done|].
      eapply grows_trans; [apply grows_set_promise|].
      eapply grows_trans; [apply grows_settle | apply grows_subscribe].
    + eapply grows_trans; [done|].
      eapply grows_trans; [|apply grows_finish]. by apply grows_frames.
  - eapply grows_trans; [|apply grows_subscribe].
    eapply grows_trans; [|apply grows_run].
    apply grows_alloc.
Qed.

Lemma grows_step s : grows s (step s).
Proof.
  destruct (queue s) as [|j q] eqn:Hq; [rewrite step_quiescent by done; apply grows_refl|].
  rewrite (step_popped j q) by done.
  apply (grows_trans _ (popped s)); [by apply grows_frames|].
  destruct j as [g|r o|w k]; cbn [run_job].
  - destruct (has_failed g (popped s)); [apply grows_refl | apply grows_runRemaining].
  - destruct r as [g|g|g k h].
    + destruct o as [|e]; cbn [react]; [apply grows_settle|].
      eapply grows_trans; [|apply grows_settle].
      intros p Hp. by rewrite get_promise_set_failed.
    + rewrite react_remaining. apply grows_finish.
    + destruct o as [|e]; cbn [react]; [apply grows_resume|].
      destruct h; [apply grows_resume | apply grows_settle].
  - apply grows_resume.
Qed.

Lemma grows_steps n s : grows s (steps n s).
Proof.
  revert s. induction n as [|n IH]; intros s; simpl; [apply grows_refl|].
  eapply grows_trans; [apply grows_step | apply IH].
Qed.

(** ** An asynchronous middleware and the remainder of its frame *)

Lemma run_async f s fr c :
  frames s !! f = Some fr → currentFn fr = Some (AsyncFn c) →
  run f s =
    enqueue [JCheck f]
      (subscribe (RP f) (RResult f)
         (resume (OMw f) c (set_promise (RP f) (Pending []) (emit (EvEnter f) s)))).
Proof. intros Hfr Hc. unfold run. by rewrite Hfr, Hc. Qed.

(** When the middleware resumes, its promise settles if and as its body
    comes to its end. *)
Lemma resume_result f c rs s :
  get_promise (RP f) s = Some (Pending rs) →
  settled_as (RP f) (resume (OMw f) c s) = body_outcome c.
Proof.
  intros Hrp. unfold resume, exec, body_outcome, settled_as. simpl.
  destruct (until_pause true c) as [ls [o|k h|k|]].
  - assert (get_promise (RP f) (emits (OMw f) ls s) = Some (Pending rs)) as H by done.
    by rewrite get_promise_settle, H, decide_True.
  - rewrite get_promise_subscribe.
    assert (get_promise (RP f) (emits (OMw f) ls s) = Some (Pending rs)) as H by done.
    destruct (get_promise (TP f) (emits (OMw f) ls s)) as [[rs'|o']|]; by rewrite ?H.
  - assert (get_promise (RP f) (enqueue [JResume (OMw f) k] (emits (OMw f) ls s))
            = Some (Pending rs)) as H by done.
    by rewrite H.
  - assert (get_promise (RP f) (emits (OMw f) ls s) = Some (Pending rs)) as H by done.
    by rewrite H.
Qed.

(** After the call of an asynchronous middleware the microtask of [run]
    is queued, the flag is as it was, and the middleware's promise is
    settled if and as the body came to its end without a pause. *)
Lemma run_async_pending f s fr c :
  frames s !! f = Some fr → currentFn fr = Some (AsyncFn c) →
  queue (run f s) !! pred (length (queue (run f s))) = Some (JCheck f) ∧
  has_failed f (run f s) = has_failed f s ∧
  settled_as (RP f) (run f s) = body_outcome c ∧
  is_Some (get_promise (RP f) (run f s)).
Proof.
  intros Hfr Hc.
  assert (is_Some (get_promise (RP f) (run f s))) as Hsome.
  { rewrite (run_async f s fr c) by done.
    change (get_promise (RP f) (enqueue [JCheck f] ?x)) with (get_promise (RP f) x).
    apply grows_subscribe, grows_resume.
    rewrite get_set_promise, decide_True by done. simpl. by rewrite Hfr. }
  split; [|split; [|split; [|done]]].
  - rewrite (run_async f s fr c) by done. unfold enqueue at 1 2. simpl.
    rewrite length_app. simpl. rewrite Nat.add_1_r. simpl.
    by rewrite list_lookup_middle.
  - apply same_flags_run.
  - rewrite (run_async f s fr c) by done.
    set (s1 := set_promise (RP f) (Pending []) (emit (EvEnter f) s)).
    assert (get_promise (RP f) s1 = Some (Pending [])) as Hrp.
    { subst s1. rewrite get_set_promise, decide_True by done.
      unfold get_promise. simpl. by rewrite Hfr. }
    rewrite <- (resume_result f c [] s1 Hrp).
    unfold settled_as at 1.
    change (get_promise (RP f) (enqueue [JCheck f] ?x)) with (get_promise (RP f) x).
    rewrite get_promise_subscribe. unfold settled_as.
    destruct (get_promise (RP f) (resume (OMw f) c s1)) as [[rs|o]|]; [|done|done].
    by rewrite decide_True.
Qed.

(** A microtask that creates a frame is the microtask of [run] of the
    frame before, which calls [run] on the new frame. *)
Lemma step_creates fns api s :
  call_inv fns api s → length (frames (step s)) ≠ length (frames s) →
  ∃ g fr m ms,
    S g = length (frames s) ∧ frames s !! g = Some fr ∧ remaining fr = m :: ms ∧
    step s =
      subscribe (IP (S g)) (RRemaining g)
        (run (S g)
           (set_frames (frames s ++ [new_Executor (m :: ms) (apiRouteFn fr)]) (popped s))).
Proof.
  intros Hc Hlen. destruct (queue s) as [|j q] eqn:Hq.
  { by rewrite step_quiescent in Hlen. }
  assert (∀ s', quiet (popped s) s' → length (frames s') = length (frames s)) as Hquiet.
  { intros s' H. by rewrite (quiet_length _ _ H). }
  destruct j as [g|r o|w k].
  - assert (S g = length (frames s)) as Hlast.
    { eapply check_last; [done|]. rewrite Hq. apply list_elem_of_here. }
    rewrite (step_popped _ q) in * by done. simpl in *.
    destruct (has_failed g (popped s)); [done|].
    destruct (lookup_lt_is_Some_2 (frames s) g) as [fr Hfr]; [lia|].
    destruct (remaining fr) as [|m ms] eqn:Hrem.
    + pose proof (runRemaining_last g (popped s) fr Hfr Hrem) as H.
      by rewrite (quiet_length _ _ H) in Hlen.
    + exists g, fr, m, ms. repeat split; try done.
      rewrite (runRemaining_next g (popped s) fr m ms Hfr Hrem). simpl.
      by rewrite <- Hlast.
  - rewrite (Hquiet (step s)) in Hlen; [done|].
    apply step_quiet. intros f q'. by rewrite Hq.
  - rewrite (Hquiet (step s)) in Hlen; [done|].
    apply step_quiet. intros f q'. by rewrite Hq.
Qed.

Lemma frames_grow_step s : length (frames s) ≤ length (frames (step s)).
Proof.
  destruct (queue s) as [|j q] eqn:Hq; [by rewrite step_quiescent|].
  rewrite (step_popped j q) by done.
  destruct j as [g|r o|w k]; simpl.
  - destruct (has_failed g (popped s)); [done|].
    unfold runRemaining. change (frames (popped s)) with (frames s).
    destruct (frames s !! g) as [fr|] eqn:Hfr; [|done].
    destruct (remaining fr) as [|m ms] eqn:Hrem.
    + pose proof (runRemaining_last g (popped s) fr Hfr Hrem) as H.
      unfold runRemaining in H. change (frames (popped s)) with (frames s) in H.
      rewrite Hfr, Hrem in H. by rewrite (quiet_length _ _ H).
    + rewrite (quiet_length _ _ (quiet_subscribe _ _ _)).
      set (s1 := set_frames _ _).
      destruct (run_cases (length (frames s)) s1
                  (new_Executor (m :: ms) (apiRouteFn fr)) m)
        as (s2 & Hq1 & [[e Hq2] | Hrun]).
      * subst s1. simpl. by rewrite lookup_app_r, Nat.sub_diag.
      * done.
      * rewrite (quiet_length _ _ Hq2). simpl. rewrite (quiet_length _ _ Hq1).
        subst s1. simpl. rewrite length_app. lia.
      * rewrite Hrun. simpl. rewrite (quiet_length _ _ Hq1).
        subst s1. simpl. rewrite length_app. lia.
  - by rewrite (quiet_length _ _ (quiet_react r o (popped s))).
  - by rewrite (quiet_length _ _ (quiet_resume w k (popped s))).
Qed.

(** Every frame of an asynchronous middleware was created with the
    microtask of [run] queued, its flag unset, a promise as the result of
    its middleware, settled if and as the body came to its end without a
    pause. *)
Lemma frame_created fns api n f c :
  fns !! f = Some (AsyncFn c) → f < length (frames (after n fns api)) →
  ∃ n0 i, n0 ≤ n ∧
    queue (after n0 fns api) !! i = Some (JCheck f) ∧
    has_failed f (after n0 fns api) = false ∧
    settled_as (RP f) (after n0 fns api) = body_outcome c ∧
    is_Some (get_promise (RP f) (after n0 fns api)).
Proof.
  intros Hf Hlt.
  assert (fns ≠ []) as Hne by (intros ->; done).
  induction n as [|n IH].
  - assert (length (frames (after 0 fns api)) = 1) as Hlen.
    { destruct fns as [|m ms]; [done|].
      destruct (run_cases 0 (mkState [new_Executor (m :: ms) api] [] [])
                  (new_Executor (m :: ms) api) m eq_refl eq_refl)
        as (s2 & Hq1 & [[e Hq2] | Hrun]); unfold after, start; simpl.
      - rewrite (quiet_length _ _ Hq2). simpl. by rewrite (quiet_length _ _ Hq1).
      - rewrite Hrun. simpl. by rewrite (quiet_length _ _ Hq1). }
    rewrite Hlen in Hlt. assert (f = 0) as -> by lia.
    destruct fns as [|m ms]; [done|]. simpl in Hf. injection Hf as ->.
    destruct (run_async_pending 0 (mkState [new_Executor (AsyncFn c :: ms) api] [] [])
                (new_Executor (AsyncFn c :: ms) api) c eq_refl eq_refl)
      as (Hi & Hnf & Hrp & Hsome).
    exists 0. eexists. split; [done|]. split; [exact Hi|]. by split.
  - destruct (decide (f < length (frames (after n fns api)))) as [Hlt'|Hge].
    { destruct (IH Hlt') as (n0 & i & Hle & H). exists n0, i. split; [lia | done]. }
    rewrite after_S in Hlt. set (s := after n fns api) in *.
    pose proof (call_inv_after n fns api Hne) as Hinv. fold s in Hinv.
    destruct (step_creates fns api s Hinv) as (g & fr & m & ms & Hg & Hfr & Hrem & Hstep);
      [lia|].
    pose proof (frames_grow_step s) as Hgrow.
    set (s1 := set_frames (frames s ++ [new_Executor (m :: ms) (apiRouteFn fr)])
                 (popped s)) in *.
    assert (frames s1 !! S g = Some (new_Executor (m :: ms) (apiRouteFn fr))) as Hnew.
    { subst s1. simpl. by rewrite Hg, lookup_app_r, Nat.sub_diag. }
    assert (length (frames (step s)) = S (length (frames s))) as Hlen.
    { rewrite Hstep, (quiet_length _ _ (quiet_subscribe _ _ _)).
      destruct (run_cases (S g) s1 _ m Hnew eq_refl)
        as (s2 & Hq1 & [[e Hq2] | Hrun]).
      - rewrite (quiet_length _ _ Hq2). simpl. rewrite (quiet_length _ _ Hq1).
        subst s1. simpl. rewrite length_app. simpl. lia.
      - rewrite Hrun. simpl. rewrite (quiet_length _ _ Hq1).
        subst s1. simpl. rewrite length_app. simpl. lia. }
    assert (f = S g) as -> by lia.
    destruct (static_at_lookup fns api s g fr (ci_statics _ _ _ Hinv) Hfr)
      as (_ & Hdrop & _).
    rewrite Hrem in Hdrop. symmetry in Hdrop.
    apply drop_cons_inv in Hdrop as [Hm _]. rewrite Hf in Hm. injection Hm as <-.
    destruct (run_async_pending (S g) s1 _ c Hnew eq_refl) as (Hi & Hnf & Hrp & Hsome).
    exists (S n). eexists. split; [done|]. rewrite after_S. fold s.
    split; [|split; [|split]].
    + rewrite Hstep.
      destruct (quiet_queue _ _ (quiet_subscribe (IP (S g)) (RRemaining g) (run (S g) s1)))
        as (js & -> & _).
      apply lookup_app_l_Some. exact Hi.
    + rewrite Hstep, same_flags_subscribe, Hnf.
      unfold has_failed. by rewrite Hnew.
    + rewrite Hstep. unfold settled_as. rewrite get_promise_subscribe.
      fold (settled_as (RP (S g)) (run (S g) s1)).
      destruct (get_promise (IP (S g)) (run (S g) s1)) as [[rs|o]|];
        by rewrite ?decide_False.
    + rewrite Hstep. by apply grows_subscribe.
Qed.

(** An asynchronous middleware whose promise is not rejected by the time
    its call returns has the remainder of its frame started, whether or
    not it has invoked the continuation. *)
Lemma remainder_starts fns api n f c :
  fns !! f = Some (AsyncFn c) → f < length (frames (after n fns api)) →
  (∀ e, body_outcome c ≠ Some (Rejected e)) →
  ∃ m, ∀ m', m ≤ m' → started f (after m' fns api).
Proof.
  intros Hf Hlt Hc.
  destruct (frame_created fns api n f c Hf Hlt) as (n0 & i & _ & Hi & Hnf & Hrp & _).
  exists (n0 + S i). intros m' Hm'.
  replace m' with (n0 + (m' - n0)) by lia. rewrite after_add.
  eapply check_starts_remainder; [apply good_after | done | done | | lia].
  intros e. rewrite Hrp. apply Hc.
Qed.

(** The result of an asynchronous middleware is a promise. *)
Lemma async_has_result fns api n f c :
  fns !! f = Some (AsyncFn c) → f < length (frames (after n fns api)) →
  is_Some (get_promise (RP f) (after n fns api)).
Proof.
  intros Hf Hlt.
  destruct (frame_created fns api n f c Hf Hlt) as (n0 & i & Hle & _ & _ & _ & Hsome).
  replace n with (n0 + (n - n0)) by lia. rewrite after_add. by apply grows_steps.
Qed.

(** The outcome of an asynchronous frame is that of the middleware's own
    promise. *)
Lemma frame_outcome_from_result f o s :
  async_ok f s → is_Some (get_promise (RP f) s) →
  settled_as (IP f) s = Some o → settled_as (RP f) s = Some o.
Proof.
  unfold async_ok. intros Hok [st Hst] Hip.
  assert (settled_as (RP f) s = match st with Settled o' => Some o' | _ => None end) as ->
    by (unfold settled_as; by rewrite Hst).
  rewrite Hst in Hok. destruct st as [rs|o'].
  - destruct Hok as (_ & _ & _ & Hnone). congruence.
  - destruct Hok as (_ & [[_ Hnone] | [_ Hsome]]); congruence.
Qed.

(** Once the middleware's promise has settled, the frame gets its
    outcome, after finitely many microtasks and for good. *)
Lemma result_settled_delivered fns api f o s :
  good fns api s → settled_as (RP f) s = Some o →
  ∃ n, ∀ m, n ≤ m → settled_as (IP f) (steps m s) = Some o.
Proof.
  intros Hg Hrp. pose proof (good_async _ _ _ Hg f) as Hok.
  unfold async_ok in Hok. unfold settled_as in Hrp.
  destruct (get_promise (RP f) s) as [[rs|o']|]; [done| |done].
  injection Hrp as ->.
  destruct Hok as (_ & [[Hres _] | [_ Hip]]).
  - assert (JReact (RResult f) o ∈ queue s) as Hin.
    { assert (JReact (RResult f) o ∈ res_jobs f (queue s)) as H
        by (rewrite Hres; apply list_elem_of_here).
      by apply list_elem_of_filter in H as [_ H]. }
    apply list_elem_of_lookup in Hin as [i Hi].
    exists (S i). by eapply result_delivered.
  - exists 0. intros m _. apply settled_stays; [apply (good_sig _ _ _ Hg) | done | done].
Qed.


(** ** The failure of the remainder *)

(** The error with which [runRemaining] of frame [f] calls [finish] in
    the next microtask, if it does: the [await] of [runRemaining] resumes
    with a rejection, or the handler, called by the microtask of [run],
    throws during its call. *)
Definition failing_remainder (f : nat) (s : state) : option value :=
  match queue s with
  | JReact (RRemaining g) (Rejected e) :: _ => if decide (g = f) then Some e else None
  | JCheck g :: _ =>
      if decide (g = f) then
        if has_failed f s then None
        else
          match frames s !! f with
          | Some fr =>
              match remaining fr, call_fn (OHandler f) (apiRouteFn fr) s with
              | [], (_, Threw e) => Some e
              | _, _ => None
              end
          | None => None
          end
      else None
  | _ => None
  end.

(** The middleware of [f] is suspended at [await next()], with [k] the
    rest of its body and [h] the [catch] around the [await], if any. *)
Definition awaiting_handle (f : nat) (k : code) (h : option (value → code))
    (s : state) : Prop :=
  get_promise (TP f) s = Some (Pending [RHandle f k h]).

Lemma call_fn_threw w g s s' e :
  call_fn w g s = (s', Threw e) →
  ∀ s0, ∃ s0', call_fn w g s0 = (s0', Threw e) ∧
    frames s0' = frames s0 ∧ queue s0' = queue s0.
Proof.
  destruct g as [c|c]; simpl; [|done]. unfold exec.
  destruct (until_pause (is_mw w) (lift c)) as [ls [[|e']|k h|k|]]; simpl; try done.
  intros [= _ ->] s0. by eexists.
Qed.

Lemma failing_remainder_step f e s :
  failing_remainder f s = Some e →
  ∃ s', step s = finish f (Some e) s' ∧ frames s' = frames s ∧ queue s' = tail (queue s).
Proof.
  unfold failing_remainder. destruct (queue s) as [|j q] eqn:Hq; [done|].
  destruct j as [g|[g|g|g k h] [|e']|w k]; try done.
  - case_decide; [subst g|done]. destruct (has_failed f s) eqn:Hnf; [done|].
    destruct (frames s !! f) as [fr|] eqn:Hfr; [|done].
    destruct (remaining fr) as [|m ms] eqn:Hrem; [|done].
    destruct (call_fn (OHandler f) (apiRouteFn fr) s) as [s1 [isp|e']] eqn:Hcall; [done|].
    intros [= ->]. rewrite (step_popped _ q) by done. cbn [run_job].
    change (has_failed f (popped s)) with (has_failed f s). rewrite Hnf.
    unfold runRemaining. change (frames (popped s)) with (frames s). rewrite Hfr, Hrem.
    destruct (call_fn_threw _ _ _ _ _ Hcall (emit (EvTerminal f) (popped s)))
      as (s0' & -> & Hfr' & Hq').
    eexists. split; [done|]. simpl. rewrite Hfr', Hq'. simpl. by rewrite Hq.
  - case_decide; [subst g|done]. intros [= ->].
    rewrite (step_popped _ q) by done. cbn [run_job]. rewrite react_remaining.
    exists (popped s). split; [done|]. split; [done|]. simpl. by rewrite Hq.
Qed.

Lemma outcome_of_settled s : outcome_of s = settled_as (IP 0) s.
Proof. done. Qed.

(** From some microtask on, for good. *)
Lemma eventually_after fns api n (P : state → Prop) :
  (∃ m, ∀ m', m ≤ m' → P (steps m' (after n fns api))) →
  ∃ m, ∀ m', m ≤ m' → P (after m' fns api).
Proof.
  intros [m H]. exists (n + m). intros m' Hm'.
  replace m' with (n + (m' - n)) by lia. rewrite after_add. apply H. lia.
Qed.

(** C5, amended: when the remainder of the frame of an asynchronous
    middleware fails with a truthy error [e] while the middleware is
    suspended at [await next()], the handle is rejected with [e] in that
    microtask and the middleware is queued to resume with that rejection:
    it runs its [catch] on [e] if the [await] stands in a [try], and
    otherwise its own promise is rejected with [e], and the outcome of its
    frame (for the first middleware: of the chain) becomes and stays that
    same failure. *)
Theorem remainder_failure_rejects_handle
    (fns : list fn) (api : fn) (n f : nat) (e : value)
    (k : code) (h : option (value → code)) :
  failing_remainder f (after n fns api) = Some e →
  truthy e = true →
  awaiting_handle f k h (after n fns api) →
  settled_as (TP f) (after (S n) fns api) = Some (Rejected e) ∧
  queue (after (S n) fns api) =
    tail (queue (after n fns api)) ++ [JReact (RHandle f k h) (Rejected e)] ∧
  (∀ s, run_job (JReact (RHandle f k h) (Rejected e)) s =
        match h with
        | Some hd => resume (OMw f) (hd e) s
        | None => settle (RP f) (Rejected e) s
        end) ∧
  (h = None →
   ∃ m, ∀ m', m ≤ m' →
     settled_as (IP f) (after m' fns api) = Some (Rejected e) ∧
     (f = 0 → outcome_of (after m' fns api) = Some (Rejected e))).
Proof.
  intros Hfail Htruthy Hwait. rewrite after_S.
  pose proof (good_after n fns api) as Hg. set (s := after n fns api) in *.
  destruct (failing_remainder_step f e s Hfail) as (s' & Hstep & Hfr' & Hq').
  assert (∀ p, get_promise p s' = get_promise p s) as Hget
    by (intros p; unfold get_promise; by rewrite Hfr').
  unfold awaiting_handle in Hwait.
  assert (∃ fr, frames s !! f = Some fr ∧ is_Some (result fr)) as (fr & Hfr & Hres).
  { pose proof (good_async _ _ _ Hg f) as Hok.
    unfold async_ok, lives, waiting in Hok. rewrite Hwait in Hok.
    unfold get_promise in Hok, Hwait. simpl in Hok, Hwait.
    destruct (frames s !! f) as [fr|]; [|done]. exists fr. split; [done|].
    simpl in Hok. destruct (result fr) as [st|]; [by eexists|].
    destruct Hok as [Hl _]. simpl in Hl. lia. }
  assert (step s = settle (TP f) (Rejected e) s') as Hsettle.
  { rewrite Hstep, finish_settle, Hfr', Hfr. destruct Hres as [st ->].
    simpl. by rewrite Htruthy. }
  assert (queue (step s) = tail (queue s) ++ [JReact (RHandle f k h) (Rejected e)]) as Hqueue.
  { rewrite Hsettle, (settle_pending _ _ [RHandle f k h]) by (by rewrite Hget).
    simpl. by rewrite Hq'. }
  split; [|split; [done|split]].
  - unfold settled_as. by rewrite Hsettle, get_promise_settle, Hget, Hwait, decide_True.
  - intros s0. by destruct h.
  - intros ->.
    apply (eventually_after fns api (S n)
             (fun st => settled_as (IP f) st = Some (Rejected e) ∧
                        (f = 0 → outcome_of st = Some (Rejected e)))).
    destruct (completion_delivered fns api f (Rejected e)
                (JReact (RHandle f k None) (Rejected e)) (after (S n) fns api))
      as [m Hm].
    + apply good_after.
    + rewrite after_S. fold s. rewrite Hqueue. apply elem_of_app. right.
      apply list_elem_of_here.
    + done.
    + exists m. intros m' Hm'. split; [by apply Hm|].
      intros ->. rewrite outcome_of_settled. by apply Hm.
Qed.

Lemma remainder_failure_rejects_handle_witness :
  settled_as (TP 0) (after 1 [awaiting_mw] throwing_handler) = Some (Rejected boom) ∧
  ∃ m, ∀ m', m ≤ m' →
    outcome_of (after m' [awaiting_mw] throwing_handler) = Some (Rejected boom).
Proof.
  destruct (remainder_failure_rejects_handle [awaiting_mw] throwing_handler 0 0 boom
              (Emit "post" Return) None)
    as (H1 & _ & _ & H4).
  - reflexivity.
  - reflexivity.
  - reflexivity.
  - split; [exact H1|].
    destruct (H4 eq_refl) as [m Hm]. exists m. intros m' Hm'.
    by apply (Hm m' Hm').
Defined.

(** C8, amended: for every asynchronous middleware that has been called,
    whether or not it ever invokes the continuation, the remainder of its
    frame is started, by the microtask that [run] queued, unless the
    middleware's promise is rejected already when its call returns; and
    the frame's outcome settles only once the middleware's own promise has
    settled, and then as that promise has: success passes through,
    failure propagates. *)
Theorem async_frame_follows_own_promise
    (fns : list fn) (api : fn) (n f : nat) (c : code) :
  fns !! f = Some (AsyncFn c) →
  f < length (frames (after n fns api)) →
  ((∀ e, body_outcome c ≠ Some (Rejected e)) →
   ∃ m, ∀ m', m ≤ m' → started f (after m' fns api)) ∧
  (∀ o, settled_as (IP f) (after n fns api) = Some o →
        settled_as (RP f) (after n fns api) = Some o) ∧
  (∀ o, settled_as (RP f) (after n fns api) = Some o →
        ∃ m, ∀ m', m ≤ m' → settled_as (IP f) (after m' fns api) = Some o).
Proof.
  intros Hf Hlt. split; [|split].
  - intros Hc. by eapply remainder_starts.
  - intros o. apply frame_outcome_from_result.
    + apply (good_async fns api), good_after.
    + by eapply async_has_result.
  - intros o Ho.
    apply (eventually_after fns api n (fun st => settled_as (IP f) st = Some o)).
    eapply result_settled_delivered; [apply good_after | done].
Qed.

Lemma async_frame_follows_own_promise_witness :
  (∃ m, ∀ m', m ≤ m' → started 0 (after m' [silent_mw; passing_mw] plain_handler)) ∧
  (∃ m, ∀ m', m ≤ m' →
     settled_as (IP 0) (after m' [silent_mw; passing_mw] plain_handler) = Some Fulfilled).
Proof.
  destruct (async_frame_follows_own_promise [silent_mw; passing_mw] plain_handler 0 0
              (Emit "no next" Return))
    as (H1 & _ & H3).
  - reflexivity.
  - vm_compute. lia.
  - split.
    + apply H1. intros e. discriminate.
    + apply H3. reflexivity.
Defined.

(** * Further properties of the executor *)

(** ** The frames of a run *)

Lemma enter_logged fns api s f :
  call_inv fns api s → EvEnter f ∈ log s ↔ f < length (frames s).
Proof.
  intros [_ _ _ (t & Hld & Htail)].
  assert (EvEnter f ∈ log s ↔ EvEnter f ∈ loud s) as -> by (rewrite elem_of_loud; tauto).
  rewrite Hld, elem_of_app, list_elem_of_fmap. split.
  - intros [(i & [= ->] & Hi) | Hin].
    + apply elem_of_seq in Hi. lia.
    + inversion Htail as [Hj Ht | Hj Ht | Hn Hj Ht | e' Hj Ht]; subst t;
        try (by apply elem_of_nil in Hin);
        apply list_elem_of_singleton in Hin; discriminate.
  - intros Hlt. left. exists f. split; [done|]. apply elem_of_seq. lia.
Qed.

(** X1: in every run of a list that is not empty, the constructor and
    [runRemaining] hand the list down one position per frame: there are
    never more frames than middleware, every frame was run (its middleware
    called) and no middleware is called without a frame; the frame at
    depth [f] holds the middleware at position [f] as [currentFn], the
    middleware after it as [remaining], and the handler given to the
    first frame as [apiRouteFn]. *)
Theorem frames_follow_the_list (fns : list fn) (api : fn) (n : nat) :
  fns ≠ [] →
  0 < length (frames (after n fns api)) ≤ length fns ∧
  (∀ f, EvEnter f ∈ log (after n fns api) ↔ f < length (frames (after n fns api))) ∧
  (∀ f fr, frames (after n fns api) !! f = Some fr →
           currentFn fr = fns !! f ∧ remaining fr = drop (S f) fns ∧ apiRouteFn fr = api).
Proof.
  intros Hne. pose proof (call_inv_after n fns api Hne) as Hinv.
  split; [|split].
  - split; [apply (ci_pos _ _ _ Hinv) | apply (ci_le _ _ _ Hinv)].
  - intros f. by eapply enter_logged.
  - intros f fr Hfr. by eapply static_at_lookup; [apply (ci_statics _ _ _ Hinv)|].
Qed.

Lemma frames_follow_the_list_witness :
  0 < length (frames (after 3 [passing_mw; silent_mw] plain_handler)) ≤ 2 ∧
  (∀ f, EvEnter f ∈ log (after 3 [passing_mw; silent_mw] plain_handler) ↔
        f < length (frames (after 3 [passing_mw; silent_mw] plain_handler))).
Proof.
  destruct (frames_follow_the_list [passing_mw; silent_mw] plain_handler 3)
    as (H1 & H2 & _).
  - discriminate.
  - split; [exact H1 | exact H2].
Defined.

Lemma terminal_enter (l : list nat) :
  filter (fun e => is_terminal e = true) (map EvEnter l) = [].
Proof. induction l as [|i l IH]; [done|]. cbn [map]. by rewrite filter_cons_False. Qed.

Lemma terminal_calls_loud (l : list event) :
  terminal_calls l =
    length (filter (fun e => is_terminal e = true) (filter (fun e => is_quiet e = false) l)).
Proof.
  unfold terminal_calls. induction l as [|e l IH]; [done|].
  destruct (is_terminal e) eqn:Ht.
  - rewrite filter_cons_True by done.
    rewrite (filter_cons_True (fun e => is_quiet e = false)) by (by destruct e).
    rewrite filter_cons_True by done. simpl. by rewrite IH.
  - rewrite filter_cons_False by (by rewrite Ht).
    destruct (is_quiet e) eqn:Hq.
    + by rewrite (filter_cons_False (fun e => is_quiet e = false)) by (by rewrite Hq).
    + rewrite (filter_cons_True (fun e => is_quiet e = false)) by done.
      by rewrite filter_cons_False by (by rewrite Ht).
Qed.

(** X2: in every run of a list that is not empty the middleware are
    called in list order, without a gap and each at most once, and the
    handler is invoked at most once, by the last frame and only after
    every middleware has been called. *)
Theorem calls_follow_list_order (fns : list fn) (api : fn) (n : nat) :
  fns ≠ [] →
  let k := length (frames (after n fns api)) in
  (calls (log (after n fns api)) = map EvEnter (seq 0 k) ∧
   terminal_calls (log (after n fns api)) = 0) ∨
  (k = length fns ∧
   calls (log (after n fns api)) = map EvEnter (seq 0 k) ++ [EvTerminal (pred k)] ∧
   terminal_calls (log (after n fns api)) = 1).
Proof.
  intros Hne k. subst k.
  destruct (call_inv_after n fns api Hne) as [Hpos Hle _ (t & Hld & Htail)].
  rewrite terminal_calls_loud. fold (loud (after n fns api)).
  rewrite calls_loud, Hld, !filter_app, calls_enter, terminal_enter.
  inversion Htail as [Hj Heq | Hj Heq | Hn Hj Heq | e' Hj Heq]; subst t.
  - left. by rewrite app_nil_r.
  - left. by rewrite app_nil_r.
  - right. split; [done|]. split; done.
  - left. rewrite !filter_cons_False, !filter_nil, app_nil_r by done. done.
Qed.

Lemma calls_follow_list_order_witness :
  calls (log (after 8 [silent_mw; passing_mw] plain_handler)) =
    [EvEnter 0; EvEnter 1; EvTerminal 1] ∧
  terminal_calls (log (after 8 [silent_mw; passing_mw] plain_handler)) = 1.
Proof.
  destruct (calls_follow_list_order [silent_mw; passing_mw] plain_handler 8)
    as [[_ H] | (_ & H1 & H2)].
  - discriminate.
  - vm_compute in H. discriminate.
  - split; [exact H1 | exact H2].
Defined.

(** ** Middleware that return without throwing *)

(** Every frame was created as the constructor leaves it and then run, in
    one microtask: by [start] for the first frame, by [runRemaining] of
    the frame before for the others. *)
Lemma frame_run fns api n f :
  fns ≠ [] → f < length (frames (after n fns api)) →
  ∃ n0 s1, n0 ≤ n ∧
    frames s1 !! f = Some (new_Executor (drop f fns) api) ∧
    length (frames s1) = S f ∧
    (after n0 fns api = run f s1 ∨
     after n0 fns api = subscribe (IP f) (RRemaining (pred f)) (run f s1)).
Proof.
  intros Hne Hlt. induction n as [|n IH].
  - assert (length (frames (after 0 fns api)) = 1) as Hlen.
    { destruct fns as [|m ms]; [done|].
      destruct (run_cases 0 (mkState [new_Executor (m :: ms) api] [] [])
                  (new_Executor (m :: ms) api) m eq_refl eq_refl)
        as (s2 & Hq1 & [[e Hq2] | Hrun]); unfold after, start; simpl.
      - rewrite (quiet_length _ _ Hq2). simpl. by rewrite (quiet_length _ _ Hq1).
      - rewrite Hrun. simpl. by rewrite (quiet_length _ _ Hq1). }
    rewrite Hlen in Hlt. assert (f = 0) as -> by lia.
    exists 0, (mkState [new_Executor fns api] [] []).
    split; [done|]. split; [done|]. split; [done|]. by left.
  - destruct (decide (f < length (frames (after n fns api)))) as [Hlt'|Hge].
    { destruct (IH Hlt') as (n0 & s1 & Hle & H). exists n0, s1. split; [lia | done]. }
    rewrite after_S in Hlt. set (s := after n fns api) in *.
    pose proof (call_inv_after n fns api Hne) as Hinv. fold s in Hinv.
    destruct (step_creates fns api s Hinv) as (g & fr & m & ms & Hg & Hfr & Hrem & Hstep);
      [lia|].
    set (s1 := set_frames (frames s ++ [new_Executor (m :: ms) (apiRouteFn fr)])
                 (popped s)) in *.
    assert (frames s1 !! S g = Some (new_Executor (m :: ms) (apiRouteFn fr))) as Hnew.
    { subst s1. simpl. by rewrite Hg, lookup_app_r, Nat.sub_diag. }
    assert (length (frames (step s)) = S (length (frames s))) as Hlen.
    { rewrite Hstep, (quiet_length _ _ (quiet_subscribe _ _ _)).
      destruct (run_cases (S g) s1 _ m Hnew eq_refl)
        as (s2 & Hq1 & [[e Hq2] | Hrun]).
      - rewrite (quiet_length _ _ Hq2). simpl. rewrite (quiet_length _ _ Hq1).
        subst s1. simpl. rewrite length_app. simpl. lia.
      - rewrite Hrun. simpl. rewrite (quiet_length _ _ Hq1).
        subst s1. simpl. rewrite length_app. simpl. lia. }
    assert (f = S g) as -> by lia.
    destruct (static_at_lookup fns api s g fr (ci_statics _ _ _ Hinv) Hfr)
      as (_ & Hdrop & Hapi).
    exists (S n), s1. split; [done|]. split; [|split].
    + by rewrite Hnew, <- Hrem, Hdrop, Hapi.
    + subst s1. simpl. rewrite length_app. simpl. lia.
    + right. by rewrite after_S.
Qed.

Lemma head_drop_lookup {A} (l : list A) i : head (drop i l) = l !! i.
Proof. by rewrite head_lookup, lookup_drop, Nat.add_0_r. Qed.

(** The microtask that [run] queued for a middleware that returned no
    promise starts the remainder of its frame. *)
Lemma sync_remainder_starts
    (fns : list fn) (api : fn) (n f : nat) (c : scode) (ls : list string) :
  fns !! f = Some (SyncFn c) →
  plain_run true c = (ls, Fulfilled) →
  f < length (frames (after n fns api)) →
  ∃ m, ∀ m', m ≤ m' → started f (after m' fns api).
Proof.
  intros Hf Hrun Hlt.
  assert (fns ≠ []) as Hne by (intros ->; done).
  destruct (frame_run fns api n f Hne Hlt) as (n0 & s1 & _ & Hnew & Hlen & Hafter).
  assert (run f s1 = enqueue [JCheck f] (emits (OMw f) ls (emit (EvEnter f) s1))) as Hr.
  { unfold run. rewrite Hnew. cbn [currentFn new_Executor].
    rewrite head_drop_lookup, Hf.
    by rewrite (call_fn_plain _ _ _ ls Fulfilled). }
  assert (∃ i, queue (after n0 fns api) !! i = Some (JCheck f)) as [i Hi].
  { destruct Hafter as [-> | ->].
    - rewrite Hr. exists (length (queue s1)). simpl. by apply list_lookup_middle.
    - destruct (quiet_queue _ _ (quiet_subscribe (IP f) (RRemaining (pred f)) (run f s1)))
        as (js & -> & _).
      rewrite Hr. exists (length (queue s1)). apply lookup_app_l_Some.
      simpl. by apply list_lookup_middle. }
  assert (has_failed f (after n0 fns api) = false) as Hnf.
  { assert (has_failed f (run f s1) = false) as H.
    { rewrite same_flags_run. unfold has_failed. by rewrite Hnew. }
    destruct Hafter as [-> | ->]; [done | by rewrite same_flags_subscribe]. }
  assert (settled_as (RP f) (after n0 fns api) = None) as Hrp.
  { assert (get_promise (RP f) (run f s1) = None) as H.
    { rewrite Hr. unfold get_promise. simpl. by rewrite Hnew. }
    unfold settled_as.
    destruct Hafter as [-> | ->]; [by rewrite H|].
    rewrite get_promise_subscribe.
    destruct (get_promise (IP f) (run f s1)) as [[rs|o]|];
      rewrite ?decide_False by done; by rewrite H. }
  exists (n0 + S i). intros m' Hm'.
  replace m' with (n0 + (m' - n0)) by lia. rewrite after_add.
  eapply check_starts_remainder; [apply good_after | done | done | | lia].
  intros e. by rewrite Hrp.
Qed.

(** X3: a plain middleware whose call returns without throwing hands
    control on, whether or not it has invoked the continuation: the
    microtask that [run] queued starts the remainder of its frame (the
    next middleware, or the handler), and nothing can prevent it. *)
Theorem returning_middleware_hands_on
    (fns : list fn) (api : fn) (n f : nat) (c : scode) (ls : list string) :
  fns !! f = Some (SyncFn c) →
  plain_run true c = (ls, Fulfilled) →
  f < length (frames (after n fns api)) →
  ∃ m, ∀ m', m ≤ m' → started f (after m' fns api).
Proof. apply sync_remainder_starts. Qed.

(** [(req, res) => { log }]: a plain middleware that does not touch the
    continuation. *)
Definition quiet_mw : fn := SyncFn (SEmit "no next" SReturn).

Lemma returning_middleware_hands_on_witness :
  ∃ m, ∀ m', m ≤ m' → started 0 (after m' [quiet_mw] plain_handler).
Proof.
  apply (returning_middleware_hands_on [quiet_mw] plain_handler 0 0
           (SEmit "no next" SReturn) ["no next"]).
  - reflexivity.
  - reflexivity.
  - vm_compute. lia.
Defined.

(** ** Which promises an operation settles *)

Lemma settled_as_frames p s s' : frames s' = frames s → settled_as p s' = settled_as p s.
Proof. intros H. unfold settled_as, get_promise. by rewrite H. Qed.

Lemma settled_as_set_promise p q st s :
  q ≠ p → settled_as p (set_promise q st s) = settled_as p s.
Proof. intros H. unfold settled_as. by rewrite get_set_promise_ne. Qed.

Lemma settled_as_settle p q o s :
  q ≠ p → settled_as p (settle q o s) = settled_as p s.
Proof.
  intros H. unfold settled_as. rewrite get_promise_settle.
  destruct (get_promise q s) as [[rs|?]|]; by rewrite ?decide_False.
Qed.

Lemma settled_as_subscribe p q r s : settled_as p (subscribe q r s) = settled_as p s.
Proof.
  unfold settled_as. rewrite get_promise_subscribe.
  destruct (get_promise q s) as [[rs|?]|] eqn:Hq; try done.
  case_decide; [subst q; by rewrite Hq | done].
Qed.

Lemma settled_as_exec p w c s : settled_as p (exec w c s).1 = settled_as p s.
Proof.
  unfold exec. destruct (until_pause (is_mw w) c) as [ls [o|k h|k|]]; simpl;
    try (by apply settled_as_frames).
  rewrite settled_as_subscribe. by apply settled_as_frames.
Qed.

Lemma settled_as_resume p w c s :
  p ≠ result_of w → settled_as p (resume w c s) = settled_as p s.
Proof.
  intros H. unfold resume. pose proof (settled_as_exec p w c s) as He.
  destruct (exec w c s) as [s' [o|]]; simpl in He; [|done].
  by rewrite settled_as_settle.
Qed.

Lemma settled_as_call_fn p w g s :
  p ≠ result_of w → settled_as p (call_fn w g s).1 = settled_as p s.
Proof.
  intros H. destruct g as [c|c]; simpl.
  - pose proof (settled_as_exec p w (lift c) s) as He.
    by destruct (exec w (lift c) s) as [s' [[|e]|]].
  - by rewrite settled_as_resume, settled_as_set_promise.
Qed.

Lemma settled_as_finish p g err s :
  p ≠ TP g → p ≠ IP g → settled_as p (finish g err s) = settled_as p s.
Proof.
  intros H1 H2. rewrite finish_settle. destruct (frames s !! g) as [fr|]; [|done].
  destruct (result fr); by apply settled_as_settle.
Qed.

Lemma settled_as_run p g s :
  p ≠ RP g → p ≠ IP g → settled_as p (run g s) = settled_as p s.
Proof.
  intros H1 H2. unfold run, fail. destruct (frames s !! g) as [fr|]; [|done].
  destruct (currentFn fr) as [m|]; [|by apply settled_as_settle].
  pose proof (settled_as_call_fn p (OMw g) m (emit (EvEnter g) s) H1) as Hc.
  destruct (call_fn (OMw g) m (emit (EvEnter g) s)) as [s1 [isp|e]]; simpl in Hc.
  - rewrite (settled_as_frames p (if isp then subscribe (RP g) (RResult g) s1 else s1))
      by done.
    destruct isp; [by rewrite settled_as_subscribe|done].
  - rewrite settled_as_settle by done.
    by rewrite (settled_as_frames p s1) by done.
Qed.

Lemma settled_as_alloc p fns api s :
  settled_as p (set_frames (frames s ++ [new_Executor fns api]) s) = settled_as p s.
Proof.
  unfold settled_as. rewrite get_promise_alloc. case_decide as Hp; [|done].
  unfold get_promise. rewrite (lookup_ge_None_2 (frames s)) by lia. by destruct p.
Qed.

Lemma settled_as_set_failed p g s :
  settled_as p (set_frames (alter set_failed g (frames s)) s) = settled_as p s.
Proof. unfold settled_as. by rewrite get_promise_set_failed. Qed.

(** What [runRemaining] of frame [g] settles: the promise it awaits, the
    promises of the frame it creates, and through [finish] the outcome or
    the teardown promise of its own frame. *)
Lemma settled_as_runRemaining p g s :
  p ≠ TP g → p ≠ IP g → p ≠ HP g →
  p ≠ RP (length (frames s)) → p ≠ IP (length (frames s)) →
  settled_as p (runRemaining g s) = settled_as p s.
Proof.
  intros H1 H2 H3 H4 H5. unfold runRemaining.
  destruct (frames s !! g) as [fr|]; [|done].
  destruct (remaining fr) as [|m ms].
  - pose proof (settled_as_call_fn p (OHandler g) (apiRouteFn fr)
                  (emit (EvTerminal g) s) H3) as Hc.
    destruct (call_fn (OHandler g) (apiRouteFn fr) (emit (EvTerminal g) s))
      as [s1 [[|]|e]]; simpl in Hc.
    + by rewrite settled_as_subscribe.
    + by rewrite settled_as_subscribe, settled_as_settle, settled_as_set_promise.
    + rewrite settled_as_finish by done. by rewrite (settled_as_frames p s1) by done.
  - by rewrite settled_as_subscribe, settled_as_run, settled_as_alloc.
Qed.

(** ** Frames whose middleware is a plain function *)

(** The result of the middleware of frame [f] is not a promise. *)
Definition no_result (f : nat) (s : state) : Prop := get_promise (RP f) s = None.

Lemma no_result_frames f s s' : frames s' = frames s → no_result f s → no_result f s'.
Proof. unfold no_result, get_promise. by intros ->. Qed.

Lemma no_result_set_promise f q st s :
  q ≠ RP f → no_result f s → no_result f (set_promise q st s).
Proof. unfold no_result. intros H. by rewrite get_set_promise_ne. Qed.

Lemma no_result_settle f q o s : no_result f s → no_result f (settle q o s).
Proof.
  unfold no_result. intros H. rewrite get_promise_settle.
  destruct (get_promise q s) as [[rs|?]|] eqn:Hq; try done.
  case_decide; [subst q; congruence | done].
Qed.

Lemma no_result_subscribe f q r s : no_result f s → no_result f (subscribe q r s).
Proof.
  unfold no_result. intros H. rewrite get_promise_subscribe.
  destruct (get_promise q s) as [[rs|?]|] eqn:Hq; try done.
  case_decide; [subst q; congruence | done].
Qed.

Lemma no_result_exec f w c s : no_result f s → no_result f (exec w c s).1.
Proof.
  intros H. unfold exec. destruct (until_pause (is_mw w) c) as [ls [o|k h|k|]]; simpl;
    try (by eapply no_result_frames; [|done]).
  apply no_result_subscribe. by eapply no_result_frames; [|done].
Qed.

Lemma no_result_resume f w c s : no_result f s → no_result f (resume w c s).
Proof.
  intros H. unfold resume. pose proof (no_result_exec f w c s H) as He.
  destruct (exec w c s) as [s' [o|]]; simpl in He; [|done].
  by apply no_result_settle.
Qed.

Lemma no_result_call_fn f w g s :
  (∀ c, g = AsyncFn c → w ≠ OMw f) → no_result f s → no_result f (call_fn w g s).1.
Proof.
  intros Hw H. destruct g as [c|c]; simpl.
  - pose proof (no_result_exec f w (lift c) s H) as He.
    by destruct (exec w (lift c) s) as [s' [[|e]|]].
  - apply no_result_resume, no_result_set_promise; [|done].
    specialize (Hw c eq_refl). destruct w; simpl; congruence.
Qed.

Lemma no_result_finish f g err s : no_result f s → no_result f (finish g err s).
Proof.
  intros H. rewrite finish_settle. destruct (frames s !! g); [|done].
  by apply no_result_settle.
Qed.

(** [run] makes the result of a frame a promise only if the middleware
    of that frame is an [async] function. *)
Lemma no_result_run f g s :
  (f = g → ∃ fr c, frames s !! f = Some fr ∧ currentFn fr = Some (SyncFn c)) →
  no_result f s → no_result f (run g s).
Proof.
  intros Hg H. unfold run, fail. destruct (frames s !! g) as [fr|] eqn:Hfr; [|done].
  destruct (currentFn fr) as [m|] eqn:Hm; [|by apply no_result_settle].
  assert (no_result f (call_fn (OMw g) m (emit (EvEnter g) s)).1) as Hc.
  { apply no_result_call_fn; [|by eapply no_result_frames; [|done]].
    intros c -> [= <-]. destruct (Hg eq_refl) as (fr' & c' & Hfr' & Hc'). congruence. }
  destruct (call_fn (OMw g) m (emit (EvEnter g) s)) as [s1 [isp|e]]; simpl in Hc.
  - eapply (no_result_frames f (if isp then subscribe (RP g) (RResult g) s1 else s1));
      [done|].
    destruct isp; [by apply no_result_subscribe | done].
  - apply no_result_settle. by eapply no_result_frames; [|done].
Qed.

Lemma no_result_alloc f fns api s :
  no_result f s → no_result f (set_frames (frames s ++ [new_Executor fns api]) s).
Proof. unfold no_result. intros H. rewrite get_promise_alloc. by case_decide. Qed.

Lemma no_result_runRemaining f g s :
  f < length (frames s) → no_result f s → no_result f (runRemaining g s).
Proof.
  intros Hlt H. unfold runRemaining. destruct (frames s !! g) as [fr|]; [|done].
  destruct (remaining fr) as [|m ms].
  - assert (no_result f (call_fn (OHandler g) (apiRouteFn fr) (emit (EvTerminal g) s)).1)
      as Hc.
    { apply no_result_call_fn; [done|]. by eapply no_result_frames; [|done]. }
    destruct (call_fn (OHandler g) (apiRouteFn fr) (emit (EvTerminal g) s))
      as [s1 [[|]|e]]; simpl in Hc.
    + by apply no_result_subscribe.
    + by apply no_result_subscribe, no_result_settle, no_result_set_promise.
    + apply no_result_finish. by eapply no_result_frames; [|done].
  - apply no_result_subscribe, no_result_run; [|by apply no_result_alloc].
    simpl. lia.
Qed.

Lemma no_result_step f s :
  f < length (frames s) → no_result f s → no_result f (step s).
Proof.
  intros Hlt H. destruct (queue s) as [|j q] eqn:Hq; [by rewrite step_quiescent|].
  rewrite (step_popped j q) by done.
  assert (no_result f (popped s)) as H' by done.
  destruct j as [g|r o|w k]; cbn [run_job].
  - destruct (has_failed g (popped s)); [done | by apply no_result_runRemaining].
  - destruct r as [g|g|g k h].
    + destruct o as [|e]; cbn [react]; [by apply no_result_settle|].
      apply no_result_settle. unfold no_result. by rewrite get_promise_set_failed.
    + rewrite react_remaining. by apply no_result_finish.
    + destruct o as [|e]; cbn [react]; [by apply no_result_resume|].
      destruct h; [by apply no_result_resume | by apply no_result_settle].
  - by apply no_result_resume.
Qed.

Lemma no_result_steps f m s :
  f < length (frames s) → no_result f s → no_result f (steps m s).
Proof.
  revert s. induction m as [|m IH]; intros s Hlt H; simpl; [done|].
  apply IH; [|by apply no_result_step].
  pose proof (frames_grow_step s). lia.
Qed.

Lemma frames_grow_steps m s : length (frames s) ≤ length (frames (steps m s)).
Proof.
  revert s. induction m as [|m IH]; intros s; simpl; [done|].
  pose proof (frames_grow_step s). specialize (IH (step s)). lia.
Qed.

(** [finish] leaves the teardown promise of a frame alone when the
    result of its middleware is not a promise. *)
Lemma teardown_finish f g err s :
  (g = f → no_result f s) →
  settled_as (TP f) (finish g err s) = settled_as (TP f) s.
Proof.
  intros H. destruct (decide (g = f)) as [->|Hne].
  - specialize (H eq_refl). rewrite finish_settle.
    unfold no_result, get_promise in H. simpl in H.
    destruct (frames s !! f) as [fr|]; [|done]. simpl in H. rewrite H.
    by apply settled_as_settle.
  - apply settled_as_finish; congruence.
Qed.

Lemma teardown_runRemaining f g s :
  f < length (frames s) → (g = f → no_result f s) →
  settled_as (TP f) (runRemaining g s) = settled_as (TP f) s.
Proof.
  intros Hlt H. unfold runRemaining. destruct (frames s !! g) as [fr|]; [|done].
  destruct (remaining fr) as [|m ms].
  - pose proof (settled_as_call_fn (TP f) (OHandler g) (apiRouteFn fr)
                  (emit (EvTerminal g) s)) as Hc.
    assert (g = f → no_result f
              (call_fn (OHandler g) (apiRouteFn fr) (emit (EvTerminal g) s)).1) as Hn.
    { intros Hg. apply no_result_call_fn; [done|].
      eapply no_result_frames; [|by apply H]. done. }
    destruct (call_fn (OHandler g) (apiRouteFn fr) (emit (EvTerminal g) s))
      as [s1 [[|]|e]]; simpl in Hc, Hn.
    + by rewrite settled_as_subscribe, Hc.
    + by rewrite settled_as_subscribe, settled_as_settle, settled_as_set_promise, Hc.
    + rewrite teardown_finish.
      * by rewrite (settled_as_frames (TP f) s1), Hc.
      * intros Hg. eapply no_result_frames; [|by apply Hn]. done.
  - by rewrite settled_as_subscribe, settled_as_run, settled_as_alloc.
Qed.

Lemma teardown_step f s :
  f < length (frames s) → no_result f s →
  settled_as (TP f) (step s) = settled_as (TP f) s.
Proof.
  intros Hlt H. destruct (queue s) as [|j q] eqn:Hq; [by rewrite step_quiescent|].
  rewrite (step_popped j q) by done.
  change (settled_as (TP f) s) with (settled_as (TP f) (popped s)).
  assert (no_result f (popped s)) as H' by done.
  destruct j as [g|r o|w k]; cbn [run_job].
  - destruct (has_failed g (popped s)); [done | by apply teardown_runRemaining].
  - destruct r as [g|g|g k h].
    + destruct o as [|e]; cbn [react]; unfold succeed, fail;
        rewrite settled_as_settle by done; [done|].
      by rewrite settled_as_set_failed.
    + rewrite react_remaining. by apply teardown_finish.
    + destruct o as [|e]; cbn [react]; [by apply settled_as_resume|].
      destruct h; [by apply settled_as_resume | by apply settled_as_settle].
  - apply settled_as_resume. by destruct w.
Qed.

Lemma run_sync f s fr c ls o :
  frames s !! f = Some fr → currentFn fr = Some (SyncFn c) →
  plain_run true c = (ls, o) →
  run f s =
    match o with
    | Fulfilled => enqueue [JCheck f] (emits (OMw f) ls (emit (EvEnter f) s))
    | Rejected e =>
        fail f e (emit (EvThrew (OMw f) e) (emits (OMw f) ls (emit (EvEnter f) s)))
    end.
Proof.
  intros Hfr Hc Hrun. unfold run. rewrite Hfr, Hc.
  rewrite (call_fn_plain _ _ _ ls o) by done. by destruct o.
Qed.

(** The state in which the frame of a plain middleware is left by the
    microtask that created and ran it. *)
Lemma sync_created fns api n f c ls o :
  fns !! f = Some (SyncFn c) → plain_run true c = (ls, o) →
  f < length (frames (after n fns api)) →
  ∃ n0, n0 ≤ n ∧ f < length (frames (after n0 fns api)) ∧
    no_result f (after n0 fns api) ∧
    settled_as (TP f) (after n0 fns api) = None ∧
    match o with
    | Fulfilled => settled_as (IP f) (after n0 fns api) = None
    | Rejected e =>
        settled_as (IP f) (after n0 fns api) = Some (Rejected e) ∧
        EvThrew (OMw f) e ∈ log (after n0 fns api)
    end.
Proof.
  intros Hf Hrun Hlt. assert (fns ≠ []) as Hne by (intros ->; done).
  destruct (frame_run fns api n f Hne Hlt) as (n0 & s1 & Hle & Hnew & Hlen & Hafter).
  exists n0. split; [done|].
  assert (currentFn (new_Executor (drop f fns) api) = Some (SyncFn c)) as Hc
    by (by cbn [currentFn new_Executor]; rewrite head_drop_lookup).
  pose proof (run_sync f s1 _ c ls o Hnew Hc Hrun) as Hr.
  assert (get_promise (IP f) s1 = Some (Pending [])) as Hip
    by (unfold get_promise; simpl; by rewrite Hnew).
  assert (f < length (frames (run f s1))) as Hlt2.
  { destruct (grows_run f s1 (IP f)) as [st Hst]; [by eexists|].
    by apply get_promise_lt in Hst. }
  assert (no_result f (run f s1)) as Hnr.
  { apply no_result_run; [by eexists _, _|].
    unfold no_result, get_promise. simpl. by rewrite Hnew. }
  assert (settled_as (TP f) (run f s1) = None) as Htp.
  { rewrite settled_as_run by done. unfold settled_as, get_promise. simpl. by rewrite Hnew. }
  assert (match o with
          | Fulfilled => settled_as (IP f) (run f s1) = None
          | Rejected e => settled_as (IP f) (run f s1) = Some (Rejected e) ∧
                          EvThrew (OMw f) e ∈ log (run f s1)
          end) as Ho.
  { rewrite Hr. destruct o as [|e].
    - rewrite (settled_as_frames (IP f) s1) by done. unfold settled_as. by rewrite Hip.
    - unfold fail. rewrite (settle_pending _ _ []) by done. split.
      + unfold settled_as, get_promise. cbn [frames pref_frame].
        rewrite list_lookup_alter_eq. cbn [frames emit emits]. by rewrite Hnew.
      + cbn [log]. rewrite elem_of_app. left. cbn [log emit]. rewrite elem_of_app. right.
        apply list_elem_of_here. }
  destruct Hafter as [-> | ->]; [done|].
  split; [by rewrite (quiet_length _ _ (quiet_subscribe _ _ _))|].
  split; [by apply no_result_subscribe|].
  split; [by rewrite settled_as_subscribe|].
  destruct o as [|e]; rewrite settled_as_subscribe; [done|].
  destruct Ho as [Ho1 Ho2]. split; [done|].
  destruct (quiet_log _ _ (quiet_subscribe (IP f) (RRemaining (pred f)) (run f s1)))
    as (es & -> & _).
  apply elem_of_app. by left.
Qed.

(** X4: when the call of a plain middleware throws, the outcome of its
    frame is the failure with exactly the thrown value, from the
    microtask of the call on and for good, also when the value is falsy:
    the [catch] of [run] calls [fail] without the test [if (error)] that
    [finish] applies. *)
Theorem thrown_value_is_the_outcome
    (fns : list fn) (api : fn) (n f : nat) (c : scode) (ls : list string) (e : value) :
  fns !! f = Some (SyncFn c) →
  plain_run true c = (ls, Rejected e) →
  f < length (frames (after n fns api)) →
  settled_as (IP f) (after n fns api) = Some (Rejected e) ∧
  EvThrew (OMw f) e ∈ log (after n fns api).
Proof.
  intros Hf Hrun Hlt.
  destruct (sync_created fns api n f c ls _ Hf Hrun Hlt)
    as (n0 & Hle & _ & _ & _ & Hip & Hlog).
  replace n with (n0 + (n - n0)) by lia. rewrite after_add. split.
  - apply settled_stays; [apply sig_inv_after | done | done].
  - destruct (log_grows_steps (n - n0) (after n0 fns api)) as [es ->].
    apply elem_of_app. by left.
Qed.

(** [(req, res, next) => { throw undefined }] *)
Definition falsy_throwing_mw : fn := SyncFn (SThrow VUndefined).

Lemma thrown_value_is_the_outcome_witness :
  settled_as (IP 1) (after 5 [passing_mw; falsy_throwing_mw] plain_handler)
    = Some (Rejected VUndefined) ∧
  EvThrew (OMw 1) VUndefined ∈ log (after 5 [passing_mw; falsy_throwing_mw] plain_handler).
Proof.
  apply (thrown_value_is_the_outcome [passing_mw; falsy_throwing_mw] plain_handler 5 1
           (SThrow VUndefined) []).
  - reflexivity.
  - reflexivity.
  - vm_compute. lia.
Defined.

(** X5: for a middleware whose call returned a value that is not a
    promise, the teardown promise of its frame, which is what the
    continuation hands out, is never settled: [finish] resolves or
    rejects the teardown promise of a frame only when the result of the
    middleware of that frame is a promise, and settles the outcome of the
    frame otherwise. *)
Theorem plain_middleware_handle_stays_pending
    (fns : list fn) (api : fn) (n f : nat) (c : scode) :
  fns !! f = Some (SyncFn c) →
  settled_as (TP f) (after n fns api) = None.
Proof.
  intros Hf.
  destruct (decide (f < length (frames (after n fns api)))) as [Hlt|Hge].
  - destruct (plain_run true c) as [ls o] eqn:Hrun.
    destruct (sync_created fns api n f c ls o Hf Hrun Hlt)
      as (n0 & Hle & Hlt0 & Hnr & Htp & _).
    replace n with (n0 + (n - n0)) by lia. rewrite after_add.
    generalize (n - n0). intros m. clear Hle Hlt.
    generalize dependent (after n0 fns api). clear n0.
    induction m as [|m IH]; intros s Hlt Hnr Htp; [done|]. simpl.
    apply IH.
    + pose proof (frames_grow_step s). lia.
    + by apply no_result_step.
    + by rewrite teardown_step.
  - unfold settled_as, get_promise. simpl.
    by rewrite (lookup_ge_None_2 (frames (after n fns api))) by lia.
Qed.

Lemma plain_middleware_handle_stays_pending_witness :
  settled_as (TP 0) (after 9 [passing_mw; catching_mw] throwing_handler) = None.
Proof.
  apply (plain_middleware_handle_stays_pending [passing_mw; catching_mw] throwing_handler
           9 0 (SEmit "pass" (SCallNext VUndefined SReturn None))).
  reflexivity.
Defined.

Lemma keeps_step s : sig_inv s → keeps s (step s).
Proof.
  intros Hs. split.
  - intros p o Hp Ho. by apply (settled_stays p o 1 s).
  - intros e He. destruct (log_grows_step s) as [es ->]. apply elem_of_app. by left.
Qed.

Lemma settle_outcome p o o' s :
  settled_as p s = None → settled_as p (settle p o s) = Some o' → o' = o.
Proof.
  unfold settled_as. rewrite get_promise_settle.
  destruct (get_promise p s) as [[rs|?]|]; try congruence.
  rewrite decide_True by done. congruence.
Qed.

Lemma finish_outcome f err o s :
  no_result f s → settled_as (IP f) s = None →
  settled_as (IP f) (finish f err s) = Some o →
  o = as_finished (error_outcome err).
Proof.
  intros Hnr Hnone. rewrite finish_settle.
  unfold no_result, get_promise in Hnr. simpl in Hnr.
  destruct (frames s !! f) as [fr|]; [|congruence]. simpl in Hnr. rewrite Hnr.
  by apply settle_outcome.
Qed.

(** The microtask in which the frame of a plain middleware gets its
    outcome is one in which [runRemaining] of that frame calls [finish]:
    its [await] resumes, or the handler throws during its call. *)
Lemma outcome_sync_step fns api f o s :
  good fns api s → f < length (frames s) → no_result f s →
  settled_as (IP f) s = None → settled_as (IP f) (step s) = Some o →
  ∃ o0, remainder_outcome f o0 (step s) ∧ o = as_finished o0.
Proof.
  intros Hg Hlt Hnr Hnone Hsome.
  destruct (queue s) as [|j q] eqn:Hq; [rewrite step_quiescent in Hsome by done; congruence|].
  pose proof (keeps_step s (good_sig _ _ _ Hg)) as Hkeeps.
  pose proof (log_grows_step s) as Hlog.
  rewrite (step_popped j q) in * by done.
  assert (settled_as (IP f) (popped s) = None) as Hnone' by done.
  assert (no_result f (popped s)) as Hnr' by done.
  destruct j as [g|r o'|w k]; cbn [run_job] in *.
  - destruct (has_failed g (popped s)); [congruence|].
    destruct (decide (g = f)) as [->|Hne].
    2:{ rewrite settled_as_runRemaining in Hsome; try congruence.
        simpl. intros [= ->]. lia. }
    unfold runRemaining in *. destruct (frames (popped s) !! f) as [fr|]; [|congruence].
    destruct (remaining fr) as [|m ms].
    + pose proof (settled_as_call_fn (IP f) (OHandler f) (apiRouteFn fr)
                    (emit (EvTerminal f) (popped s))) as Hc.
      assert (no_result f
                (call_fn (OHandler f) (apiRouteFn fr) (emit (EvTerminal f) (popped s))).1)
        as Hn by (apply no_result_call_fn; [done | by eapply no_result_frames; [|done]]).
      destruct (call_fn (OHandler f) (apiRouteFn fr) (emit (EvTerminal f) (popped s)))
        as [s1 [[|]|e]]; simpl in Hc, Hn.
      * rewrite settled_as_subscribe, Hc in Hsome by done.
        rewrite (settled_as_frames (IP f) (popped s)) in Hsome by done. congruence.
      * rewrite settled_as_subscribe, settled_as_settle, settled_as_set_promise, Hc
          in Hsome by done.
        rewrite (settled_as_frames (IP f) (popped s)) in Hsome by done. congruence.
      * exists (Rejected e). split.
        -- right. right. exists e. split; [done|].
           destruct (quiet_log _ _ (quiet_finish f (Some e) (emit (EvThrew (OHandler f) e) s1)))
             as (es & -> & _).
           apply elem_of_app. left. simpl. apply elem_of_app. right. apply list_elem_of_here.
        -- apply (finish_outcome f (Some e) o (emit (EvThrew (OHandler f) e) s1)).
           ++ by eapply no_result_frames; [|done].
           ++ rewrite (settled_as_frames (IP f) s1), Hc by done.
              by rewrite (settled_as_frames (IP f) (popped s)) by done.
           ++ done.
    + rewrite settled_as_subscribe, settled_as_run, settled_as_alloc in Hsome;
        [congruence| |]; simpl; intros [= ->]; lia.
  - destruct r as [g|g|g k h].
    + destruct (decide (g = f)) as [->|Hne].
      * pose proof (good_async _ _ _ Hg f) as Hok. unfold async_ok in Hok.
        unfold no_result in Hnr. rewrite Hnr, Hq, res_jobs_cons, decide_True in Hok by done.
        by destruct Hok as [_ ?].
      * destruct o' as [|e]; cbn [react] in Hsome; unfold succeed, fail in Hsome;
          rewrite settled_as_settle in Hsome by congruence;
          rewrite ?settled_as_set_failed in Hsome; congruence.
    + rewrite react_remaining in Hsome.
      destruct (decide (g = f)) as [->|Hne].
      * exists o'. split.
        -- eapply remainder_outcome_keeps; [done|].
           apply (ri_job _ (good_rem _ _ _ Hg)). rewrite Hq. apply list_elem_of_here.
        -- rewrite (finish_outcome f _ o (popped s) Hnr' Hnone' Hsome). by destruct o'.
      * rewrite settled_as_finish in Hsome by congruence. congruence.
    + destruct o' as [|e]; cbn [react] in Hsome.
      * rewrite settled_as_resume in Hsome by done. congruence.
      * destruct h; [rewrite settled_as_resume in Hsome by done
                    | rewrite settled_as_settle in Hsome by done]; congruence.
  - rewrite settled_as_resume in Hsome by (by destruct w). congruence.
Qed.

(** The outcome of the frame of a middleware that returned no promise
    comes from [finish], once the remainder of the frame has settled. *)
Lemma sync_outcome_is_remainder
    (fns : list fn) (api : fn) (n f : nat) (c : scode) (ls : list string) (o : outcome) :
  fns !! f = Some (SyncFn c) →
  plain_run true c = (ls, Fulfilled) →
  settled_as (IP f) (after n fns api) = Some o →
  ∃ o0, remainder_outcome f o0 (after n fns api) ∧ o = as_finished o0.
Proof.
  intros Hf Hrun Ho.
  assert (f < length (frames (after n fns api))) as Hlt.
  { unfold settled_as in Ho.
    destruct (get_promise (IP f) (after n fns api)) as [st|] eqn:Hst; [|done].
    by apply get_promise_lt in Hst. }
  destruct (sync_created fns api n f c ls _ Hf Hrun Hlt)
    as (n0 & Hle & Hlt0 & Hnr & _ & Hnone).
  revert o Ho. replace n with (n0 + (n - n0)) by lia. rewrite after_add.
  generalize (n - n0). intros m. clear Hle Hlt.
  pose proof (good_after n0 fns api) as Hg.
  assert (∀ o, settled_as (IP f) (after n0 fns api) = Some o →
               ∃ o0, remainder_outcome f o0 (after n0 fns api) ∧ o = as_finished o0) as Hinv
    by (intros o; congruence).
  clear Hnone. generalize dependent (after n0 fns api). clear n0.
  induction m as [|m IH]; intros s Hlt Hnr Hg Hinv; [done|]. simpl.
  apply IH.
  - pose proof (frames_grow_step s). lia.
  - by apply no_result_step.
  - by apply good_step.
  - intros o Ho. destruct (settled_as (IP f) s) as [o'|] eqn:Hs.
    + pose proof (keeps_step s (good_sig _ _ _ Hg)) as Hkeeps.
      destruct (Hinv o' eq_refl) as (o0 & Hrem & ->).
      rewrite (proj1 Hkeeps (IP f) _ eq_refl Hs) in Ho. injection Ho as <-.
      exists o0. split; [by eapply remainder_outcome_keeps | done].
    + by eapply outcome_sync_step.
Qed.

(** X6: the frame of a plain middleware whose call returned without
    throwing has no outcome before the remainder of the frame has
    settled, and then its outcome is the remainder's as [finish] reads
    it: the same failure when the error is truthy, success otherwise. *)
Theorem plain_frame_outcome_is_remainder
    (fns : list fn) (api : fn) (n f : nat) (c : scode) (ls : list string) (o : outcome) :
  fns !! f = Some (SyncFn c) →
  plain_run true c = (ls, Fulfilled) →
  settled_as (IP f) (after n fns api) = Some o →
  ∃ o0, remainder_outcome f o0 (after n fns api) ∧ o = as_finished o0.
Proof. apply sync_outcome_is_remainder. Qed.

Lemma plain_frame_outcome_is_remainder_witness :
  ∃ o0, remainder_outcome 0 o0 (after 2 [passing_mw] throwing_handler) ∧
        Rejected boom = as_finished o0.
Proof.
  apply (plain_frame_outcome_is_remainder [passing_mw] throwing_handler 2 0
           (SEmit "pass" (SCallNext VUndefined SReturn None)) ["pass"]).
  - reflexivity.
  - reflexivity.
  - reflexivity.
Defined.

(** ** A chain of plain middleware ahead of a plain handler *)

(** [finish] on the last of the frames of plain middleware that wait for
    their remainder. *)
Lemma finish_last_plain fns api k fr q l err :
  result fr = None → internalPromise fr = Pending (waiter k) →
  finish k err (mkState (waiting_stack fns api k ++ [fr]) q l) =
    mkState
      (waiting_stack fns api k ++
         [write (IP k) (Settled (as_finished (error_outcome err))) fr])
      (q ++ map (fun r => JReact r (as_finished (error_outcome err))) (waiter k))
      (l ++ [EvSignal (IP k) (as_finished (error_outcome err));
             EvSettled (IP k) (as_finished (error_outcome err))]).
Proof.
  intros Hres Hip.
  rewrite (finish_focus _ _ _ _ _ _ _ (length_waiting_stack _ _ _)), Hres.
  rewrite (settle_focus _ _ (waiter k)); [done | apply length_waiting_stack|].
  simpl. by rewrite Hip.
Qed.

(** The microtask of [run] of the last frame calls the handler. *)
Lemma step_plain_handler fns c ls o k l :
  S k = length fns → plain_run false c = (ls, o) →
  step (mkState (waiting_stack fns (SyncFn c) (S k)) [JCheck k] l) =
    match o with
    | Rejected e =>
        finish k (Some e)
          (mkState (waiting_stack fns (SyncFn c) k ++ [waiting_frame fns (SyncFn c) k]) []
             ((l ++ [EvTerminal k]) ++ map (EvEmit (OHandler k)) ls ++
                [EvThrew (OHandler k) e]))
    | Fulfilled =>
        mkState
          (waiting_stack fns (SyncFn c) k ++
             [write (HP k) (Settled Fulfilled) (waiting_frame fns (SyncFn c) k)])
          [JReact (RRemaining k) Fulfilled]
          (((l ++ [EvTerminal k]) ++ map (EvEmit (OHandler k)) ls) ++
             [EvSignal (HP k) Fulfilled; EvSettled (HP k) Fulfilled])
    end.
Proof.
  intros Hk Hrun. rewrite step_cons. cbn [run_job].
  rewrite waiting_stack_S.
  rewrite (has_failed_focus _ _ _ _ _ _ (length_waiting_stack _ _ _)).
  cbn [waiting_frame plain_frame asyncMiddlewareFailed].
  unfold runRemaining. cbn [frames].
  rewrite (lookup_focus _ _ _ _ (length_waiting_stack _ _ _)).
  cbn [waiting_frame plain_frame remaining apiRouteFn]. rewrite drop_ge by lia.
  rewrite (call_fn_plain _ _ _ ls o) by done.
  destruct o as [|e].
  - unfold emits, emit, set_promise, set_frames. cbn [frames queue log pref_frame].
    rewrite (alter_focus _ _ _ _ _ (length_waiting_stack _ _ _)).
    rewrite (settle_focus _ _ []); [|apply length_waiting_stack|done].
    rewrite (subscribe_focus_settled _ _ Fulfilled); [|apply length_waiting_stack|done].
    done.
  - unfold emits, emit. cbn [frames queue log]. by rewrite <- app_assoc.
Qed.

(** X7: for a list of plain middleware that all return without throwing
    (whether or not they invoke the continuation) ahead of a plain
    handler, the handler is invoked, the executor comes to rest, and the
    chain's outcome is the handler's as [finish] reads it: success when
    the handler returns or throws a falsy value, the failure with the
    thrown value otherwise. *)
Theorem plain_chain_mirrors_handler
    (fns : list fn) (c : scode) (ls : list string) (o : outcome) :
  fns ≠ [] →
  Forall (fun g => returns_plainly g = true) fns →
  plain_run false c = (ls, o) →
  ∀ n, 2 * length fns + 1 ≤ n →
    outcome_of (after n fns (SyncFn c)) = Some (as_finished o) ∧
    queue (after n fns (SyncFn c)) = [] ∧
    EvTerminal (pred (length fns)) ∈ log (after n fns (SyncFn c)).
Proof.
  intros Hne Hall Hrun n Hn.
  set (api := SyncFn c). set (k := pred (length fns)).
  assert (S k = length fns) as Hk by (subst k; destruct fns; [done | simpl; lia]).
  destruct (plain_prefix_runs fns api k) as [l Hl].
  { intros i Hi. rewrite Forall_lookup in Hall.
    destruct (lookup_lt_is_Some_2 fns i) as [g Hg]; [lia|].
    exists g. split; [done | by eapply Hall]. }
  (* the last frame has finished *)
  assert (∃ m fr l', m ≤ 2 ∧ EvTerminal k ∈ l' ∧
            after (k + m) fns api =
              mkState (waiting_stack fns api k ++ [fr])
                (map (fun r => JReact r (as_finished o)) (waiter k)) l' ∧
            internalPromise fr = Settled (as_finished o))
    as (m & fr & l' & Hm & Hterm & Hfin & Hfr).
  { pose proof (step_plain_handler fns c ls o k l Hk Hrun) as Hstep.
    fold api in Hstep. rewrite <- Hl, <- after_S in Hstep.
    destruct o as [|e].
    - exists 2. do 2 eexists. split; [done|].
      replace (k + 2) with (S (S k)) by lia.
      rewrite (after_S (S k)), Hstep, step_cons. cbn [run_job]. rewrite react_remaining.
      rewrite finish_last_plain by done. split; [|split; [reflexivity | done]].
      rewrite !elem_of_app. left. left. left. right. apply list_elem_of_here.
    - exists 1. do 2 eexists. split; [lia|].
      replace (k + 1) with (S k) by lia.
      rewrite Hstep, finish_last_plain by done. split; [|split; [reflexivity | done]].
      rewrite !elem_of_app. left. left. right. apply list_elem_of_here. }
  (* the frames before it have passed the outcome up *)
  assert (∃ fr0 rest l'', after (k + m + k) fns api = mkState (fr0 :: rest) [] l'' ∧
            internalPromise fr0 = Settled (as_finished o) ∧ EvTerminal k ∈ l'')
    as (fr0 & rest & l'' & Hend & Hfr0 & Hterm').
  { destruct k as [|j] eqn:Ek.
    - exists fr, [], l'. by rewrite Nat.add_0_r, Hfin.
    - destruct (plain_frames_unwind fns api j [fr] l' (as_finished o))
        as (rest' & l'' & Hs).
      exists (plain_frame fns api (Settled (as_finished o)) 0), rest', l''.
      rewrite after_add, Hfin. cbn [waiter map]. rewrite Hs, as_finished_idemp.
      split; [done|]. split; [done|].
      pose proof (log_grows_steps (S j)
                    (mkState (waiting_stack fns api (S j) ++ [fr])
                       [JReact (RRemaining j) (as_finished o)] l')) as [es Hes].
      rewrite Hs in Hes. simpl in Hes. rewrite Hes. apply elem_of_app. by left. }
  replace n with ((k + m + k) + (n - (k + m + k))) by lia.
  rewrite after_add, Hend, steps_quiescent by done.
  split; [|split; [done|done]].
  unfold outcome_of, get_promise. simpl. by rewrite Hfr0.
Qed.

Lemma plain_chain_mirrors_handler_witness :
  outcome_of (after 5 [quiet_mw; passing_mw] (SyncFn (SThrow VUndefined))) = Some Fulfilled ∧
  queue (after 5 [quiet_mw; passing_mw] (SyncFn (SThrow VUndefined))) = [] ∧
  EvTerminal 1 ∈ log (after 5 [quiet_mw; passing_mw] (SyncFn (SThrow VUndefined))).
Proof.
  apply (plain_chain_mirrors_handler [quiet_mw; passing_mw] (SThrow VUndefined) []
           (Rejected VUndefined)).
  - discriminate.
  - repeat constructor.
  - reflexivity.
  - simpl. lia.
Defined.

(** * The await of [runRemaining] *)

(** ** The view of one frame *)

(** The frame whose [runRemaining] a job resumes. *)
Definition rr_of (j : job) : option nat :=
  match j with
  | JReact (RRemaining g) _ => Some g
  | _ => None
  end.

Definition rr_jobs (f : nat) (q : list job) : list job :=
  filter (fun j => rr_of j = Some f) q.

(** The promise that [finish] of frame [f] settles. *)
Definition target (f : nat) (s : state) : pref :=
  match get_promise (RP f) s with
  | Some _ => TP f
  | None => IP f
  end.

(** The promise that [runRemaining] of frame [f] awaits: what the handler
    returned, or the outcome of the next frame. *)
Definition awaited_state (f : nat) (s : state) : option pstate :=
  match get_promise (HP f) s with
  | Some st => Some st
  | None => get_promise (IP (S f)) s
  end.

(** [runRemaining] of frame [f] runs once.  Before it runs, as long as
    the microtask of [run] is queued, [finish] has not run.  Then, while
    the promise it awaits is pending, the reactions on that promise are
    [rs0] ([runRemaining] itself, once it has reached its [await]); once
    the promise has settled, as [o], [runRemaining] is queued to resume
    with [o] and [finish] has not run, or [finish] has run with [o]. *)
Definition wait_ok (rs0 : list reaction) (f : nat) (s : state) : Prop :=
  (is_Some (get_promise (HP f) s) → get_promise (IP (S f)) s = None) ∧
  (JCheck f ∈ queue s →
   awaited_state f s = None ∧ settled_as (target f s) s = None) ∧
  match awaited_state f s with
  | None => rr_jobs f (queue s) = []
  | Some (Pending rs) =>
      rs = rs0 ∧ rr_jobs f (queue s) = [] ∧ settled_as (target f s) s = None
  | Some (Settled o) =>
      (rr_jobs f (queue s) = map (fun r => JReact r o) rs0 ∧
       settled_as (target f s) s = None) ∨
      (rs0 = [RRemaining f] ∧ rr_jobs f (queue s) = [] ∧
       settled_as (target f s) s = Some (as_finished o))
  end.

Definition rem_ok (f : nat) (s : state) : Prop := wait_ok [RRemaining f] f s.

Definition wait_inv (s : state) : Prop := ∀ f, rem_ok f s.

Lemma rr_jobs_app f q1 q2 : rr_jobs f (q1 ++ q2) = rr_jobs f q1 ++ rr_jobs f q2.
Proof. apply filter_app. Qed.

Lemma rr_jobs_cons f j q :
  rr_jobs f (j :: q) = (if decide (rr_of j = Some f) then [j] else []) ++ rr_jobs f q.
Proof.
  unfold rr_jobs. case_decide.
  - by rewrite filter_cons_True.
  - by rewrite filter_cons_False.
Qed.

(** The jobs that settling [p] queues resume [runRemaining] of [f] only
    when [p] is a promise that it awaits. *)
Lemma rr_jobs_reactions f p o rs :
  (∀ r, r ∈ rs → placed r p) → p ≠ HP f → p ≠ IP (S f) →
  rr_jobs f (map (fun r => JReact r o) rs) = [].
Proof.
  intros Hpl H1 H2. induction rs as [|r rs IH]; [done|].
  simpl. rewrite rr_jobs_cons, IH by (intros r' Hr'; apply Hpl; by apply elem_of_cons; right).
  assert (placed r p) as Hr by (apply Hpl; apply list_elem_of_here).
  rewrite decide_False; [done|].
  destruct r as [g|g|g k h]; simpl in *; try done.
  intros [= ->]. destruct Hr; congruence.
Qed.

Lemma check_reactions f o rs : JCheck f ∉ map (fun r => JReact r o) rs.
Proof. intros H. apply list_elem_of_fmap in H as (r & [=] & _). Qed.

(** What [wait_ok f] reads of the promises awaited and of the queue is
    the same in [s] and [s'] ... *)
Definition same_wait (f : nat) (s s' : state) : Prop :=
  get_promise (HP f) s' = get_promise (HP f) s ∧
  get_promise (IP (S f)) s' = get_promise (IP (S f)) s ∧
  rr_jobs f (queue s') = rr_jobs f (queue s) ∧
  (JCheck f ∈ queue s' → JCheck f ∈ queue s).

(** ... and so is what it reads of the promise that [finish] settles. *)
Definition same_target (f : nat) (s s' : state) : Prop :=
  target f s' = target f s ∧
  settled_as (target f s) s' = settled_as (target f s) s.

Lemma wait_ok_same rs0 f s s' :
  same_wait f s s' → same_target f s s' → wait_ok rs0 f s → wait_ok rs0 f s'.
Proof.
  intros (H1 & H2 & H3 & H4) (H5 & H6). unfold wait_ok, awaited_state.
  rewrite H1, H2, H3, H5, H6. intros (Hx & Hc & Hm). split; [done|]. split; [|done].
  intros Hj. by apply Hc, H4.
Qed.

Lemma same_wait_refl f s : same_wait f s s.
Proof. done. Qed.

Lemma same_wait_trans f s1 s2 s3 : same_wait f s1 s2 → same_wait f s2 s3 → same_wait f s1 s3.
Proof.
  intros (H1 & H2 & H3 & H4) (H5 & H6 & H7 & H8).
  split; [congruence|]. split; [congruence|]. split; [congruence|]. auto.
Qed.

Lemma same_target_refl f s : same_target f s s.
Proof. done. Qed.

Lemma same_target_trans f s1 s2 s3 :
  same_target f s1 s2 → same_target f s2 s3 → same_target f s1 s3.
Proof.
  intros (H1 & H2) (H3 & H4). split; [congruence|].
  rewrite <- H1 in *. congruence.
Qed.

Lemma target_no_result f s s' : (no_result f s' ↔ no_result f s) → target f s' = target f s.
Proof.
  unfold no_result, target. intros H.
  destruct (get_promise (RP f) s') as [st'|], (get_promise (RP f) s) as [st|]; try done.
  - by pose proof (proj2 H eq_refl).
  - by pose proof (proj1 H eq_refl).
Qed.

(** An operation that settles neither outcome nor teardown promise of
    [f] and keeps the kind of its result keeps the target. *)
Lemma same_target_of f s s' :
  settled_as (TP f) s' = settled_as (TP f) s →
  settled_as (IP f) s' = settled_as (IP f) s →
  grows s s' → (no_result f s → no_result f s') →
  same_target f s s'.
Proof.
  intros H1 H2 Hg Hn. split.
  - apply target_no_result. split; [|done].
    intros Hn'. unfold no_result in *.
    destruct (get_promise (RP f) s) as [st|] eqn:Hs; [|done].
    destruct (Hg (RP f)) as [st' Hst']; [by eexists|]. congruence.
  - unfold target. by destruct (get_promise (RP f) s).
Qed.

Lemma same_wait_frames f s s' :
  frames s' = frames s → queue s' = queue s → same_wait f s s'.
Proof. intros H1 H2. unfold same_wait, get_promise. by rewrite H1, H2. Qed.

Lemma same_wait_enqueue f js s :
  rr_jobs f js = [] → JCheck f ∉ js → same_wait f s (enqueue js s).
Proof.
  intros H1 H2. split; [done|]. split; [done|]. simpl. split.
  - by rewrite rr_jobs_app, H1, app_nil_r.
  - rewrite elem_of_app. by intros [?|?].
Qed.

Lemma same_wait_set_promise f p st s :
  p ≠ HP f → p ≠ IP (S f) → same_wait f s (set_promise p st s).
Proof. intros H1 H2. unfold same_wait. by rewrite !get_set_promise_ne. Qed.

Lemma same_wait_settle f p o s :
  rem_inv s → p ≠ HP f → p ≠ IP (S f) → same_wait f s (settle p o s).
Proof.
  intros Hinv H1 H2.
  destruct (get_promise p s) as [[rs|o']|] eqn:Hget.
  - unfold same_wait. rewrite !get_promise_settle, Hget, !decide_False by done.
    rewrite (settle_pending _ _ rs) by done. simpl.
    rewrite rr_jobs_app, (rr_jobs_reactions f p)
      by (done || (intros r Hr; by apply (ri_placed _ Hinv p rs r))).
    rewrite app_nil_r. repeat split; try done.
    rewrite elem_of_app. intros [?|H]; [done|]. by apply check_reactions in H.
  - rewrite (settle_discarded _ _ o') by done. by apply same_wait_frames.
  - by rewrite settle_missing.
Qed.

Lemma same_wait_subscribe f p r s :
  r ≠ RRemaining f → p ≠ HP f → p ≠ IP (S f) → same_wait f s (subscribe p r s).
Proof.
  intros Hr H1 H2. unfold subscribe.
  destruct (get_promise p s) as [[rs|o]|]; [| |done].
  - by apply same_wait_set_promise.
  - apply same_wait_enqueue.
    + rewrite rr_jobs_cons, decide_False; [done|].
      destruct r; simpl; congruence.
    + intros H. apply list_elem_of_singleton in H. discriminate.
Qed.

Lemma same_wait_alloc f fns api s :
  S f ≠ length (frames s) →
  same_wait f s (set_frames (frames s ++ [new_Executor fns api]) s).
Proof.
  intros Hf. unfold same_wait. rewrite !get_promise_alloc. simpl.
  rewrite (decide_False (P := S f = _)) by done.
  case_decide as Heq; [|done]. split; [|done].
  unfold get_promise. simpl. by rewrite lookup_ge_None_2 by lia.
Qed.

Lemma same_wait_set_failed f g s :
  same_wait f s (set_frames (alter set_failed g (frames s)) s).
Proof. unfold same_wait. by rewrite !get_promise_set_failed. Qed.

Lemma same_wait_popped f j q s :
  queue s = j :: q → rr_of j ≠ Some f → same_wait f s (popped s).
Proof.
  intros Hq Hj. unfold same_wait. simpl. rewrite Hq. simpl.
  rewrite rr_jobs_cons, decide_False by done.
  repeat split; try done. intros H. by apply elem_of_cons; right.
Qed.

Lemma same_wait_exec f w c s : same_wait f s (exec w c s).1.
Proof.
  unfold exec. destruct (until_pause (is_mw w) c) as [ls [o|k h|k|]]; simpl.
  - by apply same_wait_frames.
  - eapply same_wait_trans; [by apply (same_wait_frames f s (emits w ls s))|].
    by apply same_wait_subscribe.
  - eapply same_wait_trans; [by apply (same_wait_frames f s (emits w ls s))|].
    apply same_wait_enqueue; [done|].
    intros H. apply list_elem_of_singleton in H. discriminate.
  - by apply same_wait_frames.
Qed.

Lemma result_of_not_awaited f w :
  w ≠ OHandler f → result_of w ≠ HP f ∧ result_of w ≠ IP (S f).
Proof. intros Hw. destruct w; simpl; split; congruence. Qed.

Lemma same_wait_resume f w c s :
  rem_inv s → w ≠ OHandler f → same_wait f s (resume w c s).
Proof.
  intros Hinv Hw. unfold resume.
  pose proof (same_wait_exec f w c s) as He.
  pose proof (rem_inv_exec w c s Hinv) as Hi.
  destruct (result_of_not_awaited f w Hw) as [H1 H2].
  destruct (exec w c s) as [s' [o|]]; simpl in *; [|done].
  eapply same_wait_trans; [done | by apply same_wait_settle].
Qed.

Lemma same_wait_call_fn f w g s :
  rem_inv s → w ≠ OHandler f → same_wait f s (call_fn w g s).1.
Proof.
  intros Hinv Hw. destruct g as [c|c]; simpl.
  - pose proof (same_wait_exec f w (lift c) s) as He.
    by destruct (exec w (lift c) s) as [s' [[|e]|]].
  - destruct (result_of_not_awaited f w Hw) as [H1 H2].
    eapply same_wait_trans; [by apply same_wait_set_promise|].
    apply same_wait_resume; [|done].
    apply rem_inv_set_pending; [|by intros r Hr; apply elem_of_nil in Hr|done].
    left. apply controlled_result_of.
Qed.

Lemma same_wait_finish f g err s :
  rem_inv s → g ≠ S f → same_wait f s (finish g err s).
Proof.
  intros Hinv Hg. rewrite finish_settle.
  destruct (frames s !! g) as [fr|]; [|done].
  destruct (result fr); apply same_wait_settle; congruence.
Qed.

Lemma same_wait_run f g s :
  rem_inv s → g ≠ f → g ≠ S f → same_wait f s (run g s).
Proof.
  intros Hinv Hf Hg. unfold run, fail.
  assert (OMw g ≠ OHandler f) as Hw by done.
  destruct (frames s !! g) as [fr|]; [|done].
  destruct (currentFn fr) as [m|]; [|apply same_wait_settle; congruence].
  pose proof (same_wait_call_fn f (OMw g) m (emit (EvEnter g) s)
                (rem_inv_emit _ _ Hinv) Hw) as Hc.
  pose proof (rem_inv_call_fn (OMw g) m (emit (EvEnter g) s) (rem_inv_emit _ _ Hinv)) as Hi.
  destruct (call_fn (OMw g) m (emit (EvEnter g) s)) as [s' [isp|e]]; simpl in *.
  - eapply same_wait_trans; [by apply (same_wait_frames f s (emit (EvEnter g) s))|].
    eapply same_wait_trans; [done|].
    apply (same_wait_trans _ _ (if isp then subscribe (RP g) (RResult g) s' else s')).
    + destruct isp; [by apply same_wait_subscribe | done].
    + apply same_wait_enqueue; [done|].
      intros H. apply list_elem_of_singleton in H. congruence.
  - eapply same_wait_trans; [by apply (same_wait_frames f s (emit (EvEnter g) s))|].
    eapply same_wait_trans; [done|].
    eapply same_wait_trans;
      [by apply (same_wait_frames f s' (emit (EvThrew (OMw g) e) s'))|].
    apply same_wait_settle; [by apply rem_inv_emit | done | congruence].
Qed.

Lemma same_wait_runRemaining f g s :
  rem_inv s → g ≠ f → g ≠ S f →
  f ≠ length (frames s) → S f ≠ length (frames s) →
  same_wait f s (runRemaining g s).
Proof.
  intros Hinv Hf Hg Hl1 Hl2. unfold runRemaining.
  destruct (frames s !! g) as [fr|]; [|done].
  assert (OHandler g ≠ OHandler f) as Hw by congruence.
  destruct (remaining fr) as [|m ms].
  - pose proof (same_wait_call_fn f (OHandler g) (apiRouteFn fr) (emit (EvTerminal g) s)
                  (rem_inv_emit _ _ Hinv) Hw) as Hc.
    pose proof (rem_inv_call_fn (OHandler g) (apiRouteFn fr) (emit (EvTerminal g) s)
                  (rem_inv_emit _ _ Hinv)) as Hi.
    apply (same_wait_trans _ _ (emit (EvTerminal g) s)); [by apply same_wait_frames|].
    destruct (call_fn (OHandler g) (apiRouteFn fr) (emit (EvTerminal g) s))
      as [s1 [[|]|e]]; simpl in *.
    + eapply same_wait_trans; [done|]. apply same_wait_subscribe; congruence.
    + eapply same_wait_trans; [done|].
      apply (same_wait_trans _ _ (set_promise (HP g) (Pending []) s1));
        [apply same_wait_set_promise; congruence|].
      eapply same_wait_trans; [|apply same_wait_subscribe; congruence].
      apply same_wait_settle; [|congruence|congruence].
      apply rem_inv_set_pending; [by left | by intros r Hr; apply elem_of_nil in Hr | done].
    + eapply same_wait_trans; [done|].
      eapply same_wait_trans;
        [by apply (same_wait_frames f s1 (emit (EvThrew (OHandler g) e) s1))|].
      apply same_wait_finish; [by apply rem_inv_emit | done].
  - eapply same_wait_trans; [by apply same_wait_alloc|].
    eapply same_wait_trans; [|apply same_wait_subscribe; congruence].
    apply same_wait_run; [by apply rem_inv_alloc | simpl; lia | simpl; lia].
Qed.

Lemma same_target_frames f s s' : frames s' = frames s → same_target f s s'.
Proof. intros H. unfold same_target, target, settled_as, get_promise. by rewrite H. Qed.

Lemma same_target_exec f w c s : same_target f s (exec w c s).1.
Proof.
  apply same_target_of; [apply settled_as_exec | apply settled_as_exec | apply grows_exec |].
  apply no_result_exec.
Qed.

Lemma same_target_resume f w c s : same_target f s (resume w c s).
Proof.
  apply same_target_of.
  - apply settled_as_resume. by destruct w.
  - apply settled_as_resume. by destruct w.
  - apply grows_resume.
  - apply no_result_resume.
Qed.

Lemma same_target_call_fn f w g s :
  (∀ c, g = AsyncFn c → w ≠ OMw f) → same_target f s (call_fn w g s).1.
Proof.
  intros Hw. apply same_target_of.
  - apply settled_as_call_fn. by destruct w.
  - apply settled_as_call_fn. by destruct w.
  - apply grows_call_fn.
  - by apply no_result_call_fn.
Qed.

Lemma same_target_settle f p o s : p ≠ TP f → p ≠ IP f → same_target f s (settle p o s).
Proof.
  intros H1 H2. apply same_target_of.
  - by apply settled_as_settle.
  - by apply settled_as_settle.
  - apply grows_settle.
  - apply no_result_settle.
Qed.

Lemma same_target_subscribe f p r s : same_target f s (subscribe p r s).
Proof.
  apply same_target_of.
  - apply settled_as_subscribe.
  - apply settled_as_subscribe.
  - apply grows_subscribe.
  - apply no_result_subscribe.
Qed.

Lemma same_target_finish f g err s : g ≠ f → same_target f s (finish g err s).
Proof.
  intros Hg. apply same_target_of.
  - apply settled_as_finish; congruence.
  - apply settled_as_finish; congruence.
  - apply grows_finish.
  - apply no_result_finish.
Qed.

Lemma same_target_run f g s : g ≠ f → same_target f s (run g s).
Proof.
  intros Hg. apply same_target_of.
  - apply settled_as_run; congruence.
  - apply settled_as_run; congruence.
  - apply grows_run.
  - apply no_result_run. intros ->. done.
Qed.

Lemma no_result_runRemaining_other f g s :
  f ≠ length (frames s) → no_result f s → no_result f (runRemaining g s).
Proof.
  intros Hlt H. unfold runRemaining. destruct (frames s !! g) as [fr|]; [|done].
  destruct (remaining fr) as [|m ms].
  - assert (no_result f (call_fn (OHandler g) (apiRouteFn fr) (emit (EvTerminal g) s)).1)
      as Hc.
    { apply no_result_call_fn; [done|]. by eapply no_result_frames; [|done]. }
    destruct (call_fn (OHandler g) (apiRouteFn fr) (emit (EvTerminal g) s))
      as [s1 [[|]|e]]; simpl in Hc.
    + by apply no_result_subscribe.
    + by apply no_result_subscribe, no_result_settle, no_result_set_promise.
    + apply no_result_finish. by eapply no_result_frames; [|done].
  - apply no_result_subscribe, no_result_run; [|by apply no_result_alloc].
    simpl. intros ->. done.
Qed.

Lemma same_target_runRemaining f g s :
  g ≠ f → f ≠ length (frames s) → same_target f s (runRemaining g s).
Proof.
  intros Hg Hl. apply same_target_of.
  - apply settled_as_runRemaining; congruence.
  - apply settled_as_runRemaining; congruence.
  - apply grows_runRemaining.
  - by apply no_result_runRemaining_other.
Qed.

(** ** What touches a frame *)

Lemma rr_jobs_own f o rs :
  (∀ r, r ∈ rs → r = RRemaining f) →
  rr_jobs f (map (fun r => JReact r o) rs) = map (fun r => JReact r o) rs.
Proof.
  intros H. induction rs as [|r rs IH]; [done|]. simpl.
  rewrite rr_jobs_cons, IH by (intros r' Hr'; apply H; by apply elem_of_cons; right).
  rewrite (H r) by apply list_elem_of_here. by rewrite decide_True.
Qed.

Lemma awaited_not_target f p : p = HP f ∨ p = IP (S f) → p ≠ TP f ∧ p ≠ IP f.
Proof. intros [-> | ->]; split; try congruence. intros [=]. lia. Qed.

(** The promise that [runRemaining] of [f] awaits, when it is [p]. *)
Lemma awaited_state_of rs0 f p s :
  p = HP f ∨ p = IP (S f) → is_Some (get_promise p s) → wait_ok rs0 f s →
  awaited_state f s = get_promise p s.
Proof.
  intros Hp [st Hst] (Hx & _ & _). unfold awaited_state.
  destruct Hp as [-> | ->]; [by rewrite Hst|].
  destruct (get_promise (HP f) s) as [st'|] eqn:Hhp; [|done].
  rewrite Hx in Hst by (by eexists). done.
Qed.

(** The awaited promise settles: [runRemaining] is queued to resume, if
    it has reached its [await]. *)
Lemma wait_ok_settle rs0 f p o s :
  rem_inv s → (∀ r, r ∈ rs0 → r = RRemaining f) →
  p = HP f ∨ p = IP (S f) →
  wait_ok rs0 f s → wait_ok rs0 f (settle p o s).
Proof.
  intros Hinv Hrs Hp Hok.
  destruct (get_promise p s) as [[rs|o']|] eqn:Hget.
  2:{ rewrite (settle_discarded _ _ o') by done.
      eapply wait_ok_same; [by apply same_wait_frames | by apply same_target_frames | done]. }
  2:{ by rewrite settle_missing. }
  pose proof (awaited_state_of rs0 f p s Hp (ltac:(by eexists)) Hok) as Haw.
  destruct Hok as (Hx & Hc & Hm). rewrite Haw, Hget in Hm. destruct Hm as (-> & Hrr & Htg).
  assert (JCheck f ∉ queue s) as Hnc.
  { intros Hin. destruct (Hc Hin) as [Hnone _]. congruence. }
  destruct (awaited_not_target f p Hp) as [Hp1 Hp2].
  destruct (same_target_settle f p o s Hp1 Hp2) as [Ht1 Ht2].
  assert (get_promise p (settle p o s) = Some (Settled o)) as Hget'
    by (by rewrite get_promise_settle, Hget, decide_True).
  assert (queue (settle p o s) = queue s ++ map (fun r => JReact r o) rs0) as Hq
    by (by rewrite (settle_pending _ _ rs0)).
  assert (is_Some (get_promise (HP f) (settle p o s)) →
          get_promise (IP (S f)) (settle p o s) = None) as Hx'.
  { rewrite !get_promise_settle, Hget. destruct Hp as [-> | ->].
    - rewrite decide_True, decide_False by done. intros _. apply Hx. by eexists.
    - rewrite decide_False by done. intros Hs. rewrite Hx in Hget by done. done. }
  assert (awaited_state f (settle p o s) = Some (Settled o)) as Haw'.
  { unfold awaited_state. destruct Hp as [-> | ->]; [by rewrite Hget'|].
    destruct (get_promise (HP f) (settle (IP (S f)) o s)) as [st|] eqn:Hhp; [|done].
    rewrite Hx' in Hget' by (by eexists). done. }
  split; [done|]. split.
  - rewrite Hq, elem_of_app. intros [?|H]; [done|]. by apply check_reactions in H.
  - rewrite Haw', Hq, rr_jobs_app, Hrr, rr_jobs_own, Ht1, Ht2 by done. by left.
Qed.

(** [runRemaining] reaches its [await]. *)
Lemma wait_ok_subscribe f p s :
  p = HP f ∨ p = IP (S f) → is_Some (get_promise p s) →
  wait_ok [] f s → wait_ok [RRemaining f] f (subscribe p (RRemaining f) s).
Proof.
  intros Hp Hsome Hok.
  pose proof (awaited_state_of [] f p s Hp Hsome Hok) as Haw.
  destruct Hok as (Hx & Hc & Hm). rewrite Haw in Hm.
  assert (JCheck f ∉ queue s) as Hnc.
  { intros Hin. destruct (Hc Hin) as [Hnone _]. destruct Hsome. congruence. }
  destruct (same_target_subscribe f p (RRemaining f) s) as [Ht1 Ht2].
  destruct (awaited_not_target f p Hp) as [Hp1 Hp2].
  unfold subscribe in *. destruct (get_promise p s) as [[rs|o]|] eqn:Hget.
  - destruct Hm as (-> & Hrr & Htg). cbn [app] in *.
    assert (get_promise p (set_promise p (Pending [RRemaining f]) s)
            = Some (Pending [RRemaining f])) as Hget'.
    { rewrite get_set_promise, decide_True by done.
      unfold get_promise in Hget. by destruct (frames s !! pref_frame p). }
    assert (is_Some (get_promise (HP f) (set_promise p (Pending [RRemaining f]) s)) →
            get_promise (IP (S f)) (set_promise p (Pending [RRemaining f]) s) = None) as Hx'.
    { destruct Hp as [-> | ->].
      - rewrite (get_set_promise_ne (HP f) (IP (S f))) by done. intros _. apply Hx.
        by eexists.
      - rewrite (get_set_promise_ne (IP (S f)) (HP f)) by done. intros Hs.
        rewrite Hx in Hget by done. done. }
    split; [done|]. split; [done|].
    unfold awaited_state. destruct Hp as [-> | ->].
    + rewrite Hget'. simpl in *. by rewrite Ht1, Ht2.
    + destruct (get_promise (HP f) (set_promise (IP (S f)) (Pending [RRemaining f]) s))
        as [st|] eqn:Hhp.
      * rewrite Hx' in Hget' by (by eexists). done.
      * rewrite Hget'. simpl in *. by rewrite Ht1, Ht2.
  - destruct Hm as [[Hrr Htg] | [? _]]; [|done].
    split; [done|]. split.
    + simpl. rewrite elem_of_app. intros [?|H]; [done|].
      apply list_elem_of_singleton in H. discriminate.
    + assert (awaited_state f (enqueue [JReact (RRemaining f) o] s) = Some (Settled o)) as ->
        by (by rewrite <- Haw).
      left. simpl. rewrite rr_jobs_app, Hrr. simpl in *. rewrite Ht1, Ht2.
      split; [|done]. by rewrite rr_jobs_cons, decide_True.
  - by destruct Hsome.
Qed.

(** The frame [f] before its [runRemaining] does anything: nothing is
    awaited, [finish] has not run, and the microtask of [run] is not
    queued. *)
Definition ready (f : nat) (s : state) : Prop :=
  awaited_state f s = None ∧ rr_jobs f (queue s) = [] ∧
  settled_as (target f s) s = None ∧ JCheck f ∉ queue s.

Lemma ready_wait_ok rs0 f s : ready f s → wait_ok rs0 f s.
Proof.
  intros (Haw & Hrr & Htg & Hnc). unfold wait_ok. rewrite Haw.
  split; [|by split].
  unfold awaited_state in Haw. destruct (get_promise (HP f) s); [done|]. by intros [? ?].
Qed.

Lemma ready_same f s s' : same_wait f s s' → same_target f s s' → ready f s → ready f s'.
Proof.
  intros (H1 & H2 & H3 & H4) (H5 & H6) (Haw & Hrr & Htg & Hnc).
  unfold ready, awaited_state. rewrite H1, H2, H3, H5, H6. repeat split; try done.
  intros H. by apply Hnc, H4.
Qed.

(** [finish] of a frame whose [runRemaining] awaits nothing: the handler
    threw during its call. *)
Lemma wait_ok_finish_ready f err s :
  rem_inv s → ready f s → rem_ok f (finish f err s).
Proof.
  intros Hinv Hr. rewrite finish_settle.
  destruct (frames s !! f) as [fr|]; [|by apply ready_wait_ok].
  assert (same_wait f s
            (settle (match result fr with Some _ => TP f | None => IP f end)
               (as_finished (error_outcome err)) s)) as Hw
    by (destruct (result fr); apply same_wait_settle; try done; intros [=]; lia).
  destruct Hr as (Haw & Hrr & Htg & Hnc). destruct Hw as (H1 & H2 & H3 & H4).
  unfold rem_ok, wait_ok, awaited_state. rewrite H1, H2, H3.
  fold (awaited_state f s). rewrite Haw.
  split; [|split; [|done]].
  - unfold awaited_state in Haw. destruct (get_promise (HP f) s); [done|]. by intros [? ?].
  - intros H. by destruct Hnc; apply H4.
Qed.

Lemma target_read f s fr :
  frames s !! f = Some fr →
  target f s = match result fr with Some _ => TP f | None => IP f end.
Proof. intros H. unfold target, get_promise. simpl. by rewrite H. Qed.

Lemma target_pending f s fr :
  frames s !! f = Some fr → settled_as (target f s) s = None →
  ∃ rs, get_promise (target f s) s = Some (Pending rs).
Proof.
  intros Hfr Hnone. unfold settled_as in Hnone. rewrite (target_read f s fr Hfr) in *.
  unfold get_promise in *.
  destruct (result fr); simpl in *; rewrite Hfr in *; simpl in *.
  - destruct (teardownPromise fr); [by eexists | done].
  - destruct (internalPromise fr); [by eexists | done].
Qed.

Lemma target_settle f p o s : target f (settle p o s) = target f s.
Proof.
  apply target_no_result. split; [|apply no_result_settle].
  intros Hn. unfold no_result in *.
  destruct (get_promise (RP f) s) as [st|] eqn:Hs; [|done].
  destruct (grows_settle p o s (RP f)) as [st' Hst']; [by eexists|]. congruence.
Qed.

(** The [await] of [runRemaining] resumes: [finish] runs. *)
Lemma wait_ok_finish_job f o q s :
  queue s = JReact (RRemaining f) o :: q → rem_inv s → rem_ok f s →
  rem_ok f (react (RRemaining f) o (popped s)) ∧
  settled_as (target f s) (react (RRemaining f) o (popped s)) = Some (as_finished o).
Proof.
  intros Hq Hinv (Hx & Hc & Hm).
  rewrite Hq, rr_jobs_cons, decide_True in Hm by done.
  assert (∃ st, awaited_state f s = Some st) as [st Haw].
  { destruct (awaited_state f s); [by eexists | done]. }
  rewrite Haw in Hm. destruct st as [rs|o']; [by destruct Hm as (_ & ? & _)|].
  destruct Hm as [[Hrr Htg] | (_ & ? & _)]; [|done].
  injection Hrr as <- Hrr.
  assert (JCheck f ∉ queue s) as Hnc.
  { intros Hin. destruct (Hc Hin) as [Hnone _]. congruence. }
  assert (∃ fr, frames s !! f = Some fr) as [fr Hfr].
  { apply lookup_lt_is_Some_2. unfold awaited_state in Haw.
    destruct (get_promise (HP f) s) as [st|] eqn:Hhp.
    - by apply get_promise_lt in Hhp.
    - apply get_promise_lt in Haw. simpl in Haw. lia. }
  destruct (target_pending f s fr Hfr Htg) as [rs Hrs].
  rewrite react_remaining, finish_settle. change (frames (popped s)) with (frames s).
  rewrite Hfr, <- (target_read f s fr Hfr).
  replace (error_outcome match o with Fulfilled => None | Rejected e => Some e end)
    with o by (by destruct o).
  set (t := target f s) in *.
  assert (t ≠ HP f ∧ t ≠ IP (S f)) as [Ht1 Ht2].
  { unfold t, target. destruct (get_promise (RP f) s); split; try congruence.
    intros [=]. lia. }
  pose proof (rem_inv_popped s Hinv) as Hinv'.
  destruct (same_wait_settle f t (as_finished o) (popped s) Hinv' Ht1 Ht2)
    as (H1 & H2 & H3 & H4).
  assert (target f (settle t (as_finished o) (popped s)) = t) as Htarget.
  { by rewrite target_settle. }
  assert (settled_as t (settle t (as_finished o) (popped s)) = Some (as_finished o)) as Hset.
  { unfold settled_as. rewrite get_promise_settle.
    change (get_promise t (popped s)) with (get_promise t s).
    by rewrite Hrs, decide_True. }
  split; [|done].
  unfold rem_ok, wait_ok, awaited_state. rewrite H1, H2, H3, Htarget, Hset.
  change (get_promise (HP f) (popped s)) with (get_promise (HP f) s).
  change (get_promise (IP (S f)) (popped s)) with (get_promise (IP (S f)) s).
  fold (awaited_state f s). rewrite Haw.
  split; [done|]. split.
  - intros Hin. destruct Hnc. apply H4 in Hin. simpl in Hin. rewrite Hq in Hin.
    rewrite Hq. by apply elem_of_cons; right.
  - right. split; [done|]. split; [|done]. simpl. by rewrite Hq.
Qed.

(** [finish] of the next frame settles the promise awaited, or the
    teardown promise of that frame. *)
Lemma wait_ok_finish_next f err s :
  rem_inv s → rem_ok f s → rem_ok f (finish (S f) err s).
Proof.
  intros Hinv Hok. rewrite finish_settle.
  destruct (frames s !! S f) as [fr|]; [|done].
  destruct (result fr).
  - eapply wait_ok_same; [|apply same_target_settle|done]; try congruence.
    + by apply same_wait_settle.
    + intros [=]. lia.
  - apply wait_ok_settle; [done| |by right|done].
    intros r Hr. by apply list_elem_of_singleton in Hr.
Qed.

(** [run] of a frame that has just been created. *)
Lemma wait_ok_run_own f s :
  rem_inv s → ready f s →
  settled_as (TP f) s = None → settled_as (IP f) s = None →
  rem_ok f (run f s).
Proof.
  intros Hinv Hr Htp Hip.
  assert (∀ s', same_wait f s s' → JCheck f ∉ queue s' → rem_ok f s') as Hquiet.
  { intros s' (H1 & H2 & H3 & H4) Hnc. destruct Hr as (Haw & Hrr & _ & _).
    unfold rem_ok, wait_ok, awaited_state. rewrite H1, H2, H3.
    fold (awaited_state f s). rewrite Haw. split; [|by split].
    unfold awaited_state in Haw. destruct (get_promise (HP f) s); [done|]. by intros [? ?]. }
  assert (JCheck f ∉ queue s) as Hnc by apply Hr.
  assert (IP f ≠ IP (S f)) as Hne by (intros [=]; lia).
  unfold run, fail. destruct (frames s !! f) as [fr|]; [|by apply ready_wait_ok].
  destruct (currentFn fr) as [m|].
  2:{ apply Hquiet.
      - by apply same_wait_settle.
      - intros H. apply Hnc. by apply (same_wait_settle f (IP f) (Rejected not_callable) s). }
  assert (OMw f ≠ OHandler f) as Hw by done.
  pose proof (same_wait_call_fn f (OMw f) m (emit (EvEnter f) s)
                (rem_inv_emit _ _ Hinv) Hw) as Hc.
  pose proof (rem_inv_call_fn (OMw f) m (emit (EvEnter f) s) (rem_inv_emit _ _ Hinv)) as Hi.
  pose proof (settled_as_call_fn (TP f) (OMw f) m (emit (EvEnter f) s)) as Htp'.
  pose proof (settled_as_call_fn (IP f) (OMw f) m (emit (EvEnter f) s)) as Hip'.
  destruct (call_fn (OMw f) m (emit (EvEnter f) s)) as [s' [isp|e]]; simpl in *.
  - set (s'' := if isp then subscribe (RP f) (RResult f) s' else s').
    assert (same_wait f s s'') as Hw''.
    { apply (same_wait_trans _ _ (emit (EvEnter f) s)); [by apply same_wait_frames|].
      eapply same_wait_trans; [done|].
      subst s''. destruct isp; [by apply same_wait_subscribe | done]. }
    assert (settled_as (TP f) s'' = None ∧ settled_as (IP f) s'' = None) as [Htp'' Hip''].
    { subst s''. destruct isp; rewrite ?settled_as_subscribe, Htp', Hip' by done; done. }
    destruct Hw'' as (H1 & H2 & H3 & H4). destruct Hr as (Haw & Hrr & _ & _).
    unfold rem_ok, wait_ok, awaited_state. simpl.
    change (get_promise ?p (enqueue [JCheck f] s'')) with (get_promise p s'').
    rewrite H1, H2. fold (awaited_state f s). rewrite Haw.
    split; [|split].
    + unfold awaited_state in Haw. destruct (get_promise (HP f) s); [done|]. by intros [? ?].
    + intros _. split; [done|].
      rewrite (settled_as_frames _ s'') by done.
      unfold target. change (get_promise ?p (enqueue [JCheck f] s'')) with (get_promise p s'').
      by destruct (get_promise (RP f) s'').
    + by rewrite rr_jobs_app, H3, Hrr.
  - assert (same_wait f s (settle (IP f) (Rejected e) (emit (EvThrew (OMw f) e) s'))) as Hs.
    { apply (same_wait_trans _ _ (emit (EvEnter f) s)); [by apply same_wait_frames|].
      eapply same_wait_trans; [done|].
      eapply same_wait_trans;
        [by apply (same_wait_frames f s' (emit (EvThrew (OMw f) e) s'))|].
      apply same_wait_settle; [by apply rem_inv_emit | done | done]. }
    apply Hquiet; [done|]. intros H. by apply Hnc, Hs.
Qed.

(** [run] of the next frame, called by [runRemaining]. *)
Lemma wait_ok_run_next rs0 f s :
  rem_inv s → (∀ r, r ∈ rs0 → r = RRemaining f) →
  wait_ok rs0 f s → wait_ok rs0 f (run (S f) s).
Proof.
  intros Hinv Hrs Hok. unfold run, fail.
  destruct (frames s !! S f) as [fr|]; [|done].
  destruct (currentFn fr) as [m|]; [|apply wait_ok_settle; auto].
  assert (OMw (S f) ≠ OHandler f) as Hw by done.
  pose proof (same_wait_call_fn f (OMw (S f)) m (emit (EvEnter (S f)) s)
                (rem_inv_emit _ _ Hinv) Hw) as Hc.
  pose proof (same_target_call_fn f (OMw (S f)) m (emit (EvEnter (S f)) s)) as Ht.
  pose proof (rem_inv_call_fn (OMw (S f)) m (emit (EvEnter (S f)) s)
                (rem_inv_emit _ _ Hinv)) as Hi.
  assert (wait_ok rs0 f (call_fn (OMw (S f)) m (emit (EvEnter (S f)) s)).1) as Hok'.
  { eapply wait_ok_same; [done | |].
    - apply Ht. intros c _ [=]. lia.
    - eapply wait_ok_same; [by apply same_wait_frames | by apply same_target_frames | done]. }
  destruct (call_fn (OMw (S f)) m (emit (EvEnter (S f)) s)) as [s' [isp|e]]; simpl in *.
  - eapply wait_ok_same; [apply same_wait_enqueue | by apply same_target_frames |].
    + done.
    + intros H. apply list_elem_of_singleton in H. injection H. lia.
    + destruct isp; [|done].
      eapply wait_ok_same; [|apply same_target_subscribe|done].
      by apply same_wait_subscribe.
  - apply wait_ok_settle; [by apply rem_inv_emit | done | by right |].
    eapply wait_ok_same; [by apply same_wait_frames | by apply same_target_frames | done].
Qed.

(** The handler resumes: the promise it returned may settle. *)
Lemma wait_ok_resume_handler rs0 f c s :
  rem_inv s → (∀ r, r ∈ rs0 → r = RRemaining f) →
  wait_ok rs0 f s → wait_ok rs0 f (resume (OHandler f) c s).
Proof.
  intros Hinv Hrs Hok. unfold resume.
  pose proof (same_wait_exec f (OHandler f) c s) as He.
  pose proof (same_target_exec f (OHandler f) c s) as Ht.
  pose proof (rem_inv_exec (OHandler f) c s Hinv) as Hi.
  destruct (exec (OHandler f) c s) as [s' [o|]]; simpl in *.
  - apply wait_ok_settle; [done | done | by left | by eapply wait_ok_same].
  - by eapply wait_ok_same.
Qed.

Lemma same_target_set_promise f p st s :
  p ≠ TP f → p ≠ IP f → p ≠ RP f → same_target f s (set_promise p st s).
Proof.
  intros H1 H2 H3. apply same_target_of.
  - by apply settled_as_set_promise.
  - by apply settled_as_set_promise.
  - apply grows_set_promise.
  - by apply no_result_set_promise.
Qed.

Lemma same_target_alloc f fns api s :
  same_target f s (set_frames (frames s ++ [new_Executor fns api]) s).
Proof.
  apply same_target_of.
  - apply settled_as_alloc.
  - apply settled_as_alloc.
  - apply grows_alloc.
  - apply no_result_alloc.
Qed.

(** [runRemaining] makes the promise for [await undefined], or the
    handler's [async] function makes the promise it returns. *)
Lemma wait_ok_set_handler f s :
  ready f s → wait_ok [] f (set_promise (HP f) (Pending []) s).
Proof.
  intros (Haw & Hrr & Htg & Hnc).
  destruct (same_target_set_promise f (HP f) (Pending []) s) as [Ht1 Ht2]; try done.
  assert (get_promise (HP f) s = None ∧ get_promise (IP (S f)) s = None) as [Hhp Hip].
  { unfold awaited_state in Haw. by destruct (get_promise (HP f) s). }
  unfold wait_ok, awaited_state.
  rewrite (get_set_promise_ne (HP f) (IP (S f))) by done. rewrite Hip, Ht1, Ht2.
  split; [done|]. split; [done|].
  rewrite get_set_promise, decide_True by done.
  by destruct (frames s !! pref_frame (HP f)).
Qed.

(** The call of the handler. *)
Lemma wait_ok_call_handler f g s :
  rem_inv s → ready f s →
  match (call_fn (OHandler f) g s).2 with
  | Returned true => wait_ok [] f (call_fn (OHandler f) g s).1
  | _ => ready f (call_fn (OHandler f) g s).1
  end.
Proof.
  intros Hinv Hr. destruct g as [c|c]; simpl.
  - pose proof (same_wait_exec f (OHandler f) (lift c) s) as He.
    pose proof (same_target_exec f (OHandler f) (lift c) s) as Ht.
    destruct (exec (OHandler f) (lift c) s) as [s' [[|e]|]]; simpl in *;
      by eapply ready_same.
  - apply wait_ok_resume_handler.
    + apply rem_inv_set_pending; [by left | by intros r Hr'; apply elem_of_nil in Hr' | done].
    + intros r Hr'. by apply elem_of_nil in Hr'.
    + by apply wait_ok_set_handler.
Qed.

Lemma handler_promise f g s fr :
  frames s !! f = Some fr →
  (call_fn (OHandler f) g s).2 = Returned true →
  is_Some (get_promise (HP f) (call_fn (OHandler f) g s).1).
Proof.
  intros Hfr. destruct g as [c|c]; simpl.
  - by destruct (exec (OHandler f) (lift c) s) as [s' [[|e]|]].
  - intros _. apply grows_resume. rewrite get_set_promise, decide_True by done.
    simpl. by rewrite Hfr.
Qed.

(** [runRemaining] creates the next frame. *)
Lemma wait_ok_alloc_next f fns api s :
  ready f s → S f = length (frames s) →
  wait_ok [] f (set_frames (frames s ++ [new_Executor fns api]) s) ∧
  is_Some (get_promise (IP (S f)) (set_frames (frames s ++ [new_Executor fns api]) s)).
Proof.
  intros (Haw & Hrr & Htg & Hnc) Hlast.
  destruct (same_target_alloc f fns api s) as [Ht1 Ht2].
  assert (get_promise (HP f) s = None) as Hhp.
  { unfold awaited_state in Haw. by destruct (get_promise (HP f) s). }
  assert (get_promise (IP (S f)) (set_frames (frames s ++ [new_Executor fns api]) s)
          = Some (Pending [])) as Hip
    by (rewrite get_promise_alloc, decide_True by done; done).
  split; [|by eexists].
  unfold wait_ok, awaited_state. rewrite Hip, Ht1, Ht2.
  rewrite get_promise_alloc, decide_False, Hhp by (simpl; lia).
  split; [by intros [? ?]|]. by split.
Qed.

(** [runRemaining] of frame [f], for its own frame. *)
Lemma wait_ok_runRemaining_own f s :
  rem_inv s → ready f s → S f = length (frames s) → rem_ok f (runRemaining f s).
Proof.
  intros Hinv Hr Hlast. unfold runRemaining.
  destruct (frames s !! f) as [fr|] eqn:Hfr; [|by apply ready_wait_ok].
  destruct (remaining fr) as [|m ms].
  - assert (ready f (emit (EvTerminal f) s)) as Hr'
      by (eapply ready_same; [by apply same_wait_frames | by apply same_target_frames | done]).
    pose proof (wait_ok_call_handler f (apiRouteFn fr) _ (rem_inv_emit _ _ Hinv) Hr') as Hc.
    pose proof (handler_promise f (apiRouteFn fr) (emit (EvTerminal f) s) fr Hfr) as Hp.
    pose proof (rem_inv_call_fn (OHandler f) (apiRouteFn fr) (emit (EvTerminal f) s)
                  (rem_inv_emit _ _ Hinv)) as Hi.
    pose proof (grows_call_fn (OHandler f) (apiRouteFn fr) (emit (EvTerminal f) s)) as Hg.
    destruct (call_fn (OHandler f) (apiRouteFn fr) (emit (EvTerminal f) s))
      as [s1 [[|]|e]]; simpl in *.
    + apply wait_ok_subscribe; [by left | by apply Hp | done].
    + assert (is_Some (frames s1 !! f)) as [fr1 Hfr1].
      { apply lookup_lt_is_Some_2.
        destruct (Hg (IP f)) as [st Hst]; [unfold get_promise; simpl; by rewrite Hfr|].
        by apply get_promise_lt in Hst. }
      apply wait_ok_subscribe; [by left | |].
      * apply grows_settle. rewrite get_set_promise, decide_True by done.
        simpl. by rewrite Hfr1.
      * apply wait_ok_settle; [|by intros r Hr0; apply elem_of_nil in Hr0|by left|].
        -- apply rem_inv_set_pending;
             [by left | by intros r Hr0; apply elem_of_nil in Hr0 | done].
        -- by apply wait_ok_set_handler.
    + apply wait_ok_finish_ready; [by apply rem_inv_emit|].
      eapply ready_same; [by apply same_wait_frames | by apply same_target_frames | done].
  - destruct (wait_ok_alloc_next f (m :: ms) (apiRouteFn fr) s Hr Hlast) as [Hok Hip].
    rewrite <- Hlast.
    apply wait_ok_subscribe; [by right | by apply grows_run |].
    apply wait_ok_run_next; [by apply rem_inv_alloc | | done].
    intros r Hr0. by apply elem_of_nil in Hr0.
Qed.

(** [runRemaining] of another frame that calls the handler. *)
Lemma same_wait_runRemaining_last f g fr s :
  frames s !! g = Some fr → remaining fr = [] →
  rem_inv s → g ≠ f → g ≠ S f →
  same_wait f s (runRemaining g s) ∧ same_target f s (runRemaining g s).
Proof.
  intros Hfr Hrem Hinv Hf Hg. unfold runRemaining. rewrite Hfr, Hrem.
  assert (OHandler g ≠ OHandler f) as Hw by congruence.
  pose proof (same_wait_call_fn f (OHandler g) (apiRouteFn fr) (emit (EvTerminal g) s)
                (rem_inv_emit _ _ Hinv) Hw) as Hc.
  pose proof (same_target_call_fn f (OHandler g) (apiRouteFn fr) (emit (EvTerminal g) s))
    as Ht.
  pose proof (rem_inv_call_fn (OHandler g) (apiRouteFn fr) (emit (EvTerminal g) s)
                (rem_inv_emit _ _ Hinv)) as Hi.
  assert (same_wait f s (call_fn (OHandler g) (apiRouteFn fr) (emit (EvTerminal g) s)).1 ∧
          same_target f s (call_fn (OHandler g) (apiRouteFn fr) (emit (EvTerminal g) s)).1)
    as [Hc' Ht'].
  { split.
    - eapply same_wait_trans; [|done]. by apply same_wait_frames.
    - eapply same_target_trans; [|by apply Ht]. by apply same_target_frames. }
  clear Hc Ht.
  destruct (call_fn (OHandler g) (apiRouteFn fr) (emit (EvTerminal g) s))
    as [s1 [[|]|e]]; simpl in *.
  - split.
    + eapply same_wait_trans; [done|]. apply same_wait_subscribe; congruence.
    + eapply same_target_trans; [done|]. apply same_target_subscribe.
  - assert (rem_inv (set_promise (HP g) (Pending []) s1)) as Hi'
      by (apply rem_inv_set_pending;
          [by left | by intros r Hr; apply elem_of_nil in Hr | done]).
    split.
    + eapply same_wait_trans; [done|].
      apply (same_wait_trans _ _ (set_promise (HP g) (Pending []) s1));
        [apply same_wait_set_promise; congruence|].
      eapply same_wait_trans; [|apply same_wait_subscribe; congruence].
      apply same_wait_settle; [done|congruence|congruence].
    + eapply same_target_trans; [done|].
      apply (same_target_trans _ _ (set_promise (HP g) (Pending []) s1));
        [by apply same_target_set_promise|].
      eapply same_target_trans; [|apply same_target_subscribe].
      by apply same_target_settle.
  - split.
    + eapply same_wait_trans; [done|].
      eapply same_wait_trans;
        [by apply (same_wait_frames f s1 (emit (EvThrew (OHandler g) e) s1))|].
      apply same_wait_finish; [by apply rem_inv_emit | done].
    + eapply same_target_trans; [done|].
      eapply same_target_trans;
        [by apply (same_target_frames f s1 (emit (EvThrew (OHandler g) e) s1))|].
      by apply same_target_finish.
Qed.

(** [runRemaining] of the next frame. *)
Lemma wait_ok_runRemaining_prev f s :
  rem_inv s → rem_ok f s → S (S f) = length (frames s) →
  rem_ok f (runRemaining (S f) s).
Proof.
  intros Hinv Hok Hlast. unfold runRemaining.
  destruct (frames s !! S f) as [fr|]; [|done].
  assert (OHandler (S f) ≠ OHandler f) as Hw by (intros [=]; lia).
  assert (S f ≠ f) as Hne by lia.
  destruct (remaining fr) as [|m ms].
  - pose proof (same_wait_call_fn f (OHandler (S f)) (apiRouteFn fr)
                  (emit (EvTerminal (S f)) s) (rem_inv_emit _ _ Hinv) Hw) as Hc.
    pose proof (same_target_call_fn f (OHandler (S f)) (apiRouteFn fr)
                  (emit (EvTerminal (S f)) s)) as Ht.
    pose proof (rem_inv_call_fn (OHandler (S f)) (apiRouteFn fr)
                  (emit (EvTerminal (S f)) s) (rem_inv_emit _ _ Hinv)) as Hi.
    assert (rem_ok f (call_fn (OHandler (S f)) (apiRouteFn fr)
                        (emit (EvTerminal (S f)) s)).1) as Hok'.
    { eapply wait_ok_same; [done | by apply Ht |].
      eapply wait_ok_same; [by apply same_wait_frames | by apply same_target_frames | done]. }
    clear Hc Ht.
    destruct (call_fn (OHandler (S f)) (apiRouteFn fr) (emit (EvTerminal (S f)) s))
      as [s1 [[|]|e]]; simpl in *.
    + eapply wait_ok_same; [|apply same_target_subscribe|done].
      apply same_wait_subscribe; try congruence; intros [=]; lia.
    + assert (rem_inv (set_promise (HP (S f)) (Pending []) s1)) as Hi'
        by (apply rem_inv_set_pending;
            [by left | by intros r Hr; apply elem_of_nil in Hr | done]).
      assert (HP (S f) ≠ HP f) as Hhp by (intros [=]; lia).
      eapply wait_ok_same; [|apply same_target_subscribe|].
      { apply same_wait_subscribe; try congruence; intros [=]; lia. }
      eapply wait_ok_same; [|apply same_target_settle; done|].
      { by apply same_wait_settle. }
      eapply wait_ok_same; [|apply same_target_set_promise; done|done].
      by apply same_wait_set_promise.
    + apply wait_ok_finish_next; [by apply rem_inv_emit|].
      eapply wait_ok_same; [by apply same_wait_frames | by apply same_target_frames | done].
  - eapply wait_ok_same; [|apply same_target_subscribe|].
    { apply same_wait_subscribe; try congruence; intros [=]; lia. }
    eapply wait_ok_same; [|apply same_target_run|].
    + apply same_wait_run; [by apply rem_inv_alloc | simpl; lia | simpl; lia].
    + simpl. lia.
    + eapply wait_ok_same; [|apply same_target_alloc|done].
      apply same_wait_alloc. lia.
Qed.

(** [runRemaining] of the last frame, for the frame that it may create. *)
Lemma wait_ok_runRemaining_new f g s :
  rem_inv s → S g = length (frames s) → f = length (frames s) →
  rem_ok f s → JCheck f ∉ queue s →
  rem_ok f (runRemaining g s).
Proof.
  intros Hinv Hlast Hf Hok Hnc.
  destruct (frames s !! g) as [fr|] eqn:Hfr; [|unfold runRemaining; by rewrite Hfr].
  destruct (remaining fr) as [|m ms] eqn:Hrem.
  - destruct (same_wait_runRemaining_last f g fr s Hfr Hrem Hinv) as [Hw Ht]; [lia..|].
    by eapply wait_ok_same.
  - rewrite (runRemaining_next g s fr m ms Hfr Hrem). cbn zeta. rewrite <- Hf.
    set (s1 := set_frames (frames s ++ [new_Executor (m :: ms) (apiRouteFn fr)]) s).
    assert (frames s1 !! f = Some (new_Executor (m :: ms) (apiRouteFn fr))) as Hnew
      by (subst s1; simpl; by rewrite Hf, lookup_app_r, Nat.sub_diag).
    assert (get_promise (HP f) s = None ∧ get_promise (IP (S f)) s = None ∧
            get_promise (RP f) s = None) as (Hhp & Hip & Hrp).
    { unfold get_promise. simpl. by rewrite !lookup_ge_None_2 by lia. }
    assert (ready f s1) as Hr.
    { destruct Hok as (_ & _ & Hm). unfold awaited_state in Hm. rewrite Hhp, Hip in Hm.
      assert (get_promise (HP f) s1 = None) as Hhp1
        by (subst s1; by rewrite get_promise_alloc, decide_True by (simpl; lia)).
      assert (get_promise (IP (S f)) s1 = None) as Hip1
        by (subst s1; by rewrite get_promise_alloc, decide_False by (simpl; lia)).
      assert (get_promise (RP f) s1 = None) as Hrp1
        by (subst s1; by rewrite get_promise_alloc, decide_True by (simpl; lia)).
      assert (get_promise (IP f) s1 = Some (Pending [])) as Hip2
        by (subst s1; by rewrite get_promise_alloc, decide_True by (simpl; lia)).
      unfold ready, awaited_state, target, settled_as.
      by rewrite Hhp1, Hip1, Hrp1, Hip2. }
    eapply wait_ok_same; [|apply same_target_subscribe|].
    { apply same_wait_subscribe; try congruence; intros [=]; lia. }
    apply wait_ok_run_own; [by apply rem_inv_alloc | done | |].
    + unfold settled_as. subst s1.
      by rewrite get_promise_alloc, decide_True by (simpl; lia).
    + unfold settled_as. subst s1.
      by rewrite get_promise_alloc, decide_True by (simpl; lia).
Qed.

Lemma same_target_promises f s s' :
  (∀ p, get_promise p s' = get_promise p s) → same_target f s s'.
Proof. intros H. unfold same_target, target, settled_as. by rewrite !H. Qed.

(** A frame whose middleware returned a promise has the teardown promise
    for its target, whatever becomes of its outcome. *)
Lemma same_target_settle_async f p o s :
  is_Some (get_promise (RP f) s) → p ≠ TP f → same_target f s (settle p o s).
Proof.
  intros [st Hst] Hp. split; [apply target_settle|].
  unfold target. rewrite Hst. by apply settled_as_settle.
Qed.

(** ** Every microtask keeps the frames in order *)

Lemma wait_inv_step fns api s :
  call_inv fns api s → rem_inv s → async_inv s → wait_inv s → wait_inv (step s).
Proof.
  intros Hc Hinv Hasync Hall f.
  destruct (queue s) as [|j q] eqn:Hq; [by rewrite step_quiescent|].
  rewrite (step_popped j q) by done.
  pose proof (rem_inv_popped s Hinv) as Hinv'.
  assert (∀ f', rr_of j ≠ Some f' → rem_ok f' (popped s)) as Hpop.
  { intros f' Hj. eapply wait_ok_same;
      [by eapply same_wait_popped | by apply same_target_frames | apply Hall]. }
  destruct j as [g|r o|w k]; cbn [run_job].
  - (* the microtask of run *)
    assert (S g = length (frames s)) as Hlast.
    { eapply check_last; [done|]. rewrite Hq. apply list_elem_of_here. }
    assert (∀ f', JCheck f' ∉ queue (popped s)) as Hnc.
    { intros f' Hin. destruct Hc as [_ _ _ (t & _ & Htail)].
      rewrite (jchecks_popped _ _ _ Hq) in Htail. simpl in Htail.
      assert (JCheck f' ∈ jchecks (popped s)) as Hj by (by apply list_elem_of_filter).
      inversion Htail.
      match goal with H : [] = jchecks _ |- _ => rewrite <- H in Hj end.
      by apply elem_of_nil in Hj. }
    destruct (has_failed g (popped s)); [by apply Hpop|].
    destruct (decide (f = g)) as [->|Hfg].
    { apply wait_ok_runRemaining_own; [done| |done].
      destruct (Hall g) as (Hx & Hcg & Hm).
      destruct Hcg as [Haw Htg]; [rewrite Hq; apply list_elem_of_here|].
      rewrite Haw, Hq, rr_jobs_cons, decide_False in Hm by done.
      split; [done|]. split; [|by split].
      simpl. by rewrite Hq. }
    destruct (decide (S f = g)) as [<-|Hsg].
    { apply wait_ok_runRemaining_prev; [done | by apply Hpop | done]. }
    destruct (decide (f = length (frames s))) as [Hnew|Hold].
    { apply (wait_ok_runRemaining_new f g); [done | done | done | by apply Hpop | done]. }
    eapply wait_ok_same; [| |by apply (Hpop f)].
    + apply same_wait_runRemaining; try done; simpl; lia.
    + by apply same_target_runRemaining.
  - destruct r as [g|g|g k h].
    + (* the callbacks of result.then *)
      set (s0 := match o with
                 | Fulfilled => popped s
                 | Rejected _ => set_frames (alter set_failed g (frames (popped s))) (popped s)
                 end).
      assert (rem_inv s0 ∧ rem_ok f s0 ∧ react (RResult g) o (popped s) = settle (IP g) o s0
              ∧ ∀ p, get_promise p s0 = get_promise p s) as (Hi0 & Hok0 & -> & Hget).
      { subst s0. destruct o as [|e]; cbn [react].
        - split; [done|]. split; [by apply Hpop|]. by split.
        - split; [by apply rem_inv_set_failed|]. split; [|split; [done|]].
          + eapply wait_ok_same; [apply same_wait_set_failed| |by apply Hpop].
            apply same_target_promises. intros p. apply get_promise_set_failed.
          + intros p. by rewrite get_promise_set_failed. }
      destruct (decide (f = g)) as [->|Hfg].
      { eapply wait_ok_same; [| |done].
        - apply same_wait_settle; [done | done | intros [=]; lia].
        - apply same_target_settle_async; [|done]. rewrite Hget.
          pose proof (Hasync g) as Hok. unfold async_ok in Hok.
          rewrite Hq, res_jobs_cons, decide_True in Hok by done.
          destruct (get_promise (RP g) s) as [st|]; [by eexists | by destruct Hok]. }
      destruct (decide (S f = g)) as [<-|Hsg].
      { apply wait_ok_settle; [done| |by right|done].
        intros r Hr. by apply list_elem_of_singleton in Hr. }
      eapply wait_ok_same; [| |done].
      * apply same_wait_settle; [done | done | congruence].
      * apply same_target_settle; congruence.
    + (* runRemaining resumes *)
      destruct (decide (f = g)) as [->|Hfg].
      { by apply (wait_ok_finish_job g o q s). }
      assert (rem_ok f (popped s)) as Hok0 by (apply Hpop; simpl; congruence).
      rewrite react_remaining.
      destruct (decide (S f = g)) as [<-|Hsg]; [by apply wait_ok_finish_next|].
      eapply wait_ok_same; [| |done].
      * by apply same_wait_finish.
      * by apply same_target_finish.
    + (* the middleware resumes from its handle *)
      assert (rem_ok f (popped s)) as Hok0 by (by apply Hpop).
      assert (OMw g ≠ OHandler f) as Hw by done.
      destruct o as [|e]; cbn [react].
      * eapply wait_ok_same; [|apply same_target_resume|done]. by apply same_wait_resume.
      * destruct h as [hd|].
        -- eapply wait_ok_same; [|apply same_target_resume|done]. by apply same_wait_resume.
        -- eapply wait_ok_same; [| |done].
           ++ by apply same_wait_settle.
           ++ by apply same_target_settle.
  - assert (rem_ok f (popped s)) as Hok0 by (by apply Hpop).
    destruct (decide (w = OHandler f)) as [->|Hw].
    + apply wait_ok_resume_handler; [done| |done].
      intros r Hr. by apply list_elem_of_singleton in Hr.
    + eapply wait_ok_same; [|apply same_target_resume|done]. by apply same_wait_resume.
Qed.

Lemma wait_inv_start fns api : wait_inv (start fns api).
Proof.
  intros f. unfold start. pose proof (rem_inv_init fns api) as Hinv.
  set (s0 := mkState [new_Executor fns api] [] []) in *.
  assert (ready f s0) as Hr.
  { unfold ready, awaited_state, target, settled_as, get_promise. subst s0. simpl.
    destruct f as [|[|f]]; simpl; repeat split; try done; by intros ?%elem_of_nil. }
  destruct (decide (f = 0)) as [->|Hne].
  - by apply wait_ok_run_own.
  - eapply wait_ok_same; [| |by apply ready_wait_ok].
    + apply same_wait_run; [done | done | lia].
    + apply same_target_run. lia.
Qed.

Lemma wait_inv_after n fns api : wait_inv (after n fns api).
Proof.
  destruct fns as [|m ms].
  - rewrite after_empty. apply wait_inv_start.
  - induction n as [|n IH]; [apply wait_inv_start|].
    rewrite after_S. eapply wait_inv_step; [|apply rem_inv_after| |done].
    + by apply call_inv_after.
    + apply (good_async (m :: ms) api), good_after.
Qed.

(** ** The await of [runRemaining] always resumes *)

Lemma target_step f s : f < length (frames s) → target f (step s) = target f s.
Proof.
  intros Hlt. unfold target.
  destruct (get_promise (RP f) s) as [st|] eqn:Hs.
  - destruct (grows_step s (RP f)) as [st' ->]; [by eexists | done].
  - by rewrite (no_result_step f s Hlt Hs).
Qed.

Lemma target_steps f m s : f < length (frames s) → target f (steps m s) = target f s.
Proof.
  revert s. induction m as [|m IH]; intros s Hlt; simpl; [done|].
  rewrite IH; [by apply target_step|]. pose proof (frames_grow_step s). lia.
Qed.

Lemma target_controlled f s : controlled (target f s) = true.
Proof. unfold target. by destruct (get_promise (RP f) s). Qed.

(** What [finish] has settled stays settled, and stays what [finish]
    would settle. *)
Lemma finished_stays fns api n f x :
  f < length (frames (after n fns api)) →
  settled_as (target f (after n fns api)) (after n fns api) = Some x →
  ∀ n', n ≤ n' → settled_as (target f (after n' fns api)) (after n' fns api) = Some x.
Proof.
  intros Hlt Hx n' Hn'. replace n' with (n + (n' - n)) by lia.
  rewrite after_add, target_steps by done.
  apply settled_stays; [apply sig_inv_after | apply target_controlled | done].
Qed.

Lemma awaited_lt f st s : awaited_state f s = Some st → f < length (frames s).
Proof.
  unfold awaited_state. intros H.
  destruct (get_promise (HP f) s) as [st'|] eqn:Hhp.
  - by apply get_promise_lt in Hhp.
  - apply get_promise_lt in H. simpl in H. lia.
Qed.

(** Once what [runRemaining] of a frame awaits has settled, [finish]
    settles the promise of that frame that it is in charge of. *)
Lemma awaited_reaches_finish
    (fns : list fn) (api : fn) (f : nat) (o : outcome) (n : nat) :
  awaited_state f (after n fns api) = Some (Settled o) →
  ∃ m, ∀ n', m ≤ n' →
    settled_as (target f (after n' fns api)) (after n' fns api) = Some (as_finished o).
Proof.
  intros Haw. pose proof (awaited_lt _ _ _ Haw) as Hlt.
  destruct (wait_inv_after n fns api f) as (_ & _ & Hm).
  rewrite Haw in Hm. destruct Hm as [[Hrr Htg] | (_ & _ & Hdone)].
  - assert (JReact (RRemaining f) o ∈ queue (after n fns api)) as Hin.
    { assert (JReact (RRemaining f) o ∈ rr_jobs f (queue (after n fns api))) as H
        by (rewrite Hrr; apply list_elem_of_here).
      by apply list_elem_of_filter in H as [_ H]. }
    apply list_elem_of_lookup in Hin as [i Hi].
    destruct (steps_fifo i _ _ Hi) as [q Hq]. rewrite <- after_add in Hq.
    destruct (wait_ok_finish_job f o q (after (n + i) fns api) Hq
                (rem_inv_after _ _ _) (wait_inv_after _ _ _ f)) as [_ Hset].
    assert (f < length (frames (after (n + i) fns api))) as Hlt'.
    { rewrite after_add. pose proof (frames_grow_steps i (after n fns api)). lia. }
    exists (S (n + i)). apply finished_stays.
    + rewrite after_S. pose proof (frames_grow_step (after (n + i) fns api)). lia.
    + rewrite after_S, target_step by done.
      by rewrite (step_popped _ q _ Hq).
  - exists n. by apply finished_stays.
Qed.

(** X8: the [await] of [runRemaining] never hangs once what it awaits is
    settled.  When the promise awaited by the frame at position [f] (the
    handler's promise for the last frame, the outcome of the next frame
    otherwise) has settled as [o], then after finitely many microtasks,
    and from then on for good, the promise that [finish] settles (the
    teardown promise when the middleware returned a promise, the frame's
    outcome otherwise) is settled as [finish] reads [o]: rejected with
    the error when it is truthy, fulfilled otherwise. *)
Theorem settled_remainder_reaches_finish
    (fns : list fn) (api : fn) (f : nat) (o : outcome) (n : nat) :
  awaited_state f (after n fns api) = Some (Settled o) →
  ∃ m, ∀ n', m ≤ n' →
    settled_as (target f (after n' fns api)) (after n' fns api) = Some (as_finished o).
Proof. apply awaited_reaches_finish. Qed.

Lemma settled_remainder_reaches_finish_witness :
  awaited_state 0 (after 3 [passing_mw; quiet_mw] throwing_handler)
    = Some (Settled (Rejected boom)) ∧
  ∃ m, ∀ n', m ≤ n' →
    settled_as (target 0 (after n' [passing_mw; quiet_mw] throwing_handler))
      (after n' [passing_mw; quiet_mw] throwing_handler)
    = Some (as_finished (Rejected boom)).
Proof.
  split; [reflexivity|].
  apply (settled_remainder_reaches_finish
           [passing_mw; quiet_mw] throwing_handler 0 (Rejected boom) 3).
  reflexivity.
Defined.

(** * Bodies that run to their end *)

(** ** Reactions are never lost *)

(** The reaction [r] waits for promise [p], or is queued to run. *)
Definition waits (p : pref) (r : reaction) (s : state) : Prop :=
  (∃ rs, get_promise p s = Some (Pending rs) ∧ r ∈ rs) ∨ (∃ o, JReact r o ∈ queue s).

Lemma waits_keep p r s s' :
  get_promise p s' = get_promise p s → (∀ j, j ∈ queue s → j ∈ queue s') →
  waits p r s → waits p r s'.
Proof.
  intros Hp Hq [(rs & Hs & Hr) | (o & Hin)].
  - left. exists rs. by rewrite Hp.
  - right. exists o. by apply Hq.
Qed.

Lemma elem_of_quiet j s s' : quiet s s' → j ∈ queue s → j ∈ queue s'.
Proof. intros [(js & -> & _) _ _ _] Hin. apply elem_of_app. by left. Qed.

Lemma waits_settle p r q o s : waits p r s → waits p r (settle q o s).
Proof.
  intros [(rs & Hs & Hr) | (o' & Hin)].
  - destruct (decide (q = p)) as [->|Hne].
    + right. exists o. rewrite (settle_pending _ _ rs) by done. simpl.
      apply elem_of_app. right. apply list_elem_of_fmap. by exists r.
    + left. exists rs. split; [|done]. rewrite get_promise_settle.
      destruct (get_promise q s) as [[?|?]|]; by rewrite ?decide_False.
  - right. exists o'. eapply elem_of_quiet; [apply quiet_settle | done].
Qed.

Lemma waits_subscribe p r q r' s : waits p r s → waits p r (subscribe q r' s).
Proof.
  intros [(rs & Hs & Hr) | (o' & Hin)].
  - left. rewrite get_promise_subscribe.
    destruct (decide (q = p)) as [->|Hne].
    + rewrite Hs. exists (rs ++ [r']). split; [done|]. apply elem_of_app. by left.
    + exists rs. split; [|done]. destruct (get_promise q s) as [[?|?]|]; done.
  - right. exists o'. eapply elem_of_quiet; [apply quiet_subscribe | done].
Qed.

Lemma waits_set_promise p r q st s :
  q ≠ p → waits p r s → waits p r (set_promise q st s).
Proof. intros Hne. apply waits_keep; [by apply get_set_promise_ne | done]. Qed.

Lemma waits_alloc p r fr s : waits p r s → waits p r (set_frames (frames s ++ [fr]) s).
Proof.
  intros [(rs & Hs & Hr) | (o' & Hin)]; [|right; by exists o'].
  left. exists rs. split; [|done]. rewrite get_promise_alloc, decide_False; [done|].
  apply get_promise_lt in Hs. lia.
Qed.

Lemma waits_set_failed p r g s :
  waits p r s → waits p r (set_frames (alter set_failed g (frames s)) s).
Proof. apply waits_keep; [apply get_promise_set_failed | done]. Qed.

Lemma waits_exec p r w c s : waits p r s → waits p r (exec w c s).1.
Proof.
  intros H. unfold exec. destruct (until_pause (is_mw w) c) as [ls [o|k h|k|]]; simpl.
  - by eapply waits_keep; [| |done].
  - apply waits_subscribe. by eapply waits_keep; [| |done].
  - eapply waits_keep; [| |done]; [done|]. intros j Hj. simpl. apply elem_of_app. by left.
  - by eapply waits_keep; [| |done].
Qed.

Lemma waits_resume p r w c s : waits p r s → waits p r (resume w c s).
Proof.
  intros H. unfold resume. pose proof (waits_exec p r w c s H) as He.
  destruct (exec w c s) as [s' [o|]]; simpl in He; [by apply waits_settle | done].
Qed.

Lemma waits_call_fn p r w g s :
  p ≠ result_of w → waits p r s → waits p r (call_fn w g s).1.
Proof.
  intros Hp H. destruct g as [c|c]; simpl.
  - pose proof (waits_exec p r w (lift c) s H) as He.
    by destruct (exec w (lift c) s) as [s' [[|e]|]].
  - apply waits_resume, waits_set_promise; [congruence | done].
Qed.

Lemma waits_finish p r g err s : waits p r s → waits p r (finish g err s).
Proof.
  intros H. rewrite finish_settle. destruct (frames s !! g); [by apply waits_settle | done].
Qed.

Lemma waits_emit p r e s : waits p r s → waits p r (emit e s).
Proof. by apply waits_keep. Qed.

Lemma waits_enqueue p r js s : waits p r s → waits p r (enqueue js s).
Proof. apply waits_keep; [done|]. intros j Hj. simpl. apply elem_of_app. by left. Qed.

Lemma waits_run p r g s : controlled p = true → waits p r s → waits p r (run g s).
Proof.
  intros Hp H. unfold run, fail. destruct (frames s !! g) as [fr|]; [|done].
  destruct (currentFn fr) as [m|]; [|by apply waits_settle].
  assert (p ≠ result_of (OMw g)) as Hne by (intros ->; done).
  pose proof (waits_call_fn p r (OMw g) m (emit (EvEnter g) s) Hne (waits_emit _ _ _ _ H))
    as Hc.
  destruct (call_fn (OMw g) m (emit (EvEnter g) s)) as [s1 [isp|e]]; simpl in Hc.
  - apply waits_enqueue. destruct isp; [by apply waits_subscribe | done].
  - by apply waits_settle, waits_emit.
Qed.

Lemma waits_runRemaining p r g s :
  controlled p = true → waits p r s → waits p r (runRemaining g s).
Proof.
  intros Hp H. unfold runRemaining. destruct (frames s !! g) as [fr|]; [|done].
  destruct (remaining fr) as [|m ms].
  - assert (p ≠ result_of (OHandler g)) as Hne by (intros ->; done).
    pose proof (waits_call_fn p r (OHandler g) (apiRouteFn fr) (emit (EvTerminal g) s)
                  Hne (waits_emit _ _ _ _ H)) as Hc.
    destruct (call_fn (OHandler g) (apiRouteFn fr) (emit (EvTerminal g) s))
      as [s1 [[|]|e]]; simpl in Hc.
    + by apply waits_subscribe.
    + apply waits_subscribe, waits_settle, waits_set_promise; [by intros <- | done].
    + by apply waits_finish, waits_emit.
  - by apply waits_subscribe, waits_run, waits_alloc.
Qed.

Lemma waits_run_job p r j s :
  controlled p = true → waits p r s → waits p r (run_job j s).
Proof.
  intros Hp H. destruct j as [g|r' o|w k]; cbn [run_job].
  - destruct (has_failed g s); [done | by apply waits_runRemaining].
  - destruct r' as [g|g|g k h].
    + destruct o as [|e]; cbn [react]; [by apply waits_settle|].
      by apply waits_settle, waits_set_failed.
    + rewrite react_remaining. by apply waits_finish.
    + destruct o as [|e]; cbn [react]; [by apply waits_resume|].
      destruct h; [by apply waits_resume | by apply waits_settle].
  - by apply waits_resume.
Qed.

(** A reaction that waits for a controlled promise still waits for it
    after a microtask, or is queued to run. *)
Lemma waits_step p r rs s :
  controlled p = true → get_promise p s = Some (Pending rs) → r ∈ rs →
  waits p r (step s).
Proof.
  intros Hp Hs Hr.
  assert (waits p r (popped s)) as H by (left; by exists rs).
  destruct (queue s) as [|j q] eqn:Hq.
  - rewrite step_quiescent by done. left. by exists rs.
  - rewrite (step_popped j q) by done. by apply waits_run_job.
Qed.

(** The first [i] jobs of the queue run in the next [i] microtasks. *)
Lemma steps_fifo_drop i s : ∃ js, queue (steps i s) = drop i (queue s) ++ js.
Proof.
  revert s. induction i as [|i IH]; intros s; simpl.
  - exists []. by rewrite drop_0, app_nil_r.
  - destruct (IH (step s)) as [js ->]. destruct (step_fifo s) as [js' ->].
    exists (drop (i - length (tail (queue s))) js' ++ js).
    rewrite drop_app, app_assoc. do 2 f_equal.
    destruct (queue s) as [|j q]; simpl; [by rewrite drop_nil | done].
Qed.

(** A reaction that waits for a controlled promise is at the head of the
    queue at some time once that promise has settled. *)
Lemma handle_fires fns api p r m o :
  controlled p = true → settled_as p (after m fns api) = Some o →
  ∀ n, waits p r (after n fns api) →
  ∃ n' q o', n ≤ n' ∧ queue (after n' fns api) = JReact r o' :: q.
Proof.
  intros Hp Hm n.
  remember (m - n) as d eqn:Hd. revert n Hd.
  induction d as [|d IH]; intros n Hd [(rs & Hs & Hr) | (o' & Hin)].
  - exfalso. assert (settled_as p (after n fns api) = Some o) as H.
    { replace n with (m + (n - m)) by lia. rewrite after_add.
      apply settled_stays; [apply sig_inv_after | done | done]. }
    unfold settled_as in H. by rewrite Hs in H.
  - apply list_elem_of_lookup in Hin as [i Hi].
    destruct (steps_fifo _ _ _ Hi) as [q Hq]. rewrite <- after_add in Hq.
    exists (n + i), q, o'. split; [lia | done].
  - destruct (IH (S n)) as (n' & q & o' & Hle & Hq); [lia| |].
    + rewrite after_S. by eapply waits_step.
    + exists n', q, o'. split; [lia | done].
  - apply list_elem_of_lookup in Hin as [i Hi].
    destruct (steps_fifo _ _ _ Hi) as [q Hq]. rewrite <- after_add in Hq.
    exists (n + i), q, o'. split; [lia | done].
Qed.

(** ** The end of a body *)

(** How a body ends when every [await] in it resumes and the handle
    returned by the continuation settles as [tp]: [Some Fulfilled] when
    it returns, [Some (Rejected e)] when it throws [e], [None] when it
    hangs at an [await] that never resumes. *)
Fixpoint runs_to (mw : bool) (tp : outcome) (c : code) : option outcome :=
  match c with
  | Return => Some Fulfilled
  | Throw e => Some (Rejected e)
  | Emit _ k => runs_to mw tp k
  | CallNext arg k h =>
      if mw then
        if truthy arg then
          match h with
          | Some hd => runs_to mw tp (hd arg)
          | None => Some (Rejected arg)
          end
        else runs_to mw tp k
      else
        match h with
        | Some hd => runs_to mw tp (hd not_a_function)
        | None => Some (Rejected not_a_function)
        end
  | AwaitNext k h =>
      if mw then
        match tp with
        | Fulfilled => runs_to mw tp k
        | Rejected e =>
            match h with
            | Some hd => runs_to mw tp (hd e)
            | None => Some (Rejected e)
            end
        end
      else
        match h with
        | Some hd => runs_to mw tp (hd not_a_function)
        | None => Some (Rejected not_a_function)
        end
  | AwaitTick k => runs_to mw tp k
  | AwaitNever => None
  end.

(** No path through the body ends at an [await] that never resumes. *)
Fixpoint halts (c : code) : Prop :=
  match c with
  | Return | Throw _ => True
  | Emit _ k | AwaitTick k => halts k
  | CallNext _ k h | AwaitNext k h =>
      halts k ∧ match h with Some hd => ∀ v, halts (hd v) | None => True end
  | AwaitNever => False
  end.

Definition fn_halts (g : fn) : Prop := halts (body_of g).

Lemma halts_runs_to mw tp c : halts c → ∃ o, runs_to mw tp c = Some o.
Proof.
  induction c as [|e|l k IH|arg k IH|arg k hd IH IHh|k IH|k hd IH IHh|k IH|]
    using code_induction; simpl; intros H.
  - by exists Fulfilled.
  - by exists (Rejected e).
  - by apply IH.
  - destruct H as [Hk _]. destruct mw; [destruct (truthy arg)|].
    + by exists (Rejected arg).
    + by apply IH.
    + by exists (Rejected not_a_function).
  - destruct H as [Hk Hh]. destruct mw; [destruct (truthy arg)|].
    + by apply IHh.
    + by apply IH.
    + by apply IHh.
  - destruct H as [Hk _]. destruct mw; [destruct tp as [|e]|].
    + by apply IH.
    + by exists (Rejected e).
    + by exists (Rejected not_a_function).
  - destruct H as [Hk Hh]. destruct mw; [destruct tp as [|e]|].
    + by apply IH.
    + by apply IHh.
    + by apply IHh.
  - by apply IH.
  - done.
Qed.

Lemma halts_lift c : halts (lift c).
Proof.
  induction c as [|e|l k IH|arg k IH|arg k hd IH IHh] using scode_induction; simpl; done.
Qed.

(** Where the middleware of frame [f] stands: its promise is settled,
    it waits for its handle, or it is queued to resume. *)
Definition at_pause (f : nat) (p : pause) (s : state) : Prop :=
  match p with
  | PDone o => settled_as (RP f) s = Some o
  | PHandle k h => waits (TP f) (RHandle f k h) s
  | PTick k => JResume (OMw f) k ∈ queue s
  | PNever => True
  end.

Lemma resume_at_pause f c rs s :
  get_promise (RP f) s = Some (Pending rs) →
  at_pause f (until_pause true c).2 (resume (OMw f) c s).
Proof.
  intros Hrp. unfold resume, exec. simpl.
  destruct (until_pause true c) as [ls [o|k h|k|]]; simpl; [| | |done].
  - unfold settled_as. rewrite get_promise_settle.
    change (get_promise (RP f) (emits (OMw f) ls s)) with (get_promise (RP f) s).
    by rewrite Hrp, decide_True.
  - unfold subscribe.
    change (get_promise (TP f) (emits (OMw f) ls s)) with (get_promise (TP f) s).
    destruct (get_promise (TP f) s) as [[rs'|o]|] eqn:Htp.
    + left. exists (rs' ++ [RHandle f k h]). split.
      * rewrite get_set_promise, decide_True by done. simpl.
        unfold get_promise in Htp. simpl in Htp.
        by destruct (frames s !! f).
      * apply elem_of_app. right. apply list_elem_of_here.
    + right. exists o. simpl. apply elem_of_app. right. apply list_elem_of_here.
    + unfold get_promise in Hrp, Htp. simpl in *. by destruct (frames s !! f).
  - apply elem_of_app. right. apply list_elem_of_here.
Qed.

(** The outcome of the frame of an asynchronous middleware whose handle
    settles as [tp]: the end of the body. *)
Lemma body_settles fns api f tp :
  (∃ m, ∀ m', m ≤ m' → settled_as (TP f) (after m' fns api) = Some tp) →
  ∀ c o n, runs_to true tp c = Some o →
    at_pause f (until_pause true c).2 (after n fns api) →
    ∃ m, ∀ m', m ≤ m' → settled_as (IP f) (after m' fns api) = Some o.
Proof.
  intros [mt Htp].
  assert (∀ o n, settled_as (RP f) (after n fns api) = Some o →
            ∃ m, ∀ m', m ≤ m' → settled_as (IP f) (after m' fns api) = Some o) as Hdone.
  { intros o n Ho.
    apply (eventually_after fns api n (fun st => settled_as (IP f) st = Some o)).
    eapply result_settled_delivered; [apply good_after | done]. }
  assert (∀ k n q, queue (after n fns api) = JResume (OMw f) k :: q →
            at_pause f (until_pause true k).2 (after (S n) fns api)) as Hresume.
  { intros k n q Hq. rewrite after_S, (step_popped _ q) by done. cbn [run_job].
    destruct (lives_popped_cont f _ q _ Hq eq_refl
                (good_async _ _ _ (good_after n fns api) f)) as (Hrp & _).
    by eapply resume_at_pause. }
  assert (∀ k h n, waits (TP f) (RHandle f k h) (after n fns api) →
            ∃ n' q, n ≤ n' ∧ queue (after n' fns api) = JReact (RHandle f k h) tp :: q)
    as Hfire.
  { intros k h n Hw.
    destruct (handle_fires fns api (TP f) (RHandle f k h) mt tp eq_refl
                (Htp mt (le_n _)) n Hw) as (n' & q & o' & Hle & Hq).
    exists n', q. split; [done|].
    assert (settled_as (TP f) (after n' fns api) = Some o') as Ho'.
    { apply (ri_handle _ (rem_inv_after n' fns api) f k h).
      rewrite Hq. apply list_elem_of_here. }
    assert (o' = tp) as ->; [|done].
    pose proof (Htp (n' + mt) ltac:(lia)) as H1.
    rewrite after_add in H1.
    rewrite (settled_stays (TP f) _ mt _ (sig_inv_after _ _ _) eq_refl Ho') in H1.
    congruence. }
  induction c as [|e|l k IH|arg k IH|arg k hd IH IHh|k IH|k hd IH IHh|k IH|]
    using code_induction; intros o n Hrun Hat; simpl in Hrun, Hat.
  - injection Hrun as <-. exact (Hdone _ _ Hat).
  - injection Hrun as <-. exact (Hdone _ _ Hat).
  - destruct (until_pause true k) as [ls p] eqn:Hk. exact (IH _ _ Hrun Hat).
  - destruct (truthy arg); [|exact (IH _ _ Hrun Hat)].
    injection Hrun as <-. exact (Hdone _ _ Hat).
  - destruct (truthy arg); [exact (IHh _ _ _ Hrun Hat) | exact (IH _ _ Hrun Hat)].
  - destruct (Hfire _ _ _ Hat) as (n' & q & _ & Hq).
    assert (running f [RResult f] (popped (after n' fns api))) as (Hrp & _).
    { eapply lives_popped_cont; [done | done |].
      apply (good_async fns api), good_after. }
    pose proof (after_S n' fns api) as Hstep.
    rewrite (step_popped _ q) in Hstep by done. cbn [run_job] in Hstep.
    destruct tp as [|e]; cbn [react] in Hstep.
    + apply (IH o (S n')); [done|]. rewrite Hstep. by eapply resume_at_pause.
    + injection Hrun as <-. apply (Hdone _ (S n')). rewrite Hstep.
      unfold settled_as. by rewrite get_promise_settle, Hrp, decide_True.
  - destruct (Hfire _ _ _ Hat) as (n' & q & _ & Hq).
    assert (running f [RResult f] (popped (after n' fns api))) as (Hrp & _).
    { eapply lives_popped_cont; [done | done |].
      apply (good_async fns api), good_after. }
    pose proof (after_S n' fns api) as Hstep.
    rewrite (step_popped _ q) in Hstep by done. cbn [run_job] in Hstep.
    destruct tp as [|e]; cbn [react] in Hstep.
    + apply (IH o (S n')); [done|]. rewrite Hstep. by eapply resume_at_pause.
    + apply (IHh e o (S n')); [done|]. rewrite Hstep. by eapply resume_at_pause.
  - apply list_elem_of_lookup in Hat as [i Hi].
    destruct (steps_fifo _ _ _ Hi) as [q Hq]. rewrite <- after_add in Hq.
    apply (IH o (S (n + i))); [done|]. by eapply Hresume.
  - done.
Qed.

Lemma at_pause_subscribe f p q r s : at_pause f p s → at_pause f p (subscribe q r s).
Proof.
  destruct p as [o|k h|k|]; simpl; [| |intros H|done].
  - by rewrite settled_as_subscribe.
  - apply waits_subscribe.
  - eapply elem_of_quiet; [apply quiet_subscribe | done].
Qed.

Lemma at_pause_enqueue f p js s : at_pause f p s → at_pause f p (enqueue js s).
Proof.
  destruct p as [o|k h|k|]; simpl; [done | apply waits_enqueue | intros H | done].
  apply elem_of_app. by left.
Qed.

(** The microtask that creates the frame of an asynchronous middleware
    leaves the middleware where its body paused. *)
Lemma async_created fns api n f c :
  fns !! f = Some (AsyncFn c) → f < length (frames (after n fns api)) →
  ∃ n0, n0 ≤ n ∧ f < length (frames (after n0 fns api)) ∧
    at_pause f (until_pause true c).2 (after n0 fns api) ∧
    ∀ ls e, until_pause true c = (ls, PDone (Rejected e)) →
      ∃ q0, queue (after n0 fns api) = q0 ++ [JReact (RResult f) (Rejected e); JCheck f].
Proof.
  intros Hf Hlt. assert (fns ≠ []) as Hne by (intros ->; done).
  destruct (frame_run fns api n f Hne Hlt) as (n0 & s1 & Hle & Hnew & Hlen & Hafter).
  exists n0. split; [done|].
  assert (currentFn (new_Executor (drop f fns) api) = Some (AsyncFn c)) as Hc
    by (by cbn [currentFn new_Executor]; rewrite head_drop_lookup).
  pose proof (run_async f s1 _ c Hnew Hc) as Hr.
  set (s2 := set_promise (RP f) (Pending []) (emit (EvEnter f) s1)) in *.
  assert (get_promise (RP f) s2 = Some (Pending [])) as Hrp.
  { subst s2. rewrite get_set_promise, decide_True by done.
    unfold get_promise. simpl. by rewrite Hnew. }
  assert (f < length (frames (run f s1))) as Hlt1.
  { destruct (grows_run f s1 (IP f)) as [st Hst].
    - unfold get_promise. simpl. rewrite Hnew. by eexists.
    - by apply get_promise_lt in Hst. }
  assert (at_pause f (until_pause true c).2 (run f s1)) as Hat.
  { rewrite Hr. apply at_pause_enqueue, at_pause_subscribe. by eapply resume_at_pause. }
  assert (∀ ls e, until_pause true c = (ls, PDone (Rejected e)) →
            queue (run f s1) = queue s1 ++ [JReact (RResult f) (Rejected e); JCheck f]) as Hq.
  { intros ls e Hp. rewrite Hr.
    assert (resume (OMw f) c s2 = settle (RP f) (Rejected e) (emits (OMw f) ls s2)) as ->
      by (unfold resume, exec; simpl; by rewrite Hp).
    assert (get_promise (RP f) (emits (OMw f) ls s2) = Some (Pending [])) as Hrp' by done.
    set (s3 := settle (RP f) (Rejected e) (emits (OMw f) ls s2)).
    assert (get_promise (RP f) s3 = Some (Settled (Rejected e))) as Hget
      by (subst s3; by rewrite get_promise_settle, Hrp', decide_True).
    assert (queue s3 = queue s1) as Hq3
      by (subst s3; rewrite (settle_pending _ _ [] _ Hrp'); simpl; by rewrite app_nil_r).
    unfold subscribe. rewrite Hget. simpl. by rewrite Hq3, <- app_assoc. }
  destruct Hafter as [-> | ->].
  - split; [done|]. split; [done|]. intros ls e Hp. eexists. by eapply Hq.
  - split; [by rewrite (quiet_length _ _ (quiet_subscribe _ _ _))|].
    split; [by apply at_pause_subscribe|].
    intros ls e Hp. exists (queue s1). rewrite <- (Hq ls e Hp).
    assert (settled_as (IP f) (run f s1) = None) as Hnone.
    { rewrite Hr.
      change (settled_as (IP f) (enqueue [JCheck f] ?x)) with (settled_as (IP f) x).
      rewrite settled_as_subscribe, settled_as_resume by done. subst s2.
      rewrite settled_as_set_promise by done.
      unfold settled_as, get_promise. simpl. by rewrite Hnew. }
    unfold settled_as in Hnone. unfold subscribe.
    by destruct (get_promise (IP f) (run f s1)) as [[rs|o]|].
Qed.

(** * A call that fails ends the chain *)

Lemma started_exists fns api n f :
  fns ≠ [] → started f (after n fns api) → f < length (frames (after n fns api)).
Proof.
  intros Hne Hs. pose proof (call_inv_after n fns api Hne) as Hinv.
  destruct Hs as [Hs | Hs].
  - apply (enter_logged _ _ _ _ Hinv) in Hs. lia.
  - destruct Hinv as [Hpos _ _ (t & Hld & Htail)].
    assert (EvTerminal f ∈ loud (after n fns api)) as Hl by (by apply elem_of_loud).
    rewrite Hld, elem_of_app, list_elem_of_fmap in Hl.
    destruct Hl as [(i & [=] & _) | Hl].
    inversion Htail as [Hj Ht | Hj Ht | Hn Hj Ht | e' Hj Ht]; subst t;
      try (by apply elem_of_nil in Hl);
      apply list_elem_of_singleton in Hl; try discriminate.
    injection Hl as ->. lia.
Qed.

Lemma calls_not_started f s : calls (log s) = map EvEnter (seq 0 (S f)) → ¬ started f s.
Proof.
  intros Hc [Hs | Hs].
  - assert (EvEnter (S f) ∈ calls (log s)) as H by (by apply list_elem_of_filter).
    rewrite Hc in H. apply list_elem_of_fmap in H as (i & [= <-] & Hi).
    apply elem_of_seq in Hi. lia.
  - assert (EvTerminal f ∈ calls (log s)) as H by (by apply list_elem_of_filter).
    rewrite Hc in H. by apply list_elem_of_fmap in H as (i & [=] & _).
Qed.

Lemma never_started fns api f m :
  (∀ m', m ≤ m' → ¬ started f (after m' fns api)) → ∀ n, ¬ started f (after n fns api).
Proof.
  intros H n Hs. apply (H (n + m)); [lia|]. rewrite after_add. by apply started_steps.
Qed.

Lemma has_failed_rejected f e s :
  f < length (frames s) →
  has_failed f (react (RResult f) (Rejected e) s) = true.
Proof.
  intros Hlt. cbn [react]. unfold fail. rewrite same_flags_settle.
  unfold has_failed. simpl. rewrite list_lookup_alter_eq.
  by destruct (lookup_lt_is_Some_2 _ _ Hlt) as [fr ->].
Qed.

(** An asynchronous middleware whose promise is rejected when its call
    returns: the rejection callback runs before the microtask of [run],
    which then does nothing, and no call is made any more. *)
Lemma rejected_on_return_ends_calls fns api f c ls e n :
  fns !! f = Some (AsyncFn c) → until_pause true c = (ls, PDone (Rejected e)) →
  f < length (frames (after n fns api)) →
  ∃ m, ∀ m', m ≤ m' → calls (log (after m' fns api)) = map EvEnter (seq 0 (S f)).
Proof.
  intros Hf Hp Hlt. assert (fns ≠ []) as Hne by (intros ->; done).
  destruct (async_created fns api n f c Hf Hlt) as (n0 & _ & Hlt0 & _ & Hq).
  destruct (Hq ls e Hp) as [q0 Hq0]. clear Hq.
  destruct (steps_fifo_drop (length q0) (after n0 fns api)) as [js Hjs].
  rewrite Hq0, drop_app_length, <- after_add in Hjs.
  set (a := n0 + length q0) in *.
  assert (f < length (frames (after a fns api))) as Hlta.
  { unfold a. rewrite after_add. pose proof (frames_grow_steps (length q0) (after n0 fns api)).
    lia. }
  pose proof (after_S a fns api) as Hb. rewrite (step_popped _ _ _ Hjs) in Hb.
  cbn [run_job] in Hb.
  assert (has_failed f (after (S a) fns api) = true) as Hfailed
    by (rewrite Hb; by apply has_failed_rejected).
  destruct (step_fifo (after a fns api)) as [js' Hjs'].
  rewrite <- after_S, Hjs in Hjs'. simpl in Hjs'.
  destruct (call_inv_after (S a) fns api Hne) as [Hpos _ _ (t & Hld & Htail)].
  assert (S f = length (frames (after (S a) fns api))) as Hlast.
  { eapply check_last; [by apply call_inv_after|]. rewrite Hjs'. apply list_elem_of_here. }
  rewrite (jchecks_popped _ _ _ Hjs') in Htail. simpl in Htail.
  inversion Htail as [Hjc Ht | | |]. subst t. rewrite app_nil_r in Hld.
  assert (jchecks (popped (after (S a) fns api)) = []) as Hnil.
  { match goal with H : [] = jchecks _ |- _ => by rewrite <- H end. }
  pose proof (after_S (S a) fns api) as Hc. rewrite (step_popped _ _ _ Hjs') in Hc.
  cbn [run_job] in Hc.
  change (has_failed f (popped (after (S a) fns api)))
    with (has_failed f (after (S a) fns api)) in Hc.
  rewrite Hfailed in Hc.
  exists (S (S a)). intros m' Hm'. replace m' with (S (S a) + (m' - S (S a))) by lia.
  rewrite after_add, Hc.
  destruct (frozen_steps (m' - S (S a)) _ Hnil) as (_ & Hld' & _).
  rewrite calls_loud, Hld'.
  change (loud (popped (after (S a) fns api))) with (loud (after (S a) fns api)).
  by rewrite Hld, <- Hlast, calls_enter.
Qed.

(** A middleware whose call fails, by a throw or with a promise that is
    rejected when the call returns, ends the chain: no later middleware
    and no handler is ever called, and the outcome of its frame is that
    failure. *)
Lemma failed_call_stalls fns api f g ls e :
  fns !! f = Some g → until_pause true (body_of g) = (ls, PDone (Rejected e)) →
  (∀ n, ¬ started f (after n fns api)) ∧
  (∀ n, f < length (frames (after n fns api)) →
     ∃ m, ∀ m', m ≤ m' →
       calls (log (after m' fns api)) = map EvEnter (seq 0 (S f)) ∧
       settled_as (IP f) (after m' fns api) = Some (Rejected e)) ∧
  (∀ n o, settled_as (IP f) (after n fns api) = Some o → o = Rejected e).
Proof.
  intros Hf Hp. assert (fns ≠ []) as Hne by (intros ->; done).
  assert (∀ n, f < length (frames (after n fns api)) →
     ∃ m, ∀ m', m ≤ m' →
       calls (log (after m' fns api)) = map EvEnter (seq 0 (S f)) ∧
       settled_as (IP f) (after m' fns api) = Some (Rejected e)) as Hend.
  { intros n Hlt. destruct g as [c|c]; simpl in Hp.
    - assert (plain_run true c = (ls, Rejected e)) as Hrun
        by (unfold plain_run; by rewrite Hp).
      destruct (sync_created fns api n f c ls _ Hf Hrun Hlt)
        as (n0 & _ & _ & _ & _ & Hip & Hlog).
      exists n0. intros m' Hm'. split.
      + by eapply sync_throw_ends_calls.
      + replace m' with (n0 + (m' - n0)) by lia. rewrite after_add.
        apply settled_stays; [apply sig_inv_after | done | done].
    - destruct (rejected_on_return_ends_calls fns api f c ls e n Hf Hp Hlt) as [m1 H1].
      destruct (frame_created fns api n f c Hf Hlt) as (n0 & i & _ & _ & _ & Hrp & _).
      unfold body_outcome in Hrp. rewrite Hp in Hrp.
      destruct (result_settled_delivered fns api f _ _ (good_after n0 fns api) Hrp)
        as [m2 H2].
      exists (m1 + (n0 + m2)). intros m' Hm'. split; [apply H1; lia|].
      replace m' with (n0 + (m' - n0)) by lia. rewrite after_add. apply H2. lia. }
  split; [|split; [done|]].
  - intros n Hs. pose proof (started_exists fns api n f Hne Hs) as Hlt.
    destruct (Hend n Hlt) as [m Hm].
    clear Hlt. revert n Hs. apply (never_started fns api f m).
    intros m' Hm'. apply calls_not_started. by apply Hm.
  - intros n o Ho.
    assert (f < length (frames (after n fns api))) as Hlt.
    { unfold settled_as in Ho.
      destruct (get_promise (IP f) (after n fns api)) as [st|] eqn:Hst; [|done].
      by apply get_promise_lt in Hst. }
    destruct (Hend n Hlt) as [m Hm].
    destruct (Hm (n + m) ltac:(lia)) as [_ H].
    rewrite after_add, (settled_stays (IP f) o m _ (sig_inv_after _ _ _) eq_refl Ho) in H.
    congruence.
Qed.

(** * A failure on its way up *)

(** The promise that [finish] settles for a frame: the outcome of the
    frame when its middleware returned no promise, the teardown promise
    when it is an [async] function. *)
Lemma target_sync fns api n f c :
  fns !! f = Some (SyncFn c) → target f (after n fns api) = IP f.
Proof.
  intros Hf. unfold target.
  destruct (decide (f < length (frames (after n fns api)))) as [Hlt|Hge].
  - destruct (plain_run true c) as [ls o] eqn:Hrun.
    destruct (sync_created fns api n f c ls o Hf Hrun Hlt) as (n0 & Hle & Hlt0 & Hnr & _).
    replace n with (n0 + (n - n0)) by lia. rewrite after_add.
    by rewrite (no_result_steps f (n - n0) _ Hlt0 Hnr).
  - unfold get_promise. simpl.
    by rewrite (lookup_ge_None_2 (frames (after n fns api))) by lia.
Qed.

Lemma target_async fns api n f c :
  fns !! f = Some (AsyncFn c) → f < length (frames (after n fns api)) →
  target f (after n fns api) = TP f.
Proof.
  intros Hf Hlt. unfold target.
  by destruct (async_has_result fns api n f c Hf Hlt) as [st ->].
Qed.

(** When the outcome of the next frame has settled, [finish] gets it. *)
Lemma next_outcome_reaches_finish fns api f o n :
  settled_as (IP (S f)) (after n fns api) = Some o →
  ∃ m, ∀ n', m ≤ n' →
    settled_as (target f (after n' fns api)) (after n' fns api) = Some (as_finished o).
Proof.
  intros Ho. apply (awaited_reaches_finish fns api f o n).
  destruct (wait_inv_after n fns api f) as (Hx & _ & _).
  unfold settled_as in Ho. unfold awaited_state.
  destruct (get_promise (IP (S f)) (after n fns api)) as [[rs|o']|] eqn:Hip; try done.
  injection Ho as ->.
  destruct (get_promise (HP f) (after n fns api)) as [st|] eqn:Hhp; [|done].
  by specialize (Hx (mk_is_Some _ _ eq_refl)).
Qed.

(** Once the remainder of a frame has begun and a middleware is next,
    that middleware has a frame. *)
Lemma started_next fns api n f :
  fns ≠ [] → started f (after n fns api) → S f < length fns →
  S f < length (frames (after n fns api)).
Proof.
  intros Hne Hs Hlt. pose proof (call_inv_after n fns api Hne) as Hinv.
  destruct Hs as [Hs | Hs]; [by apply (enter_logged _ _ _ _ Hinv) in Hs|].
  destruct Hinv as [Hpos _ _ (t & Hld & Htail)].
  assert (EvTerminal f ∈ loud (after n fns api)) as Hl by (by apply elem_of_loud).
  rewrite Hld, elem_of_app, list_elem_of_fmap in Hl.
  destruct Hl as [(i & [=] & _) | Hl].
  inversion Htail as [Hj Ht | Hj Ht | Hn Hj Ht | e' Hj Ht]; subst t;
    try (by apply elem_of_nil in Hl);
    apply list_elem_of_singleton in Hl; try discriminate.
  injection Hl as ->. lia.
Qed.

(** A middleware that lets the failure [e] of the remainder of its frame
    pass: one that returned no promise, or an [async] function whose
    promise is not rejected when its call returns and whose body ends by
    throwing [e] when its handle is rejected with [e]. *)
Definition lets_failure_pass (e : value) (g : fn) : bool :=
  match g with
  | SyncFn c => match (plain_run true c).2 with Fulfilled => true | Rejected _ => false end
  | AsyncFn c =>
      match body_outcome c with
      | Some (Rejected _) => false
      | _ => bool_decide (runs_to true (Rejected e) c = Some (Rejected e))
      end
  end.

Lemma lets_failure_pass_starts fns api e n f g :
  fns !! f = Some g → lets_failure_pass e g = true →
  f < length (frames (after n fns api)) →
  ∃ m, ∀ m', m ≤ m' → started f (after m' fns api).
Proof.
  intros Hf Hg Hlt. destruct g as [c|c]; simpl in Hg.
  - destruct (plain_run true c) as [ls [|e']] eqn:Hrun; [|done].
    by eapply sync_remainder_starts.
  - eapply remainder_starts; [done | done |].
    intros e' He'. by rewrite He' in Hg.
Qed.

Lemma prefix_created fns api e k :
  (∀ j g, j < k → fns !! j = Some g → lets_failure_pass e g = true) →
  k < length fns →
  ∃ n, k < length (frames (after n fns api)).
Proof.
  intros Hpre Hk. assert (fns ≠ []) as Hne by (intros ->; simpl in Hk; lia).
  induction k as [|k IH].
  - exists 0. apply (ci_pos _ _ _ (call_inv_after 0 fns api Hne)).
  - destruct IH as [n Hn]; [intros j g Hj; apply Hpre; lia | lia|].
    destruct (lookup_lt_is_Some_2 fns k) as [g Hg]; [lia|].
    destruct (lets_failure_pass_starts fns api e n k g Hg) as [m Hm]; [|done|].
    + by apply (Hpre k g); [lia|].
    + exists m. apply started_next; [done | by apply Hm | done].
Qed.

(** The failure of the middleware at position [k] passes through the
    frames before it. *)
Lemma failure_passes_up fns api k c ls e :
  fns !! k = Some (SyncFn c) → plain_run true c = (ls, Rejected e) →
  (∀ j g, j < k → fns !! j = Some g → lets_failure_pass e g = true) →
  k = 0 ∨ truthy e = true →
  ∀ d j, j + d = k →
    ∃ m, ∀ n, m ≤ n → settled_as (IP j) (after n fns api) = Some (Rejected e).
Proof.
  intros Hk Hrun Hpre He.
  assert (k < length fns) as Hlen by (by eapply lookup_lt_Some).
  destruct (prefix_created fns api e k Hpre Hlen) as [nk Hnk].
  induction d as [|d IH]; intros j Hj.
  - assert (j = k) as -> by lia.
    destruct (failed_call_stalls fns api k (SyncFn c) ls e Hk) as (_ & Hend & _).
    { simpl. by apply plain_run_pause. }
    destruct (Hend nk Hnk) as [m Hm]. exists m. intros n Hn. by apply Hm.
  - destruct He as [-> | He]; [lia|].
    destruct (IH (S j)) as [m Hm]; [lia|].
    destruct (next_outcome_reaches_finish fns api j _ m (Hm m (le_n _))) as [m1 Hm1].
    simpl in Hm1. rewrite He in Hm1.
    assert (j < length (frames (after m fns api))) as Hlt.
    { pose proof (Hm m (le_n _)) as H. unfold settled_as in H.
      destruct (get_promise (IP (S j)) (after m fns api)) as [st|] eqn:Hst; [|done].
      apply get_promise_lt in Hst. simpl in Hst. lia. }
    destruct (lookup_lt_is_Some_2 fns j) as [g Hg]; [lia|].
    pose proof (Hpre j g ltac:(lia) Hg) as Hpass.
    destruct g as [c'|c']; simpl in Hpass.
    + exists m1. intros n Hn. specialize (Hm1 n Hn).
      by rewrite (target_sync fns api n j c' Hg) in Hm1.
    + destruct (async_created fns api m j c' Hg Hlt) as (n0 & _ & Hlt0 & Hat & _).
      assert (runs_to true (Rejected e) c' = Some (Rejected e)) as Hto.
      { destruct (body_outcome c') as [[|?]|]; [| done |];
          by apply bool_decide_eq_true_1 in Hpass. }
      eapply (body_settles fns api j (Rejected e)); [|done|done].
      exists (m1 + m). intros m' Hm'. specialize (Hm1 m' ltac:(lia)).
      rewrite (target_async fns api m' j c' Hg) in Hm1; [done|].
      replace m' with (m + (m' - m)) by lia. rewrite after_add.
      pose proof (frames_grow_steps (m' - m) (after m fns api)). lia.
Qed.

(** * What has settled when the teardown is released *)

(** A middleware whose frame cannot settle ahead of the remainder of that
    frame: one that returned no promise, or an [async] function that is
    suspended at [await next()] when its call returns. *)
Definition holds_for_remainder (g : fn) : bool :=
  match g with
  | SyncFn _ => true
  | AsyncFn c =>
      match until_pause true c with
      | (_, PHandle _ _) => true
      | _ => false
      end
  end.

Lemma waits_handle_cases f k h s :
  rem_inv s → waits (TP f) (RHandle f k h) s →
  (∃ o, settled_as (TP f) s = Some o) ∨
  (∃ rs, get_promise (TP f) s = Some (Pending rs) ∧ RHandle f k h ∈ rs).
Proof.
  intros Hinv [H | (o & Hin)]; [by right|].
  left. exists o. by apply (ri_handle _ Hinv f k h).
Qed.

(** An [async] middleware that is suspended at [await next()] when its
    call returns does not settle its promise before its handle has
    settled. *)
Lemma handle_first_teardown fns api n g c ls k h o :
  fns !! g = Some (AsyncFn c) → until_pause true c = (ls, PHandle k h) →
  settled_as (RP g) (after n fns api) = Some o →
  ∃ o', settled_as (TP g) (after n fns api) = Some o'.
Proof.
  intros Hg Hp Ho.
  assert (g < length (frames (after n fns api))) as Hlt.
  { unfold settled_as in Ho.
    destruct (get_promise (RP g) (after n fns api)) as [st|] eqn:Hst; [|done].
    by apply get_promise_lt in Hst. }
  destruct (async_created fns api n g c Hg Hlt) as (n0 & Hle & _ & Hat & _).
  rewrite Hp in Hat. simpl in Hat.
  assert (∀ d, (∃ o', settled_as (TP g) (after (n0 + d) fns api) = Some o') ∨
               (∃ rs, get_promise (TP g) (after (n0 + d) fns api) = Some (Pending rs) ∧
                      RHandle g k h ∈ rs)) as Hall.
  { induction d as [|d IH].
    - rewrite Nat.add_0_r. apply waits_handle_cases; [apply rem_inv_after | done].
    - replace (n0 + S d) with (S (n0 + d)) by lia.
      destruct IH as [[o' Ho'] | (rs & Hrs & Hin)].
      + left. exists o'. rewrite after_S.
        by apply (settled_stays (TP g) o' 1 _ (sig_inv_after _ _ _)).
      + apply waits_handle_cases; [apply rem_inv_after|].
        rewrite after_S. by eapply waits_step. }
  destruct (Hall (n - n0)) as [H | (rs & Hrs & Hin)];
    replace (n0 + (n - n0)) with n in * by lia; [done|].
  exfalso. pose proof (good_async _ _ _ (good_after n fns api) g) as Hok.
  unfold async_ok, lives, waiting, settled_as in *. rewrite Hrs in Hok.
  destruct (get_promise (RP g) (after n fns api)) as [[?|?]|]; try done.
  destruct Hok as [Hl _]. destruct rs; [by apply elem_of_nil in Hin | simpl in Hl; lia].
Qed.

(** When [finish] has run for a frame and a frame follows, that next
    frame has its outcome. *)
Lemma target_settled_next f o s :
  wait_inv s → settled_as (target f s) s = Some o → S f < length (frames s) →
  ∃ o', settled_as (IP (S f)) s = Some o'.
Proof.
  intros Hw Ho Hlt. destruct (Hw f) as (Hx & _ & Hm).
  destruct (lookup_lt_is_Some_2 _ _ Hlt) as [fr Hfr].
  assert (get_promise (IP (S f)) s = Some (internalPromise fr)) as Hip
    by (unfold get_promise; simpl; by rewrite Hfr).
  unfold awaited_state in Hm.
  destruct (get_promise (HP f) s) as [st|] eqn:Hhp.
  { specialize (Hx (mk_is_Some _ _ eq_refl)). congruence. }
  rewrite Hip in Hm. unfold settled_as at 1. rewrite Hip.
  destruct (internalPromise fr) as [rs|o']; [|by eexists].
  destruct Hm as (_ & _ & Hnone). congruence.
Qed.

Lemma outcome_settled_target fns api n g m o :
  fns !! g = Some m → holds_for_remainder m = true →
  settled_as (IP g) (after n fns api) = Some o →
  ∃ o', settled_as (target g (after n fns api)) (after n fns api) = Some o'.
Proof.
  intros Hg Hm Ho. destruct m as [c|c]; simpl in Hm.
  - exists o. by rewrite (target_sync fns api n g c Hg).
  - assert (g < length (frames (after n fns api))) as Hlt.
    { unfold settled_as in Ho.
      destruct (get_promise (IP g) (after n fns api)) as [st|] eqn:Hst; [|done].
      by apply get_promise_lt in Hst. }
    rewrite (target_async fns api n g c Hg Hlt).
    destruct (until_pause true c) as [ls [|k h| |]] eqn:Hp; try done.
    eapply handle_first_teardown; [done | done |].
    apply frame_outcome_from_result; [| by eapply async_has_result | done].
    apply (good_async fns api), good_after.
Qed.

(** When the teardown has been released for frame [f] and no later
    middleware lets its frame settle ahead of its remainder, every later
    frame has its outcome. *)
Lemma downstream_settled fns api n f :
  (∀ g m, f < g → fns !! g = Some m → holds_for_remainder m = true) →
  (∃ o, settled_as (target f (after n fns api)) (after n fns api) = Some o) →
  ∀ d, f + S d < length (frames (after n fns api)) →
    ∃ o', settled_as (IP (f + S d)) (after n fns api) = Some o'.
Proof.
  intros Hall [o Ho]. pose proof (wait_inv_after n fns api) as Hw.
  assert (fns ≠ [] ∨ fns = []) as [Hne | ->] by (destruct fns; auto).
  2:{ intros d Hd. rewrite after_empty, start_empty in Hd. simpl in Hd. lia. }
  induction d as [|d IH]; intros Hd.
  - replace (f + 1) with (S f) in * by lia. by eapply target_settled_next.
  - destruct IH as [o' Ho']; [lia|].
    pose proof (ci_le _ _ _ (call_inv_after n fns api Hne)) as Hle.
    destruct (lookup_lt_is_Some_2 fns (f + S d)) as [m Hm]; [lia|].
    destruct (outcome_settled_target fns api n (f + S d) m o' Hm) as [o'' Ho''];
      [apply (Hall (f + S d)); [lia | done] | done |].
    replace (f + S (S d)) with (S (f + S d)) in * by lia.
    by eapply target_settled_next.
Qed.

(** ... and the handler, if it was invoked, has completed: the promise
    that [runRemaining] awaits after calling it has settled, or it threw
    during its call. *)
Lemma downstream_handler fns api n f c :
  fns !! f = Some (AsyncFn c) →
  (∀ g m, f < g → fns !! g = Some m → holds_for_remainder m = true) →
  (∃ o, settled_as (TP f) (after n fns api) = Some o) →
  ∀ t, EvTerminal t ∈ log (after n fns api) →
    (∃ o0, EvSettled (HP t) o0 ∈ log (after n fns api)) ∨
    (∃ e, EvThrew (OHandler t) e ∈ log (after n fns api)).
Proof.
  intros Hf Hall [o Ho] t Ht.
  assert (fns ≠ []) as Hne by (intros ->; done).
  assert (f < length (frames (after n fns api))) as Hlt.
  { unfold settled_as in Ho.
    destruct (get_promise (TP f) (after n fns api)) as [st|] eqn:Hst; [|done].
    by apply get_promise_lt in Hst. }
  destruct (call_inv_after n fns api Hne) as [Hpos Hle _ (tl & Hld & Htail)].
  assert (EvTerminal t ∈ loud (after n fns api)) as Hl by (by apply elem_of_loud).
  rewrite Hld, elem_of_app, list_elem_of_fmap in Hl.
  destruct Hl as [(i & [=] & _) | Hl].
  inversion Htail as [Hj Htl | Hj Htl | Hn Hj Htl | e' Hj Htl]; subst tl;
    try (by apply elem_of_nil in Hl);
    apply list_elem_of_singleton in Hl; try discriminate.
  injection Hl as ->.
  set (L := pred (length (frames (after n fns api)))) in *.
  assert (∃ o', settled_as (target L (after n fns api)) (after n fns api) = Some o')
    as [o' Ho'].
  { destruct (decide (L = f)) as [->|Hne'].
    - exists o. by rewrite (target_async fns api n f c Hf Hlt).
    - destruct (downstream_settled fns api n f Hall) with (d := L - S f) as [o1 Ho1].
      + exists o. by rewrite (target_async fns api n f c Hf Hlt).
      + unfold L in *. lia.
      + replace (f + S (L - S f)) with L in Ho1 by (unfold L in *; lia).
        destruct (lookup_lt_is_Some_2 fns L) as [m Hm]; [unfold L; lia|].
        eapply (outcome_settled_target fns api n L m); [done| |done].
        apply (Hall L); [unfold L in *; lia | done]. }
  assert (∃ o0, remainder_outcome L o0 (after n fns api)) as [o0 Hrem].
  { destruct (lookup_lt_is_Some_2 fns L) as [m Hm]; [unfold L; lia|].
    destruct m as [c'|c'].
    - rewrite (target_sync fns api n L c' Hm) in Ho'.
      destruct (plain_run true c') as [ls [|e]] eqn:Hrun.
      + destruct (sync_outcome_is_remainder fns api n L c' ls o' Hm Hrun Ho') as (o0 & H & _).
        by exists o0.
      + exfalso.
        destruct (sync_created fns api n L c' ls _ Hm Hrun) as (n0 & Hn0 & _ & _ & _ & _ & Hlog);
          [unfold L; lia|].
        assert (EvThrew (OMw L) e ∈ loud (after n fns api)) as Hthrew.
        { apply elem_of_loud. split; [done|].
          replace n with (n0 + (n - n0)) by lia. rewrite after_add.
          destruct (log_grows_steps (n - n0) (after n0 fns api)) as [es ->].
          apply elem_of_app. by left. }
        rewrite Hld, elem_of_app, list_elem_of_fmap in Hthrew.
        destruct Hthrew as [(i & [=] & _) | Hthrew].
        by apply list_elem_of_singleton in Hthrew.
    - rewrite (target_async fns api n L c' Hm) in Ho' by (unfold L; lia).
      destruct (ri_teardown _ (rem_inv_after n fns api) _ _ Ho') as (o0 & H & _).
      by exists o0. }
  destruct Hrem as [H | [H | (e & _ & H)]].
  - exfalso. unfold settled_as, get_promise in H. simpl in H.
    rewrite (lookup_ge_None_2 (frames (after n fns api))) in H; [done|]. unfold L. lia.
  - left. by exists o0.
  - right. by exists e.
Qed.

(** * Runs that come to an end *)

Lemma not_started_start fns api f : fns ≠ [] → ¬ started f (start fns api).
Proof.
  intros Hne. destruct fns as [|m ms]; [done|]. unfold start.
  assert (loud (mkState [new_Executor (m :: ms) api] [] []) = []) as Hnil by done.
  destruct (run_cases 0 (mkState [new_Executor (m :: ms) api] [] [])
              (new_Executor (m :: ms) api) m eq_refl eq_refl)
    as (s2 & Hq1 & [[e Hq2] | Hrun]); rewrite started_loud.
  - rewrite (quiet_loud _ _ Hq2), loud_emit, (quiet_loud _ _ Hq1), loud_emit, Hnil. simpl.
    intros [H | H]; repeat (apply elem_of_cons in H as [H | H]); try discriminate;
      by apply elem_of_nil in H.
  - rewrite Hrun, loud_enqueue, (quiet_loud _ _ Hq1), loud_emit, Hnil. simpl.
    intros [H | H]; repeat (apply elem_of_cons in H as [H | H]); try discriminate;
      by apply elem_of_nil in H.
Qed.

(** The remainder of a frame that has begun was begun by the microtask
    of [run]. *)
Lemma check_fired fns api f m :
  fns ≠ [] → started f (after m fns api) →
  ∃ n q fr,
    queue (after n fns api) = JCheck f :: q ∧
    frames (after n fns api) !! f = Some fr ∧
    after (S n) fns api = runRemaining f (popped (after n fns api)).
Proof.
  intros Hne. induction m as [|m IH]; intros Hs.
  - by apply not_started_start in Hs.
  - destruct (decide (started f (after m fns api))) as [Hs' | Hs']; [by apply IH|].
    destruct (remainder_begins_in_check fns api m f Hne Hs Hs') as ([q Hq] & Hnf & _ & _).
    assert (S f = length (frames (after m fns api))) as Hlast.
    { eapply check_last; [by apply call_inv_after|]. rewrite Hq. apply list_elem_of_here. }
    destruct (lookup_lt_is_Some_2 (frames (after m fns api)) f) as [fr Hfr]; [lia|].
    exists m, q, fr. split; [done|]. split; [done|].
    rewrite after_S, (step_popped _ q) by done. cbn [run_job].
    change (has_failed f (popped (after m fns api))) with (has_failed f (after m fns api)).
    by rewrite Hnf.
Qed.

(** ** The handler *)

(** Where the handler called by frame [f] stands. *)
Definition at_hpause (f : nat) (p : pause) (s : state) : Prop :=
  match p with
  | PDone _ => ∃ o, settled_as (HP f) s = Some o
  | PTick k => JResume (OHandler f) k ∈ queue s ∧ is_Some (get_promise (HP f) s)
  | PHandle _ _ => False
  | PNever => True
  end.

Lemma resume_at_hpause f c s :
  is_Some (get_promise (HP f) s) →
  at_hpause f (until_pause false c).2 (resume (OHandler f) c s).
Proof.
  intros [st Hst]. unfold resume, exec. simpl.
  destruct (until_pause false c) as [ls [o|k h|k|]] eqn:Hp; simpl; [| | |done].
  - unfold settled_as. rewrite get_promise_settle.
    change (get_promise (HP f) (emits (OHandler f) ls s)) with (get_promise (HP f) s).
    rewrite Hst. destruct st as [rs|o']; [rewrite decide_True by done|]; by eexists.
  - by apply handler_no_handle in Hp.
  - split; [apply elem_of_app; right; apply list_elem_of_here | by exists st].
Qed.

(** The promise of a handler whose body halts settles. *)
Lemma handler_body_settles fns api f c :
  halts c → ∀ n, at_hpause f (until_pause false c).2 (after n fns api) →
  ∃ n' o, settled_as (HP f) (after n' fns api) = Some o.
Proof.
  induction c as [|e|l k IH|arg k IH|arg k hd IH IHh|k IH|k hd IH IHh|k IH|]
    using code_induction; simpl; intros Hh n Hat.
  - destruct Hat as [o Ho]. by exists n, o.
  - destruct Hat as [o Ho]. by exists n, o.
  - destruct (until_pause false k) as [ls p] eqn:Hk. exact (IH Hh n Hat).
  - destruct Hat as [o Ho]. by exists n, o.
  - destruct Hh as [_ Hh]. exact (IHh _ (Hh _) n Hat).
  - destruct Hat as [o Ho]. by exists n, o.
  - destruct Hh as [_ Hh]. exact (IHh _ (Hh _) n Hat).
  - destruct Hat as [Hin Hsome]. apply list_elem_of_lookup in Hin as [i Hi].
    destruct (steps_fifo _ _ _ Hi) as [q Hq]. rewrite <- after_add in Hq.
    apply (IH Hh (S (n + i))).
    rewrite after_S, (step_popped _ q) by done. cbn [run_job].
    apply resume_at_hpause.
    change (get_promise (HP f) (popped (after (n + i) fns api)))
      with (get_promise (HP f) (after (n + i) fns api)).
    rewrite after_add. by apply grows_steps.
  - done.
Qed.

Lemma finish_settles_target f err s :
  f < length (frames s) →
  ∃ o, settled_as (target f (finish f err s)) (finish f err s) = Some o.
Proof.
  intros Hlt. destruct (lookup_lt_is_Some_2 _ _ Hlt) as [fr Hfr].
  rewrite finish_settle, Hfr, target_settle, (target_read f s fr Hfr).
  set (t := match result fr with Some _ => TP f | None => IP f end).
  assert (is_Some (get_promise t s)) as [st Hst].
  { unfold t, get_promise. destruct (result fr); simpl; rewrite Hfr; by eexists. }
  unfold settled_as. rewrite get_promise_settle, Hst.
  destruct st as [rs|o]; [rewrite decide_True by done|]; by eexists.
Qed.

Lemma awaited_handler f o s :
  settled_as (HP f) s = Some o → awaited_state f s = Some (Settled o).
Proof.
  unfold settled_as, awaited_state.
  destruct (get_promise (HP f) s) as [[rs|o']|]; congruence.
Qed.

(** When the last frame calls a handler whose body halts, [finish] runs
    for that frame. *)
Lemma handler_settles fns api n f q fr :
  queue (after n fns api) = JCheck f :: q →
  frames (after n fns api) !! f = Some fr →
  after (S n) fns api = runRemaining f (popped (after n fns api)) →
  remaining fr = [] → fn_halts (apiRouteFn fr) →
  ∃ o m, ∀ n', m ≤ n' →
    settled_as (target f (after n' fns api)) (after n' fns api) = Some o.
Proof.
  intros Hq Hfr Hstep Hrem Hh.
  set (s := popped (after n fns api)) in *.
  assert (frames s !! f = Some fr) as Hfr' by done.
  assert (f < length (frames (after (S n) fns api))) as Hlt.
  { rewrite after_S. pose proof (frames_grow_step (after n fns api)).
    apply lookup_lt_Some in Hfr. lia. }
  assert (∀ n' o, settled_as (HP f) (after n' fns api) = Some o →
            ∃ o m, ∀ n'', m ≤ n'' →
              settled_as (target f (after n'' fns api)) (after n'' fns api) = Some o) as Hhp.
  { intros n' o Ho. exists (as_finished o).
    apply (awaited_reaches_finish fns api f o n'). by apply awaited_handler. }
  unfold runRemaining in Hstep. rewrite Hfr', Hrem in Hstep.
  destruct (apiRouteFn fr) as [c|c].
  - destruct (plain_run false c) as [ls [|e]] eqn:Hrun;
      rewrite (call_fn_plain (OHandler f) c _ ls _ Hrun) in Hstep.
    + apply (Hhp (S n) Fulfilled). rewrite Hstep, settled_as_subscribe.
      unfold settled_as. rewrite get_promise_settle, get_set_promise_eq, decide_True; try done.
      simpl. by apply lookup_lt_Some in Hfr.
    + destruct (finish_settles_target f (Some e)
                  (emit (EvThrew (OHandler f) e)
                     (emits (OHandler f) ls (emit (EvTerminal f) s)))) as [o Ho].
      { simpl. by apply lookup_lt_Some in Hfr. }
      rewrite <- Hstep in Ho. exists o, (S n). by apply finished_stays.
  - simpl in Hstep.
    set (s0 := set_promise (HP f) (Pending []) (emit (EvTerminal f) s)) in *.
    assert (is_Some (get_promise (HP f) s0)) as Hsome.
    { subst s0. rewrite get_set_promise_eq; [by eexists|]. simpl.
      by apply lookup_lt_Some in Hfr. }
    pose proof (resume_at_hpause f c s0 Hsome) as Hat.
    destruct (handler_body_settles fns api f c Hh (S n)) as (n' & o & Ho); [|by eapply Hhp].
    rewrite Hstep.
    destruct (until_pause false c) as [ls [o|k h|k|]]; simpl in *; [| done | | done].
    + by rewrite settled_as_subscribe.
    + destruct Hat as [Hin Hs]. split.
      * eapply elem_of_quiet; [apply quiet_subscribe | done].
      * by apply grows_subscribe.
Qed.

(** ** Every frame settles *)

Lemma frame_settles fns api :
  Forall fn_halts fns → fn_halts api →
  ∀ d f n, f + d = length fns → f < length (frames (after n fns api)) →
    ∃ o m, ∀ n', m ≤ n' → settled_as (IP f) (after n' fns api) = Some o.
Proof.
  intros Hall Hapi.
  assert (fns ≠ [] ∨ fns = []) as [Hne | ->] by (destruct fns; auto).
  2:{ intros d f n _ Hlt. rewrite after_empty, start_empty in Hlt. simpl in Hlt.
      assert (f = 0) as -> by lia. exists (Rejected not_callable), 0. intros n' _.
      by rewrite after_empty, start_empty. }
  induction d as [|d IH]; intros f n Hd Hlt.
  { pose proof (ci_le _ _ _ (call_inv_after n fns api Hne)). lia. }
  (* once the remainder has begun, [finish] runs for the frame *)
  assert ((∃ m, started f (after m fns api)) →
          ∃ o m, ∀ n', m ≤ n' →
            settled_as (target f (after n' fns api)) (after n' fns api) = Some o) as Hrem.
  { intros [m Hs]. destruct (decide (S f < length fns)) as [Hnext | Hlast].
    - pose proof (started_next fns api m f Hne Hs Hnext) as Hlt'.
      destruct (IH (S f) m ltac:(lia) Hlt') as (o & m1 & Hm1).
      exists (as_finished o).
      by apply (next_outcome_reaches_finish fns api f o m1), Hm1.
    - destruct (check_fired fns api f m Hne Hs) as (n1 & q & fr & Hq & Hfr & Hstep).
      destruct (static_at_lookup fns api _ f fr
                  (ci_statics _ _ _ (call_inv_after n1 fns api Hne)) Hfr)
        as (_ & Hdrop & Hapi').
      eapply handler_settles; [done | done | done | |].
      + rewrite Hdrop. apply drop_ge. lia.
      + by rewrite Hapi'. }
  destruct (lookup_lt_is_Some_2 fns f) as [g Hg]; [lia|].
  assert (fn_halts g) as Hh by (rewrite Forall_lookup in Hall; by eapply Hall).
  destruct g as [c|c].
  - destruct (plain_run true c) as [ls [|e]] eqn:Hrun.
    + destruct Hrem as (o & m & Hm).
      { destruct (sync_remainder_starts fns api n f c ls Hg Hrun Hlt) as [m Hm].
        exists m. by apply Hm. }
      exists o, m. intros n' Hn'. specialize (Hm n' Hn').
      by rewrite (target_sync fns api n' f c Hg) in Hm.
    + destruct (sync_created fns api n f c ls _ Hg Hrun Hlt)
        as (n0 & _ & _ & _ & _ & Hip & _).
      exists (Rejected e), n0. intros n' Hn'.
      replace n' with (n0 + (n' - n0)) by lia. rewrite after_add.
      apply settled_stays; [apply sig_inv_after | done | done].
  - destruct (body_outcome c) as [o1|] eqn:Hbody.
    + destruct (frame_created fns api n f c Hg Hlt) as (n0 & i & _ & _ & _ & Hrp & _).
      rewrite Hbody in Hrp. exists o1.
      apply (eventually_after fns api n0 (fun st => settled_as (IP f) st = Some o1)).
      eapply result_settled_delivered; [apply good_after | done].
    + destruct Hrem as (tp & m & Hm).
      { destruct (remainder_starts fns api n f c Hg Hlt) as [m Hm]; [by rewrite Hbody|].
        exists m. by apply Hm. }
      destruct (halts_runs_to true tp c Hh) as [o Ho]. exists o.
      destruct (async_created fns api n f c Hg Hlt) as (n0 & _ & Hlt0 & Hat & _).
      eapply (body_settles fns api f tp); [|done|done].
      exists (m + n). intros m' Hm'. specialize (Hm m' ltac:(lia)).
      rewrite (target_async fns api m' f c Hg) in Hm; [done|].
      replace m' with (n + (m' - n)) by lia. rewrite after_add.
      pose proof (frames_grow_steps (m' - n) (after n fns api)). lia.
Qed.

(** * Failing calls, at every position *)

(** [async () => { throw boom }]: its promise is rejected when the call
    returns. *)
Definition rejecting_mw : fn := AsyncFn (Throw boom).

(** C6, amended: the remainder of a frame, and with it the handler,
    begins only in the microtask that [run] queued after the call of the
    middleware returned without throwing, and only if the rejection
    callback has not run by then.  In particular, when the promise
    returned by the middleware at any position [f] is already rejected at
    the time its call returns, the remainder of its frame is never
    started: from some microtask on the calls of the whole run are the
    entries of positions [0] to [f] and no more, and the outcome of that
    frame is that rejection, and never anything else; for the first
    middleware this is the outcome of the chain, from the second
    microtask on. *)
Theorem remainder_waits_for_check_microtask :
  (∀ fns api n f,
     fns ≠ [] →
     started f (after (S n) fns api) → ¬ started f (after n fns api) →
     (∃ q, queue (after n fns api) = JCheck f :: q) ∧
     has_failed f (after n fns api) = false ∧
     EvEnter f ∈ log (after n fns api) ∧
     (∀ e, EvThrew (OMw f) e ∉ log (after n fns api))) ∧
  (∀ fns api f c ls e,
     fns !! f = Some (AsyncFn c) →
     until_pause true c = (ls, PDone (Rejected e)) →
     (∀ n, ¬ started f (after n fns api)) ∧
     (∀ n, f < length (frames (after n fns api)) →
        ∃ m, ∀ m', m ≤ m' →
          calls (log (after m' fns api)) = map EvEnter (seq 0 (S f)) ∧
          settled_as (IP f) (after m' fns api) = Some (Rejected e)) ∧
     (∀ n o, settled_as (IP f) (after n fns api) = Some o → o = Rejected e) ∧
     (f = 0 → ∀ n, 2 ≤ n → outcome_of (after n fns api) = Some (Rejected e))).
Proof.
  split.
  - intros. by apply remainder_begins_in_check.
  - intros fns api f c ls e Hf Hp.
    destruct (failed_call_stalls fns api f (AsyncFn c) ls e Hf Hp) as (H1 & H2 & H3).
    split; [done|]. split; [done|]. split; [done|].
    intros -> n Hn. destruct fns as [|g ms]; [done|]. simpl in Hf. injection Hf as ->.
    by apply (async_reject_run c ms api ls e).
Qed.

Lemma remainder_waits_for_check_microtask_witness :
  ((∃ q, queue (after 1 [late_throwing_mw] plain_handler) = JCheck 0 :: q) ∧
   has_failed 0 (after 1 [late_throwing_mw] plain_handler) = false) ∧
  ((∀ n, ¬ started 1 (after n [passing_mw; rejecting_mw; passing_mw] plain_handler)) ∧
   (∃ m, ∀ m', m ≤ m' →
      calls (log (after m' [passing_mw; rejecting_mw; passing_mw] plain_handler))
        = [EvEnter 0; EvEnter 1] ∧
      settled_as (IP 1) (after m' [passing_mw; rejecting_mw; passing_mw] plain_handler)
        = Some (Rejected boom))).
Proof.
  split.
  - destruct (proj1 remainder_waits_for_check_microtask [late_throwing_mw] plain_handler 1 0)
      as (H1 & H2 & _).
    + discriminate.
    + apply (bool_decide_unpack _). vm_compute. reflexivity.
    + apply (bool_decide_unpack _). vm_compute. reflexivity.
    + by split.
  - destruct (proj2 remainder_waits_for_check_microtask
                [passing_mw; rejecting_mw; passing_mw] plain_handler 1 (Throw boom) [] boom)
      as (H1 & H2 & _).
    + reflexivity.
    + reflexivity.
    + split; [exact H1|]. apply (H2 1). vm_compute. lia.
Defined.




(** C2, amended: if the middleware at position [k] throws during its own
    call, the remainder of its frame never begins: no middleware after it
    and no handler is ever invoked.  The chain's outcome is the failure
    with the thrown value when that value is truthy (or [k] is 0) and
    every middleware before position [k] lets the failure pass: it
    returned no promise, or it is an [async] function whose promise is
    not rejected when its call returns and whose body ends by throwing
    the value when its handle is rejected with it, as one that awaits the
    handle outside of a [try] does.  When all the middleware before [k]
    returned no promise, this is so after twice [k] microtasks. *)
Theorem sync_throw_short_circuits :
  (∀ fns api n k e,
     fns ≠ [] →
     EvThrew (OMw k) e ∈ log (after n fns api) →
     ∀ m, n ≤ m → calls (log (after m fns api)) = map EvEnter (seq 0 (S k))) ∧
  (∀ fns api k c ls e,
     fns !! k = Some (SyncFn c) →
     plain_run true c = (ls, Rejected e) →
     (∀ n, ¬ started k (after n fns api)) ∧
     (Forall (fun g => lets_failure_pass e g = true) (take k fns) →
      k = 0 ∨ truthy e = true →
      ∃ m, ∀ n, m ≤ n →
        calls (log (after n fns api)) = map EvEnter (seq 0 (S k)) ∧
        outcome_of (after n fns api) = Some (Rejected e))) ∧
  (∀ pre c post api ls e,
     Forall (fun g => returns_plainly g = true) pre →
     plain_run true c = (ls, Rejected e) →
     pre = [] ∨ truthy e = true →
     ∀ n, 2 * length pre ≤ n →
       outcome_of (after n (pre ++ SyncFn c :: post) api) = Some (Rejected e)).
Proof.
  split; [|split].
  - intros. by eapply sync_throw_ends_calls.
  - intros fns api k c ls e Hk Hrun.
    destruct (failed_call_stalls fns api k (SyncFn c) ls e Hk) as (H1 & H2 & _).
    { simpl. by apply plain_run_pause. }
    split; [done|]. intros Hpre He.
    assert (∀ j g, j < k → fns !! j = Some g → lets_failure_pass e g = true) as Hpre'.
    { intros j g Hj Hg. rewrite Forall_lookup in Hpre. apply (Hpre j).
      by rewrite lookup_take_lt. }
    assert (k < length fns) as Hlen by (by eapply lookup_lt_Some).
    destruct (prefix_created fns api e k Hpre' Hlen) as [nk Hnk].
    destruct (H2 nk Hnk) as [m1 Hm1].
    destruct (failure_passes_up fns api k c ls e Hk Hrun Hpre' He k 0 eq_refl) as [m2 Hm2].
    exists (m1 + m2). intros n Hn. split.
    + apply Hm1. lia.
    + rewrite outcome_of_settled. apply Hm2. lia.
  - intros. by eapply plain_prefix_then_throw.
Qed.

Lemma sync_throw_short_circuits_witness :
  (∀ n, ¬ started 2 (after n [awaiting_mw; passing_mw; throwing_mw; passing_mw] plain_handler)) ∧
  (∃ m, ∀ n, m ≤ n →
     calls (log (after n [awaiting_mw; passing_mw; throwing_mw; passing_mw] plain_handler))
       = [EvEnter 0; EvEnter 1; EvEnter 2] ∧
     outcome_of (after n [awaiting_mw; passing_mw; throwing_mw; passing_mw] plain_handler)
       = Some (Rejected boom)) ∧
  outcome_of (after 7 [passing_mw; throwing_mw; passing_mw] plain_handler)
    = Some (Rejected boom).
Proof.
  destruct (proj1 (proj2 sync_throw_short_circuits)
              [awaiting_mw; passing_mw; throwing_mw; passing_mw] plain_handler 2
              (SThrow boom) [] boom) as [H1 H2].
  - reflexivity.
  - reflexivity.
  - split; [exact H1|]. split.
    + apply H2.
      * repeat constructor.
      * right. reflexivity.
    + apply (proj2 (proj2 sync_throw_short_circuits)
               [passing_mw] (SThrow boom) [passing_mw] plain_handler [] boom).
      * repeat constructor.
      * reflexivity.
      * right. reflexivity.
      * simpl. lia.
Defined.

(** * The frame of an asynchronous middleware *)




(** C4, amended: the teardown signal of a frame is released only after
    the remainder of that frame has settled: as success when the
    remainder succeeded, as the same failure when it failed with a truthy
    error.  A middleware that awaits the handle returned by the
    continuation resumes, and so does its post-work, only once the handle
    is settled, with the handle's outcome.  The remainder of a frame is
    the outcome of the next frame, or for the last frame what the handler
    returned or threw.  When no later middleware lets its frame settle
    ahead of its own remainder (each returned no promise, or is an
    [async] function suspended at [await next()] when its call returns),
    the whole rest of the chain has settled by the time the teardown of
    an asynchronous middleware is released: every later frame has its
    outcome, and the handler, if it was invoked, has completed. *)
Theorem teardown_follows_remainder (fns : list fn) (api : fn) (n f : nat) :
  (∀ o, settled_as (TP f) (after n fns api) = Some o →
        ∃ o0, remainder_outcome f o0 (after n fns api) ∧
          (o0 = Fulfilled → o = Fulfilled) ∧
          (∀ e, o0 = Rejected e → truthy e = true → o = Rejected e)) ∧
  (∀ k h o, JReact (RHandle f k h) o ∈ queue (after n fns api) →
            settled_as (TP f) (after n fns api) = Some o) ∧
  (∀ p rs k h, get_promise p (after n fns api) = Some (Pending rs) →
               RHandle f k h ∈ rs → p = TP f) ∧
  (∀ c, fns !! f = Some (AsyncFn c) →
        Forall (fun g => holds_for_remainder g = true) (drop (S f) fns) →
        is_Some (settled_as (TP f) (after n fns api)) →
        (∀ g, f < g → g < length (frames (after n fns api)) →
              is_Some (settled_as (IP g) (after n fns api))) ∧
        (∀ t, EvTerminal t ∈ log (after n fns api) →
              (∃ o0, EvSettled (HP t) o0 ∈ log (after n fns api)) ∨
              (∃ e, EvThrew (OHandler t) e ∈ log (after n fns api)))).
Proof.
  pose proof (rem_inv_after n fns api) as [H1 H2 H3 H4 H5].
  split; [|split; [by apply H3|split]].
  - intros o Ho. destruct (H1 f o Ho) as (o0 & Hrem & ->). exists o0.
    split; [done|]. split; [by intros ->|].
    intros e -> He. simpl. by rewrite He.
  - intros p rs k h Hp Hr. by apply (H4 _ _ _ Hp Hr).
  - intros c Hf Hall [o Ho].
    assert (∀ g m, f < g → fns !! g = Some m → holds_for_remainder m = true) as Hall'.
    { intros g m Hg Hm. rewrite Forall_lookup in Hall. apply (Hall (g - S f)).
      rewrite lookup_drop. by replace (S f + (g - S f)) with g by lia. }
    assert (f < length (frames (after n fns api))) as Hlt.
    { unfold settled_as in Ho.
      destruct (get_promise (TP f) (after n fns api)) as [st|] eqn:Hst; [|done].
      by apply get_promise_lt in Hst. }
    split.
    + intros g Hg Hlen.
      destruct (downstream_settled fns api n f Hall') with (d := g - S f) as [o' Ho'].
      * exists o. by rewrite (target_async fns api n f c Hf Hlt).
      * by replace (f + S (g - S f)) with g by lia.
      * replace (f + S (g - S f)) with g in Ho' by lia. by exists o'.
    + eapply downstream_handler; [done | done | by exists o].
Qed.

Lemma teardown_follows_remainder_witness :
  (∀ g, 0 < g → g < length (frames (after 10 [awaiting_mw; passing_mw; awaiting_mw] slow_handler)) →
        is_Some (settled_as (IP g) (after 10 [awaiting_mw; passing_mw; awaiting_mw] slow_handler))) ∧
  (∀ t, EvTerminal t ∈ log (after 10 [awaiting_mw; passing_mw; awaiting_mw] slow_handler) →
        (∃ o0, EvSettled (HP t) o0
                 ∈ log (after 10 [awaiting_mw; passing_mw; awaiting_mw] slow_handler)) ∨
        (∃ e, EvThrew (OHandler t) e
                ∈ log (after 10 [awaiting_mw; passing_mw; awaiting_mw] slow_handler))).
Proof.
  apply (proj2 (proj2 (proj2
           (teardown_follows_remainder [awaiting_mw; passing_mw; awaiting_mw] slow_handler 10 0)))
           (AwaitNext (Emit "post" Return) None)).
  - reflexivity.
  - repeat constructor.
  - exists Fulfilled. reflexivity.
Defined.

(** * Single settlement, on the executor's side *)

(** ** Which operations call [resolve] or [reject] *)

Lemma signals_same p s s' : log s' = log s → signals p (log s') = signals p (log s).
Proof. by intros ->. Qed.

Lemma signals_emit p e s :
  signal_of p e = None → signals p (log (emit e s)) = signals p (log s).
Proof. intros H. simpl. rewrite signals_app. simpl. by rewrite H, app_nil_r. Qed.

Lemma signals_emits p w ls s : signals p (log (emits w ls s)) = signals p (log s).
Proof.
  simpl. rewrite signals_app.
  assert (signals p (map (EvEmit w) ls) = []) as ->; [|by rewrite app_nil_r].
  induction ls; simpl; done.
Qed.

Lemma signals_settle q p o s :
  signals q (log (settle p o s)) =
    signals q (log s) ++
      if decide (p = q) then match get_promise p s with Some _ => [o] | None => [] end
      else [].
Proof.
  unfold settle. destruct (get_promise p s) as [[rs|o']|]; simpl;
    rewrite ?signals_app; simpl; case_decide; simpl; by rewrite ?app_nil_r, <- ?app_assoc.
Qed.

Lemma signals_settle_ne q p o s :
  p ≠ q → signals q (log (settle p o s)) = signals q (log s).
Proof. intros H. by rewrite signals_settle, decide_False, app_nil_r. Qed.

Lemma log_subscribe p r s : log (subscribe p r s) = log s.
Proof. unfold subscribe. by destruct (get_promise p s) as [[rs|o]|]. Qed.

Lemma signals_exec p w c s : signals p (log (exec w c s).1) = signals p (log s).
Proof.
  unfold exec. destruct (until_pause (is_mw w) c) as [ls [o|k h|k|]]; simpl fst.
  - apply signals_emits.
  - rewrite log_subscribe. apply signals_emits.
  - apply (signals_emits p w ls s).
  - apply signals_emits.
Qed.

Lemma signals_resume p w c s :
  p ≠ result_of w → signals p (log (resume w c s)) = signals p (log s).
Proof.
  intros H. unfold resume. pose proof (signals_exec p w c s) as He.
  destruct (exec w c s) as [s' [o|]]; simpl in He; [|done].
  by rewrite signals_settle_ne.
Qed.

Lemma signals_call_fn p w g s :
  p ≠ result_of w → signals p (log (call_fn w g s).1) = signals p (log s).
Proof.
  intros H. destruct g as [c|c]; simpl.
  - pose proof (signals_exec p w (lift c) s) as He.
    by destruct (exec w (lift c) s) as [s' [[|e]|]].
  - by rewrite signals_resume.
Qed.

Lemma signals_finish p g err s :
  p ≠ TP g → p ≠ IP g → signals p (log (finish g err s)) = signals p (log s).
Proof.
  intros H1 H2. rewrite finish_settle. destruct (frames s !! g) as [fr|]; [|done].
  destruct (result fr); by apply signals_settle_ne.
Qed.

Lemma signals_run p g s :
  p ≠ RP g → p ≠ IP g → signals p (log (run g s)) = signals p (log s).
Proof.
  intros H1 H2. unfold run, fail. destruct (frames s !! g) as [fr|]; [|done].
  destruct (currentFn fr) as [m|]; [|by apply signals_settle_ne].
  pose proof (signals_call_fn p (OMw g) m (emit (EvEnter g) s) H1) as Hc.
  rewrite signals_emit in Hc by done.
  destruct (call_fn (OMw g) m (emit (EvEnter g) s)) as [s1 [isp|e]]; simpl in Hc.
  - simpl. destruct isp; [by rewrite log_subscribe | done].
  - rewrite signals_settle_ne by done. by rewrite signals_emit.
Qed.

Lemma signals_runRemaining p g s :
  p ≠ TP g → p ≠ IP g → p ≠ HP g →
  p ≠ RP (length (frames s)) → p ≠ IP (length (frames s)) →
  signals p (log (runRemaining g s)) = signals p (log s).
Proof.
  intros H1 H2 H3 H4 H5. unfold runRemaining.
  destruct (frames s !! g) as [fr|]; [|done].
  destruct (remaining fr) as [|m ms].
  - pose proof (signals_call_fn p (OHandler g) (apiRouteFn fr)
                  (emit (EvTerminal g) s) H3) as Hc.
    rewrite signals_emit in Hc by done.
    destruct (call_fn (OHandler g) (apiRouteFn fr) (emit (EvTerminal g) s))
      as [s1 [[|]|e]]; simpl in Hc.
    + by rewrite log_subscribe.
    + by rewrite log_subscribe, signals_settle_ne.
    + rewrite signals_finish by done. by rewrite signals_emit.
  - by rewrite log_subscribe, signals_run.
Qed.

Lemma signals_run_own g s :
  signals (IP g) (log (run g s)) = signals (IP g) (log s) ∨
  ∃ o, signals (IP g) (log (run g s)) = signals (IP g) (log s) ++ [o].
Proof.
  unfold run, fail. destruct (frames s !! g) as [fr|]; [|by left].
  destruct (currentFn fr) as [m|].
  - pose proof (signals_call_fn (IP g) (OMw g) m (emit (EvEnter g) s)) as Hc.
    rewrite signals_emit in Hc by done.
    destruct (call_fn (OMw g) m (emit (EvEnter g) s)) as [s1 [isp|e]]; simpl in Hc.
    + left. simpl. destruct isp; [rewrite log_subscribe|]; by apply Hc.
    + rewrite signals_settle, decide_True, signals_emit, Hc by done.
      destruct (get_promise _ _); [right; by eexists | left; by rewrite app_nil_r].
  - rewrite signals_settle, decide_True by done.
    destruct (get_promise _ _); [right; by eexists | left; by rewrite app_nil_r].
Qed.

(** A microtask calls [resolve] or [reject] of the outcome of a frame at
    most once, and only while that outcome is pending. *)
Lemma signal_step fns api f s :
  fns ≠ [] → good fns api s → wait_inv s →
  signals (IP f) (log (step s)) = signals (IP f) (log s) ∨
  (settled_as (IP f) s = None ∧
   ∃ o, signals (IP f) (log (step s)) = signals (IP f) (log s) ++ [o]).
Proof.
  intros Hne Hg Hw.
  destruct (queue s) as [|j q] eqn:Hq; [left; by rewrite step_quiescent|].
  rewrite (step_popped j q) by done.
  assert (∀ p o s', log s' = log s → settled_as p s = None →
            signals p (log (settle p o s')) = signals p (log s) ∨
            (settled_as p s = None ∧
             ∃ o', signals p (log (settle p o s')) = signals p (log s) ++ [o'])) as Hsettle.
  { intros p o s' Hl Hnone. rewrite signals_settle, decide_True, Hl by done.
    destruct (get_promise p s'); [right; split; [done | by eexists] | left; by rewrite app_nil_r]. }
  destruct j as [g|r o|w k]; cbn [run_job].
  - destruct (has_failed g (popped s)); [by left|].
    assert (S g = length (frames s)) as Hlast.
    { eapply check_last; [by apply (good_call _ _ _ Hg)|]. rewrite Hq. apply list_elem_of_here. }
    unfold runRemaining. change (frames (popped s)) with (frames s).
    destruct (frames s !! g) as [fr|] eqn:Hfr; [|by left].
    destruct (remaining fr) as [|m ms].
    + pose proof (signals_call_fn (IP f) (OHandler g) (apiRouteFn fr)
                    (emit (EvTerminal g) (popped s))) as Hc.
      rewrite signals_emit in Hc by done.
      pose proof (grows_call_fn (OHandler g) (apiRouteFn fr)
                    (emit (EvTerminal g) (popped s))) as Hgrow.
      pose proof (settled_as_call_fn (IP f) (OHandler g) (apiRouteFn fr)
                    (emit (EvTerminal g) (popped s))) as Hsame.
      destruct (call_fn (OHandler g) (apiRouteFn fr) (emit (EvTerminal g) (popped s)))
        as [s1 [[|]|e]]; simpl in Hc, Hgrow, Hsame.
      * left. rewrite log_subscribe. by apply Hc.
      * left. rewrite log_subscribe, signals_settle_ne by done. by apply Hc.
      * rewrite finish_settle. cbn [frames emit].
        destruct (frames s1 !! g) as [fr'|] eqn:Hfr'; [|left; rewrite signals_emit; auto].
        destruct (result fr') eqn:Hres.
        { left. rewrite signals_settle_ne, signals_emit by done. by apply Hc. }
        destruct (decide (f = g)) as [->|Hne'].
        2:{ left. rewrite signals_settle_ne by congruence. rewrite signals_emit by done.
            by apply Hc. }
        assert (settled_as (IP g) s = None) as Hnone.
        { destruct (Hw g) as (_ & Hcheck & _).
          destruct Hcheck as [_ Ht]; [rewrite Hq; apply list_elem_of_here|].
          assert (target g s = IP g) as Htg; [|by rewrite Htg in Ht].
          unfold target. destruct (get_promise (RP g) s) as [st|] eqn:Hrp; [|done].
          destruct (Hgrow (RP g)) as [st' Hst']; [by eexists|].
          unfold get_promise in Hst'. simpl in Hst'. rewrite Hfr' in Hst'. simpl in Hst'.
          congruence. }
        rewrite signals_settle, decide_True, signals_emit, Hc by done.
        destruct (get_promise _ _); [right; split; [done | by eexists] | left; by rewrite app_nil_r].
    + rewrite log_subscribe.
      set (s1 := set_frames _ (popped s)).
      destruct (decide (f = length (frames s))) as [->|Hne'].
      * destruct (signals_run_own (length (frames s)) s1) as [H | [o' H]]; [by left|].
        right. split; [|by exists o'].
        unfold settled_as, get_promise. simpl. by rewrite lookup_ge_None_2.
      * left. by rewrite signals_run by congruence.
  - destruct r as [g|g|g k h].
    + destruct (decide (g = f)) as [->|Hne'].
      * assert (settled_as (IP f) s = None) as Hnone.
        { pose proof (good_async _ _ _ Hg f) as Hok. unfold async_ok in Hok.
          rewrite Hq, res_jobs_cons, decide_True in Hok by done.
          destruct (get_promise (RP f) s) as [[rs|o']|].
          - by destruct Hok as (_ & _ & ? & _).
          - by destruct Hok as (_ & [[_ ?] | [? _]]).
          - by destruct Hok as [_ ?]. }
        destruct o as [|e]; cbn [react]; unfold succeed, fail; by apply Hsettle.
      * left. destruct o as [|e]; cbn [react]; unfold succeed, fail;
          by rewrite signals_settle_ne by congruence.
    + rewrite react_remaining.
      destruct (decide (g = f)) as [->|Hne']; [|left; by rewrite signals_finish by congruence].
      rewrite finish_settle. change (frames (popped s)) with (frames s).
      destruct (frames s !! f) as [fr|] eqn:Hfr; [|by left].
      destruct (result fr) eqn:Hres; [left; by rewrite signals_settle_ne|].
      apply Hsettle; [done|].
      destruct (Hw f) as (_ & _ & Hm).
      rewrite Hq, rr_jobs_cons, decide_True in Hm by done.
      rewrite (target_read f s fr Hfr), Hres in Hm.
      destruct (awaited_state f s) as [[rs|o']|]; [by destruct Hm as (_ & ? & _) | | done].
      by destruct Hm as [[_ ?] | (_ & ? & _)].
    + left. destruct o as [|e]; cbn [react]; [by rewrite signals_resume|].
      destruct h; [by rewrite signals_resume | by rewrite signals_settle_ne].
  - left. rewrite signals_resume; [done|]. by destruct w.
Qed.

(** On every run [resolve] or [reject] of the outcome of a frame is
    called at most once: no later signal is ever raised. *)
Lemma signalled_once fns api f n :
  length (signals (IP f) (log (after n fns api))) ≤ 1.
Proof.
  assert (fns ≠ [] ∨ fns = []) as [Hne | ->] by (destruct fns; auto).
  2:{ rewrite after_empty, start_empty. simpl. repeat case_decide; simpl; lia. }
  induction n as [|n IH].
  - unfold after. simpl. unfold start.
    destruct (signals_run_own 0 (mkState [new_Executor fns api] [] [])) as [H | [o H]];
      destruct (decide (f = 0)) as [->|Hf].
    + rewrite H. simpl. lia.
    + rewrite signals_run by congruence. simpl. lia.
    + rewrite H. simpl. lia.
    + rewrite signals_run by congruence. simpl. lia.
  - rewrite after_S.
    destruct (signal_step fns api f (after n fns api) Hne (good_after _ _ _)
                (wait_inv_after _ _ _)) as [-> | (Hnone & o & ->)]; [done|].
    destruct (sig_inv_after n fns api (IP f) eq_refl) as [_ Hhead].
    rewrite Hnone in Hhead.
    destruct (signals (IP f) (log (after n fns api))); [simpl; lia | done].
Qed.

(** [async () => { await new Promise(() => {}) }]: its promise never
    settles. *)
Definition hanging_mw : fn := AsyncFn AwaitNever.

(** C3, refuted as stated: the only middleware returns a promise that
    never settles.  The handler is invoked and returns, the teardown is
    released, the queue runs empty, and the chain's outcome is never
    settled: not once. *)
Lemma pending_middleware_never_settles :
  (∀ n, outcome_of (after n [hanging_mw] plain_handler) = None) ∧
  (∀ n, settlements (IP 0) (log (after n [hanging_mw] plain_handler)) = []) ∧
  queue (after 2 [hanging_mw] plain_handler) = [] ∧
  terminal_calls (log (after 2 [hanging_mw] plain_handler)) = 1 ∧
  settled_as (TP 0) (after 2 [hanging_mw] plain_handler) = Some Fulfilled.
Proof.
  assert (∀ n, 2 ≤ n →
            after n [hanging_mw] plain_handler = after 2 [hanging_mw] plain_handler) as Hrest.
  { intros n Hn. replace n with (2 + (n - 2)) by lia.
    rewrite after_add. by apply steps_quiescent. }
  split; [|split; [|by vm_compute]].
  - intros n. destruct (decide (2 ≤ n)) as [Hn|Hn]; [by rewrite Hrest|].
    destruct n as [|[|n]]; [done | done | lia].
  - intros n. destruct (decide (2 ≤ n)) as [Hn|Hn]; [by rewrite Hrest|].
    destruct n as [|[|n]]; [done | done | lia].
Qed.

(** C3, amended: the outcome of every frame, and so of the chain,
    settles at most once on every run: [resolve] or [reject] of it is
    called at most once, the promise settles at that signal, with the
    outcome of that signal, and once settled the outcome never changes.
    It settles exactly once, for the chain and for every frame that was
    created, on every run in which the bodies of the middleware and of
    the handler halt, that is in which none of them awaits a promise that
    never settles. *)
Theorem outcome_settles_once (fns : list fn) (api : fn) (f : nat) :
  (∀ n,
     settlements (IP f) (log (after n fns api))
       = take 1 (signals (IP f) (log (after n fns api))) ∧
     settled_as (IP f) (after n fns api) = head (signals (IP f) (log (after n fns api))) ∧
     length (signals (IP f) (log (after n fns api))) ≤ 1) ∧
  (∀ n m o, n ≤ m →
     settled_as (IP f) (after n fns api) = Some o →
     settled_as (IP f) (after m fns api) = Some o) ∧
  (Forall fn_halts fns → fn_halts api →
   (∃ o m, ∀ n, m ≤ n →
      outcome_of (after n fns api) = Some o ∧
      settlements (IP 0) (log (after n fns api)) = [o]) ∧
   (∀ n, f < length (frames (after n fns api)) →
      ∃ o m, ∀ n', m ≤ n' →
        settled_as (IP f) (after n' fns api) = Some o ∧
        settlements (IP f) (log (after n' fns api)) = [o])).
Proof.
  assert (∀ g n o, settled_as (IP g) (after n fns api) = Some o →
            settlements (IP g) (log (after n fns api)) = [o]) as Hexact.
  { intros g n o Ho. destruct (sig_inv_after n fns api (IP g) eq_refl) as [H1 H2].
    rewrite H1. rewrite H2 in Ho.
    by destruct (signals (IP g) (log (after n fns api))) as [|o' l]; simplify_eq/=. }
  split; [|split].
  - intros n. destruct (sig_inv_after n fns api (IP f) eq_refl) as [H1 H2].
    split; [done|]. split; [done | apply signalled_once].
  - intros n m o Hm Ho. replace m with (n + (m - n)) by lia. rewrite after_add.
    apply settled_stays; [apply sig_inv_after | done | done].
  - intros Hall Hapi.
    assert (∀ g n, g < length (frames (after n fns api)) →
              ∃ o m, ∀ n', m ≤ n' →
                settled_as (IP g) (after n' fns api) = Some o ∧
                settlements (IP g) (log (after n' fns api)) = [o]) as Hlive.
    { intros g n Hlt.
      assert (g < length fns ∨ fns = []) as [Hg | ->].
      { destruct fns as [|g0 ms]; [by right|]. left.
        pose proof (ci_le _ _ _ (call_inv_after n (g0 :: ms) api ltac:(done))). lia. }
      - destruct (frame_settles fns api Hall Hapi (length fns - g) g n ltac:(lia) Hlt)
          as (o & m & Hm).
        exists o, m. intros n' Hn'. split; [by apply Hm | by apply Hexact, Hm].
      - rewrite after_empty, start_empty in Hlt. simpl in Hlt. assert (g = 0) as -> by lia.
        exists (Rejected not_callable), 0. intros n' _.
        split; [|apply Hexact]; by rewrite after_empty, start_empty. }
    split; [|by apply Hlive].
    destruct (Hlive 0 0) as (o & m & Hm).
    { destruct fns as [|g0 ms]; [by rewrite after_empty, start_empty; simpl; lia|].
      apply (ci_pos _ _ _ (call_inv_after 0 (g0 :: ms) api ltac:(done))). }
    exists o, m. intros n Hn. rewrite outcome_of_settled. by apply Hm.
Qed.

Lemma outcome_settles_once_witness :
  (∃ o m, ∀ n, m ≤ n →
     outcome_of (after n [catching_mw; late_throwing_mw; passing_mw] slow_handler) = Some o ∧
     settlements (IP 0) (log (after n [catching_mw; late_throwing_mw; passing_mw] slow_handler))
       = [o]) ∧
  (∃ o m, ∀ n', m ≤ n' →
     settled_as (IP 1) (after n' [catching_mw; late_throwing_mw; passing_mw] slow_handler)
       = Some o ∧
     settlements (IP 1)
       (log (after n' [catching_mw; late_throwing_mw; passing_mw] slow_handler)) = [o]).
Proof.
  destruct (proj2 (proj2 (outcome_settles_once
              [catching_mw; late_throwing_mw; passing_mw] slow_handler 1))) as [H1 H2].
  - repeat constructor.
  - repeat constructor.
  - split; [exact H1|]. apply (H2 1). vm_compute. lia.
Defined.
